(** * Electrical design and BOM engine: shallow embedding and properties

    The TypeScript sources are embedded as Rocq functions, one module per
    source file, followed by one module of facts per source module:

    - [Js]         : the JavaScript operations used by the sources
    - [Binary64]   : the IEEE 754 binary64 operations, on the reals
    - [Types]      : types.ts (the records read by the engine)
    - [Standards]  : services/standardsService   (protective-device tables)
    - [Sizing]     : services/electricalSizing   (voltage drop, section and
                                                  breaker pickers)
    - [Sizing64]   : the DC helpers of services/electricalSizing, in
                     binary64 arithmetic
    - [Compat]     : services/compatibilityService
                                                 (checkElectricalCompatibility)
    - [Compat64]   : checkElectricalCompatibility in binary64 arithmetic
    - [Calculator] : services/calculatorService  (getPanelCount,
                                                  calculateVoltageDropPercent,
                                                  rails, AC and DC cable lines)
    - [App]        : App.tsx (mergeCableCoilsInBOM, the compatibilityReport
                     memo, the AC liaison, the bill of materials of the
                     fields, the rebalancing of the configured strings)
    - [ExportGate] : components/BillOfMaterials (the DC part of the export
                     gate, in binary64 arithmetic)
    - [JsFacts], [StandardsFacts], [SizingFacts], [CompatFacts], [AppFacts]
    - [JsMore], [StandardsMore], [SizingMore], [CompatMore],
      [CalculatorMore], [AppMore], [ExportGateMore]: further properties
    - [Binary64Facts], [Binary64Eval], [Sizing64Facts], [Compat64Facts]:
      rounding, and the properties that rest on computed values

    Numbers.  A JavaScript [number] is a real number, [Math.sqrt] is [sqrt]
    and the comparison operators are the boolean tests of [Js].  The
    arithmetic of the source is read in two ways.  [Sizing], [Compat],
    [Calculator] and [App] read it on the reals, with exact results: they
    carry the structural and algebraic properties (formulas, monotonicity,
    conservation of sums).  [Sizing64], [Compat64] and [ExportGate] read the
    same source text with the operations of [Binary64], each result rounded to
    the nearest binary64 number as the engine computes it: they carry the
    properties in which a computed value meets a threshold, [Math.ceil] or
    [toFixed], where the last bit decides.  NaN, the infinities and overflow
    are outside both readings.  Strings are [string]; template-literal
    messages are kept as tagged values carrying the interpolated numbers.
    [Math.random] is an explicit sequence of draws handed to the one function
    that calls it. *)

From Stdlib Require Import Reals Lra Lia List String Ascii Bool Arith Sorted.
From Stdlib Require Import DecimalString.
Import ListNotations.

Open Scope R_scope.

(** ** JavaScript numbers *)

Module Js.

Abbreviation number := R.

(** [x > y], [x < y], [x >= y], [x <= y], [x === y] on numbers. *)
Definition gtb (x y : number) : bool := if Rlt_dec y x then true else false.
Definition ltb (x y : number) : bool := if Rlt_dec x y then true else false.
Definition geb (x y : number) : bool := if Rle_dec y x then true else false.
Definition leb (x y : number) : bool := if Rle_dec x y then true else false.
Definition eqb (x y : number) : bool := if Req_dec_T x y then true else false.

(** [x || d] on a number: [0] is the only falsy real. *)
Definition orElse (x d : number) : number := if Req_dec_T x 0 then d else x.

(** [Math.max(a, b)]. *)
Definition max (a b : number) : number := if Rle_dec a b then b else a.

(** [Math.floor], [Math.ceil] and [Math.round] (halves go up), as reals. *)
Definition floor (x : number) : number := IZR (Int_part x).
Definition ceil (x : number) : number := - IZR (Int_part (- x)).
Definition round (x : number) : number := IZR (Int_part (x + / 2)).

(** [parseFloat(x.toFixed(digits))]: [x] rounded to [digits] decimals, halves
    away from zero. *)
Definition toFixed (digits : nat) (x : number) : number :=
  let scale := 10 ^ digits in
  if Rlt_dec x 0 then - (round (- x * scale) / scale)
  else round (x * scale) / scale.

(** [s.includes(sub)] and [s.startsWith(sub)] on strings. *)
Fixpoint includes (s sub : string) : bool :=
  match s with
  | EmptyString => String.prefix sub EmptyString
  | String _ rest => String.prefix sub s || includes rest sub
  end.

Definition startsWith (s sub : string) : bool := String.prefix sub s.

(** Property lookup [map[k]] in an object literal with numeric keys. *)
Fixpoint lookup {A : Type} (m : list (number * A)) (k : number) : option A :=
  match m with
  | [] => None
  | (k', v) :: rest => if Req_dec_T k k' then Some v else lookup rest k
  end.

End Js.

(** ** IEEE 754 binary64 arithmetic

    The finite values of a JavaScript [number] are the dyadic reals
    [m * 2^e] with [|m| < 2^53] and [-1074 <= e]; every arithmetic operation
    returns the exact result rounded to the nearest of them, halves to the
    one with an even [m].  [Math.floor], [Math.ceil], [Math.round],
    [Math.max] and the comparisons are exact on these values, so they are
    those of [Js].  Overflow to an infinity (results at or beyond [2^1024])
    and NaN are outside the model. *)

Module Binary64.
Import Js.

(** [2^e] for an integer exponent. *)
Definition pow2 (e : Z) : R :=
  match e with
  | Z0 => 1
  | Zpos p => IZR (Z.pow_pos 2 p)
  | Zneg p => / IZR (Z.pow_pos 2 p)
  end.

(** The dyadic number [m * 2^e]. *)
Definition dy (m e : Z) : R := IZR m * pow2 e.

(** Rounding to the nearest integer, halves to the even one. *)
Definition rne (y : R) : Z :=
  let f := Int_part y in
  let d := y - IZR f in
  if Rlt_dec d (/ 2) then f
  else if Rlt_dec (/ 2) d then (f + 1)%Z
  else if Z.even f then f else (f + 1)%Z.

(** The exponent of the last place of [x]: 52 binary places below the
    leading bit of [x], and [-1074] on the subnormal range. *)
Definition exponent (x : R) : Z :=
  (Z.max (Z.log2 (Int_part (Rabs x * pow2 1074)) - 52) 0 - 1074)%Z.

(** Round to nearest, ties to even: the binary64 number an operation whose
    exact result is [x] returns. *)
Definition fl (x : R) : number :=
  IZR (rne (x * pow2 (- exponent x))) * pow2 (exponent x).

(** [a + b], [a - b], [a * b] and [a / b] on numbers. *)
Definition add (a b : number) : number := fl (a + b).
Definition sub (a b : number) : number := fl (a - b).
Definition mul (a b : number) : number := fl (a * b).
Definition div (a b : number) : number := fl (a / b).

(** A decimal literal of the source text: the nearest binary64 number.
    Whole literals below [2^53] are exact and written as they are. *)
Definition lit (x : R) : number := fl x.

(** [parseFloat(x.toFixed(digits))]: the decimal rendering of [x] is exact,
    reading it back rounds. *)
Definition parseFixed (digits : nat) (x : number) : number :=
  fl (toFixed digits x).

End Binary64.

(** The four operations, written as in the source with a dot. *)
Module Binary64Notations.
Infix "+." := Binary64.add (at level 50, left associativity).
Infix "-." := Binary64.sub (at level 50, left associativity).
Infix "*." := Binary64.mul (at level 40, left associativity).
Infix "/." := Binary64.div (at level 40, left associativity).
End Binary64Notations.

Arguments Binary64.fl : simpl never.
Arguments Binary64.add : simpl never.
Arguments Binary64.sub : simpl never.
Arguments Binary64.mul : simpl never.
Arguments Binary64.div : simpl never.
Arguments Binary64.lit : simpl never.
Arguments Binary64.parseFixed : simpl never.


(** ** types.ts

    Only the fields read by the embedded functions are kept (geometry,
    media links and pricing codes of panels and roofs are not).  An MPPT
    index and a string count are natural numbers. *)

Module Types.
Import Js.

Record PanelElectricalSpecs := mkPanelElectricalSpecs {
  voc : number;
  isc : number;
  vmp : number;
  imp : number;
  tempCoeffVoc : option number;
  tempCoeffPmax : option number
}.

Record Panel := mkPanel {
  panel_name : string;
  panel_power : number;
  panel_electrical : option PanelElectricalSpecs
}.

Record PanelConfig := mkPanelConfig {
  model : Panel;
  rows : number;
  columns : number;
  rowConfiguration : option (list number)
}.

Record RoofField := mkRoofField {
  field_id : string;
  field_name : string;
  panels : PanelConfig
}.

Record ConfiguredString := mkConfiguredString {
  cs_id : string;
  cs_fieldId : string;
  cs_panelCount : number;
  cs_mpptIndex : nat
}.

Record DcCablingRun := mkDcCablingRun {
  run_mpptIndex : nat;
  run_lengthM : number;
  run_sectionMm2 : option number;
  run_parallelStrings : option number
}.

Record InverterElectricalSpecs := mkInverterElectricalSpecs {
  maxInputVoltage : number;
  minMpptVoltage : number;
  maxMpptVoltage : number;
  maxInputCurrent : number;
  maxAcPower : number;
  maxAcCurrent : option number;
  nominalAcCurrent : option number;
  mpptCount : option number
}.

Record Component := mkComponent {
  comp_id : string;
  comp_description : string;
  comp_power : option number;
  comp_electrical : option InverterElectricalSpecs
}.

Inductive Phase := Mono | Tri.

Inductive InverterBrand := NONE | ENPHASE | APSYSTEMS | FOXESS | CUSTOM.

Record InverterConfig := mkInverterConfig {
  brand : InverterBrand;
  inv_model : option string;
  configuredStrings : option (list ConfiguredString);
  phase : option Phase;
  stringsCount : option nat;
  dcCablingRuns : option (list DcCablingRun)
}.

Record Project := mkProject {
  fields : list RoofField;
  inverterConfig : InverterConfig
}.

Record Material := mkMaterial {
  mat_id : string;
  mat_description : string;
  mat_quantity : number;
  mat_price : option string;
  mat_datasheetUrl : option string
}.

(** The template-literal messages of the reports, as tagged values carrying
    the interpolated numbers (before their [toFixed] rendering). *)
Inductive Message :=
  (* `Tension panneau (..V) > Max Micro (..V)` *)
  | MicroOvervoltage (vocCold vmax : number)
  (* `MPPT i: Surtension (..V > ..V)` *)
  | MpptOvervoltage (mpptIndex : nat) (vocCold vmax : number)
  (* `MPPT i: Voc froid proche limite (..V = ..% de ..V)` *)
  | MpptVocNearLimit (mpptIndex : nat) (vocCold ratio vmax : number)
  (* `MPPT i: Vmp chaud trop bas (..V < ..V) ...` *)
  | MpptVmpTooLow (mpptIndex : nat) (vmpHot vmin : number)
  (* `MPPT i: Vmp chaud proche limite basse (..V = ..% de ..V)` *)
  | MpptVmpNearLimit (mpptIndex : nat) (vmpHot ratio vmin : number)
  (* `MPPT i: Courant trop eleve (..A > ..A)( (x.. strings en //))?` *)
  | MpptCurrentTooHigh (mpptIndex : nat) (iscTotal imax parallel : number)
  (* `Repartition Incorrecte : .. panneaux assignes sur .. disponibles.` *)
  | RepartitionIncorrecte (assigned available : number).

Record MpptAnalysis := mkMpptAnalysis {
  mpptIndex : nat;
  composition : list (string * number);   (* `name (count)` joined by ' + ' *)
  totalPanelCount : number;
  a_vocCold : number;
  a_vmpHot : number;
  parallelStrings : number;
  iscMax : number;
  a_iscCalculation : number;
  isVoltageWarning : bool;
  isVoltageError : bool;
  isMpptError : bool;
  isMpptWarning : bool;
  isCurrentError : bool
}.

Inductive AcCurrentBasis := IAC_MAX | IAC_NOMINAL | FALLBACK_S_OVER_U.

Inductive RcdType := RcdA | RcdB | RcdF.

Record Details := mkDetails {
  vocCold : number;
  vmaxInverter : number;
  vmpHot : number;
  vminMppt : number;
  iscPanel : number;
  iscCalculation : number;
  imaxInverter : number;
  dcAcRatio : number;
  d_maxAcPower : number;
  d_nominalAcCurrent : number;
  acCurrentBasis : AcCurrentBasis;
  acCurrentBasisDetail : number * bool;   (* the number shown, 400 V tri? *)
  recommendedBreakerTheo : number;
  recommendedBreaker : number;
  rcdType : RcdType;
  tempsUsed : number * number;            (* min, maxCell *)
  stringsAnalysis : list MpptAnalysis;
  maxPanelsInAString : number
}.

Record CompatibilityReport := mkReport {
  isCompatible : bool;
  warnings : list Message;
  errors : list Message;
  details : option Details
}.

Inductive RoofType := TUILE_MECANIQUE | TUILE_PLATE | TUILE_CANAL | FIBROCIMENT.

Inductive WindZone := ZONE_1 | ZONE_2 | ZONE_3 | ZONE_4 | ZONE_5.

Record Margins := mkMargins {
  m_top : number;
  m_bottom : number;
  m_left : number;
  m_right : number
}.

(** A catalog [Component] together with the catalog fields that
    [Component] above leaves out. *)
Record CatalogItem := mkCatalogItem {
  item : Component;
  item_length : option number;
  item_price : option string;
  item_datasheetUrl : option string
}.

End Types.

(** ** services/standardsService *)

Module Standards.
Import Js.

Inductive ProtectionStatus := ok | info | danger.

Definition ProtectionStatus_eqb (a b : ProtectionStatus) : bool :=
  match a, b with
  | ok, ok | info, info | danger, danger => true
  | _, _ => false
  end.

Definition standardTable : list (number * number) :=
  [(2.5, 25); (6, 40); (10, 50); (16, 63); (25, 80)].

Definition pessimisticTable : list (number * number) :=
  [(2.5, 20); (6, 32); (10, 40); (16, 63); (25, 80)].

Definition getMaxInForSectionStandard (section : number) : option number :=
  lookup standardTable section.

Definition getMaxInForSectionPessimistic (section : number) : option number :=
  lookup pessimisticTable section.

Definition getMinSectionForIn (inA : number) : number :=
  if leb inA 20 then 2.5
  else if leb inA 32 then 6
  else if leb inA 40 then 10
  else if leb inA 63 then 16
  else 25.

Definition isProtectionTooHighForSection (section inA : number) : bool :=
  match getMaxInForSectionStandard section with
  | None => false
  | Some maxStd => gtb inA maxStd
  end.

Definition getProtectionStatusForSection (section inA : number)
  : ProtectionStatus :=
  let maxPes := getMaxInForSectionPessimistic section in
  let maxStd := getMaxInForSectionStandard section in
  match maxStd with
  | None => ok
  | Some std =>
      if gtb inA std then danger
      else match maxPes with
           | Some pes => if gtb inA pes then info else ok
           | None => ok
           end
  end.

Definition isSectionOversizedForIn (section inA : number) : bool :=
  gtb section (getMinSectionForIn inA).

(** Recommended safety margins (mm) from the wind zone and the roof type. *)
Definition getRecommendedMargins (roofType : Types.RoofType)
    (windZone : Types.WindZone) : Types.Margins :=
  let baseMargin :=
    match windZone with
    | Types.ZONE_1 | Types.ZONE_2 => 300
    | Types.ZONE_3 => 400
    | Types.ZONE_4 => 500
    | Types.ZONE_5 => 600
    end in
  let sideMargin :=
    match roofType with
    | Types.TUILE_MECANIQUE | Types.TUILE_PLATE => baseMargin
    | Types.TUILE_CANAL => baseMargin + 50
    | Types.FIBROCIMENT => baseMargin + 100
    end in
  let topBottomMargin := baseMargin in
  Types.mkMargins topBottomMargin topBottomMargin sideMargin sideMargin.

(** PV DC (MPPT strings) cable guard values. *)
Definition dcTable : list (number * number) :=
  [(2.5, 20); (6, 32); (10, 40); (16, 63)].

Definition getMaxIdcForSection (section : number) : option number :=
  lookup dcTable section.

Definition isDcCableTooSmallForI (section idcA : number) : bool :=
  match getMaxIdcForSection section with
  | None => false
  | Some max => gtb idcA max
  end.

Definition isDcSectionOversizedForI (section idcA : number) : bool :=
  gtb section (getMinSectionForIn idcA).

End Standards.

(** ** services/electricalSizing *)

Module Sizing.
Import Js Standards.

Definition RHO_CU : number := 0.023.

(** DC sections offered in the UI (2.5 kept for manual forcing). *)
Definition DC_SECTIONS_MM2 : list number := [2.5; 6; 10; 16].

Record DcDrop := mkDcDrop { duV : number; duPct : number }.

Definition computeDcDrop (lengthM currentA sectionMm2 baseV : number) : DcDrop :=
  if leb lengthM 0 || leb currentA 0 || leb sectionMm2 0 || leb baseV 0
  then mkDcDrop 0 0
  else
    let duV := (2 * lengthM * currentA * RHO_CU) / sectionMm2 in
    let duPct := (duV / baseV) * 100 in
    mkDcDrop duV duPct.

(** The [for ... of] loop of [pickAutoDcSectionOptionB]: [autoS] is
    overwritten by each visited section and the loop stops at the first one
    whose drop is at most 3 %. *)
Fixpoint dcSectionLoop (lengthM currentA baseV : number)
    (sections : list number) (autoS : number) : number :=
  match sections with
  | [] => autoS
  | sec :: rest =>
      if leb (duPct (computeDcDrop lengthM currentA sec baseV)) 3 then sec
      else dcSectionLoop lengthM currentA baseV rest sec
  end.

Definition pickAutoDcSectionOptionB (lengthM currentA baseV : number) : number :=
  let autoS := 6 in
  if leb lengthM 0 || leb currentA 0 || leb baseV 0 then autoS
  else dcSectionLoop lengthM currentA baseV
         (filter (fun s => geb s 6) DC_SECTIONS_MM2) autoS.

Inductive DcSizingStatus := dc_ok | dc_warn | dc_danger | dc_missing.

Definition getDcSizingStatus (lengthM duPct : number) : DcSizingStatus :=
  if leb lengthM 0 then dc_missing
  else if gtb duPct 3 then dc_danger
  else if gtb duPct 1 then dc_warn
  else dc_ok.

Definition AC_SECTIONS_MM2 : list number := [2.5; 6; 10; 16; 25].

Definition breakerLadder (isThreePhase : bool) : list number :=
  if isThreePhase then [16; 20; 25; 32; 40] else [16; 20; 32; 40; 63].

Definition normalizeBreakerA (minA : number) (isThreePhase : bool) : number :=
  let available := breakerLadder isThreePhase in
  match find (fun v => geb v (Js.max 0 minA)) available with
  | Some v => v
  | None => nth (List.length available - 1) available 0
  end.

Definition computeAcDropPercent
    (powerVA distanceMeters sectionMm2 : number) (isThreePhase : bool) : number :=
  if leb powerVA 0 || leb distanceMeters 0 || leb sectionMm2 0 then 0
  else
    let voltage := if isThreePhase then 400 else 230 in
    let current :=
      if isThreePhase then powerVA / (voltage * 1.732) else powerVA / voltage in
    let dropV :=
      if isThreePhase
      then (sqrt 3 * distanceMeters * current * RHO_CU) / sectionMm2
      else (2 * distanceMeters * current * RHO_CU) / sectionMm2 in
    (dropV / voltage) * 100.

Record AcParams := mkAcParams {
  powerVA : number;
  lengthM : number;
  isThreePhase : bool;
  breakerA : number;                      (* normalized *)
  minAutoSectionMm2 : option number       (* optional floor *)
}.

Section PickAc.
Variable params : AcParams.

Definition minAuto : number :=
  match minAutoSectionMm2 params with Some m => m | None => 2.5 end.

Definition acDrop (sec : number) : number :=
  computeAcDropPercent (powerVA params) (lengthM params) sec (isThreePhase params).

Definition acStatus (sec : number) : ProtectionStatus :=
  getProtectionStatusForSection sec (breakerA params).

(** First loop: the first section with a drop of at most 1 % and status
    ['ok'] is returned. *)
Fixpoint acConservativeLoop (sections : list number) : option number :=
  match sections with
  | [] => None
  | sec :: rest =>
      if ltb sec minAuto then acConservativeLoop rest
      else if leb (acDrop sec) 1 && ProtectionStatus_eqb (acStatus sec) ok
           then Some sec
           else acConservativeLoop rest
  end.

(** Second loop: [chosen] follows the visited sections until one has a
    drop of at most 1 % and a status other than ['danger']. *)
Fixpoint acFallbackLoop (sections : list number) (chosen : number) : number :=
  match sections with
  | [] => chosen
  | sec :: rest =>
      if ltb sec minAuto then acFallbackLoop rest chosen
      else if leb (acDrop sec) 1
              && negb (ProtectionStatus_eqb (acStatus sec) danger)
           then sec
           else acFallbackLoop rest sec
  end.

Definition pickAutoAcSectionMm2 : number :=
  match acConservativeLoop AC_SECTIONS_MM2 with
  | Some sec => sec
  | None => acFallbackLoop AC_SECTIONS_MM2 (nth 0 AC_SECTIONS_MM2 0)
  end.
End PickAc.

(** The commercial breaker retained for a subscribed capacity (AGCP);
    [!agcpA || agcpA <= 0] gives [null]. *)
Definition agcpToCommercialBreakerA (agcpA : number) (isThreePhase : bool)
  : option number :=
  if eqb agcpA 0 || leb agcpA 0 then None
  else if isThreePhase then
    if leb agcpA 25 then Some 16
    else if leb agcpA 30 then Some 20
    else if leb agcpA 40 then Some 25
    else if leb agcpA 50 then Some 32
    else Some 40
  else
    if leb agcpA 30 then Some 32
    else if leb agcpA 45 then Some 40
    else Some 63.

End Sizing.

(** ** services/electricalSizing: the DC helpers in binary64 arithmetic

    [Sizing] reads the arithmetic of the source on the reals; here each
    operation of [computeDcDrop] is the binary64 one, as the engine computes
    it, so that the threshold tests decide on the computed value. *)

Module Sizing64.
Import Js Sizing Binary64 Binary64Notations.

Definition RHO_CU : number := lit 0.023.

Definition DC_SECTIONS_MM2 : list number := [lit 2.5; 6; 10; 16].

Definition computeDcDrop (lengthM currentA sectionMm2 baseV : number) : DcDrop :=
  if leb lengthM 0 || leb currentA 0 || leb sectionMm2 0 || leb baseV 0
  then mkDcDrop 0 0
  else
    let duV := (2 *. lengthM *. currentA *. RHO_CU) /. sectionMm2 in
    let duPct := (duV /. baseV) *. 100 in
    mkDcDrop duV duPct.

(** The [for ... of] loop of [pickAutoDcSectionOptionB]. *)
Fixpoint dcSectionLoop (lengthM currentA baseV : number)
    (sections : list number) (autoS : number) : number :=
  match sections with
  | [] => autoS
  | sec :: rest =>
      if leb (duPct (computeDcDrop lengthM currentA sec baseV)) 3 then sec
      else dcSectionLoop lengthM currentA baseV rest sec
  end.

Definition pickAutoDcSectionOptionB (lengthM currentA baseV : number) : number :=
  let autoS := 6 in
  if leb lengthM 0 || leb currentA 0 || leb baseV 0 then autoS
  else dcSectionLoop lengthM currentA baseV
         (filter (fun s => geb s 6) DC_SECTIONS_MM2) autoS.

End Sizing64.


(** ** services/compatibilityService *)

Module Compat.
Import Js Types.

Definition DEFAULT_TEMP_COEFF_VOC : number := -0.26.

Record Climate := mkClimate { tempMin : number; tempMaxAmb : number }.

Definition emptyReport : CompatibilityReport := mkReport true [] [] None.

(** [report.isCompatible = false; report.errors.push(msg)]. *)
Definition pushError (msg : Message) (r : CompatibilityReport) : CompatibilityReport :=
  mkReport false (warnings r) (errors r ++ [msg]) (details r).

(** [report.warnings.push(msg)]. *)
Definition pushWarning (msg : Message) (r : CompatibilityReport) : CompatibilityReport :=
  mkReport (isCompatible r) (warnings r ++ [msg]) (errors r) (details r).

Definition setDetails (d : Details) (r : CompatibilityReport) : CompatibilityReport :=
  mkReport (isCompatible r) (warnings r) (errors r) (Some d).

(** [pSpecs.tempCoeffVoc || DEFAULT_TEMP_COEFF_VOC]. *)
Definition coeffVocOf (pSpecs : PanelElectricalSpecs) : number :=
  match tempCoeffVoc pSpecs with
  | Some c => orElse c DEFAULT_TEMP_COEFF_VOC
  | None => DEFAULT_TEMP_COEFF_VOC
  end.

Definition natToString (n : nat) : string :=
  DecimalString.NilZero.string_of_uint (Nat.to_uint n).

(** *** MPPT groups

    [mpptGroups] is an object with integer keys: [Object.entries] lists them
    in ascending order whatever the insertion order. *)
Definition MpptGroups := list (nat * list ConfiguredString).

(** [if (!mpptGroups[idx]) mpptGroups[idx] = []; mpptGroups[idx].push(str)]. *)
Fixpoint groupPush (idx : nat) (str : ConfiguredString) (groups : MpptGroups)
  : MpptGroups :=
  match groups with
  | [] => [(idx, [str])]
  | (k, segs) :: rest =>
      if Nat.eqb idx k then (k, segs ++ [str]) :: rest
      else if Nat.ltb idx k then (idx, [str]) :: groups
      else (k, segs) :: groupPush idx str rest
  end.

Definition legacyString (panelsPerStringLegacy : number) (i : nat) : ConfiguredString :=
  mkConfiguredString ("legacy-" ++ natToString i) "legacy" panelsPerStringLegacy (i + 1).

Definition buildMpptGroups (configuredStrings : list ConfiguredString)
    (stringsCountLegacy : nat) (panelsPerStringLegacy : number) : MpptGroups :=
  match configuredStrings with
  | [] =>
      let stringsCount := if Nat.eqb stringsCountLegacy 0 then 1%nat
                          else stringsCountLegacy in
      map (fun i => ((i + 1)%nat, [legacyString panelsPerStringLegacy i]))
          (seq 0 stringsCount)
  | _ =>
      fold_left
        (fun groups str =>
           let idx := if Nat.eqb (cs_mpptIndex str) 0 then 1%nat
                      else cs_mpptIndex str in
           groupPush idx str groups)
        configuredStrings []
  end.

(** *** Parallel strings per MPPT

    [parallelByMppt[idx] = n] for each cabling run with a non-zero index; a
    later run overwrites an earlier one. *)
Definition parallelOfRun (r : DcCablingRun) : number :=
  let raw := match run_parallelStrings r with Some v => v | None => 1 end in
  Js.max 1 (round (orElse raw 1)).

Definition buildParallelByMppt (dcCablingRuns : list DcCablingRun)
  : list (nat * number) :=
  fold_left
    (fun m r =>
       let idx := run_mpptIndex r in
       if Nat.eqb idx 0 then m else (idx, parallelOfRun r) :: m)
    dcCablingRuns [].

Fixpoint lookupNat (m : list (nat * number)) (k : nat) : option number :=
  match m with
  | [] => None
  | (k', v) :: rest => if Nat.eqb k k' then Some v else lookupNat rest k
  end.

(** [parallelByMppt[mpptIndex] || 1]. *)
Definition parallelStringsFor (parallelByMppt : list (nat * number)) (idx : nat)
  : number :=
  match lookupNat parallelByMppt idx with
  | Some n => orElse n 1
  | None => 1
  end.

(** *** One MPPT *)

Record SegmentAcc := mkSegmentAcc {
  mpptVocCold : number;
  mpptVmpHot : number;
  mpptIscMax : number;
  mpptPanelCount : number;
  compositionNames : list (string * number);
  accPvPower : number                      (* the outer [totalPvPower] *)
}.

Section Central.
Variable mainPanel : Panel.
Variable fields : list RoofField.
Variable iSpecs : InverterElectricalSpecs.
Variable tempMin tempCellHot : number.
Variable parallelByMppt : list (nat * number).

Definition VOC_WARN_RATIO : number := 0.95.
Definition VMP_WARN_RATIO : number := 1.05.

Definition findField (seg : ConfiguredString) : option RoofField :=
  find (fun f => String.eqb (field_id f) (cs_fieldId seg)) fields.

(** [field?.panels.model || mainPanel]. *)
Definition panelOfSegment (seg : ConfiguredString) : Panel :=
  match findField seg with
  | Some f => model (panels f)
  | None => mainPanel
  end.

(** [field?.name || 'Toiture']. *)
Definition nameOfSegment (seg : ConfiguredString) : string :=
  match findField seg with
  | Some f => if String.eqb (field_name f) "" then "Toiture" else field_name f
  | None => "Toiture"
  end.

(** The body of [segments.forEach]. *)
Definition segmentStep (acc : SegmentAcc) (seg : ConfiguredString) : SegmentAcc :=
  let panel := panelOfSegment seg in
  let acc1 :=
    match panel_electrical panel with
    | Some pSpecs =>
        let coeffVoc := coeffVocOf pSpecs in
        let deltaTCold := tempMin - 25 in
        let vocColdPanel := voc pSpecs * (1 + (coeffVoc / 100) * deltaTCold) in
        let deltaTHot := tempCellHot - 25 in
        let vmpHotPanel := vmp pSpecs * (1 + (coeffVoc / 100) * deltaTHot) in
        mkSegmentAcc
          (mpptVocCold acc + vocColdPanel * cs_panelCount seg)
          (mpptVmpHot acc + vmpHotPanel * cs_panelCount seg)
          (if gtb (isc pSpecs) (mpptIscMax acc) then isc pSpecs
           else mpptIscMax acc)
          (mpptPanelCount acc)
          (compositionNames acc)
          (accPvPower acc + panel_power panel * cs_panelCount seg)
    | None => acc
    end in
  mkSegmentAcc
    (mpptVocCold acc1) (mpptVmpHot acc1) (mpptIscMax acc1)
    (mpptPanelCount acc1 + cs_panelCount seg)
    (compositionNames acc1 ++ [(nameOfSegment seg, cs_panelCount seg)])
    (accPvPower acc1).

Record LoopState := mkLoopState {
  loopReport : CompatibilityReport;
  mpptAnalyses : list MpptAnalysis;
  globalMaxVoc : number;
  globalMinVmp : number;
  totalPvPower : number;
  maxPanelsCount : number
}.

(** The voltage, MPPT-range and current checks of one MPPT, in order. *)
Definition checkVoc (idx : nat) (vocC : number) (r : CompatibilityReport)
  : CompatibilityReport :=
  if gtb vocC (maxInputVoltage iSpecs)
  then pushError (MpptOvervoltage idx vocC (maxInputVoltage iSpecs)) r
  else
    let ratio := if gtb (maxInputVoltage iSpecs) 0
                 then vocC / maxInputVoltage iSpecs else 0 in
    if geb ratio VOC_WARN_RATIO
    then pushWarning (MpptVocNearLimit idx vocC ratio (maxInputVoltage iSpecs)) r
    else r.

Definition checkVmp (idx : nat) (vmpH : number) (r : CompatibilityReport)
  : CompatibilityReport :=
  if ltb vmpH (minMpptVoltage iSpecs)
  then pushError (MpptVmpTooLow idx vmpH (minMpptVoltage iSpecs)) r
  else
    let ratioLow := if gtb (minMpptVoltage iSpecs) 0
                    then vmpH / minMpptVoltage iSpecs else 0 in
    if leb ratioLow VMP_WARN_RATIO
    then pushWarning (MpptVmpNearLimit idx vmpH ratioLow (minMpptVoltage iSpecs)) r
    else r.

Definition checkCurrent (idx : nat) (iscTotal par : number)
    (r : CompatibilityReport) : CompatibilityReport :=
  if gtb iscTotal (maxInputCurrent iSpecs)
  then pushError (MpptCurrentTooHigh idx iscTotal (maxInputCurrent iSpecs) par) r
  else r.

(** The body of the [for ... of Object.entries(mpptGroups)] loop. *)
Definition mpptStep (st : LoopState) (entry : nat * list ConfiguredString)
  : LoopState :=
  let '(mpptIndex, segments) := entry in
  let parallelStrings := parallelStringsFor parallelByMppt mpptIndex in
  let acc := fold_left segmentStep segments
               (mkSegmentAcc 0 0 0 0 [] (totalPvPower st)) in
  let maxPanelsCount' :=
    if gtb (mpptPanelCount acc) (maxPanelsCount st) then mpptPanelCount acc
    else maxPanelsCount st in
  let globalMaxVoc' :=
    if gtb (mpptVocCold acc) (globalMaxVoc st) then mpptVocCold acc
    else globalMaxVoc st in
  let globalMinVmp' :=
    if ltb (mpptVmpHot acc) (globalMinVmp st) then mpptVmpHot acc
    else globalMinVmp st in
  let mpptIscTotal := mpptIscMax acc * parallelStrings in
  let analysis :=
    mkMpptAnalysis
      mpptIndex
      (compositionNames acc)
      (mpptPanelCount acc)
      (toFixed 1 (mpptVocCold acc))
      (toFixed 1 (mpptVmpHot acc))
      parallelStrings
      mpptIscTotal
      (toFixed 2 (mpptIscTotal * 1.25))
      (geb (mpptVocCold acc) (maxInputVoltage iSpecs * VOC_WARN_RATIO)
         && leb (mpptVocCold acc) (maxInputVoltage iSpecs))
      (gtb (mpptVocCold acc) (maxInputVoltage iSpecs))
      (ltb (mpptVmpHot acc) (minMpptVoltage iSpecs))
      (geb (mpptVmpHot acc) (minMpptVoltage iSpecs)
         && leb (mpptVmpHot acc) (minMpptVoltage iSpecs * VMP_WARN_RATIO))
      (gtb mpptIscTotal (maxInputCurrent iSpecs)) in
  let r1 := checkVoc mpptIndex (mpptVocCold acc) (loopReport st) in
  let r2 := checkVmp mpptIndex (mpptVmpHot acc) r1 in
  let r3 := checkCurrent mpptIndex mpptIscTotal parallelStrings r2 in
  mkLoopState r3 (mpptAnalyses st ++ [analysis])
    globalMaxVoc' globalMinVmp' (accPvPower acc) maxPanelsCount'.

Definition initialLoopState : LoopState :=
  mkLoopState emptyReport [] 0 10000 0 0.

Definition runMpptLoop (groups : MpptGroups) : LoopState :=
  fold_left mpptStep groups initialLoopState.
End Central.

Definition hybridId (id : string) : bool :=
  includes id "H1" || includes id "H3" || includes id "KH" || includes id "P3".

Definition checkElectricalCompatibility
    (mainPanel : Panel)
    (inverter : option Component)
    (climate : option Climate)
    (panelsPerStringLegacy : number)
    (totalPanelsLegacy : option number)
    (stringsCountLegacy : nat)
    (maxPanelsInAStringLegacy : number)
    (configuredStrings : list ConfiguredString)
    (fields : list RoofField)
    (phase : option Phase)
    (dcCablingRuns : list DcCablingRun) : CompatibilityReport :=
  let report := emptyReport in
  let tempMin := match climate with Some c => tempMin c | None => -10 end in
  let tempAmbHot := match climate with Some c => tempMaxAmb c | None => 35 end in
  let tempCellHot := tempAmbHot + 35 in
  match inverter with
  | None => report
  | Some inv =>
  match comp_electrical inv with
  | None => report
  | Some iSpecs =>
    let isMicro := ltb (maxInputVoltage iSpecs) 100 in
    let rcdType :=
      if isMicro then RcdF
      else if hybridId (comp_id inv) then RcdB else RcdF in
    if isMicro then
      (* --- micro-inverter --- *)
      match panel_electrical mainPanel with
      | None => report
      | Some pSpecs =>
        let coeffVoc := coeffVocOf pSpecs in
        let deltaTCold := tempMin - 25 in
        let vocColdPanel := voc pSpecs * (1 + (coeffVoc / 100) * deltaTCold) in
        let inputsPerMicro :=
          match mpptCount iSpecs with Some c => orElse c 1 | None => 1 end in
        let legacy :=
          match totalPanelsLegacy with
          | Some t => if gtb t 0 then Some t else None
          | None => None
          end in
        let totalSystemAcPower :=
          match legacy with
          | Some t => ceil (t / inputsPerMicro) * maxAcPower iSpecs
          | None => maxAcPower iSpecs
          end in
        let totalSystemDcPower :=
          match legacy with
          | Some t => panel_power mainPanel * t
          | None => panel_power mainPanel * inputsPerMicro
          end in
        let dcAcRatio :=
          if gtb totalSystemAcPower 0
          then totalSystemDcPower / totalSystemAcPower else 0 in
        let isTri := match phase with Some Tri => true | _ => false end in
        let nominalAcCurrent :=
          if isTri then totalSystemAcPower / (400 * 1.732)
          else totalSystemAcPower / 230 in
        let recommendedBreaker := nominalAcCurrent * 1.25 in
        let report1 :=
          if gtb vocColdPanel (maxInputVoltage iSpecs)
          then pushError (MicroOvervoltage vocColdPanel (maxInputVoltage iSpecs))
                 report
          else report in
        setDetails
          (mkDetails
             (toFixed 1 vocColdPanel)
             (maxInputVoltage iSpecs)
             0
             (minMpptVoltage iSpecs)
             (isc pSpecs)
             (toFixed 2 (isc pSpecs * 1.25))
             (maxInputCurrent iSpecs)
             dcAcRatio
             totalSystemAcPower
             (toFixed 1 nominalAcCurrent)
             FALLBACK_S_OVER_U
             (totalSystemAcPower, isTri)
             (toFixed 1 recommendedBreaker)
             (ceil recommendedBreaker)
             rcdType
             (tempMin, tempCellHot)
             []
             1)
          report1
      end
    else
      (* --- central inverter --- *)
      let mpptGroups :=
        buildMpptGroups configuredStrings stringsCountLegacy panelsPerStringLegacy in
      let parallelByMppt := buildParallelByMppt dcCablingRuns in
      let st := runMpptLoop mainPanel fields iSpecs tempMin tempCellHot
                  parallelByMppt mpptGroups in
      let maxAcPower' :=
        orElse (maxAcPower iSpecs)
          (match comp_power inv with Some pw => orElse pw 0 | None => 0 end) in
      let dcAcRatio :=
        if gtb maxAcPower' 0 then totalPvPower st / maxAcPower' else 0 in
      let isTri :=
        match phase with
        | Some ph => match ph with Tri => true | Mono => false end
        | None => gtb (maxAcPower iSpecs) 6000
                  || includes (comp_id inv) "TRI"
                  || includes (comp_id inv) "T15"
        end in
      let fallbackCurrent :=
        if isTri then maxAcPower' / (400 * 1.732) else maxAcPower' / 230 in
      let iacMax :=
        match maxAcCurrent iSpecs with
        | Some i => if gtb i 0 then Some i else None
        | None => None
        end in
      let iacNom :=
        match nominalAcCurrent iSpecs with
        | Some i => if gtb i 0 then Some i else None
        | None => None
        end in
      let '(acRefCurrentA, basis, basisDetail) :=
        match iacMax, iacNom with
        | Some i, _ => (i, IAC_MAX, (i, isTri))
        | None, Some i => (i, IAC_NOMINAL, (i, isTri))
        | None, None => (fallbackCurrent, FALLBACK_S_OVER_U, (maxAcPower', isTri))
        end in
      let nominalAcCurrent := acRefCurrentA in
      let mainIsc :=
        match panel_electrical mainPanel with
        | Some e => orElse (isc e) 0
        | None => 0
        end in
      setDetails
        (mkDetails
           (toFixed 1 (globalMaxVoc st))
           (maxInputVoltage iSpecs)
           (toFixed 1 (globalMinVmp st))
           (minMpptVoltage iSpecs)
           mainIsc
           (toFixed 2 (mainIsc * 1.25))
           (maxInputCurrent iSpecs)
           dcAcRatio
           maxAcPower'
           (toFixed 1 nominalAcCurrent)
           basis
           basisDetail
           (toFixed 1 (nominalAcCurrent * 1.25))
           (ceil (nominalAcCurrent * 1.25))
           rcdType
           (tempMin, tempCellHot)
           (mpptAnalyses st)
           (maxPanelsCount st))
        (loopReport st)
  end
  end.

End Compat.

(** ** services/compatibilityService in binary64 arithmetic

    [Compat] reads the arithmetic of [checkElectricalCompatibility] on the
    reals.  Here the same function is read with the binary64 operations and
    literals, so that every threshold test, [Math.ceil] and [toFixed] is
    applied to the value the engine computes.  What holds no arithmetic (the
    MPPT groups, the parallel strings, the updates of the report, the current
    check) is taken from [Compat]. *)

Module Compat64.
Import Js Types Compat Binary64 Binary64Notations.

Definition DEFAULT_TEMP_COEFF_VOC : number := lit (-0.26).

(** [pSpecs.tempCoeffVoc || DEFAULT_TEMP_COEFF_VOC]. *)
Definition coeffVocOf (pSpecs : PanelElectricalSpecs) : number :=
  match tempCoeffVoc pSpecs with
  | Some c => orElse c DEFAULT_TEMP_COEFF_VOC
  | None => DEFAULT_TEMP_COEFF_VOC
  end.

Section Central.
Variable mainPanel : Panel.
Variable fields : list RoofField.
Variable iSpecs : InverterElectricalSpecs.
Variable tempMin tempCellHot : number.
Variable parallelByMppt : list (nat * number).

Definition VOC_WARN_RATIO : number := lit 0.95.
Definition VMP_WARN_RATIO : number := lit 1.05.

(** The body of [segments.forEach]. *)
Definition segmentStep (acc : SegmentAcc) (seg : ConfiguredString) : SegmentAcc :=
  let panel := panelOfSegment mainPanel fields seg in
  let acc1 :=
    match panel_electrical panel with
    | Some pSpecs =>
        let coeffVoc := coeffVocOf pSpecs in
        let deltaTCold := tempMin -. 25 in
        let vocColdPanel := voc pSpecs *. (1 +. (coeffVoc /. 100) *. deltaTCold) in
        let deltaTHot := tempCellHot -. 25 in
        let vmpHotPanel := vmp pSpecs *. (1 +. (coeffVoc /. 100) *. deltaTHot) in
        mkSegmentAcc
          (mpptVocCold acc +. vocColdPanel *. cs_panelCount seg)
          (mpptVmpHot acc +. vmpHotPanel *. cs_panelCount seg)
          (if gtb (isc pSpecs) (mpptIscMax acc) then isc pSpecs
           else mpptIscMax acc)
          (mpptPanelCount acc)
          (compositionNames acc)
          (accPvPower acc +. panel_power panel *. cs_panelCount seg)
    | None => acc
    end in
  mkSegmentAcc
    (mpptVocCold acc1) (mpptVmpHot acc1) (mpptIscMax acc1)
    (mpptPanelCount acc1 +. cs_panelCount seg)
    (compositionNames acc1 ++ [(nameOfSegment fields seg, cs_panelCount seg)])
    (accPvPower acc1).

(** The voltage and MPPT-range checks of one MPPT. *)
Definition checkVoc (idx : nat) (vocC : number) (r : CompatibilityReport)
  : CompatibilityReport :=
  if gtb vocC (maxInputVoltage iSpecs)
  then pushError (MpptOvervoltage idx vocC (maxInputVoltage iSpecs)) r
  else
    let ratio := if gtb (maxInputVoltage iSpecs) 0
                 then vocC /. maxInputVoltage iSpecs else 0 in
    if geb ratio VOC_WARN_RATIO
    then pushWarning (MpptVocNearLimit idx vocC ratio (maxInputVoltage iSpecs)) r
    else r.

Definition checkVmp (idx : nat) (vmpH : number) (r : CompatibilityReport)
  : CompatibilityReport :=
  if ltb vmpH (minMpptVoltage iSpecs)
  then pushError (MpptVmpTooLow idx vmpH (minMpptVoltage iSpecs)) r
  else
    let ratioLow := if gtb (minMpptVoltage iSpecs) 0
                    then vmpH /. minMpptVoltage iSpecs else 0 in
    if leb ratioLow VMP_WARN_RATIO
    then pushWarning (MpptVmpNearLimit idx vmpH ratioLow (minMpptVoltage iSpecs)) r
    else r.

(** The body of the [for ... of Object.entries(mpptGroups)] loop. *)
Definition mpptStep (st : LoopState) (entry : nat * list ConfiguredString)
  : LoopState :=
  let '(mpptIndex, segments) := entry in
  let parallelStrings := parallelStringsFor parallelByMppt mpptIndex in
  let acc := fold_left segmentStep segments
               (mkSegmentAcc 0 0 0 0 [] (totalPvPower st)) in
  let maxPanelsCount' :=
    if gtb (mpptPanelCount acc) (maxPanelsCount st) then mpptPanelCount acc
    else maxPanelsCount st in
  let globalMaxVoc' :=
    if gtb (mpptVocCold acc) (globalMaxVoc st) then mpptVocCold acc
    else globalMaxVoc st in
  let globalMinVmp' :=
    if ltb (mpptVmpHot acc) (globalMinVmp st) then mpptVmpHot acc
    else globalMinVmp st in
  let mpptIscTotal := mpptIscMax acc *. parallelStrings in
  let analysis :=
    mkMpptAnalysis
      mpptIndex
      (compositionNames acc)
      (mpptPanelCount acc)
      (parseFixed 1 (mpptVocCold acc))
      (parseFixed 1 (mpptVmpHot acc))
      parallelStrings
      mpptIscTotal
      (parseFixed 2 (mpptIscTotal *. lit 1.25))
      (geb (mpptVocCold acc) (maxInputVoltage iSpecs *. VOC_WARN_RATIO)
         && leb (mpptVocCold acc) (maxInputVoltage iSpecs))
      (gtb (mpptVocCold acc) (maxInputVoltage iSpecs))
      (ltb (mpptVmpHot acc) (minMpptVoltage iSpecs))
      (geb (mpptVmpHot acc) (minMpptVoltage iSpecs)
         && leb (mpptVmpHot acc) (minMpptVoltage iSpecs *. VMP_WARN_RATIO))
      (gtb mpptIscTotal (maxInputCurrent iSpecs)) in
  let r1 := checkVoc mpptIndex (mpptVocCold acc) (loopReport st) in
  let r2 := checkVmp mpptIndex (mpptVmpHot acc) r1 in
  let r3 := checkCurrent iSpecs mpptIndex mpptIscTotal parallelStrings r2 in
  mkLoopState r3 (mpptAnalyses st ++ [analysis])
    globalMaxVoc' globalMinVmp' (accPvPower acc) maxPanelsCount'.

Definition runMpptLoop (groups : MpptGroups) : LoopState :=
  fold_left mpptStep groups initialLoopState.
End Central.

Definition checkElectricalCompatibility
    (mainPanel : Panel)
    (inverter : option Component)
    (climate : option Climate)
    (panelsPerStringLegacy : number)
    (totalPanelsLegacy : option number)
    (stringsCountLegacy : nat)
    (maxPanelsInAStringLegacy : number)
    (configuredStrings : list ConfiguredString)
    (fields : list RoofField)
    (phase : option Phase)
    (dcCablingRuns : list DcCablingRun) : CompatibilityReport :=
  let report := emptyReport in
  let tempMin := match climate with Some c => tempMin c | None => -10 end in
  let tempAmbHot := match climate with Some c => tempMaxAmb c | None => 35 end in
  let tempCellHot := tempAmbHot +. 35 in
  match inverter with
  | None => report
  | Some inv =>
  match comp_electrical inv with
  | None => report
  | Some iSpecs =>
    let isMicro := ltb (maxInputVoltage iSpecs) 100 in
    let rcdType :=
      if isMicro then RcdF
      else if hybridId (comp_id inv) then RcdB else RcdF in
    if isMicro then
      (* --- micro-inverter --- *)
      match panel_electrical mainPanel with
      | None => report
      | Some pSpecs =>
        let coeffVoc := coeffVocOf pSpecs in
        let deltaTCold := tempMin -. 25 in
        let vocColdPanel := voc pSpecs *. (1 +. (coeffVoc /. 100) *. deltaTCold) in
        let inputsPerMicro :=
          match mpptCount iSpecs with Some c => orElse c 1 | None => 1 end in
        let legacy :=
          match totalPanelsLegacy with
          | Some t => if gtb t 0 then Some t else None
          | None => None
          end in
        let totalSystemAcPower :=
          match legacy with
          | Some t => ceil (t /. inputsPerMicro) *. maxAcPower iSpecs
          | None => maxAcPower iSpecs
          end in
        let totalSystemDcPower :=
          match legacy with
          | Some t => panel_power mainPanel *. t
          | None => panel_power mainPanel *. inputsPerMicro
          end in
        let dcAcRatio :=
          if gtb totalSystemAcPower 0
          then totalSystemDcPower /. totalSystemAcPower else 0 in
        let isTri := match phase with Some Tri => true | _ => false end in
        let nominalAcCurrent :=
          if isTri then totalSystemAcPower /. (400 *. lit 1.732)
          else totalSystemAcPower /. 230 in
        let recommendedBreaker := nominalAcCurrent *. lit 1.25 in
        let report1 :=
          if gtb vocColdPanel (maxInputVoltage iSpecs)
          then pushError (MicroOvervoltage vocColdPanel (maxInputVoltage iSpecs))
                 report
          else report in
        setDetails
          (mkDetails
             (parseFixed 1 vocColdPanel)
             (maxInputVoltage iSpecs)
             0
             (minMpptVoltage iSpecs)
             (isc pSpecs)
             (parseFixed 2 (isc pSpecs *. lit 1.25))
             (maxInputCurrent iSpecs)
             dcAcRatio
             totalSystemAcPower
             (parseFixed 1 nominalAcCurrent)
             FALLBACK_S_OVER_U
             (totalSystemAcPower, isTri)
             (parseFixed 1 recommendedBreaker)
             (ceil recommendedBreaker)
             rcdType
             (tempMin, tempCellHot)
             []
             1)
          report1
      end
    else
      (* --- central inverter --- *)
      let mpptGroups :=
        buildMpptGroups configuredStrings stringsCountLegacy panelsPerStringLegacy in
      let parallelByMppt := buildParallelByMppt dcCablingRuns in
      let st := runMpptLoop mainPanel fields iSpecs tempMin tempCellHot
                  parallelByMppt mpptGroups in
      let maxAcPower' :=
        orElse (maxAcPower iSpecs)
          (match comp_power inv with Some pw => orElse pw 0 | None => 0 end) in
      let dcAcRatio :=
        if gtb maxAcPower' 0 then totalPvPower st /. maxAcPower' else 0 in
      let isTri :=
        match phase with
        | Some ph => match ph with Tri => true | Mono => false end
        | None => gtb (maxAcPower iSpecs) 6000
                  || includes (comp_id inv) "TRI"
                  || includes (comp_id inv) "T15"
        end in
      let fallbackCurrent :=
        if isTri then maxAcPower' /. (400 *. lit 1.732) else maxAcPower' /. 230 in
      let iacMax :=
        match maxAcCurrent iSpecs with
        | Some i => if gtb i 0 then Some i else None
        | None => None
        end in
      let iacNom :=
        match nominalAcCurrent iSpecs with
        | Some i => if gtb i 0 then Some i else None
        | None => None
        end in
      let '(acRefCurrentA, basis, basisDetail) :=
        match iacMax, iacNom with
        | Some i, _ => (i, IAC_MAX, (i, isTri))
        | None, Some i => (i, IAC_NOMINAL, (i, isTri))
        | None, None => (fallbackCurrent, FALLBACK_S_OVER_U, (maxAcPower', isTri))
        end in
      let nominalAcCurrent := acRefCurrentA in
      let mainIsc :=
        match panel_electrical mainPanel with
        | Some e => orElse (isc e) 0
        | None => 0
        end in
      setDetails
        (mkDetails
           (parseFixed 1 (globalMaxVoc st))
           (maxInputVoltage iSpecs)
           (parseFixed 1 (globalMinVmp st))
           (minMpptVoltage iSpecs)
           mainIsc
           (parseFixed 2 (mainIsc *. lit 1.25))
           (maxInputCurrent iSpecs)
           dcAcRatio
           maxAcPower'
           (parseFixed 1 nominalAcCurrent)
           basis
           basisDetail
           (parseFixed 1 (nominalAcCurrent *. lit 1.25))
           (ceil (nominalAcCurrent *. lit 1.25))
           rcdType
           (tempMin, tempCellHot)
           (mpptAnalyses st)
           (maxPanelsCount st))
        (loopReport st)
  end
  end.

End Compat64.


(** ** services/calculatorService *)

Module Calculator.
Import Js Types.

(** [getPanelCount]: the sum of the per-row counts when present, else
    rows x columns. *)
Definition getPanelCount (panels : PanelConfig) : number :=
  match rowConfiguration panels with
  | Some (_ :: _ as rc) => fold_left Rplus rc 0
  | _ => rows panels * columns panels
  end.

Definition calculateVoltageDropPercent
    (totalPowerWp distanceMeters sectionMm2 : number) (isThreePhase : bool)
  : number :=
  if leb totalPowerWp 0 || leb distanceMeters 0 || leb sectionMm2 0 then 0
  else
    let voltage := if isThreePhase then 400 else 230 in
    let current :=
      if isThreePhase then totalPowerWp / (voltage * 1.732)
      else totalPowerWp / voltage in
    let rho := 0.023 in
    let dropV :=
      if isThreePhase
      then (sqrt 3 * distanceMeters * current * rho) / sectionMm2
      else (2 * distanceMeters * current * rho) / sectionMm2 in
    (dropV / voltage) * 100.

(** *** Rails

    [calculateOptimalRails] reads the first rail of the list only. *)
Record RailChoice := mkRailChoice {
  railComponent : CatalogItem;
  railsPerLine : number;
  splicesPerLine : number
}.

Definition calculateOptimalRails (lineLength : number)
    (availableRails : list CatalogItem) : option RailChoice :=
  match availableRails with
  | [] => None
  | rail :: _ =>
      if leb lineLength 0 then None
      else
        match item_length rail with
        | None => None
        | Some len =>
            if eqb len 0 || leb len 0 then None
            else
              let railsPerLine := ceil (lineLength / len) in
              Some (mkRailChoice rail railsPerLine
                      (if gtb railsPerLine 1 then railsPerLine - 1 else 0))
        end
  end.

(** *** Cable lines

    A catalog is an object keyed by string; [cableDb ? cableDb[id] : null]. *)
Definition CatalogDb := option (list (string * CatalogItem)).

Definition catalogGet (db : CatalogDb) (id : string) : option CatalogItem :=
  match db with
  | None => None
  | Some l => option_map snd (find (fun kv => String.eqb (fst kv) id) l)
  end.

(** The sections on offer, each with its rendering in a template literal. *)
Definition acAvailableSections : list (number * string) :=
  [(2.5, "2.5"); (6, "6"); (10, "10"); (16, "16"); (25, "25")]%string.

(** The locals [current], [minSectionThermal], [requiredSection] and
    [selectedSection] of [calculateAcCableSection]. *)
Definition acLineCurrent (totalPowerWp : number) (isThreePhase : bool) : number :=
  let voltage := if isThreePhase then 400 else 230 in
  if isThreePhase then totalPowerWp / (voltage * 1.732)
  else totalPowerWp / voltage.

Definition acMinSectionThermal (current : number) (isThreePhase : bool) : number :=
  let m := 2.5 in
  if isThreePhase then
    let m := if gtb current 25 then 6 else m in
    let m := if gtb current 32 then 10 else m in
    let m := if gtb current 45 then 16 else m in
    if gtb current 63 then 25 else m
  else
    let m := if gtb current 25 then 6 else m in
    let m := if gtb current 32 then 10 else m in
    let m := if gtb current 45 then 16 else m in
    if gtb current 63 then 25 else m.

Definition acRequiredSection (totalPowerWp distanceMeters : number)
    (isThreePhase : bool) : number :=
  let voltage := if isThreePhase then 400 else 230 in
  let current := acLineCurrent totalPowerWp isThreePhase in
  let minSectionThermal := acMinSectionThermal current isThreePhase in
  let estimatedBreakerA := ceil (current * 1.25) in
  let minSectionProtection := Standards.getMinSectionForIn estimatedBreakerA in
  let maxVoltageDropPercent := 0.01 in
  let targetDropV := voltage * maxVoltageDropPercent in
  let rho := 0.023 in
  let theoreticalSectionDrop :=
    if isThreePhase
    then (sqrt 3 * rho * distanceMeters * current) / targetDropV
    else (rho * 2 * distanceMeters * current) / targetDropV in
  Js.max (Js.max minSectionThermal theoreticalSectionDrop) minSectionProtection.

Definition acSelectedSection (totalPowerWp distanceMeters : number)
    (isThreePhase : bool) (forcedSectionMm2 : option number) : number * string :=
  let requiredSection :=
    acRequiredSection totalPowerWp distanceMeters isThreePhase in
  let selectedSection :=
    match find (fun s => geb (fst s) requiredSection) acAvailableSections with
    | Some s => s
    | None => (25, "25"%string)
    end in
  match forcedSectionMm2 with
  | Some f =>
      match find (fun s => geb (fst s) f) acAvailableSections with
      | Some forced => forced
      | None => selectedSection
      end
  | None => selectedSection
  end.

Record CoilOption := mkCoilOption {
  coil_id : string;
  coilM : nat
}.

Definition acCoilOptions (isThreePhase : bool) (selectedSection : number)
  : list CoilOption :=
  if isThreePhase then
    if leb selectedSection 2.5 then
      [mkCoilOption "81010512509205" 50; mkCoilOption "81010512509200" 100]
    else if leb selectedSection 6 then [mkCoilOption "810105100609205" 50]
    else []
  else
    if leb selectedSection 1.5 then
      [mkCoilOption "81010311509205" 50; mkCoilOption "81010311509200" 100]
    else if leb selectedSection 2.5 then
      [mkCoilOption "81010312509205" 50; mkCoilOption "81010312509200" 100]
    else if leb selectedSection 6 then [mkCoilOption "810103100609205" 50]
    else if leb selectedSection 10 then
      [mkCoilOption "810103101009205" 50; mkCoilOption "810103101009200" 100]
    else if leb selectedSection 16 then [mkCoilOption "810103101609207" 500]
    else [].

(** [[...opts].sort((a, b) => a.coilM - b.coilM)], a stable sort. *)
Fixpoint insertByCoil (o : CoilOption) (sorted : list CoilOption)
  : list CoilOption :=
  match sorted with
  | [] => [o]
  | p :: rest =>
      if Nat.ltb (coilM o) (coilM p) then o :: sorted
      else p :: insertByCoil o rest
  end.

Definition sortByCoil (opts : list CoilOption) : list CoilOption :=
  fold_left (fun sorted o => insertByCoil o sorted) opts [].

(** [pickCoil], called on a list that is not empty ([first] is its head). *)
Definition pickCoil (distanceMeters : number) (first : CoilOption)
    (rest : list CoilOption) : CoilOption :=
  let sorted := sortByCoil (first :: rest) in
  match find (fun o => leb distanceMeters (INR (coilM o))) sorted with
  | Some o => o
  | None => last sorted first
  end.

Definition phaseCores (isThreePhase : bool) : string :=
  if isThreePhase then "5G"%string else "3G"%string.

(** [Math.ceil(x)] rendered in a template literal, for a positive [x]. *)
Definition ceilToString (x : number) : string :=
  Compat.natToString (Z.to_nat (- Int_part (- x))).

Definition calculateAcCableSection (totalPowerWp distanceMeters : number)
    (cableDb : CatalogDb) (isThreePhase : bool)
    (forcedSectionMm2 : option number) : option Material :=
  if leb totalPowerWp 0 || leb distanceMeters 0 then None
  else
    let '(selectedSection, label) :=
      acSelectedSection totalPowerWp distanceMeters isThreePhase
        forcedSectionMm2 in
    let coilOptions := acCoilOptions isThreePhase selectedSection in
    let fallbackId :=
      ("CABLE-R2V-" ++ phaseCores isThreePhase ++ label ++ "-MANUEL")%string in
    let chosen :=
      match coilOptions with
      | [] => mkCoilOption fallbackId 50
      | first :: rest => pickCoil distanceMeters first rest
      end in
    let qty :=
      Js.max 1 (ceil (distanceMeters / orElse (INR (coilM chosen)) 50)) in
    match catalogGet cableDb (coil_id chosen) with
    | None =>
        Some (mkMaterial (coil_id chosen)
                (match coilOptions with
                 | [] =>
                     ("Câble R2V " ++ phaseCores isThreePhase ++ label
                      ++ " (longueur estimée " ++ ceilToString distanceMeters
                      ++ " m) – À chiffrer")%string
                 | _ =>
                     ("CABLE R2V " ++ phaseCores isThreePhase ++ label ++ " C"
                      ++ Compat.natToString (coilM chosen))%string
                 end)
                qty (Some ""%string) None)
    | Some comp =>
        Some (mkMaterial (comp_id (item comp)) (comp_description (item comp))
                qty (item_price comp) (item_datasheetUrl comp))
    end.

Definition calculateDcCableSection (totalPanels distanceMeters : number)
    (cableDb : CatalogDb) : option Material :=
  if leb totalPanels 0 || leb distanceMeters 0 then None
  else
    let Vmp_panel := 42 in
    let Imp := 13.5 in
    let minStringVoltage := Js.max totalPanels 6 * Vmp_panel in
    let rho := 0.023 in
    let targetDrop := 0.03 * minStringVoltage in
    let theoreticalSection := (rho * 2 * distanceMeters * Imp) / targetDrop in
    let section := if gtb theoreticalSection 6 then (10, "10"%string)
                   else (6, "6"%string) in
    let cableId := if eqb (fst section) 6 then "821101000609200"%string
                   else "CABLE-DC-10MM"%string in
    let comp :=
      match catalogGet cableDb cableId with
      | Some c => c
      | None =>
          mkCatalogItem
            (mkComponent cableId
               ("Câble Solaire DC H1Z2Z2-K " ++ snd section ++ "mm²")%string
               None None)
            None (Some ""%string) None
      end in
    let quantity := ceil (distanceMeters * 2 / 100) in
    let quantity :=
      if String.eqb (comp_id (item comp)) "821101000609200"
      then ceil ((distanceMeters * 2) / 100) else quantity in
    Some (mkMaterial (comp_id (item comp)) (comp_description (item comp))
            (Js.max 1 quantity) (item_price comp) (item_datasheetUrl comp)).

End Calculator.


(** ** App.tsx *)

Module App.
Import Js Types Compat Calculator.

(** *** The [compatibilityReport] memo *)

Definition powerOrZero (c : Component) : number :=
  match comp_power c with Some pw => orElse pw 0 | None => 0 end.

(** [candidates.sort((a, b) => (a.power || 0) - (b.power || 0))], a stable
    sort. *)
Fixpoint insertByPower (c : Component) (sorted : list Component) : list Component :=
  match sorted with
  | [] => [c]
  | d :: rest =>
      if ltb (powerOrZero c) (powerOrZero d) then c :: sorted
      else d :: insertByPower c rest
  end.

Definition sortByPower (l : list Component) : list Component :=
  fold_left (fun sorted c => insertByPower c sorted) l [].

Definition brandPrefix (b : InverterBrand) : string :=
  match b with
  | FOXESS => "FOX"
  | ENPHASE => "ENP"
  | _ => "APS"
  end.

Definition isAutoModel (m : option string) : bool :=
  match m with Some s => String.eqb s "Auto" | None => false end.

(** The inverter picked when none is selected and the model is ['Auto']. *)
Definition autoInverter (b : InverterBrand) (inverterDB : list Component)
    (totalPowerW : number) : option Component :=
  let candidates :=
    filter (fun c => startsWith (comp_id c) (brandPrefix b)
                     && negb (includes (comp_id c) "MICRO")
                     && negb (includes (comp_id c) "ECS")
                     && negb (includes (comp_id c) "EP")
                     && negb (includes (comp_id c) "EQ"))
           inverterDB in
  let target := totalPowerW * 0.8 in
  let sorted := sortByPower candidates in
  match find (fun c => geb (powerOrZero c) target) sorted with
  | Some c => Some c
  | None => nth_error sorted (List.length sorted - 1)
  end.

(** [activeInverterComp], or the automatic choice when there is none and the
    model is ['Auto']. *)
Definition resolveActiveInverter (cfg : InverterConfig)
    (activeInverterComp : option Component) (inverterDB : list Component)
    (totalPowerW : number) : option Component :=
  match activeInverterComp with
  | Some c => Some c
  | None => if isAutoModel (inv_model cfg)
            then autoInverter (brand cfg) inverterDB totalPowerW
            else None
  end.

Definition requiresStringConfig (cfg : InverterConfig) : bool :=
  match brand cfg with
  | FOXESS => match inv_model cfg with
              | Some m => negb (includes m "MICRO")
              | None => true
              end
  | CUSTOM => true
  | _ => false
  end.

Definition totalAssignedOf (cfg : InverterConfig) : number :=
  fold_left (fun acc s => acc + cs_panelCount s)
    (match configuredStrings cfg with Some l => l | None => [] end) 0.

Definition repartitionReport (totalAssigned totalPanelsCount : number)
  : CompatibilityReport :=
  mkReport false [] [RepartitionIncorrecte totalAssigned totalPanelsCount] None.

Definition compatibilityReport
    (project : Project)
    (activeInverterComp : option Component)
    (inverterDB : list Component)
    (totalPowerW : number)
    (projectClimate : option Climate)
    (activeFieldIndex : nat) : option CompatibilityReport :=
  let cfg := inverterConfig project in
  let panelsPerField := map (fun f => getPanelCount (panels f)) (fields project) in
  let totalPanelsCount := fold_left Rplus panelsPerField 0 in
  if eqb totalPanelsCount 0 then None
  else
    match resolveActiveInverter cfg activeInverterComp inverterDB totalPowerW with
    | None => None
    | Some inv =>
        let totalAssigned := totalAssignedOf cfg in
        if requiresStringConfig cfg && negb (eqb totalAssigned totalPanelsCount)
        then Some (repartitionReport totalAssigned totalPanelsCount)
        else
          let stringsLegacy :=
            match stringsCount cfg with
            | Some n => if Nat.eqb n 0 then 1%nat else n
            | None => 1%nat
            end in
          (* [project.fields[activeFieldIndex] || project.fields[0]]; the list
             is not empty here since the total panel count is not zero *)
          match fields project with
          | [] => None
          | first :: _ =>
              let activeField := nth activeFieldIndex (fields project) first in
              Some (checkElectricalCompatibility
                      (model (panels activeField))
                      (Some inv)
                      projectClimate
                      (ceil (totalPanelsCount / INR stringsLegacy))
                      (Some totalPanelsCount)
                      stringsLegacy
                      0
                      (match configuredStrings cfg with Some l => l | None => [] end)
                      (fields project)
                      (phase cfg)
                      (match dcCablingRuns cfg with Some l => l | None => [] end))
          end
    end.

(** *** [mergeCableCoilsInBOM]

    [byId] is a [Map]: an association list in insertion order, where setting
    an existing key replaces its value in place.  The n-th call of
    [Math.random()] is read from [rnd], already rendered as it is in the
    template literal [`__${Math.random()}`].  The values of the map are
    materials with an optional [_reasons] set. *)

Record Entry := mkEntry {
  e_mat : Material;
  e_reasons : option (list string)
}.

Definition ById := list (string * Entry).

Fixpoint mapGet (k : string) (m : ById) : option Entry :=
  match m with
  | [] => None
  | (k', v) :: rest => if String.eqb k k' then Some v else mapGet k rest
  end.

Fixpoint mapSet (k : string) (v : Entry) (m : ById) : ById :=
  match m with
  | [] => [(k, v)]
  | (k', v') :: rest =>
      if String.eqb k k' then (k', v) :: rest else (k', v') :: mapSet k v rest
  end.

(** [Set.prototype.add]. *)
Definition setAdd (x : string) (s : list string) : list string :=
  if existsb (String.eqb x) s then s else s ++ [x].

(** [Array.prototype.join]. *)
Fixpoint joinWith (sep : string) (l : list string) : string :=
  match l with
  | [] => ""%string
  | [x] => x
  | x :: rest => (x ++ sep ++ joinWith sep rest)%string
  end.

Definition nonEmpty (s : string) : bool := negb (String.eqb s "").

Definition isDigit (c : ascii) : bool :=
  (48 <=? nat_of_ascii c)%nat && (nat_of_ascii c <=? 57)%nat.

Fixpoint allDigits (s : string) : bool :=
  match s with
  | EmptyString => true
  | String c rest => isDigit c && allDigits rest
  end.

(** [/^\d{8,}$/.test(id)]. *)
Definition isNumericId (id : string) : bool :=
  allDigits id && (8 <=? String.length id)%nat.

(** [toUpperCase] on the ASCII letters. *)
Definition upperAscii (c : ascii) : ascii :=
  let n := nat_of_ascii c in
  if (97 <=? n)%nat && (n <=? 122)%nat then ascii_of_nat (n - 32) else c.

Fixpoint toUpperCase (s : string) : string :=
  match s with
  | EmptyString => EmptyString
  | String c rest => String (upperAscii c) (toUpperCase rest)
  end.

Definition CableDb := option (list (string * Component)).

Definition dbLookup (cableDb : CableDb) (id : string) : option Component :=
  match cableDb with
  | None => None
  | Some db =>
      option_map snd (find (fun kv => String.eqb (fst kv) id) db)
  end.

Definition isCable (cableDb : CableDb) (it : Material) : bool :=
  match dbLookup cableDb (mat_id it) with
  | Some db => includes (toUpperCase (comp_description db)) "CABLE"
  | None => isNumericId (mat_id it) || startsWith (mat_id it) "CABLE-"
  end.

(** The in-place update of [existing] when a cable with the same id is
    met again: the quantity is the larger of the two (a zero quantity counts
    for 1), the reasons are accumulated and the description rebuilt. *)
Definition mergeInto (existing : Entry) (it : Material) : Entry :=
  let quantity :=
    Js.max (orElse (mat_quantity (e_mat existing)) 1)
           (orElse (mat_quantity it) 1) in
  let reasons := option_map (setAdd (mat_description it)) (e_reasons existing) in
  let description :=
    joinWith " / "
      (filter nonEmpty (match reasons with Some l => l | None => [] end)) in
  mkEntry
    (mkMaterial (mat_id (e_mat existing)) description quantity
       (mat_price (e_mat existing)) (mat_datasheetUrl (e_mat existing)))
    reasons.

(** The body of [for (const it of items)]; the state is the number of draws
    made so far and the map. *)
Definition mergeStep (cableDb : CableDb) (rnd : nat -> string)
    (st : nat * ById) (it : Material) : nat * ById :=
  let '(n, byId) := st in
  if negb (isCable cableDb it) then
    let key := ("__" ++ rnd n)%string in
    (S n, mapSet key (mkEntry it None) byId)
  else
    match mapGet (mat_id it) byId with
    | None =>
        (n, mapSet (mat_id it) (mkEntry it (Some [mat_description it])) byId)
    | Some existing =>
        (n, mapSet (mat_id it) (mergeInto existing it) byId)
    end.

(** The final loop drops the keys (and, for the keys that do not start with
    ["__"], the [_reasons] set). *)
Definition collect (byId : ById) : list Material :=
  map (fun kv => e_mat (snd kv)) byId.

Definition mergeCableCoilsInBOM (rnd : nat -> string) (items : list Material)
    (cableDb : CableDb) : list Material :=
  collect (snd (fold_left (mergeStep cableDb rnd) items (0%nat, []))).

(** *** The AC liaison of the render: Auto or forced sections

    What the render reads from the project and from the inverter catalog;
    [isCentralInverter] and [inverterAcPowerVA] come from the catalog entry
    of the selected inverter. *)
Record AcInputs := mkAcInputs {
  totalPowerW : number;
  isThreePhase : bool;
  agcpValue : option number;
  distanceToPanel : number;
  acCableSectionMm2 : option number;
  ac1CableSectionMm2 : option number;
  distanceInverterToAcCoffret : option number;
  isCentralInverter : bool;
  inverterAcPowerVA : number
}.

Definition AC_SECTIONS : list number := [2.5; 6; 10; 16; 25].

Section AcLiaison.
Variable i : AcInputs.

Definition acCurrentMaxA : number :=
  if isThreePhase i then totalPowerW i / (400 * 1.732)
  else totalPowerW i / 230.

Definition acBreakerMinA : number := ceil (acCurrentMaxA * 1.25).

(** The local [getAgcpCommercialBreakerA]. *)
Definition getAgcpCommercialBreakerA (agcpA : option number) : option number :=
  match agcpA with
  | None => None
  | Some a =>
      if eqb a 0 || leb a 0 then None
      else if isThreePhase i then
        if leb a 25 then Some 16
        else if leb a 30 then Some 20
        else if leb a 40 then Some 25
        else if leb a 50 then Some 32
        else Some 40
      else if leb a 30 then Some 32
      else if leb a 45 then Some 40
      else Some 63
  end.

(** The local [normalizeBreaker]. *)
Definition normalizeBreaker (minA : number) : number :=
  let available :=
    if isThreePhase i then [16; 20; 25; 32; 40] else [16; 20; 32; 40; 63] in
  match find (fun v => geb v minA) available with
  | Some v => v
  | None => nth (List.length available - 1) available 0
  end.

Definition acBreakerNormalizedA : number :=
  match getAgcpCommercialBreakerA (agcpValue i) with
  | Some a => a
  | None => normalizeBreaker acBreakerMinA
  end.

(** The local [pickAutoAcSection] (AC2). *)
Definition ac2MinAutoSection : number :=
  if negb (isThreePhase i)
     && (eqb acBreakerNormalizedA 32 || eqb acBreakerNormalizedA 40)
  then 10 else nth 0 AC_SECTIONS 0.

Fixpoint ac2ConservativeLoop (sections : list number) : option number :=
  match sections with
  | [] => None
  | s :: rest =>
      if ltb s ac2MinAutoSection then ac2ConservativeLoop rest
      else
        let dup := calculateVoltageDropPercent (totalPowerW i)
                     (distanceToPanel i) s (isThreePhase i) in
        let status :=
          Standards.getProtectionStatusForSection s acBreakerNormalizedA in
        if leb dup 1 && Standards.ProtectionStatus_eqb status Standards.ok
        then Some s
        else ac2ConservativeLoop rest
  end.

Fixpoint ac2FallbackLoop (sections : list number) (chosen : number) : number :=
  match sections with
  | [] => chosen
  | s :: rest =>
      if ltb s ac2MinAutoSection then ac2FallbackLoop rest chosen
      else
        let dup := calculateVoltageDropPercent (totalPowerW i)
                     (distanceToPanel i) s (isThreePhase i) in
        let status :=
          Standards.getProtectionStatusForSection s acBreakerNormalizedA in
        if leb dup 1
           && negb (Standards.ProtectionStatus_eqb status Standards.danger)
        then s
        else ac2FallbackLoop rest s
  end.

Definition pickAutoAcSection : number :=
  match ac2ConservativeLoop AC_SECTIONS with
  | Some s => s
  | None => ac2FallbackLoop AC_SECTIONS ac2MinAutoSection
  end.

Definition autoAcCableSectionRaw : number := pickAutoAcSection.

Definition effectiveAcCableSectionRaw : number :=
  match acCableSectionMm2 i with
  | Some s => s
  | None => autoAcCableSectionRaw
  end.

(** AC1: inverter to AC box. *)
Definition ac1LengthM : number :=
  match distanceInverterToAcCoffret i with
  | Some d => orElse d 0
  | None => 0
  end.

Definition ac1CurrentMaxA : number :=
  if isThreePhase i then inverterAcPowerVA i / (400 * 1.732)
  else inverterAcPowerVA i / 230.

Definition ac1BreakerMinA : number := ceil (ac1CurrentMaxA * 1.25).

Definition ac1BreakerNormalizedA : number :=
  Sizing.normalizeBreakerA ac1BreakerMinA (isThreePhase i).

(** The local [pickAutoAc1Section]. *)
Fixpoint ac1ConservativeLoop (sections : list number) : option number :=
  match sections with
  | [] => None
  | s :: rest =>
      let dup := calculateVoltageDropPercent (inverterAcPowerVA i)
                   ac1LengthM s (isThreePhase i) in
      let status :=
        Standards.getProtectionStatusForSection s ac1BreakerNormalizedA in
      if leb dup 1 && Standards.ProtectionStatus_eqb status Standards.ok
      then Some s
      else ac1ConservativeLoop rest
  end.

Fixpoint ac1FallbackLoop (sections : list number) (chosen : number) : number :=
  match sections with
  | [] => chosen
  | s :: rest =>
      let dup := calculateVoltageDropPercent (inverterAcPowerVA i)
                   ac1LengthM s (isThreePhase i) in
      let status :=
        Standards.getProtectionStatusForSection s ac1BreakerNormalizedA in
      if leb dup 1
         && negb (Standards.ProtectionStatus_eqb status Standards.danger)
      then s
      else ac1FallbackLoop rest s
  end.

Definition pickAutoAc1Section : number :=
  match ac1ConservativeLoop AC_SECTIONS with
  | Some s => s
  | None => ac1FallbackLoop AC_SECTIONS (nth 0 AC_SECTIONS 0)
  end.

Definition autoAc1CableSection : number := pickAutoAc1Section.

Definition effectiveAc1CableSection : number :=
  match ac1CableSectionMm2 i with
  | Some s => s
  | None => autoAc1CableSection
  end.

(** The business rule of the centralised case: AC2 >= AC1. *)
Definition autoAcCableSection : number :=
  if isCentralInverter i
  then Js.max autoAcCableSectionRaw effectiveAc1CableSection
  else autoAcCableSectionRaw.

Definition effectiveAcCableSection : number :=
  if isCentralInverter i
     && (match acCableSectionMm2 i with None => true | Some _ => false end)
  then Js.max autoAcCableSection effectiveAc1CableSection
  else effectiveAcCableSectionRaw.

Definition acSectionOrderViolation : bool :=
  isCentralInverter i && ltb effectiveAcCableSection effectiveAc1CableSection.

Definition acProtectionStatus : Standards.ProtectionStatus :=
  Standards.getProtectionStatusForSection effectiveAcCableSection
    acBreakerNormalizedA.

Definition isAcSectionOversized : bool :=
  gtb effectiveAcCableSection autoAcCableSection.

(** *** The AC sections of the bill of materials *)

Definition bomAc2BreakerNormalizedA : number :=
  let ac2CurrentMaxA :=
    if isThreePhase i then totalPowerW i / (400 * 1.732)
    else totalPowerW i / 230 in
  let ac2BreakerMinA := ceil (ac2CurrentMaxA * 1.25) in
  match Sizing.agcpToCommercialBreakerA
          (match agcpValue i with Some a => orElse a 0 | None => 0 end)
          (isThreePhase i) with
  | Some a => a
  | None => Sizing.normalizeBreakerA ac2BreakerMinA (isThreePhase i)
  end.

Definition bomAutoAc2SectionMm2 : number :=
  let minAutoSection :=
    if negb (isThreePhase i)
       && (eqb bomAc2BreakerNormalizedA 32 || eqb bomAc2BreakerNormalizedA 40)
    then 10 else nth 0 AC_SECTIONS 0 in
  Sizing.pickAutoAcSectionMm2
    (Sizing.mkAcParams (inverterAcPowerVA i) (distanceToPanel i)
       (isThreePhase i) bomAc2BreakerNormalizedA (Some minAutoSection)).

Definition bomEffectiveAc2SectionMm2 : number :=
  match acCableSectionMm2 i with
  | Some s => s
  | None => bomAutoAc2SectionMm2
  end.

Definition bomAutoAc1SectionMm2 : number :=
  let ac1LengthM :=
    match distanceInverterToAcCoffret i with
    | Some d => orElse d 0
    | None => 0
    end in
  let ac1CurrentMaxA :=
    if isThreePhase i then inverterAcPowerVA i / (400 * 1.732)
    else inverterAcPowerVA i / 230 in
  let ac1BreakerMinA := ceil (ac1CurrentMaxA * 1.25) in
  let ac1BreakerNormalizedA :=
    Sizing.normalizeBreakerA ac1BreakerMinA (isThreePhase i) in
  let minAutoSection :=
    if negb (isThreePhase i) && eqb ac1BreakerNormalizedA 40
    then 10 else nth 0 AC_SECTIONS 0 in
  Sizing.pickAutoAcSectionMm2
    (Sizing.mkAcParams (inverterAcPowerVA i) ac1LengthM (isThreePhase i)
       ac1BreakerNormalizedA (Some minAutoSection)).
End AcLiaison.

(** *** The bill of materials of the roof fields

    [globalBOM.find(i => i.id === item.id)], then [existing.quantity +=
    item.quantity] on the line found, or [globalBOM.push({...item})]. *)
Fixpoint addToBOM (it : Material) (globalBOM : list Material) : list Material :=
  match globalBOM with
  | [] => [it]
  | line :: rest =>
      if String.eqb (mat_id line) (mat_id it)
      then mkMaterial (mat_id line) (mat_description line)
             (mat_quantity line + mat_quantity it)
             (mat_price line) (mat_datasheetUrl line) :: rest
      else line :: addToBOM it rest
  end.

(** [project.fields.forEach]: the bill of each field with panels, merged
    line by line; [fieldBOM] stands for [calculateBillOfMaterials] applied to
    the field and the catalogs. *)
Definition fieldsBOM (fieldBOM : RoofField -> list Material)
    (projectFields : list RoofField) : list Material :=
  fold_left
    (fun globalBOM field =>
       if gtb (getPanelCount (panels field)) 0
       then fold_left (fun bom it => addToBOM it bom) (fieldBOM field) globalBOM
       else globalBOM)
    projectFields [].

(** *** Rebalancing the configured strings (central inverters)

    [currentStrings.findIndex(s => s.id === id)] and the assignment
    [currentStrings[idx].panelCount = n]. *)
Fixpoint findIndexById (id : string) (l : list ConfiguredString) : option nat :=
  match l with
  | [] => None
  | s :: rest =>
      if String.eqb (cs_id s) id then Some 0%nat
      else option_map S (findIndexById id rest)
  end.

Fixpoint setPanelCount (idx : nat) (n : number) (l : list ConfiguredString)
  : list ConfiguredString :=
  match l, idx with
  | [], _ => []
  | s :: rest, O =>
      mkConfiguredString (cs_id s) (cs_fieldId s) n (cs_mpptIndex s) :: rest
  | s :: rest, S k => s :: setPanelCount k n rest
  end.

(** The loop [for (i = stringsForField.length - 1; i >= 0; i--)] that takes
    panels away from the last strings of a field; [pending] is the part of
    [stringsForField] still to visit, last string first. *)
Fixpoint reduceStrings (pending : list ConfiguredString) (diff : number)
    (currentStrings : list ConfiguredString) : list ConfiguredString :=
  match pending with
  | [] => currentStrings
  | str :: rest =>
      if leb diff 0 then currentStrings
      else
        match findIndexById (cs_id str) currentStrings with
        | Some idx =>
            let count := cs_panelCount (nth idx currentStrings str) in
            let toRemove := Rmin count diff in
            reduceStrings rest (diff - toRemove)
              (setPanelCount idx (count - toRemove) currentStrings)
        | None => reduceStrings rest diff currentStrings
        end
  end.

(** The body of [project.fields.forEach(field => ...)]. *)
Definition rebalanceField (currentStrings : list ConfiguredString)
    (field : RoofField) : list ConfiguredString :=
  let totalAvailable := getPanelCount (panels field) in
  let stringsForField :=
    filter (fun s => String.eqb (cs_fieldId s) (field_id field))
      currentStrings in
  let totalAssigned :=
    fold_left (fun sum s => sum + cs_panelCount s) stringsForField 0 in
  if gtb totalAssigned totalAvailable then
    reduceStrings (rev stringsForField) (totalAssigned - totalAvailable)
      currentStrings
  else
    match stringsForField with
    | [only] =>
        if ltb totalAssigned totalAvailable then
          match findIndexById (cs_id only) currentStrings with
          | Some idx => setPanelCount idx totalAvailable currentStrings
          | None => currentStrings
          end
        else currentStrings
    | _ => currentStrings
    end.

(** From the filter on the valid field ids to [finalStrings]. *)
Definition rebalanceStrings (projectFields : list RoofField)
    (currentStrings : list ConfiguredString) : list ConfiguredString :=
  let validFieldIds := map field_id projectFields in
  let filteredStrings :=
    filter (fun s => existsb (String.eqb (cs_fieldId s)) validFieldIds)
      currentStrings in
  let currentStrings :=
    if negb (Nat.eqb (List.length filteredStrings) (List.length currentStrings))
    then filteredStrings else currentStrings in
  let currentStrings := fold_left rebalanceField projectFields currentStrings in
  filter (fun s => gtb (cs_panelCount s) 0) currentStrings.

End App.


(** ** components/BillOfMaterials: the DC part of the export gate

    The arithmetic of the gate is the binary64 one: its 3 % test decides on
    the voltage drop the engine computes. *)

Module ExportGate.
Import Js Types Binary64 Binary64Notations.

(** The reasons of [dcCablingValidation], as tagged values carrying the
    interpolated numbers. *)
Inductive DcReason :=
  (* `Liaison DC MPPT i : longueur manquante (a renseigner).` *)
  | DcLengthMissing (mpptIndex : nat)
  (* `Liaison DC MPPT i : chute de tension trop elevee (dU=..% > 3%). ...` *)
  | DcDropTooHigh (mpptIndex : nat) (dup : number)
  (* `Liaison DC MPPT i : section .. mm2 trop faible pour I=.. A (max
     conseille ~.. A). Recommande >= .. mm2.` *)
  | DcSectionTooSmall (mpptIndex : nat) (effectiveS currentA : number)
      (Imax : option number) (Smin : number).

Definition rho : number := lit 0.023.
Definition DC_SECTIONS : list number := [lit 2.5; 6; 10; 16].

(** The local [pickAutoSection]. *)
Fixpoint pickAutoSectionLoop (L I V : number) (sections : list number)
    (autoS : number) : number :=
  match sections with
  | [] => autoS
  | sec :: rest =>
      let du := (2 *. L *. I *. rho) /. orElse sec 1 in
      let dup := if gtb V 0 then (du /. V) *. 100 else 0 in
      if leb dup 3 then sec else pickAutoSectionLoop L I V rest sec
  end.

Definition pickAutoSection (L I V : number) : number :=
  let autoS := 6 in
  if gtb L 0 && gtb I 0 && gtb V 0
  then pickAutoSectionLoop L I V (filter (fun s => geb s 6) DC_SECTIONS) autoS
  else autoS.

(** The drop of an MPPT line on its effective section. *)
Definition lineDropPercent (L I V effectiveS : number) : number :=
  let du := (2 *. L *. I *. rho) /. orElse effectiveS 1 in
  (du /. V) *. 100.

(** The body of [for (const s of stringsAnalysis)]: the reasons it pushes. *)
Definition dcLineReasons (runs : list DcCablingRun) (s : MpptAnalysis)
  : list DcReason :=
  let idx := mpptIndex s in
  if Nat.eqb idx 0 then []
  else
    let run := find (fun r => Nat.eqb (run_mpptIndex r) idx) runs in
    let L := match run with Some r => orElse (run_lengthM r) 0 | None => 0 end in
    if eqb L 0 || leb L 0 then [DcLengthMissing idx]
    else
      let I := orElse (a_iscCalculation s) 0 in
      let V := orElse (orElse (a_vmpHot s) 0) 1 in
      let forcedS :=
        match run with Some r => run_sectionMm2 r | None => None end in
      let autoS := pickAutoSection L I V in
      let effectiveS := match forcedS with Some f => f | None => autoS end in
      let dup := lineDropPercent L I V effectiveS in
      (if gtb dup 3 then [DcDropTooHigh idx dup] else [])
      ++ (if gtb I 0 && negb (eqb effectiveS 0)
          then
            if Standards.isDcCableTooSmallForI effectiveS I
            then [DcSectionTooSmall idx effectiveS I
                    (Standards.getMaxIdcForSection effectiveS)
                    (Standards.getMinSectionForIn I)]
            else []
          else []).

Record DcValidation := mkDcValidation {
  v_ok : bool;
  v_reasons : list DcReason
}.

Definition dcCablingValidation (stringsAnalysis : list MpptAnalysis)
    (runs : list DcCablingRun) : DcValidation :=
  match stringsAnalysis with
  | [] => mkDcValidation true []
  | _ =>
      let reasons := flat_map (dcLineReasons runs) stringsAnalysis in
      mkDcValidation (Nat.eqb (List.length reasons) 0) reasons
  end.

End ExportGate.

(** ** Facts about the number tests *)

Module JsFacts.
Import Js.

Lemma gtb_true (x y : number) : gtb x y = true <-> x > y.
Proof. unfold gtb; destruct (Rlt_dec y x); split; intros; try easy; lra. Qed.

Lemma gtb_false (x y : number) : gtb x y = false <-> x <= y.
Proof. unfold gtb; destruct (Rlt_dec y x); split; intros; try easy; lra. Qed.

Lemma ltb_true (x y : number) : ltb x y = true <-> x < y.
Proof. unfold ltb; destruct (Rlt_dec x y); split; intros; try easy; lra. Qed.

Lemma ltb_false (x y : number) : ltb x y = false <-> y <= x.
Proof. unfold ltb; destruct (Rlt_dec x y); split; intros; try easy; lra. Qed.

Lemma geb_true (x y : number) : geb x y = true <-> x >= y.
Proof. unfold geb; destruct (Rle_dec y x); split; intros; try easy; lra. Qed.

Lemma geb_false (x y : number) : geb x y = false <-> x < y.
Proof. unfold geb; destruct (Rle_dec y x); split; intros; try easy; lra. Qed.

Lemma leb_true (x y : number) : leb x y = true <-> x <= y.
Proof. unfold leb; destruct (Rle_dec x y); split; intros; try easy; lra. Qed.

Lemma leb_false (x y : number) : leb x y = false <-> y < x.
Proof. unfold leb; destruct (Rle_dec x y); split; intros; try easy; lra. Qed.

Lemma eqb_true (x y : number) : eqb x y = true <-> x = y.
Proof. unfold eqb; destruct (Req_dec_T x y); split; intros; easy. Qed.

Lemma eqb_false (x y : number) : eqb x y = false <-> x <> y.
Proof. unfold eqb; destruct (Req_dec_T x y); split; intros; easy. Qed.

Lemma orElse_nonzero (x d : number) : x <> 0 -> orElse x d = x.
Proof. unfold orElse; destruct (Req_dec_T x 0); intros; easy. Qed.

Lemma orElse_zero (d : number) : orElse 0 d = d.
Proof. unfold orElse; destruct (Req_dec_T 0 0); intros; easy. Qed.

Lemma max_l (a b : number) : b <= a -> max a b = a.
Proof. unfold max; destruct (Rle_dec a b); intros; lra. Qed.

Lemma max_r (a b : number) : a <= b -> max a b = b.
Proof. unfold max; destruct (Rle_dec a b); intros; lra. Qed.

Lemma max_Rmax (a b : number) : max a b = Rmax a b.
Proof. unfold max, Rmax; destruct (Rle_dec a b); reflexivity. Qed.

End JsFacts.

(** Rewriting the boolean tests of a goal or hypothesis into (in)equalities. *)
Ltac js_tests :=
  repeat match goal with
  | H : Js.gtb _ _ = true |- _ => apply JsFacts.gtb_true in H
  | H : Js.gtb _ _ = false |- _ => apply JsFacts.gtb_false in H
  | H : Js.ltb _ _ = true |- _ => apply JsFacts.ltb_true in H
  | H : Js.ltb _ _ = false |- _ => apply JsFacts.ltb_false in H
  | H : Js.geb _ _ = true |- _ => apply JsFacts.geb_true in H
  | H : Js.geb _ _ = false |- _ => apply JsFacts.geb_false in H
  | H : Js.leb _ _ = true |- _ => apply JsFacts.leb_true in H
  | H : Js.leb _ _ = false |- _ => apply JsFacts.leb_false in H
  | H : Js.eqb _ _ = true |- _ => apply JsFacts.eqb_true in H
  | H : Js.eqb _ _ = false |- _ => apply JsFacts.eqb_false in H
  end.

(** Deciding a boolean test between two concrete numbers. *)
Ltac js_decide :=
  repeat match goal with
  | |- context [Js.gtb ?x ?y] =>
      first [ replace (Js.gtb x y) with true by (symmetry; apply JsFacts.gtb_true; lra)
            | replace (Js.gtb x y) with false by (symmetry; apply JsFacts.gtb_false; lra) ]
  | |- context [Js.ltb ?x ?y] =>
      first [ replace (Js.ltb x y) with true by (symmetry; apply JsFacts.ltb_true; lra)
            | replace (Js.ltb x y) with false by (symmetry; apply JsFacts.ltb_false; lra) ]
  | |- context [Js.geb ?x ?y] =>
      first [ replace (Js.geb x y) with true by (symmetry; apply JsFacts.geb_true; lra)
            | replace (Js.geb x y) with false by (symmetry; apply JsFacts.geb_false; lra) ]
  | |- context [Js.leb ?x ?y] =>
      first [ replace (Js.leb x y) with true by (symmetry; apply JsFacts.leb_true; lra)
            | replace (Js.leb x y) with false by (symmetry; apply JsFacts.leb_false; lra) ]
  | |- context [Js.eqb ?x ?y] =>
      first [ replace (Js.eqb x y) with true by (symmetry; apply JsFacts.eqb_true; lra)
            | replace (Js.eqb x y) with false by (symmetry; apply JsFacts.eqb_false; lra) ]
  end.


(** ** Properties of the standards tables *)

Module StandardsFacts.
Import Js Standards.

(** Both tables are defined on the same five sections. *)
Lemma tables_same_keys (section : number) :
  getMaxInForSectionStandard section = None <->
  getMaxInForSectionPessimistic section = None.
Proof.
  unfold getMaxInForSectionStandard, getMaxInForSectionPessimistic,
    standardTable, pessimisticTable; simpl.
  repeat destruct (Req_dec_T section _); split; intros; try easy.
Qed.

(** C3. [getProtectionStatusForSection] is ['danger'] exactly when
    [isProtectionTooHighForSection] holds, that is exactly when the rating
    exceeds the standard-profile maximum of the section; it is ['info']
    exactly when the rating exceeds the pessimistic maximum but not the
    standard one; and it is ['ok'] in every other case. *)
Theorem protectionStatus_policy (section inA : number) :
  let st := getProtectionStatusForSection section inA in
  let exceedsStd :=
    exists maxStd, getMaxInForSectionStandard section = Some maxStd /\
                   inA > maxStd in
  let exceedsPes :=
    exists maxPes, getMaxInForSectionPessimistic section = Some maxPes /\
                   inA > maxPes in
  (st = danger <-> isProtectionTooHighForSection section inA = true) /\
  (st = danger <-> exceedsStd) /\
  (st = info <-> exceedsPes /\ ~ exceedsStd) /\
  (st = ok <-> ~ exceedsStd /\ ~ (exceedsPes /\ ~ exceedsStd)).
Proof.
  cbv zeta.
  pose proof (tables_same_keys section) as Hkeys.
  unfold getProtectionStatusForSection, isProtectionTooHighForSection.
  destruct (getMaxInForSectionStandard section) as [std|];
    destruct (getMaxInForSectionPessimistic section) as [pes|];
    try (exfalso; destruct Hkeys as [H1 H2];
         first [ discriminate (H1 eq_refl) | discriminate (H2 eq_refl) ]).
  - assert (Hstd : (exists maxStd, Some std = Some maxStd /\ inA > maxStd) <-> inA > std).
    { split; [intros [m [Hm Hgt]]; injection Hm as <-; exact Hgt | intros; exists std; auto]. }
    assert (Hpes : (exists maxPes, Some pes = Some maxPes /\ inA > maxPes) <-> inA > pes).
    { split; [intros [m [Hm Hgt]]; injection Hm as <-; exact Hgt | intros; exists pes; auto]. }
    rewrite Hstd, Hpes.
    destruct (gtb inA std) eqn:Hs; [| destruct (gtb inA pes) eqn:Hp]; js_tests;
      repeat split; intros; try easy; try lra.
  - assert (Hstd : (exists maxStd, @None number = Some maxStd /\ inA > maxStd) <-> False).
    { split; [intros [m [Hm _]]; discriminate | easy]. }
    rewrite Hstd.
    repeat split; intros; try easy; tauto.
Qed.

(** The three statuses on 6 mm2: 32 A is ok, 40 A needs favourable
    conditions, 50 A exceeds the standard table. *)
Example protectionStatus_6mm2 :
  getProtectionStatusForSection 6 32 = ok /\
  getProtectionStatusForSection 6 40 = info /\
  getProtectionStatusForSection 6 50 = danger /\
  getProtectionStatusForSection 4 50 = ok.
Proof.
  unfold getProtectionStatusForSection, getMaxInForSectionStandard,
    getMaxInForSectionPessimistic, standardTable, pessimisticTable.
  cbn [lookup].
  repeat match goal with
  | |- context [Req_dec_T ?a ?b] => destruct (Req_dec_T a b); try lra
  end.
  js_decide. repeat split.
Qed.

End StandardsFacts.

(** ** Properties of the sizing helpers *)

Module SizingFacts.
Import Js JsFacts Standards Sizing Calculator.

(** *** Breaker normalisation *)

Definition ladderTop (isThreePhase : bool) : number :=
  if isThreePhase then 40 else 63.

(** C5, as stated, fails above the ladder: a theoretical minimum of 50 A in
    three-phase is normalised to 40 A, which is below the input. *)
Lemma normalizeBreakerA_above_ladder :
  normalizeBreakerA 50 true = 40 /\ ~ (normalizeBreakerA 50 true >= 50).
Proof.
  assert (E : normalizeBreakerA 50 true = 40).
  { unfold normalizeBreakerA, breakerLadder; simpl find.
    replace (Js.max 0 50) with 50 by (symmetry; apply max_r; lra).
    js_decide. reflexivity. }
  split; [exact E | rewrite E; lra].
Qed.

(** C5 (amended). [normalizeBreakerA] always answers with a rating of the
    phase-specific ladder.  When the input does not exceed the top of the
    ladder the answer is the smallest ladder rating that is at least the
    input (rounding up); above the top of the ladder the answer is the top
    rating itself. *)
Theorem normalizeBreakerA_rounds_up_or_clamps (minA : number) (isThreePhase : bool) :
  let r := normalizeBreakerA minA isThreePhase in
  In r (breakerLadder isThreePhase) /\
  (minA <= ladderTop isThreePhase ->
     r >= minA /\
     forall v, In v (breakerLadder isThreePhase) -> v >= minA -> r <= v) /\
  (minA > ladderTop isThreePhase -> r = ladderTop isThreePhase).
Proof.
  cbv zeta.
  unfold normalizeBreakerA, breakerLadder, ladderTop, Js.max.
  destruct isThreePhase; simpl find; simpl nth;
    destruct (Rle_dec 0 minA);
    repeat match goal with
    | |- context [geb ?x ?y] => destruct (geb x y) eqn:?
    end; js_tests;
    (split; [simpl; lra || tauto |]);
    (split; [intros Hle; split; [lra |];
             intros v Hv Hge; simpl in Hv;
             repeat (destruct Hv as [<- | Hv]; [lra |]); tauto
            | intros; lra]).
Qed.

Example normalizeBreakerA_samples :
  normalizeBreakerA 18 false = 20 /\ normalizeBreakerA 21 false = 32 /\
  normalizeBreakerA 21 true = 25 /\ normalizeBreakerA (-3) true = 16 /\
  normalizeBreakerA 70 false = 63.
Proof.
  unfold normalizeBreakerA, breakerLadder, Js.max; cbn [find nth List.length Nat.sub].
  repeat match goal with
  | |- context [Rle_dec ?a ?b] => destruct (Rle_dec a b); try lra
  end.
  js_decide. repeat split.
Qed.

Lemma normalizeBreakerA_rounds_up_or_clamps_witness :
  normalizeBreakerA 18 false >= 18 /\
  (forall v, In v (breakerLadder false) -> v >= 18 -> normalizeBreakerA 18 false <= v).
Proof.
  apply (normalizeBreakerA_rounds_up_or_clamps 18 false).
  unfold ladderTop; lra.
Defined.

(** *** Voltage drop *)

Lemma sqrt3_pos : 0 < sqrt 3.
Proof. apply sqrt_lt_R0; lra. Qed.

Lemma sqrt3_sqr : sqrt 3 * sqrt 3 = 3.
Proof. apply sqrt_sqrt; lra. Qed.

Lemma sqrt3_not_1732 : sqrt 3 <> 1.732.
Proof. intros E. pose proof sqrt3_sqr as H. rewrite E in H. lra. Qed.

(** C6, as stated, fails in three-phase: the current is computed with the
    decimal constant 1.732 while the drop uses [Math.sqrt(3)], so the result
    is not the all-[sqrt 3] expression (here at 400 VA, 1 m, 1 mm2). *)
Lemma computeAcDropPercent_three_phase_not_sqrt3 :
  computeAcDropPercent 400 1 1 true <>
  ((sqrt 3 * 1 * (400 / (400 * sqrt 3)) * 0.023) / 1 / 400) * 100.
Proof.
  unfold computeAcDropPercent, RHO_CU. js_decide. cbn [orb]. cbv beta iota zeta.
  pose proof sqrt3_pos as Hp. pose proof sqrt3_not_1732 as Hn.
  intros E. apply Hn.
  assert (A : sqrt 3 * 1 * (400 / (400 * sqrt 3)) = 1) by (field; lra).
  rewrite A in E.
  assert (B : 400 / (400 * 1.732) = / 1.732) by (field; lra).
  rewrite B in E. lra.
Qed.

(** The calculator's drop function is the sizing one. *)
Lemma calculateVoltageDropPercent_eq (P L sec : number) (tri : bool) :
  calculateVoltageDropPercent P L sec tri = computeAcDropPercent P L sec tri.
Proof. reflexivity. Qed.

(** C6 (amended). With positive power, length and section the AC drop
    (of the sizing module and of the calculator alike) is
    [((2 * L * I * 0.023) / S / 230) * 100] with [I = P / 230] in
    single-phase and [((sqrt 3 * L * I * 0.023) / S / 400) * 100] with
    [I = P / (400 * 1.732)] in three-phase; the DC drop is
    [((2 * L * I * 0.023) / S / V) * 100]; and a non-positive power (or
    current), length or section gives exactly [0]. *)
Theorem voltage_drop_formulas (P L sec : number) :
  (P > 0 -> L > 0 -> sec > 0 ->
     computeAcDropPercent P L sec false
       = ((2 * L * (P / 230) * 0.023) / sec / 230) * 100 /\
     computeAcDropPercent P L sec true
       = ((sqrt 3 * L * (P / (400 * 1.732)) * 0.023) / sec / 400) * 100 /\
     (forall isThreePhase,
        calculateVoltageDropPercent P L sec isThreePhase
        = computeAcDropPercent P L sec isThreePhase) /\
     forall V, V > 0 ->
       duPct (computeDcDrop L P sec V) = ((2 * L * P * 0.023) / sec / V) * 100) /\
  (P <= 0 \/ L <= 0 \/ sec <= 0 ->
     (forall isThreePhase, computeAcDropPercent P L sec isThreePhase = 0) /\
     (forall isThreePhase, calculateVoltageDropPercent P L sec isThreePhase = 0) /\
     (forall V, duPct (computeDcDrop L P sec V) = 0 /\
                duV (computeDcDrop L P sec V) = 0)).
Proof.
  split.
  - intros HP HL HS.
    assert (EP : leb P 0 = false) by (apply leb_false; lra).
    assert (EL : leb L 0 = false) by (apply leb_false; lra).
    assert (ES : leb sec 0 = false) by (apply leb_false; lra).
    split; [| split; [| split]].
    + unfold computeAcDropPercent, RHO_CU. rewrite EP, EL, ES. reflexivity.
    + unfold computeAcDropPercent, RHO_CU. rewrite EP, EL, ES. reflexivity.
    + intros tri. apply calculateVoltageDropPercent_eq.
    + intros V HV.
      assert (EV : leb V 0 = false) by (apply leb_false; lra).
      unfold computeDcDrop, RHO_CU. rewrite EP, EL, ES, EV. reflexivity.
  - intros H.
    assert (E : leb P 0 || leb L 0 || leb sec 0 = true).
    { destruct H as [H | [H | H]]; apply leb_true in H; rewrite H;
        rewrite ?orb_true_r; reflexivity. }
    split; [| split].
    + intros tri. unfold computeAcDropPercent. rewrite E. reflexivity.
    + intros tri. rewrite calculateVoltageDropPercent_eq.
      unfold computeAcDropPercent. rewrite E. reflexivity.
    + intros V.
      assert (E' : leb L 0 || leb P 0 || leb sec 0 || leb V 0 = true).
      { destruct H as [H | [H | H]]; apply leb_true in H; rewrite H;
          rewrite ?orb_true_r; reflexivity. }
      unfold computeDcDrop. rewrite E'. split; reflexivity.
Qed.

Lemma voltage_drop_formulas_witness :
  computeAcDropPercent 6000 10 10 false
    = ((2 * 10 * (6000 / 230) * 0.023) / 10 / 230) * 100 /\
  computeAcDropPercent 0 10 10 true = 0.
Proof.
  split.
  - apply (voltage_drop_formulas 6000 10 10); lra.
  - apply (voltage_drop_formulas 0 10 10). left; lra.
Defined.

(** *** DC automatic section *)

(** The automatic search skips 2.5 mm2: it visits 6, 10 and 16 mm2. *)
Lemma dc_auto_sections :
  filter (fun s => geb s 6) DC_SECTIONS_MM2 = [6; 10; 16].
Proof. unfold DC_SECTIONS_MM2; cbn [filter]; js_decide; reflexivity. Qed.

Definition dcDropPct (lengthM currentA baseV sec : number) : number :=
  duPct (computeDcDrop lengthM currentA sec baseV).

(** With a non-positive length, current or base voltage every section has a
    zero drop. *)
Lemma dcDropPct_degenerate (lengthM currentA baseV sec : number) :
  leb lengthM 0 || leb currentA 0 || leb baseV 0 = true ->
  dcDropPct lengthM currentA baseV sec = 0.
Proof.
  intros H. unfold dcDropPct, computeDcDrop.
  destruct (leb lengthM 0), (leb currentA 0), (leb baseV 0), (leb sec 0);
    simpl in *; try reflexivity; discriminate.
Qed.

Lemma last_cons_default {A : Type} (l : list A) :
  forall a d, last (a :: l) d = last l a.
Proof.
  induction l as [| b l IH]; intros a d; [reflexivity |].
  change (last (a :: b :: l) d) with (last (b :: l) d).
  rewrite (IH b d), (IH b a). reflexivity.
Qed.

(** *** AC automatic section: monotonicity *)

(** For positive arguments the drop is a positive constant times
    [L * P / sec]. *)
Definition acDropCoeff (tri : bool) : number :=
  if tri then sqrt 3 * (0.023 * 100 / (400 * 1.732 * 400))
  else 2 * 0.023 * 100 / (230 * 230).

Lemma acDropCoeff_pos (tri : bool) : 0 < acDropCoeff tri.
Proof.
  pose proof sqrt3_pos. unfold acDropCoeff. destruct tri; [| lra].
  apply Rmult_lt_0_compat; lra.
Qed.

Lemma computeAcDropPercent_pos_eq (P L sec : number) (tri : bool) :
  0 < P -> 0 < L -> 0 < sec ->
  computeAcDropPercent P L sec tri = acDropCoeff tri * ((L * P) * / sec).
Proof.
  intros HP HL HS. unfold computeAcDropPercent, acDropCoeff, RHO_CU.
  replace (leb P 0) with false by (symmetry; apply leb_false; lra).
  replace (leb L 0) with false by (symmetry; apply leb_false; lra).
  replace (leb sec 0) with false by (symmetry; apply leb_false; lra).
  cbn [orb]. destruct tri; field; lra.
Qed.

Lemma computeAcDropPercent_zero (P L sec : number) (tri : bool) :
  P <= 0 \/ L <= 0 \/ sec <= 0 -> computeAcDropPercent P L sec tri = 0.
Proof.
  intros H. unfold computeAcDropPercent.
  destruct H as [H | [H | H]]; apply leb_true in H; rewrite H;
    rewrite ?orb_true_r; reflexivity.
Qed.

Lemma computeAcDropPercent_nonneg (P L sec : number) (tri : bool) :
  0 <= computeAcDropPercent P L sec tri.
Proof.
  destruct (Rle_dec P 0) as [HP |HP];
    [rewrite computeAcDropPercent_zero by tauto; lra |].
  destruct (Rle_dec L 0) as [HL |HL];
    [rewrite computeAcDropPercent_zero by tauto; lra |].
  destruct (Rle_dec sec 0) as [HS |HS];
    [rewrite computeAcDropPercent_zero by tauto; lra |].
  rewrite computeAcDropPercent_pos_eq by lra.
  pose proof (acDropCoeff_pos tri).
  assert (0 < / sec) by (apply Rinv_0_lt_compat; lra).
  assert (0 < L * P) by nra.
  apply Rlt_le. apply Rmult_lt_0_compat; [lra |].
  apply Rmult_lt_0_compat; lra.
Qed.

(** More power or more length never lowers the drop of a given section. *)
Lemma computeAcDropPercent_mono_load (P1 P2 L1 L2 sec : number) (tri : bool) :
  P1 <= P2 -> L1 <= L2 ->
  computeAcDropPercent P1 L1 sec tri <= computeAcDropPercent P2 L2 sec tri.
Proof.
  intros HP HL.
  destruct (Rle_dec P1 0) as [HP1 |HP1];
    [rewrite (computeAcDropPercent_zero P1) by tauto;
     apply computeAcDropPercent_nonneg |].
  destruct (Rle_dec L1 0) as [HL1 |HL1];
    [rewrite (computeAcDropPercent_zero P1) by tauto;
     apply computeAcDropPercent_nonneg |].
  destruct (Rle_dec sec 0) as [HS |HS];
    [rewrite (computeAcDropPercent_zero P1) by tauto;
     apply computeAcDropPercent_nonneg |].
  rewrite !computeAcDropPercent_pos_eq by lra.
  pose proof (acDropCoeff_pos tri).
  assert (0 < / sec) by (apply Rinv_0_lt_compat; lra).
  apply Rmult_le_compat_l; [lra |].
  apply Rmult_le_compat_r; [lra |]. nra.
Qed.

(** A larger section never has a larger drop. *)
Lemma computeAcDropPercent_antitone_section (P L s1 s2 : number) (tri : bool) :
  0 < s1 -> s1 <= s2 ->
  computeAcDropPercent P L s2 tri <= computeAcDropPercent P L s1 tri.
Proof.
  intros H1 H12.
  destruct (Rle_dec P 0) as [HP |HP];
    [rewrite !(computeAcDropPercent_zero P) by tauto; lra |].
  destruct (Rle_dec L 0) as [HL |HL];
    [rewrite !(computeAcDropPercent_zero P) by tauto; lra |].
  rewrite !computeAcDropPercent_pos_eq by lra.
  pose proof (acDropCoeff_pos tri).
  assert (0 < L * P) by nra.
  apply Rmult_le_compat_l; [lra |].
  apply Rmult_le_compat_l; [lra |].
  apply Rinv_le_contravar; lra.
Qed.

(** The two section loops. *)
Section AcLoops.
Variable p : AcParams.

Definition acGoodOk (s : number) : bool :=
  leb (acDrop p s) 1 && ProtectionStatus_eqb (acStatus p s) ok.

Definition acGoodNotDanger (s : number) : bool :=
  leb (acDrop p s) 1 && negb (ProtectionStatus_eqb (acStatus p s) danger).

(** The section left in [chosen] when the fallback loop never breaks. *)
Fixpoint lastEligible (sections : list number) (chosen : number) : number :=
  match sections with
  | [] => chosen
  | s :: rest =>
      if ltb s (minAuto p) then lastEligible rest chosen
      else lastEligible rest s
  end.

Lemma acConservativeLoop_Some (l : list number) (r : number) :
  acConservativeLoop p l = Some r ->
  In r l /\ ltb r (minAuto p) = false /\ acGoodOk r = true.
Proof.
  induction l as [| s rest IH]; cbn [acConservativeLoop]; [discriminate |].
  destruct (ltb s (minAuto p)) eqn:Hs.
  - intros H. destruct (IH H) as [? [? ?]]. repeat split; auto. now right.
  - fold (acGoodOk s). destruct (acGoodOk s) eqn:Hg.
    + intros [= <-]. repeat split; auto. now left.
    + intros H. destruct (IH H) as [? [? ?]]. repeat split; auto. now right.
Qed.

Lemma acConservativeLoop_None (l : list number) :
  acConservativeLoop p l = None ->
  forall s, In s l -> ltb s (minAuto p) = false -> acGoodOk s = false.
Proof.
  induction l as [| x rest IH]; cbn [acConservativeLoop]; [intros _ s [] |].
  destruct (ltb x (minAuto p)) eqn:Hx.
  - intros H s [<- | Hin] Hs; [congruence | now apply IH].
  - fold (acGoodOk x). destruct (acGoodOk x) eqn:Hg; [discriminate |].
    intros H s [<- | Hin] Hs; [exact Hg | now apply IH].
Qed.

Lemma acConservativeLoop_first (l : list number) (r : number) :
  StronglySorted Rle l ->
  acConservativeLoop p l = Some r ->
  forall s, In s l -> ltb s (minAuto p) = false -> acGoodOk s = true -> r <= s.
Proof.
  induction 1 as [| x rest Hsorted IH Hx]; cbn [acConservativeLoop];
    [discriminate |].
  assert (Hrest : forall r, acConservativeLoop p rest = Some r -> x <= r).
  { intros r' Hr'. apply acConservativeLoop_Some in Hr' as [Hin _].
    rewrite Forall_forall in Hx. now apply Hx. }
  destruct (ltb x (minAuto p)) eqn:Hlt.
  - intros H s [<- | Hin] Hs Hg; [congruence | now apply IH].
  - fold (acGoodOk x). destruct (acGoodOk x) eqn:Hgx.
    + intros [= <-] s [<- | Hin] _ _; [lra |].
      rewrite Forall_forall in Hx. now apply Hx.
    + intros H s [<- | Hin] Hs Hg; [congruence | now apply IH].
Qed.

Lemma acFallbackLoop_cases (l : list number) :
  forall chosen,
    let r := acFallbackLoop p l chosen in
    (In r l /\ ltb r (minAuto p) = false /\ acGoodNotDanger r = true) \/
    r = lastEligible l chosen.
Proof.
  induction l as [| s rest IH]; intros chosen; cbn zeta;
    cbn [acFallbackLoop lastEligible]; [now right |].
  destruct (ltb s (minAuto p)) eqn:Hs.
  - destruct (IH chosen) as [[? [? ?]] | ?]; [left | right]; auto.
    repeat split; auto. now right.
  - fold (acGoodNotDanger s). destruct (acGoodNotDanger s) eqn:Hg.
    + left. repeat split; auto. now left.
    + destruct (IH s) as [[? [? ?]] | ?]; [left | right]; auto.
      repeat split; auto. now right.
Qed.

Lemma lastEligible_cases (l : list number) :
  forall chosen,
    (lastEligible l chosen = chosen /\
     forall s, In s l -> ltb s (minAuto p) = true) \/
    (In (lastEligible l chosen) l /\
     ltb (lastEligible l chosen) (minAuto p) = false).
Proof.
  induction l as [| s rest IH]; intros chosen; cbn [lastEligible].
  - left. split; [reflexivity | intros s []].
  - destruct (ltb s (minAuto p)) eqn:Hs.
    + destruct (IH chosen) as [[E Hall] | [Hin Hel]].
      * left. split; [exact E |]. intros x [<- | Hx]; auto.
      * right. split; [now right | exact Hel].
    + destruct (IH s) as [[E Hall] | [Hin Hel]].
      * right. rewrite E. split; [now left | exact Hs].
      * right. split; [now right | exact Hel].
Qed.
End AcLoops.

Lemma AC_SECTIONS_sorted : StronglySorted Rle AC_SECTIONS_MM2.
Proof.
  unfold AC_SECTIONS_MM2.
  repeat (constructor; [| repeat (constructor; try lra)]). constructor.
Qed.

Lemma AC_SECTIONS_bounds (s : number) :
  In s AC_SECTIONS_MM2 -> 2.5 <= s <= 25.
Proof.
  unfold AC_SECTIONS_MM2; simpl.
  intros [<- | [<- | [<- | [<- | [<- | []]]]]]; lra.
Qed.

(** Simplifying a table lookup at a concrete section. *)
Ltac js_lookup :=
  unfold getMaxInForSectionStandard, getMaxInForSectionPessimistic,
    standardTable, pessimisticTable; cbn [lookup];
  repeat match goal with
  | |- context [Req_dec_T ?a ?b] => destruct (Req_dec_T a b); try lra
  end.

(** The largest section has the same maximum in both tables, so as soon as
    some catalog section is not in ['danger'] for a rating, 25 mm2 is
    ['ok'] for it. *)
Lemma status_top_ok (s b : number) :
  In s AC_SECTIONS_MM2 ->
  getProtectionStatusForSection s b <> danger ->
  getProtectionStatusForSection 25 b = ok.
Proof.
  unfold AC_SECTIONS_MM2; simpl.
  intros [<- | [<- | [<- | [<- | [<- | []]]]]];
    unfold getProtectionStatusForSection; js_lookup;
    repeat match goal with
    | |- context [gtb ?x ?y] => destruct (gtb x y) eqn:?
    end; js_tests; intros; try congruence; try lra.
Qed.

Lemma lastEligible_catalog (p : AcParams) (chosen : number) :
  lastEligible p AC_SECTIONS_MM2 chosen
  = if ltb 25 (minAuto p) then chosen else 25.
Proof.
  unfold AC_SECTIONS_MM2; cbn [lastEligible].
  destruct (ltb 25 (minAuto p)) eqn:H25.
  - apply ltb_true in H25.
    repeat match goal with
    | |- context [ltb ?s (minAuto p)] =>
        replace (ltb s (minAuto p)) with true
          by (symmetry; apply ltb_true; lra)
    end.
    reflexivity.
  - repeat match goal with
    | |- context [if ltb ?s (minAuto p) then _ else _] =>
        destruct (ltb s (minAuto p))
    end; reflexivity.
Qed.

(** The answer is always one of the catalog sections. *)
Lemma pickAutoAcSectionMm2_in_catalog (p : AcParams) :
  In (pickAutoAcSectionMm2 p) AC_SECTIONS_MM2.
Proof.
  unfold pickAutoAcSectionMm2.
  destruct (acConservativeLoop p AC_SECTIONS_MM2) as [r |] eqn:E.
  - now apply acConservativeLoop_Some in E.
  - destruct (acFallbackLoop_cases p AC_SECTIONS_MM2 (nth 0 AC_SECTIONS_MM2 0))
      as [[Hin _] | Hlast]; [exact Hin |].
    rewrite Hlast, lastEligible_catalog.
    destruct (ltb 25 (minAuto p)); unfold AC_SECTIONS_MM2; simpl; tauto.
Qed.

(** When the conservative loop fails, the fallback loop cannot break
    either: the answer is 25 mm2, or 2.5 mm2 when the floor excludes the whole
    catalog. *)
Lemma pickAutoAcSectionMm2_fallback (p : AcParams) :
  acConservativeLoop p AC_SECTIONS_MM2 = None ->
  pickAutoAcSectionMm2 p = if ltb 25 (minAuto p) then 2.5 else 25.
Proof.
  intros E. unfold pickAutoAcSectionMm2. rewrite E.
  destruct (acFallbackLoop_cases p AC_SECTIONS_MM2 (nth 0 AC_SECTIONS_MM2 0))
    as [[Hin [Hel Hg]] | Hlast].
  - exfalso.
    set (r := acFallbackLoop p AC_SECTIONS_MM2 (nth 0 AC_SECTIONS_MM2 0)) in *.
    pose proof (AC_SECTIONS_bounds r Hin) as Hr.
    unfold acGoodNotDanger in Hg. apply andb_true_iff in Hg as [Hd Hs].
    assert (H25 : acGoodOk p 25 = true).
    { unfold acGoodOk. apply andb_true_iff. split.
      - apply leb_true. apply leb_true in Hd.
        pose proof (computeAcDropPercent_antitone_section
                      (powerVA p) (lengthM p) r 25 (isThreePhase p)) as Ha.
        unfold acDrop in *. lra.
      - unfold acStatus in *.
        rewrite (status_top_ok r (breakerA p) Hin); [reflexivity |].
        intros Hdg. rewrite Hdg in Hs. discriminate. }
    assert (Hel25 : ltb 25 (minAuto p) = false).
    { apply ltb_false. apply ltb_false in Hel. lra. }
    assert (Hin25 : In 25 AC_SECTIONS_MM2)
      by (unfold AC_SECTIONS_MM2; simpl; tauto).
    pose proof (acConservativeLoop_None p _ E 25 Hin25 Hel25). congruence.
  - rewrite Hlast, lastEligible_catalog. reflexivity.
Qed.

(** C4. For a fixed phase mode, breaker rating and section floor, the
    automatic AC section is monotone in the load: with no less power and no
    less length, the chosen section is not smaller. *)
Theorem pickAutoAcSectionMm2_monotone
    (P1 P2 L1 L2 : number) (tri : bool) (breaker : number)
    (floor : option number) :
  P1 <= P2 -> L1 <= L2 ->
  pickAutoAcSectionMm2 (mkAcParams P1 L1 tri breaker floor)
  <= pickAutoAcSectionMm2 (mkAcParams P2 L2 tri breaker floor).
Proof.
  intros HP HL.
  set (p1 := mkAcParams P1 L1 tri breaker floor).
  set (p2 := mkAcParams P2 L2 tri breaker floor).
  assert (Hmin : minAuto p1 = minAuto p2) by reflexivity.
  assert (Hgood : forall s, acGoodOk p2 s = true -> acGoodOk p1 s = true).
  { unfold acGoodOk. intros s H. apply andb_true_iff in H as [Hd Hs].
    apply andb_true_iff. split; [| exact Hs].
    apply leb_true. apply leb_true in Hd.
    pose proof (computeAcDropPercent_mono_load P1 P2 L1 L2 s tri HP HL) as Hm.
    unfold acDrop in *. cbn [powerVA lengthM isThreePhase p1 p2] in *. lra. }
  pose proof (AC_SECTIONS_bounds _ (pickAutoAcSectionMm2_in_catalog p1)) as Hr1.
  destruct (acConservativeLoop p2 AC_SECTIONS_MM2) as [r2 |] eqn:E2.
  - pose proof (acConservativeLoop_Some p2 _ _ E2) as [Hin2 [Hel2 Hg2]].
    assert (Hpick2 : pickAutoAcSectionMm2 p2 = r2)
      by (unfold pickAutoAcSectionMm2; rewrite E2; reflexivity).
    rewrite Hpick2.
    destruct (acConservativeLoop p1 AC_SECTIONS_MM2) as [r1 |] eqn:E1.
    + assert (Hpick1 : pickAutoAcSectionMm2 p1 = r1)
        by (unfold pickAutoAcSectionMm2; rewrite E1; reflexivity).
      rewrite Hpick1.
      apply (acConservativeLoop_first p1 _ r1 AC_SECTIONS_sorted E1 r2 Hin2).
      * rewrite Hmin. exact Hel2.
      * apply Hgood. exact Hg2.
    + exfalso.
      assert (Hel1 : ltb r2 (minAuto p1) = false) by (rewrite Hmin; exact Hel2).
      pose proof (acConservativeLoop_None p1 _ E1 r2 Hin2 Hel1) as Hn.
      rewrite (Hgood r2 Hg2) in Hn. discriminate.
  - rewrite (pickAutoAcSectionMm2_fallback p2 E2).
    destruct (ltb 25 (minAuto p2)) eqn:H25; [| lra].
    (* the floor excludes every catalog section *)
    destruct (acConservativeLoop p1 AC_SECTIONS_MM2) as [r1 |] eqn:E1.
    + exfalso.
      pose proof (acConservativeLoop_Some p1 _ _ E1) as [Hin1 [Hel1 _]].
      pose proof (AC_SECTIONS_bounds r1 Hin1).
      rewrite Hmin in Hel1. apply ltb_false in Hel1. apply ltb_true in H25. lra.
    + rewrite (pickAutoAcSectionMm2_fallback p1 E1), Hmin, H25. lra.
Qed.

Lemma pickAutoAcSectionMm2_monotone_witness :
  pickAutoAcSectionMm2 (mkAcParams 3000 10 false 32 None)
  <= pickAutoAcSectionMm2 (mkAcParams 6000 20 false 32 None).
Proof.
  apply pickAutoAcSectionMm2_monotone; lra.
Defined.

(** Evaluating the pickers at concrete arguments. *)
Ltac ac_eval :=
  unfold pickAutoAcSectionMm2, AC_SECTIONS_MM2;
  cbn [acConservativeLoop acFallbackLoop nth];
  unfold minAuto, acDrop, acStatus, computeAcDropPercent, RHO_CU,
    getProtectionStatusForSection;
  cbn [powerVA lengthM isThreePhase breakerA minAutoSectionMm2];
  repeat (js_lookup; js_decide;
          cbn [orb andb negb ProtectionStatus_eqb]).

(** Single-phase, 6 kVA over 10 m behind a 32 A breaker: 6 mm2 without a
    floor, 10 mm2 with the 10 mm2 business floor. *)
Example pickAutoAcSectionMm2_6kVA_10m_32A :
  pickAutoAcSectionMm2 (mkAcParams 6000 10 false 32 None) = 6 /\
  pickAutoAcSectionMm2 (mkAcParams 6000 10 false 32 (Some 10)) = 10.
Proof. split; ac_eval; reflexivity. Qed.

End SizingFacts.

(** ** Properties of the compatibility analyzer *)

Module CompatFacts.
Import Js JsFacts Types Compat.

(** C10. Without an inverter, or with an inverter that carries no
    electrical record, [checkElectricalCompatibility] answers the neutral
    report: compatible, no warning, no error, no details. *)
Theorem missing_inverter_neutral_report
    (mainPanel : Panel) (inverter : option Component) (climate : option Climate)
    (panelsPerStringLegacy : number) (totalPanelsLegacy : option number)
    (stringsCountLegacy : nat) (maxPanelsInAStringLegacy : number)
    (configuredStrings : list ConfiguredString) (fields : list RoofField)
    (phase : option Phase) (dcCablingRuns : list DcCablingRun) :
  (inverter = None \/
   exists inv, inverter = Some inv /\ comp_electrical inv = None) ->
  checkElectricalCompatibility mainPanel inverter climate panelsPerStringLegacy
    totalPanelsLegacy stringsCountLegacy maxPanelsInAStringLegacy
    configuredStrings fields phase dcCablingRuns
  = mkReport true [] [] None.
Proof.
  intros [-> | [inv [-> Hel]]]; unfold checkElectricalCompatibility.
  - reflexivity.
  - rewrite Hel. reflexivity.
Qed.

Definition somePanel : Panel :=
  mkPanel "DM500" 500 (Some (mkPanelElectricalSpecs 40 10 33 9.5 None None)).

Definition bareInverter : Component :=
  mkComponent "OND-PERSO" "Onduleur" (Some 5000) None.

Lemma missing_inverter_neutral_report_witness :
  checkElectricalCompatibility somePanel None None 10 (Some 10) 1 0 [] [] None []
    = mkReport true [] [] None /\
  checkElectricalCompatibility somePanel (Some bareInverter) None 10 (Some 10)
    1 0 [] [] (Some Mono) []
    = mkReport true [] [] None.
Proof.
  split.
  - apply missing_inverter_neutral_report. left. reflexivity.
  - apply missing_inverter_neutral_report. right.
    exists bareInverter. split; reflexivity.
Defined.

(** *** The central-inverter loop *)

Section CentralFacts.
Variable mainPanel : Panel.
Variable fields : list RoofField.
Variable iSpecs : InverterElectricalSpecs.
Variable tempMin tempCellHot : number.
Variable parallelByMppt : list (nat * number).

Let step := mpptStep mainPanel fields iSpecs tempMin tempCellHot parallelByMppt.
Let segStep := segmentStep mainPanel fields tempMin tempCellHot.

(** The short-circuit currents of the segments that have electrical data,
    and their maximum (0 when there is none). *)
Definition segmentIscs (segments : list ConfiguredString) : list number :=
  flat_map
    (fun seg =>
       match panel_electrical (panelOfSegment mainPanel fields seg) with
       | Some e => [isc e]
       | None => []
       end)
    segments.

Definition maxIsc (l : list number) : number := fold_right Rmax 0 l.

Lemma maxIsc_nonneg (l : list number) : 0 <= maxIsc l.
Proof.
  induction l as [| x l IH]; cbn [maxIsc fold_right]; [lra |].
  apply Rle_trans with (maxIsc l); [exact IH | apply Rmax_r].
Qed.

Lemma checkCurrent_current (idx : nat) (tot par : number) (r : CompatibilityReport)
    (i : nat) (x m q : number) :
  In (MpptCurrentTooHigh i x m q) (errors (checkCurrent iSpecs idx tot par r)) <->
  In (MpptCurrentTooHigh i x m q) (errors r) \/
  (tot > maxInputCurrent iSpecs /\
   MpptCurrentTooHigh i x m q
   = MpptCurrentTooHigh idx tot (maxInputCurrent iSpecs) par).
Proof.
  unfold checkCurrent.
  destruct (gtb tot (maxInputCurrent iSpecs)) eqn:E; js_tests.
  - cbn [pushError errors]. rewrite in_app_iff. cbn [In].
    split.
    + intros [H | [H | []]]; [left; exact H | right; split; [exact E | now symmetry]].
    + intros [H | [_ H]]; [left; exact H | right; left; now symmetry].
  - split; [intros H; left; exact H | intros [H | [H _]]; [exact H | lra]].
Qed.

Lemma checkCurrent_incompatible (idx : nat) (tot par : number)
    (r : CompatibilityReport) :
  tot > maxInputCurrent iSpecs ->
  isCompatible (checkCurrent iSpecs idx tot par r) = false.
Proof.
  intros H. unfold checkCurrent.
  replace (gtb tot (maxInputCurrent iSpecs)) with true
    by (symmetry; apply gtb_true; exact H).
  reflexivity.
Qed.

End CentralFacts.

(** *** MPPT groups have distinct indices *)

Lemma groupPush_sorted (idx : nat) (str : ConfiguredString) (groups : MpptGroups) :
  Sorted lt (map fst groups) ->
  Sorted lt (map fst (groupPush idx str groups)).
Proof.
  induction groups as [| [k segs] rest IH]; intros Hs; cbn [groupPush map fst].
  - repeat constructor.
  - destruct (Nat.eqb idx k) eqn:E; [exact Hs |].
    destruct (Nat.ltb idx k) eqn:L.
    + apply Nat.ltb_lt in L. constructor; [exact Hs |].
      constructor. exact L.
    + apply Nat.eqb_neq in E. apply Nat.ltb_ge in L.
      inversion Hs as [| ? ? Hrest Hhd]; subst.
      cbn [map fst]. constructor; [apply IH; exact Hrest |].
      destruct rest as [| [k' segs'] rest']; cbn [groupPush map fst].
      * constructor. lia.
      * inversion Hhd; subst.
        destruct (Nat.eqb idx k'); [constructor; cbn [fst]; assumption |].
        destruct (Nat.ltb idx k'); constructor; cbn [fst]; [lia | assumption].
Qed.

Lemma sorted_lt_NoDup (l : list nat) : Sorted lt l -> NoDup l.
Proof.
  intros Hs. apply Sorted_StronglySorted in Hs; [| exact Nat.lt_trans].
  induction Hs as [| a l Hl IH Hall]; constructor; [| exact IH].
  intros Hin. rewrite Forall_forall in Hall. specialize (Hall a Hin). lia.
Qed.

Lemma successors_sorted (n : nat) :
  forall start, Sorted lt (map (fun i => (i + 1)%nat) (seq start n)).
Proof.
  induction n as [| n IH]; intros start; cbn [seq map]; constructor.
  - apply IH.
  - destruct n; cbn [seq map]; constructor. lia.
Qed.

Lemma buildMpptGroups_sorted (configuredStrings : list ConfiguredString)
    (stringsCountLegacy : nat) (panelsPerStringLegacy : number) :
  Sorted lt
    (map fst (buildMpptGroups configuredStrings stringsCountLegacy
                panelsPerStringLegacy)).
Proof.
  unfold buildMpptGroups. destruct configuredStrings as [| c0 cs].
  - rewrite map_map. cbn [fst].
    apply successors_sorted.
  - generalize (c0 :: cs). intros l.
    assert (H : forall (g : MpptGroups), Sorted lt (map fst g) ->
              Sorted lt (map fst (fold_left
                (fun groups str =>
                   groupPush (if Nat.eqb (cs_mpptIndex str) 0 then 1%nat
                              else cs_mpptIndex str) str groups) l g))).
    { induction l as [| c l IH]; intros g Hg; cbn [fold_left]; [exact Hg |].
      apply IH. apply groupPush_sorted. exact Hg. }
    apply H. constructor.
Qed.

Lemma groups_functional (groups : MpptGroups) (idx : nat)
    (s1 s2 : list ConfiguredString) :
  NoDup (map fst groups) ->
  In (idx, s1) groups -> In (idx, s2) groups -> s1 = s2.
Proof.
  induction groups as [| [k segs] rest IH]; intros Hnd H1 H2; [destruct H1 |].
  cbn [map fst] in Hnd. inversion Hnd as [| ? ? Hnotin Hrest]; subst.
  destruct H1 as [E1 | H1], H2 as [E2 | H2].
  - congruence.
  - injection E1 as -> ->. exfalso. apply Hnotin.
    apply in_map_iff. exists (idx, s2). split; [reflexivity | exact H2].
  - injection E2 as -> ->. exfalso. apply Hnotin.
    apply in_map_iff. exists (idx, s1). split; [reflexivity | exact H1].
  - now apply IH.
Qed.

(** *** The report of the central-inverter path *)

Section CentralReport.
Variable mainPanel : Panel.
Variable inv : Component.
Variable iSpecs : InverterElectricalSpecs.
Variable climate : option Climate.
Variable panelsPerStringLegacy : number.
Variable totalPanelsLegacy : option number.
Variable stringsCountLegacy : nat.
Variable maxPanelsInAStringLegacy : number.
Variable configuredStrings : list ConfiguredString.
Variable fields : list RoofField.
Variable phase : option Phase.
Variable dcCablingRuns : list DcCablingRun.

Hypothesis Helectrical : comp_electrical inv = Some iSpecs.
Hypothesis Hcentral : ltb (maxInputVoltage iSpecs) 100 = false.

Let theReport : CompatibilityReport :=
  checkElectricalCompatibility mainPanel (Some inv) climate
    panelsPerStringLegacy totalPanelsLegacy stringsCountLegacy
    maxPanelsInAStringLegacy configuredStrings fields phase dcCablingRuns.

Let groups : MpptGroups :=
  buildMpptGroups configuredStrings stringsCountLegacy panelsPerStringLegacy.

Let tMin : number := match climate with Some c => tempMin c | None => -10 end.
Let tCellHot : number :=
  match climate with Some c => tempMaxAmb c | None => 35 end + 35.

Let finalState : LoopState :=
  runMpptLoop mainPanel fields iSpecs tMin tCellHot
    (buildParallelByMppt dcCablingRuns) groups.

Lemma central_report_shape :
  isCompatible theReport = isCompatible (loopReport finalState) /\
  warnings theReport = warnings (loopReport finalState) /\
  errors theReport = errors (loopReport finalState) /\
  exists d, details theReport = Some d /\
            stringsAnalysis d = mpptAnalyses finalState.
Proof.
  unfold theReport, checkElectricalCompatibility.
  rewrite Helectrical, Hcentral. cbv zeta.
  fold tMin. fold tCellHot.
  fold groups. fold finalState.
  destruct (match maxAcCurrent iSpecs with
            | Some i => if gtb i 0 then Some i else None
            | None => None
            end);
    destruct (match nominalAcCurrent iSpecs with
              | Some i => if gtb i 0 then Some i else None
              | None => None
              end);
    cbn [setDetails isCompatible warnings errors details];
    repeat split; eexists; split; reflexivity.
Qed.
End CentralReport.

(** A 10-panel string of 10 A panels on MPPT 1 of a central inverter. *)
Definition centralSpecs (imax : number) : InverterElectricalSpecs :=
  mkInverterElectricalSpecs 600 100 550 imax 5000 None None (Some 2).

Definition centralInverter (imax : number) : Component :=
  mkComponent "FOX-S5000" "FoxESS S5000" (Some 5000) (Some (centralSpecs imax)).

Definition roof1 : RoofField :=
  mkRoofField "f1" "Toiture 1" (mkPanelConfig somePanel 2 5 None).

Definition string1 : ConfiguredString := mkConfiguredString "str-1" "f1" 10 1.

Lemma string1_group : In (1%nat, [string1]) (buildMpptGroups [string1] 1 10).
Proof. cbn. left. reflexivity. Qed.

Lemma string1_isc : maxIsc (segmentIscs somePanel [roof1] [string1]) = 10.
Proof.
  cbn [segmentIscs flat_map panelOfSegment findField find string1 roof1
         cs_fieldId field_id String.eqb Ascii.eqb Bool.eqb panels model
         somePanel panel_electrical isc app maxIsc fold_right].
  apply Rmax_left. lra.
Qed.

Lemma string1_parallel : parallelStringsFor (buildParallelByMppt []) 1 = 1.
Proof. reflexivity. Qed.

Lemma centralSpecs_central (imax : number) :
  ltb (maxInputVoltage (centralSpecs imax)) 100 = false.
Proof. apply ltb_false. cbn. lra. Qed.

End CompatFacts.

(** ** Properties of the compatibility memo and of the cable-coil merge *)

Module AppFacts.
Import Js JsFacts Types Compat Calculator App.

(** *** String assignment *)

(** The messages raised by [checkElectricalCompatibility]. *)
Definition isAnalyzerMessage (msg : Message) : bool :=
  match msg with
  | RepartitionIncorrecte _ _ => false
  | _ => true
  end.

Lemma Some_inj {A : Type} (x y : A) : Some x = Some y -> x = y.
Proof. congruence. Qed.

Lemma Forall_snoc {A : Type} (P : A -> Prop) (l : list A) (x : A) :
  Forall P l -> P x -> Forall P (l ++ [x]).
Proof. intros Hl Hx. apply Forall_app. split; [exact Hl | repeat constructor; exact Hx]. Qed.

Lemma mpptStep_analyzer_messages
    (mainPanel : Panel) (fields : list RoofField) (iSpecs : InverterElectricalSpecs)
    (tMin tHot : number) (par : list (nat * number))
    (st : LoopState) (entry : nat * list ConfiguredString) :
  Forall (fun m => isAnalyzerMessage m = true) (errors (loopReport st)) ->
  Forall (fun m => isAnalyzerMessage m = true)
    (errors (loopReport (mpptStep mainPanel fields iSpecs tMin tHot par st entry))).
Proof.
  intros H. destruct entry as [idx segments].
  unfold mpptStep. cbn [loopReport].
  unfold checkCurrent, checkVmp, checkVoc.
  repeat match goal with
  | |- context [if ?b then _ else _] => destruct b
  end; cbn [pushError pushWarning errors];
    repeat (apply Forall_snoc; [| reflexivity]); exact H.
Qed.

Lemma runMpptLoop_analyzer_messages
    (mainPanel : Panel) (fields : list RoofField) (iSpecs : InverterElectricalSpecs)
    (tMin tHot : number) (par : list (nat * number)) (groups : MpptGroups) :
  forall st,
    Forall (fun m => isAnalyzerMessage m = true) (errors (loopReport st)) ->
    Forall (fun m => isAnalyzerMessage m = true)
      (errors (loopReport
                 (fold_left (mpptStep mainPanel fields iSpecs tMin tHot par)
                    groups st))).
Proof.
  induction groups as [| e rest IH]; intros st H; cbn [fold_left]; [exact H |].
  apply IH. apply mpptStep_analyzer_messages. exact H.
Qed.

(** [checkElectricalCompatibility] never raises the string-assignment
    error: only the memo does. *)
Lemma checkElectricalCompatibility_no_repartition
    (mainPanel : Panel) (inverter : option Component) (climate : option Climate)
    (pps : number) (tpl : option number) (scl : nat) (mpl : number)
    (cs : list ConfiguredString) (fields : list RoofField)
    (phase : option Phase) (runs : list DcCablingRun) (a b : number) :
  ~ In (RepartitionIncorrecte a b)
       (errors (checkElectricalCompatibility mainPanel inverter climate pps tpl
                  scl mpl cs fields phase runs)).
Proof.
  assert (Hall : Forall (fun m => isAnalyzerMessage m = true)
                   (errors (checkElectricalCompatibility mainPanel inverter
                              climate pps tpl scl mpl cs fields phase runs))).
  { unfold checkElectricalCompatibility.
    destruct inverter as [inv |]; [| constructor].
    destruct (comp_electrical inv) as [iSpecs |]; [| constructor].
    cbv zeta.
    destruct (ltb (maxInputVoltage iSpecs) 100).
    - destruct (panel_electrical mainPanel) as [pSpecs |]; [| constructor].
      cbn [setDetails errors].
      match goal with
      | |- context [if ?b then pushError _ _ else _] => destruct b
      end; cbn [pushError emptyReport errors app]; repeat constructor.
    - match goal with
      | |- context [setDetails _ (loopReport ?st)] =>
          assert (Hst : Forall (fun m => isAnalyzerMessage m = true)
                          (errors (loopReport st)))
            by (apply runMpptLoop_analyzer_messages; constructor)
      end.
      repeat match goal with
      | |- context [match ?x with Some _ => _ | None => _ end] => destruct x
      end; cbn [setDetails errors]; exact Hst. }
  intros Hin. rewrite Forall_forall in Hall. specialize (Hall _ Hin).
  discriminate.
Qed.

Definition totalPanelsOf (project : Project) : number :=
  fold_left Rplus (map (fun f => getPanelCount (panels f)) (fields project)) 0.

(** The panels assigned to one field by the configured strings. *)
Definition assignedToField (cfg : InverterConfig) (f : RoofField) : number :=
  fold_left (fun acc s => acc + cs_panelCount s)
    (filter (fun s => String.eqb (cs_fieldId s) (field_id f))
       (match configuredStrings cfg with Some l => l | None => [] end)) 0.

(** C2 (amended). When string assignment is required, an inverter is
    resolved and the project has panels, the memo answers the blocking
    "Repartition Incorrecte" report exactly when the total number of panels
    assigned over all the configured strings differs from the total panel count
    of all the roof fields; when the two totals agree the report carries no
    such error. *)
Theorem repartition_error_iff_totals_differ
    (project : Project) (activeInverterComp : option Component)
    (inverterDB : list Component) (totalPowerW : number)
    (projectClimate : option Climate) (activeFieldIndex : nat)
    (inv : Component) :
  requiresStringConfig (inverterConfig project) = true ->
  resolveActiveInverter (inverterConfig project) activeInverterComp inverterDB
    totalPowerW = Some inv ->
  totalPanelsOf project <> 0 ->
  let report := compatibilityReport project activeInverterComp inverterDB
                  totalPowerW projectClimate activeFieldIndex in
  let assigned := totalAssignedOf (inverterConfig project) in
  (assigned <> totalPanelsOf project ->
     report = Some (mkReport false []
                      [RepartitionIncorrecte assigned (totalPanelsOf project)]
                      None)) /\
  (assigned = totalPanelsOf project ->
     forall r, report = Some r ->
       forall a b, ~ In (RepartitionIncorrecte a b) (errors r)).
Proof.
  intros Hreq Hinv Htot report assigned.
  unfold report, compatibilityReport. fold (totalPanelsOf project).
  replace (eqb (totalPanelsOf project) 0) with false
    by (symmetry; apply eqb_false; exact Htot).
  rewrite Hinv, Hreq. fold assigned. rewrite andb_true_l. split.
  - intros Hne.
    replace (eqb assigned (totalPanelsOf project)) with false
      by (symmetry; apply eqb_false; exact Hne).
    reflexivity.
  - intros Heq r.
    replace (eqb assigned (totalPanelsOf project)) with true
      by (symmetry; apply eqb_true; exact Heq).
    change (negb true) with false. cbv iota.
    destruct (fields project) as [| first rest]; [discriminate |].
    intros Hr a b. apply Some_inj in Hr. rewrite <- Hr.
    apply checkElectricalCompatibility_no_repartition.
Qed.

(** Two roofs of 10 panels each; the strings assign 12 panels to the first
    and 8 to the second: each field is wrong, the totals agree. *)
Definition panel500 : Panel :=
  mkPanel "DM500" 500 (Some (mkPanelElectricalSpecs 40 10 33 9.5 None None)).

Definition roofA : RoofField :=
  mkRoofField "f1" "Toiture 1" (mkPanelConfig panel500 2 5 None).

Definition roofB : RoofField :=
  mkRoofField "f2" "Toiture 2" (mkPanelConfig panel500 2 5 None).

Definition foxSpecs : InverterElectricalSpecs :=
  mkInverterElectricalSpecs 600 100 550 12 5000 None None (Some 2).

Definition foxInverter : Component :=
  mkComponent "FOX-S5000" "FoxESS S5000" (Some 5000) (Some foxSpecs).

Definition foxConfig (strings : list ConfiguredString) : InverterConfig :=
  mkInverterConfig FOXESS (Some "FOX-S5000"%string) (Some strings) (Some Mono) None None.

Definition crossedStrings : list ConfiguredString :=
  [mkConfiguredString "str-1" "f1" 12 1; mkConfiguredString "str-2" "f2" 8 2].

Definition crossedProject : Project :=
  mkProject [roofA; roofB] (foxConfig crossedStrings).

Lemma foxSpecs_central : ltb (maxInputVoltage foxSpecs) 100 = false.
Proof. apply ltb_false. cbn. lra. Qed.

(** C2, as stated, fails: the first field has 10 panels and 12 assigned
    panels, yet the memo answers the analyzer's report, which is compatible
    and carries no string-assignment error. *)
Lemma per_field_mismatch_not_reported :
  requiresStringConfig (inverterConfig crossedProject) = true /\
  In roofA (fields crossedProject) /\
  assignedToField (inverterConfig crossedProject) roofA = 12 /\
  getPanelCount (panels roofA) = 10 /\
  exists r,
    compatibilityReport crossedProject (Some foxInverter) [] 5000 None 0
      = Some r /\
    isCompatible r = true /\ errors r = [].
Proof.
  split; [reflexivity |]. split; [left; reflexivity |].
  split; [cbn; lra |]. split; [cbn; lra |].
  eexists. split; [| split].
  - unfold compatibilityReport.
    replace (eqb _ 0) with false by (symmetry; apply eqb_false; cbn; lra).
    cbn [resolveActiveInverter crossedProject inverterConfig].
    replace (eqb _ _) with true by (symmetry; apply eqb_true; cbn; lra).
    change (requiresStringConfig (foxConfig crossedStrings)) with true.
    cbv beta iota zeta. cbn [andb negb fields]. cbv beta iota zeta.
    reflexivity.
  - cbn [nth panels model roofA configuredStrings foxConfig crossedProject
           inverterConfig stringsCount dcCablingRuns phase fields].
    destruct (CompatFacts.central_report_shape panel500 foxInverter foxSpecs None
                (ceil ((fold_left Rplus
                          (map (fun f => getPanelCount (panels f)) [roofA; roofB]) 0)
                       / INR 1))
                (Some (fold_left Rplus
                         (map (fun f => getPanelCount (panels f)) [roofA; roofB]) 0))
                1 0 crossedStrings [roofA; roofB] (Some Mono) []
                eq_refl foxSpecs_central) as [Hc _].
    rewrite Hc. unfold runMpptLoop, mpptStep. simpl.
    unfold coeffVocOf. cbn [tempCoeffVoc]. unfold DEFAULT_TEMP_COEFF_VOC.
    replace (gtb 10 0) with true by (symmetry; apply gtb_true; lra).
    unfold checkCurrent, checkVmp, checkVoc, VOC_WARN_RATIO, VMP_WARN_RATIO,
      parallelStringsFor, buildParallelByMppt.
    cbn [foxSpecs maxInputVoltage minMpptVoltage maxInputCurrent fold_left
           lookupNat].
    js_decide. js_decide. reflexivity.
  - cbn [nth panels model roofA configuredStrings foxConfig crossedProject
           inverterConfig stringsCount dcCablingRuns phase fields].
    destruct (CompatFacts.central_report_shape panel500 foxInverter foxSpecs None
                (ceil ((fold_left Rplus
                          (map (fun f => getPanelCount (panels f)) [roofA; roofB]) 0)
                       / INR 1))
                (Some (fold_left Rplus
                         (map (fun f => getPanelCount (panels f)) [roofA; roofB]) 0))
                1 0 crossedStrings [roofA; roofB] (Some Mono) []
                eq_refl foxSpecs_central) as [_ [_ [He _]]].
    rewrite He. unfold runMpptLoop, mpptStep. simpl.
    unfold coeffVocOf. cbn [tempCoeffVoc]. unfold DEFAULT_TEMP_COEFF_VOC.
    replace (gtb 10 0) with true by (symmetry; apply gtb_true; lra).
    unfold checkCurrent, checkVmp, checkVoc, VOC_WARN_RATIO, VMP_WARN_RATIO,
      parallelStringsFor, buildParallelByMppt.
    cbn [foxSpecs maxInputVoltage minMpptVoltage maxInputCurrent fold_left
           lookupNat].
    js_decide. js_decide. reflexivity.
Qed.

(** The scenario of 14 assigned panels for 12 available ones. *)
Definition roof12 : RoofField :=
  mkRoofField "f1" "Toiture 1" (mkPanelConfig panel500 3 4 None).

Definition overProject : Project :=
  mkProject [roof12]
    (foxConfig [mkConfiguredString "str-1" "f1" 7 1;
                mkConfiguredString "str-2" "f1" 7 2]).

Lemma repartition_error_iff_totals_differ_witness :
  compatibilityReport overProject (Some foxInverter) [] 6000 None 0
  = Some (mkReport false []
            [RepartitionIncorrecte
               (totalAssignedOf (inverterConfig overProject))
               (totalPanelsOf overProject)]
            None).
Proof.
  apply (repartition_error_iff_totals_differ overProject (Some foxInverter) []
           6000 None 0 foxInverter).
  - reflexivity.
  - reflexivity.
  - cbn. lra.
  - cbn. lra.
Defined.

Example overProject_totals :
  totalAssignedOf (inverterConfig overProject) = 14 /\
  totalPanelsOf overProject = 12.
Proof. cbn. split; lra. Qed.


(** *** The cable-coil merge without its keys

    [pureStep] is the loop body of [mergeCableCoilsInBOM] on the list of map
    values alone: a cable line is looked up among the entries that carry a
    reasons set.  It is the reference against which the keyed loop is
    compared; with collision-free draws both build the same values. *)

Section MergeReference.
Variable db : CableDb.

Definition isCableEntry (e : Entry) : bool :=
  match e_reasons e with Some _ => true | None => false end.

Definition entryMatches (id : string) (e : Entry) : bool :=
  isCableEntry e && String.eqb id (mat_id (e_mat e)).

Fixpoint findCable (id : string) (acc : list Entry) : option Entry :=
  match acc with
  | [] => None
  | e :: rest => if entryMatches id e then Some e else findCable id rest
  end.

Fixpoint replaceCable (id : string) (v : Entry) (acc : list Entry) : list Entry :=
  match acc with
  | [] => [v]
  | e :: rest =>
      if entryMatches id e then v :: rest else e :: replaceCable id v rest
  end.

Definition pureStep (acc : list Entry) (it : Material) : list Entry :=
  if negb (isCable db it) then acc ++ [mkEntry it None]
  else
    match findCable (mat_id it) acc with
    | None => acc ++ [mkEntry it (Some [mat_description it])]
    | Some existing => replaceCable (mat_id it) (mergeInto existing it) acc
    end.

Definition mergePure (items : list Material) : list Material :=
  map e_mat (fold_left pureStep items []).

(** [isCable] only reads the catalog id. *)
Lemma isCable_id (a b : Material) :
  mat_id a = mat_id b -> isCable db a = isCable db b.
Proof. intros H. unfold isCable. rewrite H. reflexivity. Qed.

Lemma mergeInto_id (existing : Entry) (it : Material) :
  mat_id (e_mat (mergeInto existing it)) = mat_id (e_mat existing).
Proof. reflexivity. Qed.

Lemma mergeInto_cable (existing : Entry) (it : Material) :
  isCableEntry (mergeInto existing it) = isCableEntry existing.
Proof.
  unfold isCableEntry, mergeInto. cbn [e_reasons].
  destruct (e_reasons existing); reflexivity.
Qed.

Lemma findCable_Some (id : string) (acc : list Entry) (e : Entry) :
  findCable id acc = Some e ->
  In e acc /\ isCableEntry e = true /\ mat_id (e_mat e) = id.
Proof.
  induction acc as [| x rest IH]; cbn [findCable]; [discriminate |].
  destruct (entryMatches id x) eqn:E.
  - intros [= <-]. unfold entryMatches in E.
    apply andb_true_iff in E as [Hc Hid]. apply String.eqb_eq in Hid.
    repeat split; auto. now left.
  - intros H. destruct (IH H) as [? [? ?]]. repeat split; auto. now right.
Qed.

Lemma findCable_None (id : string) (acc : list Entry) :
  findCable id acc = None <->
  forall e, In e acc -> isCableEntry e = true -> mat_id (e_mat e) <> id.
Proof.
  induction acc as [| x rest IH]; cbn [findCable].
  - split; [intros _ e [] | reflexivity].
  - destruct (entryMatches id x) eqn:E.
    + split; [discriminate |]. intros H. exfalso.
      unfold entryMatches in E. apply andb_true_iff in E as [Hc Hid].
      apply String.eqb_eq in Hid. apply (H x); auto. now left.
    + rewrite IH. split.
      * intros H e [<- | Hin] Hc; [| now apply H].
        unfold entryMatches in E. rewrite Hc in E. cbn [andb] in E.
        apply String.eqb_neq in E. congruence.
      * intros H e Hin. apply H. now right.
Qed.
End MergeReference.

(** *** The keyed loop follows the reference when the draws are fresh *)

Definition nonCables (db : CableDb) (items : list Material) : list Material :=
  filter (fun it => negb (isCable db it)) items.

Definition freshKey (rnd : nat -> string) (n : nat) : string :=
  ("__" ++ rnd n)%string.

(** The draws made for [items] are collision-free: pairwise distinct, and
    the keys built from them differ from the ids of the cable lines. *)
Definition FreshKeys (db : CableDb) (rnd : nat -> string)
    (items : list Material) : Prop :=
  (forall i j, (i < j < List.length (nonCables db items))%nat -> rnd i <> rnd j) /\
  (forall j it, (j < List.length (nonCables db items))%nat ->
                In it items -> isCable db it = true ->
                mat_id it <> freshKey rnd j).

Lemma mapSet_absent (k : string) (v : Entry) (m : ById) :
  (forall kv, In kv m -> fst kv <> k) -> mapSet k v m = m ++ [(k, v)].
Proof.
  induction m as [| [k' v'] rest IH]; intros H; cbn [mapSet app]; [reflexivity |].
  assert (Hk : String.eqb k k' = false).
  { apply String.eqb_neq. intros ->. apply (H (k', v')); [now left | reflexivity]. }
  rewrite Hk, IH; [reflexivity |]. intros kv Hin. apply H. now right.
Qed.

Lemma freshKey_inj (rnd : nat -> string) (i j : nat) :
  freshKey rnd i = freshKey rnd j -> rnd i = rnd j.
Proof. unfold freshKey. cbn [String.append]. congruence. Qed.

Section MergeSimulation.
Variable db : CableDb.
Variable rnd : nat -> string.
Variable items : list Material.
Hypothesis Hfresh : FreshKeys db rnd items.

Let total : nat := List.length (nonCables db items).

(** A cable id of the input. *)
Definition cableIdOf (id : string) : Prop :=
  exists it, In it items /\ isCable db it = true /\ mat_id it = id.

(** The key of a map entry: the id for a cable entry, a drawn key for a
    non-cable one. *)
Definition keyOk (n : nat) (kv : string * Entry) : Prop :=
  if isCableEntry (snd kv)
  then fst kv = mat_id (e_mat (snd kv)) /\ cableIdOf (fst kv)
  else exists j, (j < n)%nat /\ fst kv = freshKey rnd j.

Lemma keyOk_mono (n m : nat) (kv : string * Entry) :
  (n <= m)%nat -> keyOk n kv -> keyOk m kv.
Proof.
  unfold keyOk. destruct (isCableEntry (snd kv)); [auto |].
  intros Hle [j [Hj Hk]]. exists j. split; [lia | exact Hk].
Qed.

Lemma cableId_not_fresh (id : string) (j : nat) :
  cableIdOf id -> (j < total)%nat -> id <> freshKey rnd j.
Proof.
  intros [it [Hin [Hc <-]]] Hj. destruct Hfresh as [_ H2]. now apply H2.
Qed.

Lemma mapGet_findCable (n : nat) (id : string) (byId : ById) :
  (n <= total)%nat -> cableIdOf id ->
  Forall (keyOk n) byId ->
  mapGet id byId = findCable id (map snd byId).
Proof.
  intros Hn Hid. induction byId as [| [k e] rest IH]; intros Hall;
    cbn [mapGet map snd findCable]; [reflexivity |].
  inversion Hall as [| ? ? Hk Hrest]; subst.
  unfold keyOk in Hk. cbn [fst snd] in Hk. unfold entryMatches.
  destruct (isCableEntry e) eqn:Hc; cbn [andb].
  - destruct Hk as [-> _].
    destruct (String.eqb id (mat_id (e_mat e))); [reflexivity | now apply IH].
  - destruct Hk as [j [Hj ->]].
    assert (E : String.eqb id (freshKey rnd j) = false).
    { apply String.eqb_neq. apply cableId_not_fresh; [exact Hid | lia]. }
    rewrite E. now apply IH.
Qed.

Lemma mapSet_replaceCable (n : nat) (id : string) (v : Entry) (byId : ById) :
  (n <= total)%nat -> cableIdOf id ->
  Forall (keyOk n) byId ->
  isCableEntry v = true -> mat_id (e_mat v) = id ->
  mapGet id byId <> None ->
  map snd (mapSet id v byId) = replaceCable id v (map snd byId) /\
  Forall (keyOk n) (mapSet id v byId).
Proof.
  intros Hn Hid. induction byId as [| [k e] rest IH]; intros Hall Hv Hvid Hget;
    cbn [mapGet mapSet map snd replaceCable] in *; [congruence |].
  inversion Hall as [| ? ? Hk Hrest]; subst.
  pose proof Hk as Hk'. unfold keyOk in Hk. cbn [fst snd] in Hk.
  unfold entryMatches.
  destruct (isCableEntry e) eqn:Hc; cbn [andb].
  - destruct Hk as [-> Hcid].
    destruct (String.eqb (mat_id (e_mat v)) (mat_id (e_mat e))) eqn:E.
    + cbn [map snd]. split; [reflexivity |]. constructor; [| exact Hrest].
      unfold keyOk. cbn [fst snd]. rewrite Hv. apply String.eqb_eq in E.
      split; [now symmetry | exact Hcid].
    + destruct (IH Hrest Hv eq_refl Hget) as [Hm Hf].
      cbn [map snd]. rewrite Hm. split; [reflexivity |].
      constructor; assumption.
  - destruct Hk as [j [Hj ->]].
    assert (E : String.eqb (mat_id (e_mat v)) (freshKey rnd j) = false).
    { apply String.eqb_neq. apply cableId_not_fresh; [exact Hid | lia]. }
    rewrite E in *.
    destruct (IH Hrest Hv eq_refl Hget) as [Hm Hf].
    cbn [map snd]. rewrite Hm. split; [reflexivity |].
    constructor; assumption.
Qed.

Lemma fresh_key_absent (n : nat) (byId : ById) :
  (n < total)%nat -> Forall (keyOk n) byId ->
  forall kv, In kv byId -> fst kv <> freshKey rnd n.
Proof.
  intros Hn Hall kv Hin. rewrite Forall_forall in Hall.
  specialize (Hall kv Hin). unfold keyOk in Hall.
  destruct (isCableEntry (snd kv)).
  - destruct Hall as [_ Hcid]. apply cableId_not_fresh; assumption.
  - destruct Hall as [j [Hj ->]]. intros E. apply freshKey_inj in E.
    destruct Hfresh as [H1 _]. apply (H1 j n); [lia | exact E].
Qed.

(** One step of the keyed loop is one step of the reference. *)
Lemma mergeStep_pureStep (n : nat) (byId : ById) (it : Material) :
  In it items ->
  (n + List.length (nonCables db [it]) <= total)%nat ->
  Forall (keyOk n) byId ->
  let st' := mergeStep db rnd (n, byId) it in
  fst st' = (n + List.length (nonCables db [it]))%nat /\
  map snd (snd st') = pureStep db (map snd byId) it /\
  Forall (keyOk (fst st')) (snd st').
Proof.
  intros Hin Hn Hall. cbn zeta. unfold mergeStep, pureStep, nonCables in *.
  cbn [filter] in *.
  destruct (isCable db it) eqn:Hc; cbn [negb List.length fst snd] in *.
  - assert (Hid : cableIdOf (mat_id it)) by (exists it; auto).
    rewrite (mapGet_findCable n) by (auto; lia).
    destruct (findCable (mat_id it) (map snd byId)) as [existing |] eqn:Hf.
    + apply findCable_Some in Hf as Hex. destruct Hex as [_ [Hce Heid]].
      assert (Hcm : isCableEntry (mergeInto existing it) = true)
        by (rewrite mergeInto_cable; exact Hce).
      assert (Hget : mapGet (mat_id it) byId <> None)
        by (rewrite (mapGet_findCable n) by (auto; lia); congruence).
      destruct (mapSet_replaceCable n (mat_id it) (mergeInto existing it) byId
                  ltac:(lia) Hid Hall Hcm Heid Hget) as [Hm Hk].
      cbn [fst snd]. rewrite Nat.add_0_r. auto.
    + rewrite mapSet_absent.
      * cbn [fst snd]. rewrite map_app. cbn [map snd]. rewrite Nat.add_0_r.
        repeat split. apply Forall_snoc; [exact Hall |].
        unfold keyOk. cbn [fst snd isCableEntry e_reasons e_mat].
        split; [reflexivity | exact Hid].
      * intros [k e] Hkv Hkeq. cbn [fst] in Hkeq. subst k.
        assert (Hg : mapGet (mat_id it) byId = None)
          by (rewrite (mapGet_findCable n) by (auto; lia); exact Hf).
        clear - Hkv Hg. induction byId as [| [k' e'] rest IH];
          [destruct Hkv |]. cbn [mapGet] in Hg.
        destruct (String.eqb (mat_id it) k') eqn:E; [discriminate |].
        destruct Hkv as [[= -> ->] | Hkv]; [| now apply IH].
        rewrite String.eqb_refl in E. discriminate.
  - fold (freshKey rnd n). rewrite mapSet_absent.
    + cbn [fst snd]. rewrite map_app. cbn [map snd].
      split; [lia |]. split; [reflexivity |].
      apply Forall_snoc.
      * eapply Forall_impl; [| exact Hall].
        intros kv. apply keyOk_mono. lia.
      * unfold keyOk. cbn [fst snd isCableEntry e_reasons].
        exists n. split; [lia | reflexivity].
    + apply fresh_key_absent; [lia | exact Hall].
Qed.

Lemma nonCables_app (l1 l2 : list Material) :
  nonCables db (l1 ++ l2) = nonCables db l1 ++ nonCables db l2.
Proof. apply filter_app. Qed.

Lemma mergeLoop_pure (l : list Material) :
  forall (n : nat) (byId : ById),
    incl l items ->
    (n + List.length (nonCables db l) <= total)%nat ->
    Forall (keyOk n) byId ->
    map snd (snd (fold_left (mergeStep db rnd) l (n, byId)))
    = fold_left (pureStep db) l (map snd byId).
Proof.
  induction l as [| it rest IH]; intros n byId Hincl Hn Hall;
    cbn [fold_left]; [reflexivity |].
  change (it :: rest) with ([it] ++ rest) in Hn.
  rewrite nonCables_app, length_app in Hn.
  destruct (mergeStep_pureStep n byId it) as [Hfst [Hsnd Hk]];
    [apply Hincl; now left | lia | exact Hall |].
  destruct (mergeStep db rnd (n, byId) it) as [n' byId'] eqn:Est.
  cbn [fst snd] in *. rewrite <- Hsnd. apply IH.
  - intros x Hx. apply Hincl. now right.
  - lia.
  - exact Hk.
Qed.

(** With fresh draws the merge is the reference merge. *)
Lemma mergeCableCoilsInBOM_pure :
  mergeCableCoilsInBOM rnd items db = mergePure db items.
Proof.
  unfold mergeCableCoilsInBOM, mergePure, collect.
  rewrite <- (map_map snd e_mat).
  f_equal. apply (mergeLoop_pure items 0 []).
  - apply incl_refl.
  - cbn. unfold total. lia.
  - constructor.
Qed.
End MergeSimulation.


(** *** What the reference merge computes *)

Lemma NoDup_snoc {A : Type} (l : list A) (x : A) :
  NoDup l /\ ~ In x l -> NoDup (l ++ [x]).
Proof.
  intros [Hl Hx]. induction Hl as [| a l Ha Hl IH]; cbn [app].
  - constructor; [intros [] | constructor].
  - constructor.
    + rewrite in_app_iff. intros [H | [H | []]]; [now apply Ha |].
      apply Hx. left. now symmetry.
    + apply IH. intros H. apply Hx. now right.
Qed.

Section MergeInvariants.
Variable db : CableDb.

(** The quantities of the lines merged under the cable id [c], in order. *)
Definition cableLines (c : string) (items : list Material) : list Material :=
  filter (fun it => isCable db it && String.eqb c (mat_id it)) items.

Definition cableQuantities (c : string) (items : list Material) : list number :=
  map mat_quantity (cableLines c items).

(** [Math.max(existing.quantity || 1, it.quantity || 1)]. *)
Definition quantityStep (acc q : number) : number :=
  Js.max (orElse acc 1) (orElse q 1).

Definition foldQuantity (q1 : number) (qs : list number) : number :=
  fold_left quantityStep qs q1.

Definition entryId (e : Entry) : string := mat_id (e_mat e).

Record AccInv (processed : list Material) (acc : list Entry) : Prop := {
  inv_cable : Forall (fun e => isCableEntry e = isCable db (e_mat e)) acc;
  inv_nodup : NoDup (map entryId (filter isCableEntry acc));
  inv_others :
    map e_mat (filter (fun e => negb (isCableEntry e)) acc)
    = nonCables db processed;
  inv_quantity :
    forall c,
      match cableQuantities c processed with
      | [] => findCable c acc = None
      | q1 :: qs =>
          exists e, findCable c acc = Some e /\
                    mat_quantity (e_mat e) = foldQuantity q1 qs
      end
}.

Lemma entryMatches_true (c : string) (e : Entry) :
  entryMatches c e = true <-> isCableEntry e = true /\ entryId e = c.
Proof.
  unfold entryMatches, entryId. rewrite andb_true_iff, String.eqb_eq.
  split; intros [H1 H2]; split; auto.
Qed.

Lemma findCable_app (c : string) (acc : list Entry) (e : Entry) :
  findCable c (acc ++ [e])
  = match findCable c acc with
    | Some x => Some x
    | None => if entryMatches c e then Some e else None
    end.
Proof.
  induction acc as [| x rest IH]; cbn [app findCable]; [reflexivity |].
  destruct (entryMatches c x); [reflexivity | exact IH].
Qed.

Lemma findCable_replace (c id : string) (v : Entry) (acc : list Entry) :
  findCable id acc <> None ->
  isCableEntry v = true -> entryId v = id ->
  findCable c (replaceCable id v acc)
  = if String.eqb c id then Some v else findCable c acc.
Proof.
  intros Hfound Hv Hid.
  assert (Hvm : entryMatches c v = String.eqb c id).
  { unfold entryMatches. rewrite Hv. cbn [andb]. unfold entryId in Hid.
    now rewrite Hid. }
  induction acc as [| x rest IH]; cbn [findCable replaceCable] in *;
    [congruence |].
  destruct (entryMatches id x) eqn:Ex.
  - cbn [findCable]. rewrite Hvm.
    destruct (String.eqb c id) eqn:Ec; [reflexivity |].
    assert (entryMatches c x = false).
    { apply entryMatches_true in Ex as [Hcx Hidx].
      unfold entryMatches. rewrite Hcx. cbn [andb].
      unfold entryId in Hidx. now rewrite Hidx. }
    now rewrite H.
  - cbn [findCable]. rewrite (IH Hfound).
    destruct (entryMatches c x) eqn:Ecx; [| reflexivity].
    destruct (String.eqb c id) eqn:Ec; [| reflexivity].
    apply String.eqb_eq in Ec. subst c. congruence.
Qed.

Lemma replaceCable_cable_ids (id : string) (v : Entry) (acc : list Entry) :
  findCable id acc <> None ->
  isCableEntry v = true -> entryId v = id ->
  map entryId (filter isCableEntry (replaceCable id v acc))
  = map entryId (filter isCableEntry acc).
Proof.
  intros Hfound Hv Hid.
  induction acc as [| x rest IH]; cbn [findCable replaceCable] in *;
    [congruence |].
  destruct (entryMatches id x) eqn:Ex.
  - apply entryMatches_true in Ex as [Hcx Hidx].
    cbn [filter]. rewrite Hv, Hcx. cbn [map]. congruence.
  - cbn [filter]. destruct (isCableEntry x); cbn [map];
      rewrite (IH Hfound); reflexivity.
Qed.

Lemma replaceCable_others (id : string) (v : Entry) (acc : list Entry) :
  findCable id acc <> None ->
  isCableEntry v = true ->
  filter (fun e => negb (isCableEntry e)) (replaceCable id v acc)
  = filter (fun e => negb (isCableEntry e)) acc.
Proof.
  intros Hfound Hv.
  induction acc as [| x rest IH]; cbn [findCable replaceCable] in *;
    [congruence |].
  destruct (entryMatches id x) eqn:Ex.
  - apply entryMatches_true in Ex as [Hcx _].
    cbn [filter]. rewrite Hv, Hcx. reflexivity.
  - cbn [filter]. rewrite (IH Hfound). reflexivity.
Qed.

Lemma replaceCable_Forall (P : Entry -> Prop) (id : string) (v : Entry)
    (acc : list Entry) :
  Forall P acc -> P v -> Forall P (replaceCable id v acc).
Proof.
  intros Hacc Hv. induction Hacc as [| x rest Hx Hrest IH];
    cbn [replaceCable]; [repeat constructor; exact Hv |].
  destruct (entryMatches id x); constructor; auto.
Qed.

Lemma cableLines_snoc (c : string) (processed : list Material) (it : Material) :
  cableLines c (processed ++ [it])
  = cableLines c processed
    ++ (if isCable db it && String.eqb c (mat_id it) then [it] else []).
Proof. unfold cableLines. rewrite filter_app. reflexivity. Qed.

Lemma cableQuantities_snoc (c : string) (processed : list Material) (it : Material) :
  cableQuantities c (processed ++ [it])
  = cableQuantities c processed
    ++ (if isCable db it && String.eqb c (mat_id it) then [mat_quantity it]
        else []).
Proof.
  unfold cableQuantities. rewrite cableLines_snoc, map_app.
  destruct (isCable db it && String.eqb c (mat_id it)); reflexivity.
Qed.

Lemma foldQuantity_snoc (q1 : number) (qs : list number) (q : number) :
  foldQuantity q1 (qs ++ [q]) = quantityStep (foldQuantity q1 qs) q.
Proof. unfold foldQuantity. rewrite fold_left_app. reflexivity. Qed.

Lemma AccInv_nil : AccInv [] [].
Proof. split; [constructor | constructor | reflexivity | intros c; reflexivity]. Qed.

Lemma AccInv_step (processed : list Material) (acc : list Entry) (it : Material) :
  AccInv processed acc -> AccInv (processed ++ [it]) (pureStep db acc it).
Proof.
  intros [Hcable Hnodup Hothers Hq]. unfold pureStep.
  destruct (isCable db it) eqn:Hc; cbn [negb].
  - pose proof (Hq (mat_id it)) as Hqid.
    destruct (findCable (mat_id it) acc) as [existing |] eqn:Hf.
    + (* the id is already present: in-place update *)
      apply findCable_Some in Hf as Hex. destruct Hex as [_ [Hce Heid]].
      assert (Hfound : findCable (mat_id it) acc <> None) by congruence.
      assert (Hvm : isCableEntry (mergeInto existing it) = true)
        by (rewrite mergeInto_cable; exact Hce).
      assert (Hvid : entryId (mergeInto existing it) = mat_id it)
        by (unfold entryId; rewrite mergeInto_id; exact Heid).
      split.
      * apply replaceCable_Forall; [exact Hcable |].
        rewrite Hvm. symmetry. rewrite <- Hc. apply isCable_id.
        rewrite mergeInto_id. exact Heid.
      * rewrite replaceCable_cable_ids by assumption. exact Hnodup.
      * rewrite replaceCable_others by assumption.
        unfold nonCables. rewrite filter_app. cbn [filter]. rewrite Hc.
        cbn [negb]. rewrite app_nil_r. exact Hothers.
      * intros c. rewrite cableQuantities_snoc, Hc. cbn [andb].
        rewrite findCable_replace by assumption.
        destruct (String.eqb c (mat_id it)) eqn:Ec.
        -- apply String.eqb_eq in Ec. subst c.
           destruct (cableQuantities (mat_id it) processed) as [| q1 qs];
             [congruence |].
           destruct Hqid as [e [He Hqe]]. injection He as He. subst e.
           cbn [app]. exists (mergeInto existing it). split; [reflexivity |].
           rewrite foldQuantity_snoc, <- Hqe. reflexivity.
        -- rewrite app_nil_r. apply Hq.
    + (* first line with this id *)
      split.
      * apply Forall_snoc; [exact Hcable |].
        cbn [isCableEntry e_reasons e_mat]. now symmetry.
      * rewrite filter_app, map_app. cbn [filter isCableEntry e_reasons map].
        unfold entryId at 2. cbn [e_mat].
        apply NoDup_snoc. split; [exact Hnodup |].
        intros Hin. apply in_map_iff in Hin as [e [He Hine]].
        apply filter_In in Hine as [Hine Hce].
        rewrite findCable_None in Hf. apply (Hf e Hine Hce). exact He.
      * rewrite filter_app. cbn [filter isCableEntry e_reasons negb].
        rewrite app_nil_r. unfold nonCables. rewrite filter_app.
        cbn [filter]. rewrite Hc. cbn [negb]. rewrite app_nil_r. exact Hothers.
      * intros c. rewrite cableQuantities_snoc, Hc. cbn [andb].
        rewrite findCable_app.
        change (entryMatches c (mkEntry it (Some [mat_description it])))
          with (String.eqb c (mat_id it)).
        destruct (String.eqb c (mat_id it)) eqn:Ec.
        -- apply String.eqb_eq in Ec. subst c. rewrite Hf.
           destruct (cableQuantities (mat_id it) processed) as [| q1 qs].
           ++ cbn [app]. eexists. split; reflexivity.
           ++ destruct Hqid as [e [He _]]. discriminate.
        -- rewrite app_nil_r. specialize (Hq c).
           destruct (cableQuantities c processed) as [| q1 qs].
           ++ rewrite Hq. reflexivity.
           ++ destruct Hq as [e [He Hqe]]. rewrite He. exists e. auto.
  - (* not a cable: appended under its own key *)
    split.
    + apply Forall_snoc; [exact Hcable |].
      cbn [isCableEntry e_reasons e_mat]. now symmetry.
    + rewrite filter_app. cbn [filter isCableEntry e_reasons].
      rewrite app_nil_r. exact Hnodup.
    + rewrite filter_app, map_app. cbn [filter isCableEntry e_reasons negb map e_mat].
      unfold nonCables. rewrite filter_app. cbn [filter]. rewrite Hc.
      cbn [negb]. fold (nonCables db processed). rewrite Hothers. reflexivity.
    + intros c. rewrite cableQuantities_snoc, Hc. cbn [andb].
      rewrite app_nil_r, findCable_app.
      change (entryMatches c (mkEntry it None)) with false.
      specialize (Hq c).
      destruct (cableQuantities c processed) as [| q1 qs].
      * rewrite Hq. reflexivity.
      * destruct Hq as [e [He Hqe]]. rewrite He. exists e. auto.
Qed.

Lemma AccInv_loop (l : list Material) :
  forall processed acc,
    AccInv processed acc ->
    AccInv (processed ++ l) (fold_left (pureStep db) l acc).
Proof.
  induction l as [| it rest IH]; intros processed acc H; cbn [fold_left].
  - rewrite app_nil_r. exact H.
  - change (it :: rest) with ([it] ++ rest). rewrite app_assoc.
    apply IH. apply AccInv_step. exact H.
Qed.

Lemma AccInv_final (items : list Material) :
  AccInv items (fold_left (pureStep db) items []).
Proof. apply (AccInv_loop items [] []). apply AccInv_nil. Qed.
End MergeInvariants.


(** *** Consequences for the merged list *)

Section MergeResults.
Variable db : CableDb.

Lemma nonCables_entries (acc : list Entry) :
  Forall (fun e => isCableEntry e = isCable db (e_mat e)) acc ->
  nonCables db (map e_mat acc)
  = map e_mat (filter (fun e => negb (isCableEntry e)) acc).
Proof.
  induction 1 as [| e rest He Hrest IH]; cbn [map filter nonCables];
    [reflexivity |].
  rewrite <- He. fold (nonCables db (map e_mat rest)). rewrite IH.
  destruct (isCableEntry e); reflexivity.
Qed.

Lemma cableLines_entries (c : string) (acc : list Entry) :
  Forall (fun e => isCableEntry e = isCable db (e_mat e)) acc ->
  cableLines db c (map e_mat acc) = map e_mat (filter (entryMatches c) acc).
Proof.
  induction 1 as [| e rest He Hrest IH]; cbn [map filter cableLines];
    [reflexivity |].
  fold (cableLines db c (map e_mat rest)). rewrite IH.
  assert (E : entryMatches c e
              = isCable db (e_mat e) && String.eqb c (mat_id (e_mat e)))
    by (unfold entryMatches; rewrite He; reflexivity).
  rewrite E.
  destruct (isCable db (e_mat e) && String.eqb c (mat_id (e_mat e)));
    reflexivity.
Qed.

Lemma cables_entries (acc : list Entry) :
  Forall (fun e => isCableEntry e = isCable db (e_mat e)) acc ->
  map mat_id (filter (isCable db) (map e_mat acc))
  = map entryId (filter isCableEntry acc).
Proof.
  induction 1 as [| e rest He Hrest IH]; cbn [map filter]; [reflexivity |].
  rewrite <- He. destruct (isCableEntry e); cbn [map]; rewrite IH; reflexivity.
Qed.

(** Non-cable lines go through the merge untouched, in order. *)
Lemma mergePure_nonCables (items : list Material) :
  nonCables db (mergePure db items) = nonCables db items.
Proof.
  destruct (AccInv_final db items) as [Hcable _ Hothers _].
  unfold mergePure. rewrite nonCables_entries by exact Hcable. exact Hothers.
Qed.

Lemma findCable_unique (c : string) (acc : list Entry) (e : Entry) :
  NoDup (map entryId (filter isCableEntry acc)) ->
  findCable c acc = Some e ->
  filter (entryMatches c) acc = [e].
Proof.
  induction acc as [| x rest IH]; cbn [findCable filter map];
    [discriminate |].
  intros Hnd. destruct (entryMatches c x) eqn:Ex.
  - intros [= <-]. f_equal.
    apply entryMatches_true in Ex as [Hcx Hidx]. rewrite Hcx in Hnd.
    cbn [map] in Hnd. inversion Hnd as [| ? ? Hnotin _]; subst.
    destruct (filter (entryMatches (entryId x)) rest) as [| y ys] eqn:Ef;
      [reflexivity |].
    exfalso. apply Hnotin.
    assert (Hy : In y (filter (entryMatches (entryId x)) rest))
      by (rewrite Ef; now left).
    apply filter_In in Hy as [Hyin Hym].
    apply entryMatches_true in Hym as [Hcy Hidy].
    apply in_map_iff. exists y. split; [exact Hidy |].
    apply filter_In. split; assumption.
  - intros Hf. apply IH; [| exact Hf].
    destruct (isCableEntry x); [| exact Hnd].
    cbn [map] in Hnd. now inversion Hnd.
Qed.

(** [fold_left Rmax qs q1]: the largest of the quantities [q1 :: qs]. *)
Definition listMax (q1 : number) (qs : list number) : number :=
  fold_left Rmax qs q1.

Lemma orElse_one_nonzero (q : number) : orElse q 1 <> 0.
Proof. unfold orElse. destruct (Req_dec_T q 0); [lra | assumption]. Qed.

Lemma quantityStep_Rmax (a q : number) :
  quantityStep a q = Rmax (orElse a 1) (orElse q 1).
Proof. unfold quantityStep. apply max_Rmax. Qed.

Lemma Rmax_nonzero (a b : number) : a <> 0 -> b <> 0 -> Rmax a b <> 0.
Proof. intros Ha Hb. unfold Rmax. destruct (Rle_dec a b); assumption. Qed.

Lemma fold_quantityStep_nonzero (qs : list number) :
  forall a, a <> 0 ->
    fold_left quantityStep qs a
    = fold_left Rmax (map (fun q => orElse q 1) qs) a.
Proof.
  induction qs as [| q rest IH]; intros a Ha; cbn [fold_left map];
    [reflexivity |].
  rewrite quantityStep_Rmax, (orElse_nonzero a 1 Ha).
  apply IH. apply Rmax_nonzero; [exact Ha | apply orElse_one_nonzero].
Qed.

(** Several merged lines: the largest of the quantities, a zero quantity
    counting for 1. *)
Lemma foldQuantity_several (q1 q2 : number) (qs : list number) :
  foldQuantity q1 (q2 :: qs)
  = listMax (orElse q1 1) (map (fun q => orElse q 1) (q2 :: qs)).
Proof.
  unfold foldQuantity, listMax. cbn [fold_left map].
  rewrite quantityStep_Rmax. apply fold_quantityStep_nonzero.
  apply Rmax_nonzero; apply orElse_one_nonzero.
Qed.

(** With non-zero quantities the merged quantity is their maximum. *)
Lemma foldQuantity_nonzero (q1 : number) (qs : list number) :
  (forall q, In q (q1 :: qs) -> q <> 0) ->
  foldQuantity q1 qs = listMax q1 qs.
Proof.
  intros Hnz. destruct qs as [| q2 qs]; [reflexivity |].
  rewrite foldQuantity_several.
  rewrite (orElse_nonzero q1 1) by (apply Hnz; now left).
  unfold listMax. f_equal.
  rewrite <- (map_id (q2 :: qs)) at 2. apply map_ext_in.
  intros q Hq. apply orElse_nonzero. apply Hnz. now right.
Qed.

(** One merged line per cable id, with the folded quantity. *)
Lemma mergePure_cable_line (items : list Material) (c : string)
    (q1 : number) (qs : list number) :
  cableQuantities db c items = q1 :: qs ->
  exists m,
    cableLines db c (mergePure db items) = [m] /\
    mat_quantity m = foldQuantity q1 qs.
Proof.
  intros Hqs. destruct (AccInv_final db items) as [Hcable Hnodup _ Hq].
  specialize (Hq c). rewrite Hqs in Hq. destruct Hq as [e [Hf Hqe]].
  exists (e_mat e). split; [| exact Hqe].
  unfold mergePure. rewrite cableLines_entries by exact Hcable.
  rewrite (findCable_unique c _ e Hnodup Hf). reflexivity.
Qed.

Lemma mergePure_cable_ids_NoDup (items : list Material) :
  NoDup (map mat_id (filter (isCable db) (mergePure db items))).
Proof.
  destruct (AccInv_final db items) as [Hcable Hnodup _ _].
  unfold mergePure. rewrite cables_entries by exact Hcable. exact Hnodup.
Qed.

(** Every cable line of the merged list has the id of a cable line of the
    input. *)
Lemma mergePure_cable_origin (items : list Material) (m : Material) :
  In m (mergePure db items) -> isCable db m = true ->
  exists it, In it items /\ isCable db it = true /\ mat_id it = mat_id m.
Proof.
  intros Hin Hc. destruct (AccInv_final db items) as [Hcable _ _ Hq].
  unfold mergePure in Hin. apply in_map_iff in Hin as [e [<- He]].
  rewrite Forall_forall in Hcable. pose proof (Hcable e He) as Hce.
  rewrite Hc in Hce. specialize (Hq (mat_id (e_mat e))).
  destruct (cableQuantities db (mat_id (e_mat e)) items) as [| q1 qs] eqn:Eq.
  - exfalso. rewrite findCable_None in Hq. now apply (Hq e He Hce).
  - unfold cableQuantities in Eq.
    destruct (cableLines db (mat_id (e_mat e)) items) as [| it rest] eqn:El;
      [discriminate |].
    assert (Hit : In it (cableLines db (mat_id (e_mat e)) items))
      by (rewrite El; now left).
    unfold cableLines in Hit. apply filter_In in Hit as [Hit Hm].
    apply andb_true_iff in Hm as [Hcit Hid]. apply String.eqb_eq in Hid.
    exists it. repeat split; auto.
Qed.

Definition toEntry (it : Material) : Entry :=
  mkEntry it (if isCable db it then Some [mat_description it] else None).

(** A list whose cable ids are pairwise distinct is left as it is. *)
Lemma pureLoop_distinct (l : list Material) :
  forall acc,
    NoDup (map mat_id (filter (isCable db) l)) ->
    (forall e it, In e acc -> isCableEntry e = true ->
                  In it l -> isCable db it = true ->
                  entryId e <> mat_id it) ->
    fold_left (pureStep db) l acc = acc ++ map toEntry l.
Proof.
  induction l as [| it rest IH]; intros acc Hnd Hdis; cbn [fold_left map].
  - now rewrite app_nil_r.
  - assert (Hstep : pureStep db acc it = acc ++ [toEntry it]).
    { unfold pureStep, toEntry. destruct (isCable db it) eqn:Hc; cbn [negb];
        [| reflexivity].
      assert (Hf : findCable (mat_id it) acc = None).
      { apply findCable_None. intros e He Hce. apply Hdis; auto. now left. }
      rewrite Hf. reflexivity. }
    rewrite Hstep, IH.
    + rewrite <- app_assoc. reflexivity.
    + cbn [filter] in Hnd. destruct (isCable db it); [| exact Hnd].
      cbn [map] in Hnd. now inversion Hnd.
    + intros e x He Hce Hx Hcx. apply in_app_iff in He as [He | [<- | []]].
      * apply Hdis; auto. now right.
      * unfold entryId, toEntry. cbn [e_mat].
        unfold toEntry, isCableEntry in Hce. cbn [e_reasons] in Hce.
        destruct (isCable db it) eqn:Hc; [| discriminate].
        cbn [filter] in Hnd. rewrite Hc in Hnd. cbn [map] in Hnd.
        inversion Hnd as [| ? ? Hnotin _]; subst.
        intros E. apply Hnotin. rewrite E. apply in_map.
        apply filter_In. split; assumption.
Qed.

Lemma mergePure_distinct (l : list Material) :
  NoDup (map mat_id (filter (isCable db) l)) -> mergePure db l = l.
Proof.
  intros Hnd. unfold mergePure.
  rewrite (pureLoop_distinct l [] Hnd) by (intros e it []).
  cbn [app]. rewrite map_map. cbn [toEntry e_mat]. apply map_id.
Qed.

(** The reference merge is idempotent. *)
Lemma mergePure_idempotent (items : list Material) :
  mergePure db (mergePure db items) = mergePure db items.
Proof. apply mergePure_distinct. apply mergePure_cable_ids_NoDup. Qed.

(** Draws that are fresh for a list are fresh for its merged list. *)
Lemma FreshKeys_merged (rnd : nat -> string) (items : list Material) :
  FreshKeys db rnd items -> FreshKeys db rnd (mergePure db items).
Proof.
  intros [H1 H2]. split; rewrite mergePure_nonCables.
  - exact H1.
  - intros j m Hj Hin Hc.
    destruct (mergePure_cable_origin items m Hin Hc) as [it [Hit [Hcit <-]]].
    now apply H2.
Qed.
End MergeResults.


(** *** The merge itself *)

Lemma findCable_none_filter (c : string) (acc : list Entry) :
  findCable c acc = None -> filter (entryMatches c) acc = [].
Proof.
  induction acc as [| x rest IH]; cbn [findCable filter]; [reflexivity |].
  destruct (entryMatches c x); [discriminate | exact IH].
Qed.

Lemma mergePure_no_new_id (db : CableDb) (items : list Material) (c : string) :
  cableQuantities db c items = [] -> cableLines db c (mergePure db items) = [].
Proof.
  intros Hqs. destruct (AccInv_final db items) as [Hcable _ _ Hq].
  specialize (Hq c). rewrite Hqs in Hq.
  unfold mergePure. rewrite cableLines_entries by exact Hcable.
  rewrite findCable_none_filter by exact Hq. reflexivity.
Qed.

(** The quantity kept for the lines [q1 :: qs] merged under one id. *)
Definition mergedQuantity (q1 : number) (qs : list number) : number :=
  match qs with
  | [] => q1
  | _ => listMax (orElse q1 1) (map (fun q => orElse q 1) qs)
  end.

Lemma foldQuantity_mergedQuantity (q1 : number) (qs : list number) :
  foldQuantity q1 qs = mergedQuantity q1 qs.
Proof.
  destruct qs as [| q2 qs]; [reflexivity |]. apply foldQuantity_several.
Qed.

(** C8 (amended). When the keys drawn for the non-cable lines are
    collision-free (pairwise distinct, and different from the cable ids), in
    the first run with [rnd] as in the second one with [rnd'], the merge
    keeps the non-cable lines as they are, in order; it leaves exactly
    one line per cable id, whose quantity is the quantity of the single
    candidate, or with several candidates the maximum (not the sum) of their
    quantities where a zero quantity counts for 1 -- hence the plain maximum
    when no candidate has a zero quantity; it creates no line for an id
    without candidate; and merging the merged list again gives the same list. *)
Theorem mergeCableCoilsInBOM_merges_cables_by_id
    (db : CableDb) (rnd rnd' : nat -> string) (items : list Material) :
  FreshKeys db rnd items -> FreshKeys db rnd' items ->
  let merged := mergeCableCoilsInBOM rnd items db in
  nonCables db merged = nonCables db items /\
  (forall c q1 qs,
      cableQuantities db c items = q1 :: qs ->
      exists m,
        cableLines db c merged = [m] /\
        mat_quantity m = mergedQuantity q1 qs /\
        ((forall q, In q (q1 :: qs) -> q <> 0) ->
         mat_quantity m = listMax q1 qs)) /\
  (forall c, cableQuantities db c items = [] -> cableLines db c merged = []) /\
  mergeCableCoilsInBOM rnd' merged db = merged.
Proof.
  intros Hfresh Hfresh' merged.
  assert (Hm : merged = mergePure db items)
    by (apply mergeCableCoilsInBOM_pure; exact Hfresh).
  rewrite Hm. split; [| split; [| split]].
  - apply mergePure_nonCables.
  - intros c q1 qs Hqs.
    destruct (mergePure_cable_line db items c q1 qs Hqs) as [m [Hline Hq]].
    exists m. split; [exact Hline |]. split.
    + rewrite Hq. apply foldQuantity_mergedQuantity.
    + intros Hnz. rewrite Hq. apply foldQuantity_nonzero. exact Hnz.
  - intros c. apply mergePure_no_new_id.
  - rewrite mergeCableCoilsInBOM_pure
      by (apply FreshKeys_merged; exact Hfresh').
    apply mergePure_idempotent.
Qed.

(** For a fixed list and catalog, two runs of the merge whose draws are
    both collision-free give the same list: the drawn keys then leave no trace
    in the result. *)
Theorem mergeCableCoilsInBOM_deterministic
    (db : CableDb) (rnd1 rnd2 : nat -> string) (items : list Material) :
  FreshKeys db rnd1 items -> FreshKeys db rnd2 items ->
  mergeCableCoilsInBOM rnd1 items db = mergeCableCoilsInBOM rnd2 items db.
Proof.
  intros H1 H2.
  rewrite (mergeCableCoilsInBOM_pure db rnd1 items H1).
  rewrite (mergeCableCoilsInBOM_pure db rnd2 items H2).
  reflexivity.
Qed.

(** Sample lines: two coils of the same cable and a clamp. *)
Definition coil (q : number) (why : string) : Material :=
  mkMaterial "CABLE-DC-6" why q None None.

Definition clamp : Material := mkMaterial "K2-CLAMP" "Etrier" 8 None None.

Definition hook : Material := mkMaterial "K2-HOOK" "Crochet" 12 None None.

Definition sampleBOM : list Material := [coil 2 "MPPT 1"; clamp; coil 3 "MPPT 2"].

(** A first draw rendered as "0.25", the next ones as "0.75". *)
Definition spreadDraws (n : nat) : string :=
  match n with O => "0.25"%string | _ => "0.75"%string end.

(** Draws rendered as "0.5" whatever the call. *)
Definition constantDraws (n : nat) : string := "0.5"%string.

Lemma sampleBOM_nonCables : nonCables None sampleBOM = [clamp].
Proof. reflexivity. Qed.

(** With a single non-cable line and a cable id that is no drawn key, every
    sequence of draws is collision-free. *)
Lemma sampleBOM_fresh (rnd : nat -> string) : FreshKeys None rnd sampleBOM.
Proof.
  split; rewrite sampleBOM_nonCables; cbn [List.length].
  - intros i j Hij. lia.
  - intros j it Hj Hin Hc. unfold freshKey.
    destruct Hin as [<- | [<- | [<- | []]]]; discriminate.
Qed.

Lemma mergeCableCoilsInBOM_merges_cables_by_id_witness :
  nonCables None (mergeCableCoilsInBOM spreadDraws sampleBOM None)
    = nonCables None sampleBOM /\
  mergeCableCoilsInBOM constantDraws
    (mergeCableCoilsInBOM spreadDraws sampleBOM None) None
  = mergeCableCoilsInBOM spreadDraws sampleBOM None.
Proof.
  destruct (mergeCableCoilsInBOM_merges_cables_by_id None spreadDraws
              constantDraws sampleBOM (sampleBOM_fresh spreadDraws)
              (sampleBOM_fresh constantDraws)) as [H1 [_ [_ H4]]].
  split; [exact H1 | exact H4].
Defined.

Lemma mergeCableCoilsInBOM_deterministic_witness :
  mergeCableCoilsInBOM spreadDraws sampleBOM None
  = mergeCableCoilsInBOM constantDraws sampleBOM None.
Proof.
  apply mergeCableCoilsInBOM_deterministic; apply sampleBOM_fresh.
Defined.

(** The sample merge, evaluated: one coil line with quantity 3 and both
    reasons, the clamp untouched. *)
Example sampleBOM_merged :
  mergeCableCoilsInBOM spreadDraws sampleBOM None
  = [mkMaterial "CABLE-DC-6" "MPPT 1 / MPPT 2" 3 None None; clamp].
Proof.
  cbv -[orElse Js.max IZR].
  rewrite !orElse_nonzero by lra. rewrite max_r by lra. reflexivity.
Qed.

(** C8, as stated, fails on zero quantities: two candidates with quantity 0
    are merged into a line of quantity 1, not their maximum 0.  It also fails
    when two drawn keys coincide: the second non-cable line then replaces the
    first one. *)
Lemma merged_quantity_of_zero_lines :
  (map mat_quantity
     (mergeCableCoilsInBOM spreadDraws [coil 0 "AC1"; coil 0 "AC2"] None)
   = [1] /\
   Rmax (mat_quantity (coil 0 "AC1")) (mat_quantity (coil 0 "AC2")) = 0) /\
  (nonCables None [clamp; hook] = [clamp; hook] /\
   nonCables None (mergeCableCoilsInBOM constantDraws [clamp; hook] None)
   = [hook]).
Proof.
  split; split.
  - cbv -[orElse Js.max IZR].
    rewrite !orElse_zero. rewrite max_r by lra. reflexivity.
  - cbn. apply Rmax_left. lra.
  - reflexivity.
  - reflexivity.
Qed.

(** C9. The merge misses the determinism the claim states when two of
    its draws collide.  The keys of the non-cable lines are meant to be unique
    (the source comments the draw with `force unique`), but they are only
    random: with the same key drawn twice the second non-cable line overwrites
    the first one, so the same list gives [hook] on such a run and
    [clamp; hook] on a run with distinct draws. *)
Lemma merge_result_depends_on_colliding_draws :
  mergeCableCoilsInBOM constantDraws [clamp; hook] None = [hook] /\
  mergeCableCoilsInBOM spreadDraws [clamp; hook] None = [clamp; hook] /\
  mergeCableCoilsInBOM constantDraws [clamp; hook] None
  <> mergeCableCoilsInBOM spreadDraws [clamp; hook] None.
Proof.
  assert (H1 : mergeCableCoilsInBOM constantDraws [clamp; hook] None = [hook])
    by reflexivity.
  assert (H2 : mergeCableCoilsInBOM spreadDraws [clamp; hook] None
               = [clamp; hook]) by reflexivity.
  split; [exact H1 |]. split; [exact H2 |].
  rewrite H1, H2. discriminate.
Qed.

End AppFacts.


(** * Further properties

    ** Rounding *)

Module JsMore.
Import Js JsFacts.

Lemma ceil_bounds (x : number) : x <= ceil x < x + 1.
Proof.
  unfold ceil. destruct (base_Int_part (- x)) as [H1 H2]. lra.
Qed.

Lemma ceil_whole (x : number) : exists z, ceil x = IZR z.
Proof. unfold ceil. eexists. rewrite <- opp_IZR. reflexivity. Qed.

(** The ceiling of a positive number is at least 1. *)
Lemma ceil_positive (x : number) : 0 < x -> 1 <= ceil x.
Proof.
  intros Hx. destruct (ceil_whole x) as [z Hz].
  pose proof (ceil_bounds x) as [Hb _]. rewrite Hz in *.
  assert (0 < z)%Z by (apply lt_IZR; lra).
  apply IZR_le. lia.
Qed.

(** The ceiling is the least whole number at or above its argument. *)
Lemma ceil_least (x : number) (z : Z) : x <= IZR z -> ceil x <= IZR z.
Proof.
  intros Hx. destruct (ceil_whole x) as [c Hc].
  pose proof (ceil_bounds x) as [_ Hb]. rewrite Hc in *.
  assert (c < z + 1)%Z by (apply lt_IZR; rewrite plus_IZR; lra).
  apply IZR_le. lia.
Qed.

Lemma ceil_monotone (x y : number) : x <= y -> ceil x <= ceil y.
Proof.
  intros Hxy. destruct (ceil_whole y) as [c Hc]. rewrite Hc.
  apply ceil_least. pose proof (ceil_bounds y). lra.
Qed.

Lemma max_whole (a b : number) :
  (exists z, a = IZR z) -> (exists z, b = IZR z) -> exists z, Js.max a b = IZR z.
Proof. intros Ha Hb. unfold Js.max. destruct (Rle_dec a b); assumption. Qed.

End JsMore.

(** Decimal literals as fractions, for [field]. *)
Ltac decimals := cbv [Q2R QArith_base.Qnum QArith_base.Qden].

(** ** Facts about binary64 rounding *)

Module Binary64Facts.
Import Js Binary64.

Lemma pow2_powerRZ (e : Z) : pow2 e = powerRZ 2 e.
Proof.
  destruct e as [| p | p]; cbn [pow2].
  - reflexivity.
  - apply Zpower_pos_powerRZ.
  - rewrite Zpower_pos_powerRZ. reflexivity.
Qed.

Lemma pow2_pos (e : Z) : 0 < pow2 e.
Proof. rewrite pow2_powerRZ. apply powerRZ_lt. lra. Qed.

Lemma pow2_add (a b : Z) : pow2 (a + b) = pow2 a * pow2 b.
Proof. rewrite !pow2_powerRZ. apply powerRZ_add. lra. Qed.

Lemma pow2_IZR (e : Z) : (0 <= e)%Z -> pow2 e = IZR (2 ^ e).
Proof. destruct e as [| p | p]; intros H; [reflexivity | reflexivity | lia]. Qed.

Lemma pow2_le (a b : Z) : (a <= b)%Z -> pow2 a <= pow2 b.
Proof.
  intros H. replace b with (a + (b - a))%Z by lia. rewrite pow2_add.
  pose proof (pow2_pos a). rewrite (pow2_IZR (b - a)) by lia.
  assert (1 <= IZR (2 ^ (b - a))).
  { apply IZR_le. pose proof (Z.pow_pos_nonneg 2 (b - a)). lia. }
  nra.
Qed.

Lemma pow2_lt_inv (a b : Z) : pow2 a < pow2 b -> (a < b)%Z.
Proof.
  intros H. destruct (Z.lt_ge_cases a b) as [L | L]; [exact L |].
  apply pow2_le in L. lra.
Qed.

Lemma pow2_cancel (e : Z) : pow2 (- e) * pow2 e = 1.
Proof. rewrite <- pow2_add. replace (- e + e)%Z with 0%Z by lia. reflexivity. Qed.

(** *** The integer part *)

Lemma floor_spec (y : R) : IZR (Int_part y) <= y < IZR (Int_part y) + 1.
Proof. destruct (base_Int_part y). lra. Qed.

Lemma floor_unique (y : R) (k : Z) : IZR k <= y < IZR k + 1 -> Int_part y = k.
Proof. intros H. symmetry. apply Int_part_spec. lra. Qed.

Lemma floor_IZR (k : Z) : Int_part (IZR k) = k.
Proof. apply floor_unique. lra. Qed.

Lemma floor_monotone (x y : R) : x <= y -> (Int_part x <= Int_part y)%Z.
Proof.
  intros H. pose proof (floor_spec x). pose proof (floor_spec y).
  assert (Int_part x < Int_part y + 1)%Z by (apply lt_IZR; rewrite plus_IZR; lra).
  lia.
Qed.

(** *** Rounding to the nearest integer *)

Lemma rne_cases (y : R) : rne y = Int_part y \/ rne y = (Int_part y + 1)%Z.
Proof.
  unfold rne. repeat destruct (Rlt_dec _ _); try destruct (Z.even _); auto.
Qed.

Lemma rne_IZR (k : Z) : rne (IZR k) = k.
Proof.
  unfold rne. rewrite floor_IZR.
  destruct (Rlt_dec (IZR k - IZR k) (/ 2)); [reflexivity | lra].
Qed.

Lemma rne_unique (y : R) (m : Z) :
  IZR m - / 2 < y < IZR m + / 2 -> rne y = m.
Proof.
  intros H. destruct (Rle_dec (IZR m) y) as [L | L].
  - assert (E : Int_part y = m) by (apply floor_unique; lra).
    unfold rne. rewrite E.
    destruct (Rlt_dec (y - IZR m) (/ 2)); [reflexivity | lra].
  - assert (E : Int_part y = (m - 1)%Z).
    { apply floor_unique. rewrite minus_IZR. lra. }
    unfold rne. rewrite E, minus_IZR.
    destruct (Rlt_dec (y - (IZR m - 1)) (/ 2)); [lra |].
    destruct (Rlt_dec (/ 2) (y - (IZR m - 1))); [lia | lra].
Qed.

(** On a half, the even neighbour. *)
Lemma rne_nearest (y : R) (m : Z) :
  IZR m - / 2 <= y <= IZR m + / 2 ->
  Z.even m = true \/ IZR m - / 2 < y < IZR m + / 2 ->
  rne y = m.
Proof.
  intros Hy [Hev | Hs]; [| apply rne_unique; exact Hs].
  destruct (Req_dec_T y (IZR m - / 2)) as [E1 | N1];
    [| destruct (Req_dec_T y (IZR m + / 2)) as [E2 | N2]].
  - assert (F : Int_part y = (m - 1)%Z).
    { apply floor_unique. rewrite minus_IZR. lra. }
    unfold rne. rewrite F, minus_IZR.
    replace (Z.even (m - 1)) with false.
    2:{ replace (m - 1)%Z with (Z.pred m) by lia.
        rewrite Z.even_pred, <- Z.negb_even, Hev. reflexivity. }
    repeat destruct (Rlt_dec _ _); try (exfalso; lra); lia.
  - assert (F : Int_part y = m) by (apply floor_unique; lra).
    unfold rne. rewrite F, Hev.
    repeat destruct (Rlt_dec _ _); try (exfalso; lra); lia.
  - apply rne_unique. lra.
Qed.

Lemma rne_monotone (x y : R) : x <= y -> (rne x <= rne y)%Z.
Proof.
  intros H. pose proof (floor_monotone x y H) as Hf.
  destruct (Z.eq_dec (Int_part x) (Int_part y)) as [E | E].
  - unfold rne. rewrite E.
    repeat destruct (Rlt_dec _ _); try destruct (Z.even _); try lia;
      exfalso; lra.
  - destruct (rne_cases x), (rne_cases y); lia.
Qed.

Lemma rne_opp (y : R) : rne (- y) = (- rne y)%Z.
Proof.
  pose proof (floor_spec y) as Hy.
  destruct (Req_dec_T y (IZR (Int_part y))) as [E | E].
  - rewrite E, <- opp_IZR, !rne_IZR. reflexivity.
  - assert (F : Int_part (- y) = (- Int_part y - 1)%Z).
    { apply floor_unique. rewrite minus_IZR, opp_IZR. lra. }
    unfold rne. rewrite F, minus_IZR, opp_IZR.
    replace (Z.even (- Int_part y - 1)) with (negb (Z.even (Int_part y))).
    2:{ replace (- Int_part y - 1)%Z with (- (Int_part y + 1))%Z by lia.
        rewrite Z.even_opp, Z.add_1_r, Z.even_succ, <- Z.negb_even.
        reflexivity. }
    repeat destruct (Rlt_dec _ _); try (exfalso; lra); try lia.
    destruct (Z.even (Int_part y)); cbn [negb]; lia.
Qed.

(** *** The exponent *)

Lemma exponent_opp (x : R) : exponent (- x) = exponent x.
Proof. unfold exponent. rewrite Rabs_Ropp. reflexivity. Qed.

Lemma exponent_min (x : R) : (-1074 <= exponent x)%Z.
Proof. unfold exponent. lia. Qed.

Lemma scaled_nonneg (x : R) : 0 <= Rabs x * pow2 1074.
Proof.
  apply Rmult_le_pos; [apply Rabs_pos | apply Rlt_le, pow2_pos].
Qed.

Lemma unscale (x : R) (e : Z) :
  Rabs x * pow2 1074 < pow2 (e + 1074) -> Rabs x < pow2 e.
Proof.
  rewrite pow2_add. pose proof (pow2_pos 1074) as Hp. intros H.
  apply Rmult_lt_reg_r with (pow2 1074); assumption.
Qed.

Lemma unscale_le (x : R) (e : Z) :
  pow2 (e + 1074) <= Rabs x * pow2 1074 -> pow2 e <= Rabs x.
Proof.
  rewrite pow2_add. pose proof (pow2_pos 1074) as Hp. intros H.
  apply Rmult_le_reg_r with (pow2 1074); assumption.
Qed.

Lemma exponent_upper (x : R) : Rabs x < pow2 (exponent x + 53).
Proof.
  apply unscale. unfold exponent.
  set (s := Rabs x * pow2 1074). set (n := Int_part s).
  pose proof (floor_spec s) as Hs. fold n in Hs.
  destruct (Z.lt_ge_cases 0 n) as [Hn | Hn].
  - pose proof (Z.log2_spec n Hn) as [_ Hl].
    pose proof (Z.log2_nonneg n) as Hl0.
    apply Rlt_le_trans with (IZR (2 ^ Z.succ (Z.log2 n))).
    + apply Rlt_le_trans with (IZR n + 1); [lra |].
      rewrite <- plus_IZR. apply IZR_le. lia.
    + rewrite <- pow2_IZR by lia. apply pow2_le. lia.
  - apply Rlt_le_trans with 1.
    + assert (IZR n <= 0) by (apply IZR_le; exact Hn). lra.
    + change 1 with (pow2 0). apply pow2_le.
      pose proof (Z.log2_nonneg n). lia.
Qed.

Lemma exponent_lower (x : R) :
  (-1074 < exponent x)%Z -> pow2 (exponent x + 52) <= Rabs x.
Proof.
  intros H. apply unscale_le. revert H. unfold exponent.
  set (s := Rabs x * pow2 1074). set (n := Int_part s). intros H.
  pose proof (floor_spec s) as Hs. fold n in Hs.
  assert (Hl : (52 < Z.log2 n)%Z) by lia.
  assert (Hn : (0 < n)%Z).
  { destruct (Z.lt_ge_cases 0 n) as [L | L]; [exact L |].
    rewrite (Z.log2_nonpos n L) in Hl. lia. }
  pose proof (Z.log2_spec n Hn) as [Hlow _].
  replace (Z.max (Z.log2 n - 52) 0 - 1074 + 52 + 1074)%Z with (Z.log2 n) by lia.
  rewrite pow2_IZR by lia.
  apply Rle_trans with (IZR n); [apply IZR_le; exact Hlow | lra].
Qed.

Lemma exponent_unique (x : R) (e : Z) :
  (-1074 <= e)%Z ->
  Rabs x < pow2 (e + 53) ->
  (e = (-1074)%Z \/ pow2 (e + 52) <= Rabs x) ->
  exponent x = e.
Proof.
  intros He Hup Hlow.
  pose proof (exponent_min x) as Hmin.
  pose proof (exponent_upper x) as Hup'.
  destruct (Z.lt_trichotomy (exponent x) e) as [L | [E | L]]; [| exact E |].
  - destruct Hlow as [-> | Hlow]; [lia |].
    assert (pow2 (exponent x + 53) <= pow2 (e + 52)) by (apply pow2_le; lia).
    lra.
  - assert (Hl : pow2 (exponent x + 52) <= Rabs x)
      by (apply exponent_lower; lia).
    assert (pow2 (e + 53) <= pow2 (exponent x + 52)) by (apply pow2_le; lia).
    lra.
Qed.

(** *** Rounding to binary64 *)

Lemma fl_0 : fl 0 = 0.
Proof.
  unfold fl. rewrite Rmult_0_l. change 0 with (IZR 0) at 1.
  rewrite rne_IZR. lra.
Qed.

Lemma fl_opp (x : R) : fl (- x) = - fl x.
Proof.
  unfold fl. rewrite exponent_opp.
  rewrite <- Ropp_mult_distr_l, rne_opp, opp_IZR. lra.
Qed.

(** A value is settled by its binade and its nearest multiple of the last
    place (the even one on a half). *)
Lemma fl_eval (x : R) (m e : Z) :
  (-1074 <= e)%Z ->
  Rabs x < pow2 (e + 53) ->
  (e = (-1074)%Z \/ pow2 (e + 52) <= Rabs x) ->
  (IZR m - / 2) * pow2 e <= x <= (IZR m + / 2) * pow2 e ->
  (Z.even m = true
   \/ (IZR m - / 2) * pow2 e < x < (IZR m + / 2) * pow2 e) ->
  fl x = dy m e.
Proof.
  intros He Hup Hlow Hm Ht. unfold fl, dy.
  rewrite (exponent_unique x e He Hup Hlow).
  pose proof (pow2_pos (- e)) as Hp. pose proof (pow2_cancel e) as Hc.
  assert (E1 : IZR m - / 2 = (IZR m - / 2) * pow2 e * pow2 (- e))
    by (rewrite Rmult_assoc, (Rmult_comm (pow2 e)), Hc; lra).
  assert (E2 : IZR m + / 2 = (IZR m + / 2) * pow2 e * pow2 (- e))
    by (rewrite Rmult_assoc, (Rmult_comm (pow2 e)), Hc; lra).
  rewrite (rne_nearest (x * pow2 (- e)) m); [reflexivity | |].
  - rewrite E1, E2. split; apply Rmult_le_compat_r; lra.
  - destruct Ht as [Hev | Hs]; [left; exact Hev | right].
    rewrite E1, E2. split; apply Rmult_lt_compat_r; lra.
Qed.

(** Binary64 numbers are not changed by rounding. *)
Lemma fl_dy (m e : Z) :
  (Z.abs m < 2 ^ 53)%Z -> (-1074 <= e)%Z -> fl (dy m e) = dy m e.
Proof.
  intros Hm He. remember (dy m e) as x eqn:Ex.
  assert (Hx : Rabs x < pow2 (e + 53)).
  { rewrite Ex. unfold dy. rewrite Rabs_mult, (Rabs_pos_eq (pow2 e))
      by apply Rlt_le, pow2_pos.
    rewrite pow2_add, (Rmult_comm (Rabs (IZR m))).
    apply Rmult_lt_compat_l; [apply pow2_pos |].
    rewrite <- abs_IZR, pow2_IZR by lia. apply IZR_lt. exact Hm. }
  assert (HE : (exponent x <= e)%Z).
  { pose proof (exponent_min x).
    destruct (Z.lt_ge_cases (-1074) (exponent x)) as [L | L]; [| lia].
    pose proof (exponent_lower x L).
    assert (exponent x + 52 < e + 53)%Z by (apply pow2_lt_inv; lra).
    lia. }
  unfold fl.
  assert (Hs : x * pow2 (- exponent x) = IZR (m * 2 ^ (e - exponent x))).
  { rewrite mult_IZR, <- pow2_IZR by lia.
    replace (e - exponent x)%Z with (e + - exponent x)%Z by lia.
    rewrite pow2_add, Ex at 1. unfold dy. ring. }
  rewrite Hs, rne_IZR, mult_IZR, <- pow2_IZR by lia.
  rewrite Rmult_assoc, <- pow2_add.
  replace (e - exponent x + exponent x)%Z with e by lia.
  rewrite Ex. reflexivity.
Qed.

Lemma fl_IZR (n : Z) : (Z.abs n < 2 ^ 53)%Z -> fl (IZR n) = IZR n.
Proof.
  intros H. replace (IZR n) with (dy n 0) by (unfold dy; cbn [pow2]; lra).
  apply fl_dy; [exact H | lia].
Qed.

Lemma fl_nonneg (x : R) : 0 <= x -> 0 <= fl x.
Proof.
  intros H. unfold fl. apply Rmult_le_pos; [| apply Rlt_le, pow2_pos].
  apply IZR_le. rewrite <- (rne_IZR 0). apply rne_monotone.
  apply Rmult_le_pos; [exact H | apply Rlt_le, pow2_pos].
Qed.

Lemma rne_scaled_below (x : R) (e k : Z) :
  (0 <= k)%Z -> x <= pow2 (e + k) -> (rne (x * pow2 (- e)) <= 2 ^ k)%Z.
Proof.
  intros Hk H. rewrite <- (rne_IZR (2 ^ k)). apply rne_monotone.
  rewrite <- pow2_IZR by exact Hk.
  pose proof (pow2_pos (- e)) as Hp. pose proof (pow2_cancel e) as Hc.
  replace (pow2 k) with (pow2 (e + k) * pow2 (- e)).
  - apply Rmult_le_compat_r; lra.
  - rewrite pow2_add. rewrite (Rmult_comm (pow2 e)), Rmult_assoc.
    rewrite (Rmult_comm (pow2 e)), Hc. lra.
Qed.

Lemma rne_scaled_above (x : R) (e k : Z) :
  (0 <= k)%Z -> pow2 (e + k) <= x -> (2 ^ k <= rne (x * pow2 (- e)))%Z.
Proof.
  intros Hk H. rewrite <- (rne_IZR (2 ^ k)). apply rne_monotone.
  rewrite <- pow2_IZR by exact Hk.
  pose proof (pow2_pos (- e)) as Hp. pose proof (pow2_cancel e) as Hc.
  replace (pow2 k) with (pow2 (e + k) * pow2 (- e)).
  - apply Rmult_le_compat_r; lra.
  - rewrite pow2_add. rewrite (Rmult_comm (pow2 e)), Rmult_assoc.
    rewrite (Rmult_comm (pow2 e)), Hc. lra.
Qed.

Lemma fl_monotone_nonneg (x y : R) : 0 <= x -> x <= y -> fl x <= fl y.
Proof.
  intros Hx Hxy.
  pose proof (exponent_upper x) as Ux. pose proof (exponent_upper y) as Uy.
  rewrite Rabs_pos_eq in Ux by lra. rewrite Rabs_pos_eq in Uy by lra.
  destruct (Z.lt_trichotomy (exponent x) (exponent y)) as [L | [E | L]].
  - pose proof (exponent_min x) as Hmin.
    assert (Ly : pow2 (exponent y + 52) <= Rabs y)
      by (apply exponent_lower; lia).
    rewrite Rabs_pos_eq in Ly by lra.
    apply Rle_trans with (pow2 (exponent x + 53)).
    + unfold fl. rewrite (Z.add_comm (exponent x)), pow2_add.
      apply Rmult_le_compat_r; [apply Rlt_le, pow2_pos |].
      rewrite (pow2_IZR 53) by lia. apply IZR_le.
      apply rne_scaled_below; [lia | lra].
    + apply Rle_trans with (pow2 (exponent y + 52));
        [apply pow2_le; lia |].
      unfold fl. rewrite (Z.add_comm (exponent y)), pow2_add.
      apply Rmult_le_compat_r; [apply Rlt_le, pow2_pos |].
      rewrite (pow2_IZR 52) by lia. apply IZR_le.
      apply rne_scaled_above; [lia | lra].
  - unfold fl. rewrite E.
    apply Rmult_le_compat_r; [apply Rlt_le, pow2_pos |].
    apply IZR_le, rne_monotone.
    apply Rmult_le_compat_r; [apply Rlt_le, pow2_pos | exact Hxy].
  - exfalso. pose proof (exponent_min y) as Hmin.
    assert (Lx : pow2 (exponent x + 52) <= Rabs x)
      by (apply exponent_lower; lia).
    rewrite Rabs_pos_eq in Lx by lra.
    assert (pow2 (exponent y + 53) <= pow2 (exponent x + 52))
      by (apply pow2_le; lia).
    lra.
Qed.

(** Rounding preserves the order. *)
Lemma fl_monotone (x y : R) : x <= y -> fl x <= fl y.
Proof.
  intros H. destruct (Rle_dec 0 x) as [Hx | Hx].
  - apply fl_monotone_nonneg; assumption.
  - destruct (Rle_dec 0 y) as [Hy | Hy].
    + apply Rle_trans with 0; [| apply fl_nonneg; exact Hy].
      assert (0 <= fl (- x)) by (apply fl_nonneg; lra).
      rewrite fl_opp in H0. lra.
    + assert (fl (- y) <= fl (- x)) by (apply fl_monotone_nonneg; lra).
      rewrite !fl_opp in H0. lra.
Qed.

End Binary64Facts.

(** ** Evaluating binary64 expressions *)

Module Binary64Eval.
Import Js Binary64 Binary64Facts.

(** The fraction [m * 2^e]. *)
Definition dyQ (m e : Z) : QArith_base.Q :=
  match e with
  | Z0 => QArith_base.Qmake m 1
  | Zpos p => QArith_base.Qmake (m * Z.pow_pos 2 p) 1
  | Zneg p => QArith_base.Qmake m (Pos.pow 2 p)
  end.

(** [floor (log2 (n / d))] for positive [n] and [d]. *)
Definition magQ (n d : Z) : Z :=
  let k := (Z.log2 n - Z.log2 d)%Z in
  let below :=
    if (0 <=? k)%Z then (n <? d * 2 ^ k)%Z else (n * 2 ^ (- k) <? d)%Z in
  if below then (k - 1)%Z else k.

(** [n / d] rounded to the nearest integer, halves to the even one. *)
Definition nearestQ (n d : Z) : Z :=
  let q := (n / d)%Z in
  let r := (n mod d)%Z in
  if (2 * r <? d)%Z then q
  else if (d <? 2 * r)%Z then (q + 1)%Z
  else if Z.even q then q else (q + 1)%Z.

(** Mantissa and exponent of the binary64 number nearest to a fraction. *)
Definition roundQ (q : QArith_base.Q) : Z * Z :=
  let n := QArith_base.Qnum q in
  let d := Zpos (QArith_base.Qden q) in
  let a := Z.abs n in
  if (a =? 0)%Z then (0%Z, (-1074)%Z)
  else
    let e := Z.max (magQ a d - 52) (-1074) in
    let m := if (0 <=? e)%Z then nearestQ a (d * 2 ^ e)
             else nearestQ (a * 2 ^ (- e)) d in
    ((Z.sgn n * m)%Z, e).

Lemma fl_eval_pos (x : R) (m e : Z) :
  (-1074 <= e)%Z ->
  0 <= x < pow2 (e + 53) ->
  (e = (-1074)%Z \/ pow2 (e + 52) <= x) ->
  (IZR m - / 2) * pow2 e <= x <= (IZR m + / 2) * pow2 e ->
  (Z.even m = true
   \/ (IZR m - / 2) * pow2 e < x < (IZR m + / 2) * pow2 e) ->
  fl x = dy m e.
Proof.
  intros He [Hx Hup] Hlow Hm Ht.
  apply fl_eval; rewrite ?Rabs_pos_eq by exact Hx; assumption.
Qed.

Lemma fl_eval_neg (x : R) (m e : Z) :
  (-1074 <= e)%Z ->
  0 <= - x < pow2 (e + 53) ->
  (e = (-1074)%Z \/ pow2 (e + 52) <= - x) ->
  (IZR m - / 2) * pow2 e <= x <= (IZR m + / 2) * pow2 e ->
  (Z.even m = true
   \/ (IZR m - / 2) * pow2 e < x < (IZR m + / 2) * pow2 e) ->
  fl x = dy m e.
Proof.
  intros He [Hx Hup] Hlow Hm Ht.
  apply fl_eval; try assumption.
  - rewrite <- Rabs_Ropp, Rabs_pos_eq by exact Hx. exact Hup.
  - rewrite <- Rabs_Ropp, Rabs_pos_eq by exact Hx. exact Hlow.
Qed.

End Binary64Eval.

(** Powers of two and dyadic numbers as numerals. *)
Ltac pow2_numerals :=
  cbv [Binary64.dy];
  repeat match goal with
  | |- context [Binary64.pow2 ?e] =>
      let e' := eval vm_compute in e in
      lazymatch e' with
      | Z0 => change (Binary64.pow2 e) with 1
      | Zpos ?p =>
          let z := eval vm_compute in (Z.pow_pos 2 p) in
          change (Binary64.pow2 e) with (IZR z)
      | Zneg ?p =>
          let z := eval vm_compute in (Z.pow_pos 2 p) in
          change (Binary64.pow2 e) with (/ IZR z)
      end
  end.

(** A closed arithmetic expression as a fraction. *)
Ltac fraction_of x :=
  lazymatch x with
  | ?a + ?b =>
      let p := fraction_of a in let q := fraction_of b in
      constr:(QArith_base.Qplus p q)
  | ?a - ?b =>
      let p := fraction_of a in let q := fraction_of b in
      constr:(QArith_base.Qminus p q)
  | ?a * ?b =>
      let p := fraction_of a in let q := fraction_of b in
      constr:(QArith_base.Qmult p q)
  | ?a / ?b =>
      let p := fraction_of a in let q := fraction_of b in
      constr:(QArith_base.Qdiv p q)
  | - ?a => let p := fraction_of a in constr:(QArith_base.Qopp p)
  | / ?a => let p := fraction_of a in constr:(QArith_base.Qinv p)
  | IZR ?n => constr:(QArith_base.Qmake n 1)
  | Q2R ?q => q
  | Binary64.dy ?m ?e => constr:(Binary64Eval.dyQ m e)
  end.

(** One rounding of a closed expression: the mantissa and the exponent are
    computed on fractions and checked on the reals. *)
Ltac fl_step :=
  match goal with
  | |- context [Binary64.fl ?x] =>
      let q := fraction_of x in
      let r := eval vm_compute in (Binary64Eval.roundQ q) in
      lazymatch r with
      | (?m, ?e) =>
          first
            [ rewrite (Binary64Eval.fl_eval_pos x m e)
                by (first [ lia
                          | left; reflexivity
                          | pow2_numerals; lra
                          | right; pow2_numerals; lra ])
            | rewrite (Binary64Eval.fl_eval_neg x m e)
                by (first [ lia
                          | left; reflexivity
                          | pow2_numerals; lra
                          | right; pow2_numerals; lra ]) ]
      end
  end.

Ltac fl_compute :=
  cbv [Binary64.add Binary64.sub Binary64.mul Binary64.div Binary64.lit];
  repeat fl_step.


(** Values every binary64 implementation agrees on. *)
Module Binary64Samples.
Import Js Binary64.

(** [0.1 + 0.2] is the binary64 number next above [0.3]. *)
Example tenths_sum :
  add (lit 0.1) (lit 0.2) = dy 5404319552844596 (-54) /\
  lit 0.3 = dy 5404319552844595 (-54) /\
  add (lit 0.1) (lit 0.2) > lit 0.3.
Proof.
  assert (E1 : add (lit 0.1) (lit 0.2) = dy 5404319552844596 (-54))
    by (fl_compute; reflexivity).
  assert (E2 : lit 0.3 = dy 5404319552844595 (-54))
    by (fl_compute; reflexivity).
  split; [exact E1 | split; [exact E2 |]].
  rewrite E1, E2. pow2_numerals. lra.
Qed.

(** Halves go to the even neighbour: [2^53 + 1] is [2^53] and [2^53 + 3] is
    [2^53 + 4]. *)
Example ties_to_even :
  add 9007199254740992 1 = 9007199254740992 /\
  add 9007199254740992 3 = 9007199254740996.
Proof. split; fl_compute; pow2_numerals; lra. Qed.

(** Whole numbers below [2^53] and quotients by powers of two are exact;
    [1 / 3] is not. *)
Example exact_and_rounded :
  mul 41568 100 = 4156800 /\ div 5 4 = 1.25 /\
  div 1 3 = dy 6004799503160661 (-54).
Proof.
  split; [| split]; fl_compute; [pow2_numerals; lra .. | reflexivity].
Qed.

End Binary64Samples.


(** ** Standards tables: minimum section, oversizing, DC guard, margins *)

Module StandardsMore.
Import Js JsFacts Types Standards.

(** The sections of both AC tables. *)
Definition tableSections : list number := [2.5; 6; 10; 16; 25].

(** ['ok' < 'info' < 'danger']. *)
Definition severity (st : ProtectionStatus) : nat :=
  match st with ok => 0 | info => 1 | danger => 2 end.

Ltac table_lookup :=
  unfold getMaxInForSectionStandard, getMaxInForSectionPessimistic,
    getMaxIdcForSection, standardTable, pessimisticTable, dcTable;
  cbn [lookup];
  repeat match goal with
  | |- context [Req_dec_T ?a ?b] => destruct (Req_dec_T a b); try lra
  end.

Ltac split_tests :=
  repeat match goal with
  | |- context [gtb ?x ?y] => destruct (gtb x y) eqn:?
  | |- context [leb ?x ?y] => destruct (leb x y) eqn:?
  end; js_tests.

(** X1. The minimum section proposed for a rating is a table section that
    is ['ok'] for this rating up to 80 A; above 80 A it is 25 mm2, in
    ['danger']. *)
Theorem getMinSectionForIn_fits (inA : number) :
  In (getMinSectionForIn inA) tableSections /\
  (inA <= 80 ->
     getProtectionStatusForSection (getMinSectionForIn inA) inA = ok /\
     isProtectionTooHighForSection (getMinSectionForIn inA) inA = false) /\
  (inA > 80 ->
     getMinSectionForIn inA = 25 /\
     getProtectionStatusForSection (getMinSectionForIn inA) inA = danger).
Proof.
  unfold getMinSectionForIn, tableSections.
  destruct (leb inA 20) eqn:H20; [| destruct (leb inA 32) eqn:H32;
    [| destruct (leb inA 40) eqn:H40; [| destruct (leb inA 63) eqn:H63]]];
    js_tests;
    (split; [simpl; tauto |]);
    (split; intros Hb; try lra);
    unfold getProtectionStatusForSection, isProtectionTooHighForSection;
    table_lookup; split_tests; try lra; repeat split; reflexivity.
Qed.

Lemma getMinSectionForIn_fits_witness :
  getProtectionStatusForSection (getMinSectionForIn 32) 32 = ok /\
  isProtectionTooHighForSection (getMinSectionForIn 32) 32 = false.
Proof.
  apply (getMinSectionForIn_fits 32). lra.
Defined.

(** X2. Oversizing is never an error: a section larger than the minimum
    section of a rating is ['ok'] for this rating, whatever the section. *)
Theorem oversized_section_is_ok (section inA : number) :
  isSectionOversizedForIn section inA = true ->
  getProtectionStatusForSection section inA = ok /\
  isProtectionTooHighForSection section inA = false.
Proof.
  unfold isSectionOversizedForIn, getMinSectionForIn.
  intros H. apply gtb_true in H. revert H.
  unfold getProtectionStatusForSection, isProtectionTooHighForSection.
  table_lookup; subst; split_tests; intros; try lra; split; reflexivity.
Qed.

Lemma oversized_section_is_ok_witness :
  getProtectionStatusForSection 10 32 = ok /\
  isProtectionTooHighForSection 10 32 = false.
Proof.
  apply (oversized_section_is_ok 10 32).
  unfold isSectionOversizedForIn, getMinSectionForIn. js_decide. reflexivity.
Defined.

(** X3. The status never gets worse with a larger table section and never
    gets better with a larger rating. *)
Theorem protection_status_monotone (s1 s2 i1 i2 : number) :
  In s1 tableSections -> In s2 tableSections -> s1 <= s2 -> i1 <= i2 ->
  (severity (getProtectionStatusForSection s2 i1)
   <= severity (getProtectionStatusForSection s1 i1))%nat /\
  (severity (getProtectionStatusForSection s1 i1)
   <= severity (getProtectionStatusForSection s1 i2))%nat.
Proof.
  unfold tableSections. cbn [In].
  intros H1 H2 Hs Hi.
  repeat match goal with
  | H : _ \/ _ |- _ => destruct H
  | H : False |- _ => destruct H
  end; subst; try lra;
    unfold getProtectionStatusForSection; table_lookup; split_tests;
    try lra; cbn [severity]; split; lia.
Qed.

Lemma protection_status_monotone_witness :
  (severity (getProtectionStatusForSection 10 40)
   <= severity (getProtectionStatusForSection 6 40))%nat /\
  (severity (getProtectionStatusForSection 6 40)
   <= severity (getProtectionStatusForSection 6 50))%nat.
Proof.
  apply (protection_status_monotone 6 10 40 50);
    unfold tableSections; cbn [In]; try tauto; lra.
Defined.

Definition zoneRank (z : WindZone) : nat :=
  match z with
  | ZONE_1 => 1 | ZONE_2 => 2 | ZONE_3 => 3 | ZONE_4 => 4 | ZONE_5 => 5
  end.

(** X4. The recommended margins are symmetric (top = bottom, left = right),
    never below 300 mm, with side margins at least the top margin and at most
    100 mm more; and a windier zone never gets smaller margins. *)
Theorem recommended_margins_bounds (roofType : RoofType) (z1 z2 : WindZone) :
  let m := getRecommendedMargins roofType z1 in
  m_top m = m_bottom m /\ m_left m = m_right m /\
  300 <= m_top m <= 600 /\ m_top m <= m_left m <= m_top m + 100 /\
  ((zoneRank z1 <= zoneRank z2)%nat ->
     m_top m <= m_top (getRecommendedMargins roofType z2) /\
     m_left m <= m_left (getRecommendedMargins roofType z2)).
Proof.
  destruct roofType, z1, z2; cbn; repeat split; try lra; intros; try lra;
    exfalso; lia.
Qed.

Lemma recommended_margins_bounds_witness :
  m_top (getRecommendedMargins FIBROCIMENT ZONE_2)
    <= m_top (getRecommendedMargins FIBROCIMENT ZONE_4) /\
  m_left (getRecommendedMargins FIBROCIMENT ZONE_2)
    <= m_left (getRecommendedMargins FIBROCIMENT ZONE_4).
Proof.
  apply (recommended_margins_bounds FIBROCIMENT ZONE_2 ZONE_4). cbn. lia.
Defined.

(** X5. A DC cable is too small exactly when the current exceeds the DC
    maximum of its section.  On the four DC sections the DC table is the
    pessimistic AC table, so the cable is too small exactly when the AC status
    of that section for that current is not ['ok']; 25 mm2 is outside the DC
    table and never too small. *)
Theorem dc_guard_is_pessimistic_table (section idcA : number) :
  (isDcCableTooSmallForI section idcA = true <->
   exists max, getMaxIdcForSection section = Some max /\ idcA > max) /\
  (In section [2.5; 6; 10; 16] ->
   getMaxIdcForSection section = getMaxInForSectionPessimistic section /\
   (isDcCableTooSmallForI section idcA = true <->
    getProtectionStatusForSection section idcA <> ok)) /\
  (getMaxIdcForSection 25 = None /\ isDcCableTooSmallForI 25 idcA = false).
Proof.
  split; [| split].
  - unfold isDcCableTooSmallForI.
    destruct (getMaxIdcForSection section) as [m |].
    + rewrite gtb_true. split; [intros H; exists m; auto |].
      intros [m' [[= <-] H]]. exact H.
    + split; [discriminate | intros [m' [H _]]; discriminate].
  - cbn [In]. intros H.
    repeat match goal with
    | H : _ \/ _ |- _ => destruct H
    | H : False |- _ => destruct H
    end; subst;
      unfold isDcCableTooSmallForI, getProtectionStatusForSection;
      table_lookup; split_tests; try lra;
      (split; [reflexivity |]); split; intros; congruence.
  - unfold isDcCableTooSmallForI. table_lookup. split; reflexivity.
Qed.

Lemma dc_guard_is_pessimistic_table_witness :
  isDcCableTooSmallForI 6 35 = true <->
  getProtectionStatusForSection 6 35 <> ok.
Proof.
  apply (dc_guard_is_pessimistic_table 6 35). cbn [In]. tauto.
Defined.

End StandardsMore.


(** ** Sizing helpers: breakers, DC and AC pickers *)

Module SizingMore.
Import Js JsFacts Standards Sizing Calculator SizingFacts.

Ltac split_tests :=
  repeat match goal with
  | |- context [gtb ?x ?y] => destruct (gtb x y) eqn:?
  | |- context [leb ?x ?y] => destruct (leb x y) eqn:?
  | |- context [geb ?x ?y] => destruct (geb x y) eqn:?
  | |- context [eqb ?x ?y] => destruct (eqb x y) eqn:?
  end; js_tests.

(** X6. The AGCP mapping answers nothing exactly for a non-positive
    subscribed capacity; otherwise it answers a rating of the phase ladder,
    and a larger subscribed capacity never gets a smaller rating. *)
Theorem agcpToCommercialBreakerA_ladder (a1 a2 : number) (tri : bool) :
  (agcpToCommercialBreakerA a1 tri = None <-> a1 <= 0) /\
  (forall r, agcpToCommercialBreakerA a1 tri = Some r ->
             In r (breakerLadder tri)) /\
  (a1 <= a2 ->
   forall r1 r2,
     agcpToCommercialBreakerA a1 tri = Some r1 ->
     agcpToCommercialBreakerA a2 tri = Some r2 -> r1 <= r2).
Proof.
  unfold agcpToCommercialBreakerA, breakerLadder.
  split; [| split].
  - destruct tri; split_tests; cbn [orb]; split; intros; try congruence; lra.
  - intros r. destruct tri; split_tests; cbn [orb]; intros [= <-];
      cbn [In]; tauto.
  - intros Hle r1 r2.
    destruct tri; split_tests; cbn [orb]; intros [= <-] [= <-]; lra.
Qed.

Lemma agcpToCommercialBreakerA_ladder_witness :
  agcpToCommercialBreakerA 30 false = Some 32 /\
  agcpToCommercialBreakerA 45 false = Some 40 /\ 32 <= 40.
Proof.
  assert (H1 : agcpToCommercialBreakerA 30 false = Some 32)
    by (unfold agcpToCommercialBreakerA; js_decide; reflexivity).
  assert (H2 : agcpToCommercialBreakerA 45 false = Some 40)
    by (unfold agcpToCommercialBreakerA; js_decide; reflexivity).
  split; [exact H1 |]. split; [exact H2 |].
  destruct (agcpToCommercialBreakerA_ladder 30 45 false) as [_ [_ Hmono]].
  apply (Hmono ltac:(lra) 32 40 H1 H2).
Defined.

Lemma normalizeBreakerA_cases (minA : number) (tri : bool) :
  normalizeBreakerA minA tri
  = if tri then
      if leb minA 16 then 16 else if leb minA 20 then 20
      else if leb minA 25 then 25 else if leb minA 32 then 32 else 40
    else
      if leb minA 16 then 16 else if leb minA 20 then 20
      else if leb minA 32 then 32 else if leb minA 40 then 40 else 63.
Proof.
  unfold normalizeBreakerA, breakerLadder, Js.max.
  destruct tri; cbn [find nth List.length Nat.sub];
    destruct (Rle_dec 0 minA); split_tests; try lra; reflexivity.
Qed.

(** X7. Normalising a breaker rating is monotone, and normalising an
    already normalised rating changes nothing. *)
Theorem normalizeBreakerA_monotone_idempotent (m1 m2 : number) (tri : bool) :
  normalizeBreakerA (normalizeBreakerA m1 tri) tri = normalizeBreakerA m1 tri /\
  (m1 <= m2 -> normalizeBreakerA m1 tri <= normalizeBreakerA m2 tri).
Proof.
  split.
  - rewrite (normalizeBreakerA_cases m1).
    destruct tri; split_tests; rewrite normalizeBreakerA_cases;
      split_tests; try lra; reflexivity.
  - intros Hle. rewrite !normalizeBreakerA_cases.
    destruct tri; split_tests; lra.
Qed.

Lemma normalizeBreakerA_monotone_idempotent_witness :
  normalizeBreakerA 18 false <= normalizeBreakerA 35 false.
Proof.
  apply (normalizeBreakerA_monotone_idempotent 18 35 false). lra.
Defined.

(** *** DC drop and DC picker *)

Lemma dcDropPct_pos_eq (L I V sec : number) :
  0 < L -> 0 < I -> 0 < V -> 0 < sec ->
  dcDropPct L I V sec = (2 * 0.023 * 100) * ((L * I) * (/ sec * / V)).
Proof.
  intros HL HI HV HS. unfold dcDropPct, computeDcDrop, RHO_CU.
  replace (leb L 0) with false by (symmetry; apply leb_false; lra).
  replace (leb I 0) with false by (symmetry; apply leb_false; lra).
  replace (leb V 0) with false by (symmetry; apply leb_false; lra).
  replace (leb sec 0) with false by (symmetry; apply leb_false; lra).
  cbn [orb duPct]. field. lra.
Qed.

Lemma dcDropPct_zero (L I V sec : number) :
  L <= 0 \/ I <= 0 \/ V <= 0 \/ sec <= 0 -> dcDropPct L I V sec = 0.
Proof.
  intros H. unfold dcDropPct, computeDcDrop.
  assert (E : leb L 0 || leb I 0 || leb sec 0 || leb V 0 = true).
  { destruct H as [H | [H | [H | H]]]; apply leb_true in H; rewrite H;
      rewrite ?orb_true_r; reflexivity. }
  rewrite E. reflexivity.
Qed.

Lemma dcDropPct_nonneg (L I V sec : number) : 0 <= dcDropPct L I V sec.
Proof.
  destruct (Rle_dec L 0); [rewrite dcDropPct_zero by tauto; lra |].
  destruct (Rle_dec I 0); [rewrite dcDropPct_zero by tauto; lra |].
  destruct (Rle_dec V 0); [rewrite dcDropPct_zero by tauto; lra |].
  destruct (Rle_dec sec 0); [rewrite dcDropPct_zero by tauto; lra |].
  rewrite dcDropPct_pos_eq by lra.
  assert (0 < / sec) by (apply Rinv_0_lt_compat; lra).
  assert (0 < / V) by (apply Rinv_0_lt_compat; lra).
  assert (0 < L * I) by nra.
  assert (0 < / sec * / V) by nra.
  apply Rlt_le. apply Rmult_lt_0_compat; [lra |].
  apply Rmult_lt_0_compat; assumption.
Qed.

(** More length or current never lowers the DC drop; a larger section or a
    higher base voltage never raises it. *)
Lemma dcDropPct_monotone (L1 L2 I1 I2 V1 V2 s1 s2 : number) :
  L1 <= L2 -> I1 <= I2 -> 0 < V2 <= V1 -> 0 < s2 <= s1 ->
  dcDropPct L1 I1 V1 s1 <= dcDropPct L2 I2 V2 s2.
Proof.
  intros HL HI HV HS.
  destruct (Rle_dec L1 0);
    [rewrite (dcDropPct_zero L1) by tauto; apply dcDropPct_nonneg |].
  destruct (Rle_dec I1 0);
    [rewrite (dcDropPct_zero L1) by tauto; apply dcDropPct_nonneg |].
  rewrite !dcDropPct_pos_eq by lra.
  assert (0 < / s1) by (apply Rinv_0_lt_compat; lra).
  assert (0 < / V1) by (apply Rinv_0_lt_compat; lra).
  assert (/ s1 <= / s2) by (apply Rinv_le_contravar; lra).
  assert (/ V1 <= / V2) by (apply Rinv_le_contravar; lra).
  assert (0 < L1 * I1) by nra.
  assert (L1 * I1 <= L2 * I2) by nra.
  assert (/ s1 * / V1 <= / s2 * / V2) by nra.
  assert (0 < / s1 * / V1) by nra.
  apply Rmult_le_compat_l; [lra |]. nra.
Qed.

Lemma pickAutoDcSectionOptionB_cases (L I V : number) :
  pickAutoDcSectionOptionB L I V
  = if leb (dcDropPct L I V 6) 3 then 6
    else if leb (dcDropPct L I V 10) 3 then 10 else 16.
Proof.
  unfold pickAutoDcSectionOptionB.
  destruct (leb L 0 || leb I 0 || leb V 0) eqn:Hdeg.
  - rewrite (dcDropPct_degenerate L I V 6 Hdeg).
    replace (leb 0 3) with true by (symmetry; apply leb_true; lra).
    reflexivity.
  - rewrite dc_auto_sections. cbn [dcSectionLoop]. unfold dcDropPct.
    destruct (leb (duPct (computeDcDrop L I 6 V)) 3); [reflexivity |].
    destruct (leb (duPct (computeDcDrop L I 10 V)) 3); [reflexivity |].
    destruct (leb (duPct (computeDcDrop L I 16 V)) 3); reflexivity.
Qed.

(** X9. The automatic DC section is monotone: with no less length and no
    less current the section is not smaller, and with a lower (positive) base
    voltage it is not smaller either. *)
Theorem pickAutoDcSectionOptionB_monotone (L1 L2 I1 I2 V V' : number) :
  L1 <= L2 -> I1 <= I2 ->
  pickAutoDcSectionOptionB L1 I1 V <= pickAutoDcSectionOptionB L2 I2 V /\
  (0 < V' <= V ->
   pickAutoDcSectionOptionB L1 I1 V <= pickAutoDcSectionOptionB L2 I2 V').
Proof.
  intros HL HI.
  assert (Hgen : forall W, (W = V \/ 0 < W <= V) ->
            pickAutoDcSectionOptionB L1 I1 V <= pickAutoDcSectionOptionB L2 I2 W).
  { intros W HW. rewrite !pickAutoDcSectionOptionB_cases.
    assert (Hd : forall s, 0 < s ->
              dcDropPct L1 I1 V s <= dcDropPct L2 I2 W s).
    { intros s Hs. destruct HW as [-> | HW].
      - destruct (Rle_dec V 0).
        + rewrite !(dcDropPct_zero _ _ V) by tauto. lra.
        + apply dcDropPct_monotone; lra.
      - apply dcDropPct_monotone; lra. }
    pose proof (Hd 6 ltac:(lra)). pose proof (Hd 10 ltac:(lra)).
    split_tests; lra. }
  split; [apply Hgen; now left | intros HV; apply Hgen; now right].
Qed.

Lemma pickAutoDcSectionOptionB_monotone_witness :
  pickAutoDcSectionOptionB 40 12 600 <= pickAutoDcSectionOptionB 80 13 600.
Proof.
  apply (pickAutoDcSectionOptionB_monotone 40 80 12 13 600 600); lra.
Defined.

(** *** AC picker *)

Lemma ProtectionStatus_eqb_eq (a b : ProtectionStatus) :
  ProtectionStatus_eqb a b = true <-> a = b.
Proof. destruct a, b; cbn; split; intros; congruence. Qed.

(** A section fits when it is a catalog section at or above the floor whose
    drop is at most 1 % and whose protection status is ['ok']. *)
Definition acFits (p : AcParams) (s : number) : Prop :=
  In s AC_SECTIONS_MM2 /\ minAuto p <= s /\
  acDrop p s <= 1 /\ acStatus p s = ok.

Lemma acGoodOk_fits (p : AcParams) (s : number) :
  In s AC_SECTIONS_MM2 ->
  (ltb s (minAuto p) = false /\ acGoodOk p s = true) <-> acFits p s.
Proof.
  intros Hin. unfold acFits, acGoodOk. rewrite andb_true_iff.
  rewrite ProtectionStatus_eqb_eq. split.
  - intros [Hf [Hd Hs]]. apply ltb_false in Hf. apply leb_true in Hd.
    repeat split; auto; lra.
  - intros [_ [Hf [Hd Hs]]]. split; [apply ltb_false; lra |].
    split; [apply leb_true; lra | exact Hs].
Qed.



Lemma status_ok_rating (s b : number) :
  In s AC_SECTIONS_MM2 -> getProtectionStatusForSection s b = ok -> b <= 80.
Proof.
  unfold AC_SECTIONS_MM2; simpl.
  intros [<- | [<- | [<- | [<- | [<- | []]]]]];
    unfold getProtectionStatusForSection; js_lookup;
    repeat match goal with
    | |- context [gtb ?x ?y] => destruct (gtb x y) eqn:?
    end; js_tests; intros; try congruence; lra.
Qed.

Lemma status_25 (b : number) :
  getProtectionStatusForSection 25 b = if gtb b 80 then danger else ok.
Proof.
  unfold getProtectionStatusForSection; js_lookup.
  destruct (gtb b 80); reflexivity.
Qed.

(** X11. With a floor of at most 25 mm2 the automatic AC section respects
    the floor, is never in the ['info'] status (the tolerance of the second
    loop is never used), is in ['danger'] exactly when the rating is above
    80 A, and misses the 1 % target exactly when 25 mm2 misses it. *)
Theorem pickAutoAcSectionMm2_status (p : AcParams) :
  minAuto p <= 25 ->
  let r := pickAutoAcSectionMm2 p in
  minAuto p <= r /\
  acStatus p r <> info /\
  (acStatus p r = danger <-> breakerA p > 80) /\
  (acDrop p r > 1 <-> acDrop p 25 > 1).
Proof.
  intros Hfloor. cbv zeta.
  destruct (acConservativeLoop p AC_SECTIONS_MM2) as [r |] eqn:E.
  - assert (Hpick : pickAutoAcSectionMm2 p = r)
      by (unfold pickAutoAcSectionMm2; rewrite E; reflexivity).
    pose proof (acConservativeLoop_Some p _ _ E) as [Hin [Hel Hg]].
    destruct (proj1 (acGoodOk_fits p r Hin) (conj Hel Hg))
      as [_ [Hmin [Hd Hs]]].
    rewrite Hpick.
    pose proof (status_ok_rating r (breakerA p) Hin Hs) as Hb.
    pose proof (AC_SECTIONS_bounds r Hin) as Hr.
    pose proof (computeAcDropPercent_antitone_section
                  (powerVA p) (lengthM p) r 25 (isThreePhase p)) as Ha.
    unfold acDrop in *. unfold acStatus in *. rewrite Hs.
    split; [exact Hmin |]. split; [discriminate |].
    split; split; intros; try discriminate; exfalso; lra.
  - rewrite (pickAutoAcSectionMm2_fallback p E).
    replace (ltb 25 (minAuto p)) with false
      by (symmetry; apply ltb_false; lra).
    unfold acStatus. rewrite status_25.
    split; [exact Hfloor |].
    destruct (gtb (breakerA p) 80) eqn:Hb; js_tests;
      (split; [discriminate |]);
      (split; [split; intros; try discriminate; try reflexivity; try lra;
               exfalso; lra | tauto]).
Qed.

Lemma pickAutoAcSectionMm2_status_witness :
  acStatus (mkAcParams 6000 10 false 32 None)
           (pickAutoAcSectionMm2 (mkAcParams 6000 10 false 32 None)) <> info.
Proof.
  apply (pickAutoAcSectionMm2_status (mkAcParams 6000 10 false 32 None)).
  unfold minAuto; cbn [minAutoSectionMm2]. lra.
Defined.

(** X12. The AC drop is never negative, is positive for positive power,
    length and section, does not decrease with power or length, and does not
    increase with the section. *)
Theorem computeAcDropPercent_order (P1 P2 L1 L2 s1 s2 : number) (tri : bool) :
  0 <= computeAcDropPercent P1 L1 s1 tri /\
  (0 < P1 -> 0 < L1 -> 0 < s1 -> 0 < computeAcDropPercent P1 L1 s1 tri) /\
  (P1 <= P2 -> L1 <= L2 -> 0 < s2 <= s1 ->
     computeAcDropPercent P1 L1 s1 tri <= computeAcDropPercent P2 L2 s2 tri).
Proof.
  split; [apply computeAcDropPercent_nonneg |]. split.
  - intros HP HL HS. rewrite computeAcDropPercent_pos_eq by lra.
    pose proof (acDropCoeff_pos tri).
    assert (0 < / s1) by (apply Rinv_0_lt_compat; lra).
    assert (0 < L1 * P1) by nra.
    apply Rmult_lt_0_compat; [lra |]. apply Rmult_lt_0_compat; lra.
  - intros HP HL HS.
    apply Rle_trans with (computeAcDropPercent P2 L2 s1 tri).
    + apply computeAcDropPercent_mono_load; lra.
    + apply computeAcDropPercent_antitone_section; lra.
Qed.

Lemma computeAcDropPercent_order_witness :
  0 < computeAcDropPercent 6000 10 6 false /\
  computeAcDropPercent 6000 10 10 false <= computeAcDropPercent 9000 15 6 false.
Proof.
  split.
  - apply (computeAcDropPercent_order 6000 6000 10 10 6 6 false); lra.
  - apply (computeAcDropPercent_order 6000 9000 10 15 10 6 false); lra.
Defined.

End SizingMore.


(** ** The DC helpers in binary64 arithmetic *)

Module Sizing64Facts.
Import Js JsFacts Sizing Binary64 Binary64Facts Sizing64.

Lemma lit_2_5 : lit 2.5 = 2.5.
Proof. fl_compute. pow2_numerals. lra. Qed.

Lemma RHO_CU_nonneg : 0 <= RHO_CU.
Proof. unfold RHO_CU, lit. apply fl_nonneg. lra. Qed.

(** The automatic search skips 2.5 mm2: it visits 6, 10 and 16 mm2. *)
Lemma computed_auto_sections :
  filter (fun s => geb s 6) DC_SECTIONS_MM2 = [6; 10; 16].
Proof.
  unfold DC_SECTIONS_MM2. rewrite lit_2_5. cbn [filter]. js_decide.
  reflexivity.
Qed.

(** The computed drop, in percent. *)
Definition dcDropPct (lengthM currentA baseV sec : number) : number :=
  duPct (computeDcDrop lengthM currentA sec baseV).

Lemma computed_drop_zero (L I V sec : number) :
  L <= 0 \/ I <= 0 \/ V <= 0 \/ sec <= 0 -> dcDropPct L I V sec = 0.
Proof.
  intros H. unfold dcDropPct, computeDcDrop.
  assert (E : leb L 0 || leb I 0 || leb sec 0 || leb V 0 = true).
  { destruct H as [H | [H | [H | H]]]; apply leb_true in H; rewrite H;
      rewrite ?orb_true_r; reflexivity. }
  rewrite E. reflexivity.
Qed.

Lemma computed_drop_degenerate (lengthM currentA baseV sec : number) :
  leb lengthM 0 || leb currentA 0 || leb baseV 0 = true ->
  dcDropPct lengthM currentA baseV sec = 0.
Proof.
  intros H. apply computed_drop_zero.
  destruct (leb lengthM 0) eqn:A, (leb currentA 0) eqn:B,
    (leb baseV 0) eqn:C; js_tests; try discriminate; tauto.
Qed.

Lemma computed_drop_pos_eq (L I V sec : number) :
  0 < L -> 0 < I -> 0 < V -> 0 < sec ->
  dcDropPct L I V sec
  = mul (div (div (mul (mul (mul 2 L) I) RHO_CU) sec) V) 100.
Proof.
  intros HL HI HV HS. unfold dcDropPct, computeDcDrop.
  replace (leb L 0) with false by (symmetry; apply leb_false; lra).
  replace (leb I 0) with false by (symmetry; apply leb_false; lra).
  replace (leb sec 0) with false by (symmetry; apply leb_false; lra).
  replace (leb V 0) with false by (symmetry; apply leb_false; lra).
  reflexivity.
Qed.

(** The numerator [2 * L * I * rho] of the drop is not negative. *)
Lemma drop_numerator_nonneg (L I : number) :
  0 < L -> 0 < I -> 0 <= mul (mul (mul 2 L) I) RHO_CU.
Proof.
  intros HL HI. unfold mul.
  assert (H1 : 0 <= fl (2 * L)) by (apply fl_nonneg; lra).
  assert (H2 : 0 <= fl (fl (2 * L) * I)) by (apply fl_nonneg; nra).
  apply fl_nonneg. pose proof RHO_CU_nonneg. nra.
Qed.

Lemma computed_drop_nonneg (L I V sec : number) : 0 <= dcDropPct L I V sec.
Proof.
  destruct (Rle_dec L 0); [rewrite computed_drop_zero by tauto; lra |].
  destruct (Rle_dec I 0); [rewrite computed_drop_zero by tauto; lra |].
  destruct (Rle_dec V 0); [rewrite computed_drop_zero by tauto; lra |].
  destruct (Rle_dec sec 0); [rewrite computed_drop_zero by tauto; lra |].
  rewrite computed_drop_pos_eq by lra.
  pose proof (drop_numerator_nonneg L I ltac:(lra) ltac:(lra)) as HN.
  set (N := mul (mul (mul 2 L) I) RHO_CU) in *. unfold mul, div.
  assert (0 < / sec) by (apply Rinv_0_lt_compat; lra).
  assert (0 < / V) by (apply Rinv_0_lt_compat; lra).
  assert (H1 : 0 <= fl (N / sec)) by (apply fl_nonneg; unfold Rdiv; nra).
  assert (H2 : 0 <= fl (fl (N / sec) / V))
    by (apply fl_nonneg; unfold Rdiv; nra).
  apply fl_nonneg. nra.
Qed.

(** A larger section never raises the computed drop: each rounding
    preserves the order. *)
Lemma computed_drop_section (L I V s1 s2 : number) :
  0 < s1 <= s2 -> dcDropPct L I V s2 <= dcDropPct L I V s1.
Proof.
  intros HS.
  destruct (Rle_dec L 0); [rewrite !(computed_drop_zero L) by tauto; lra |].
  destruct (Rle_dec I 0); [rewrite !(computed_drop_zero L) by tauto; lra |].
  destruct (Rle_dec V 0); [rewrite !(computed_drop_zero L) by tauto; lra |].
  rewrite !computed_drop_pos_eq by lra.
  pose proof (drop_numerator_nonneg L I ltac:(lra) ltac:(lra)) as HN.
  set (N := mul (mul (mul 2 L) I) RHO_CU) in *. unfold mul, div.
  assert (0 < / V) by (apply Rinv_0_lt_compat; lra).
  assert (/ s2 <= / s1) by (apply Rinv_le_contravar; lra).
  assert (H1 : fl (N / s2) <= fl (N / s1))
    by (apply fl_monotone; unfold Rdiv; nra).
  assert (H2 : fl (fl (N / s2) / V) <= fl (fl (N / s1) / V))
    by (apply fl_monotone; unfold Rdiv; nra).
  apply fl_monotone. lra.
Qed.

(** More length or current never lowers the computed drop, and a higher
    base voltage never raises it: each rounding preserves the order. *)
Lemma computed_drop_monotone (L1 L2 I1 I2 V1 V2 sec : number) :
  L1 <= L2 -> I1 <= I2 -> 0 < V2 <= V1 -> 0 < sec ->
  dcDropPct L1 I1 V1 sec <= dcDropPct L2 I2 V2 sec.
Proof.
  intros HL HI HV HS.
  destruct (Rle_dec L1 0);
    [rewrite (computed_drop_zero L1) by tauto; apply computed_drop_nonneg |].
  destruct (Rle_dec I1 0);
    [rewrite (computed_drop_zero L1) by tauto; apply computed_drop_nonneg |].
  rewrite !computed_drop_pos_eq by lra.
  pose proof RHO_CU_nonneg as Hrho. unfold mul, div.
  assert (A0 : 0 <= fl (2 * L1)) by (apply fl_nonneg; lra).
  assert (A1 : fl (2 * L1) <= fl (2 * L2)) by (apply fl_monotone; lra).
  assert (B0 : 0 <= fl (fl (2 * L1) * I1)) by (apply fl_nonneg; nra).
  assert (B1 : fl (fl (2 * L1) * I1) <= fl (fl (2 * L2) * I2))
    by (apply fl_monotone; nra).
  assert (C0 : 0 <= fl (fl (fl (2 * L1) * I1) * RHO_CU))
    by (apply fl_nonneg; nra).
  assert (C1 : fl (fl (fl (2 * L1) * I1) * RHO_CU)
               <= fl (fl (fl (2 * L2) * I2) * RHO_CU))
    by (apply fl_monotone; nra).
  set (N1 := fl (fl (fl (2 * L1) * I1) * RHO_CU)) in *.
  set (N2 := fl (fl (fl (2 * L2) * I2) * RHO_CU)) in *.
  assert (Hs : 0 < / sec) by (apply Rinv_0_lt_compat; lra).
  assert (D0 : 0 <= fl (N1 / sec)) by (apply fl_nonneg; unfold Rdiv; nra).
  assert (D1 : fl (N1 / sec) <= fl (N2 / sec))
    by (apply fl_monotone; unfold Rdiv; nra).
  assert (Hv1 : 0 < / V1) by (apply Rinv_0_lt_compat; lra).
  assert (Hv : / V1 <= / V2) by (apply Rinv_le_contravar; lra).
  assert (E1 : fl (fl (N1 / sec) / V1) <= fl (fl (N2 / sec) / V2))
    by (apply fl_monotone; unfold Rdiv; nra).
  apply fl_monotone. lra.
Qed.

(** The loop returns the first visited section whose drop is at most 3 %,
    and the last visited section when there is none. *)
Lemma dcSectionLoop_first (lengthM currentA baseV : number) (sections : list number) :
  forall autoS,
    let r := dcSectionLoop lengthM currentA baseV sections autoS in
    (exists pre post,
        sections = pre ++ r :: post /\
        dcDropPct lengthM currentA baseV r <= 3 /\
        forall s, In s pre -> dcDropPct lengthM currentA baseV s > 3) \/
    ((forall s, In s sections -> dcDropPct lengthM currentA baseV s > 3) /\
     r = last sections autoS).
Proof.
  induction sections as [| s rest IH]; intros autoS; cbn zeta.
  - right. split; [intros s [] | reflexivity].
  - cbn [dcSectionLoop].
    destruct (leb (duPct (computeDcDrop lengthM currentA s baseV)) 3) eqn:E;
      js_tests.
    + left. exists [], rest. repeat split; [exact E | intros ? []].
    + destruct (IH s) as [[pre [post [Hs [Hr Hpre]]]] | [Hall Hr]].
      * left. exists (s :: pre), post. repeat split.
        -- cbn [app]. now rewrite <- Hs.
        -- exact Hr.
        -- intros x [<- | Hx]; [exact E | now apply Hpre].
      * right. split.
        -- intros x [<- | Hx]; [exact E | now apply Hall].
        -- rewrite Hr. symmetry. apply SizingFacts.last_cons_default.
Qed.

Lemma computed_picker_cases (L I V : number) :
  pickAutoDcSectionOptionB L I V
  = if leb (dcDropPct L I V 6) 3 then 6
    else if leb (dcDropPct L I V 10) 3 then 10 else 16.
Proof.
  unfold pickAutoDcSectionOptionB.
  destruct (leb L 0 || leb I 0 || leb V 0) eqn:Hdeg.
  - rewrite (computed_drop_degenerate L I V 6 Hdeg).
    replace (leb 0 3) with true by (symmetry; apply leb_true; lra).
    reflexivity.
  - rewrite computed_auto_sections. cbn [dcSectionLoop]. unfold dcDropPct.
    destruct (leb (duPct (computeDcDrop L I 6 V)) 3); [reflexivity |].
    destruct (leb (duPct (computeDcDrop L I 10 V)) 3); [reflexivity |].
    destruct (leb (duPct (computeDcDrop L I 16 V)) 3); reflexivity.
Qed.

(** The computed picker is monotone, as the picker on the reals is: with no
    less length and no less current the section is not smaller, and with a
    lower (positive) base voltage it is not smaller either. *)
Lemma computed_picker_monotone (L1 L2 I1 I2 V V' : number) :
  L1 <= L2 -> I1 <= I2 ->
  pickAutoDcSectionOptionB L1 I1 V <= pickAutoDcSectionOptionB L2 I2 V /\
  (0 < V' <= V ->
   pickAutoDcSectionOptionB L1 I1 V <= pickAutoDcSectionOptionB L2 I2 V').
Proof.
  intros HL HI.
  assert (Hgen : forall W, (W = V \/ 0 < W <= V) ->
            pickAutoDcSectionOptionB L1 I1 V <= pickAutoDcSectionOptionB L2 I2 W).
  { intros W HW. rewrite !computed_picker_cases.
    assert (Hd : forall s, 0 < s ->
              dcDropPct L1 I1 V s <= dcDropPct L2 I2 W s).
    { intros s Hs. destruct HW as [-> | HW].
      - destruct (Rle_dec V 0).
        + rewrite !(computed_drop_zero _ _ V) by tauto. lra.
        + apply computed_drop_monotone; lra.
      - apply computed_drop_monotone; lra. }
    pose proof (Hd 6 ltac:(lra)). pose proof (Hd 10 ltac:(lra)).
    destruct (leb (dcDropPct L1 I1 V 6) 3) eqn:A6;
      destruct (leb (dcDropPct L2 I2 W 6) 3) eqn:B6;
      destruct (leb (dcDropPct L1 I1 V 10) 3) eqn:A10;
      destruct (leb (dcDropPct L2 I2 W 10) 3) eqn:B10;
      js_tests; lra. }
  split; [apply Hgen; now left | intros HV; apply Hgen; now right].
Qed.

(** The drop of the spec's scenario, 40 m, 12 A and 600 V on 6 mm2. *)
Lemma drop_40_12_600 : dcDropPct 40 12 600 6 < 1.
Proof.
  rewrite computed_drop_pos_eq by lra. unfold RHO_CU.
  fl_compute. pow2_numerals. lra.
Qed.

(** C7. The DC automatic picker answers 6, 10 or 16 mm2, never less than
    6 mm2; it answers the first of these sections whose computed drop is at
    most 3 % (every smaller visited section has a computed drop above 3 %),
    hence exactly 6 when the drop computed at 6 mm2 is within the threshold,
    as for 40 m, 12 A and 600 V where the drop at 6 mm2 is below 1 %.  The
    drop is the binary64 value [computeDcDrop] returns. *)
Theorem pickAutoDcSectionOptionB_first_fit (lengthM currentA baseV : number) :
  let r := pickAutoDcSectionOptionB lengthM currentA baseV in
  let drop := dcDropPct lengthM currentA baseV in
  In r [6; 10; 16] /\ In r DC_SECTIONS_MM2 /\ r >= 6 /\
  ((exists s, In s [6; 10; 16] /\ drop s <= 3) ->
     drop r <= 3 /\ forall s, In s [6; 10; 16] -> s < r -> drop s > 3) /\
  (drop 6 <= 3 -> r = 6) /\
  pickAutoDcSectionOptionB 40 12 600 = 6 /\
  dcDropPct 40 12 600 6 < 1.
Proof.
  cbv zeta.
  assert (Hfirst : forall L I V, dcDropPct L I V 6 <= 3 ->
                     pickAutoDcSectionOptionB L I V = 6).
  { intros L I V H. rewrite computed_picker_cases.
    replace (leb (dcDropPct L I V 6) 3) with true
      by (symmetry; apply leb_true; exact H).
    reflexivity. }
  assert (Hmain :
    In (pickAutoDcSectionOptionB lengthM currentA baseV) [6; 10; 16] /\
    ((exists s, In s [6; 10; 16] /\ dcDropPct lengthM currentA baseV s <= 3) ->
     dcDropPct lengthM currentA baseV
       (pickAutoDcSectionOptionB lengthM currentA baseV) <= 3 /\
     forall s, In s [6; 10; 16] ->
       s < pickAutoDcSectionOptionB lengthM currentA baseV ->
       dcDropPct lengthM currentA baseV s > 3)).
  { unfold pickAutoDcSectionOptionB.
    destruct (leb lengthM 0 || leb currentA 0 || leb baseV 0) eqn:Hdeg.
    - split; [simpl; lra |]. intros _. split.
      + rewrite computed_drop_degenerate by exact Hdeg. lra.
      + intros s Hs Hlt. simpl in Hs.
        destruct Hs as [<- | [<- | [<- | []]]]; lra.
    - rewrite computed_auto_sections.
      destruct (dcSectionLoop_first lengthM currentA baseV [6; 10; 16] 6)
        as [[pre [post [Hs [Hr Hpre]]]] | [Hall Hr]].
      + set (r := dcSectionLoop lengthM currentA baseV [6; 10; 16] 6) in *.
        assert (Hin : In r [6; 10; 16]).
        { rewrite Hs. apply in_or_app. right. left. reflexivity. }
        split; [exact Hin |]. intros _. split; [exact Hr |].
        intros s Hsin Hlt.
        apply Hpre.
        clearbody r.
        destruct pre as [| p0 [| p1 [| p2 pre]]]; cbn [app] in Hs;
          injection Hs; intros; subst;
          simpl in Hsin; simpl;
          repeat match goal with
          | H : _ \/ _ |- _ => destruct H
          | H : False |- _ => destruct H
          end; subst; try lra; auto;
          try (destruct pre; discriminate).
      + split.
        * rewrite Hr. simpl. lra.
        * intros [s [Hsin Hle]]. specialize (Hall s Hsin). lra. }
  destruct Hmain as [Hin Hfit].
  split; [exact Hin |].
  split; [unfold DC_SECTIONS_MM2; simpl in Hin |- *; tauto |].
  split; [simpl in Hin; destruct Hin as [<- | [<- | [<- | []]]]; lra |].
  split; [exact Hfit |].
  split; [apply Hfirst |].
  pose proof drop_40_12_600.
  split; [apply Hfirst; lra | assumption].
Qed.

Lemma pickAutoDcSectionOptionB_first_fit_witness :
  dcDropPct 40 12 600 6 <= 3 /\ pickAutoDcSectionOptionB 40 12 600 = 6.
Proof.
  assert (H : dcDropPct 40 12 600 6 <= 3)
    by (pose proof drop_40_12_600; lra).
  split; [exact H |].
  destruct (pickAutoDcSectionOptionB_first_fit 40 12 600)
    as [_ [_ [_ [_ [Hfirst _]]]]].
  exact (Hfirst H).
Defined.

(** On the threshold the computed value decides: for 117 m, 10 A and
    299 V the drop at 6 mm2 is 3 % on the reals, its computed value is the
    next binary64 number above 3, and the picker answers 10 mm2. *)
Lemma pickAutoDcSectionOptionB_on_threshold :
  Sizing.duPct (Sizing.computeDcDrop 117 10 6 299) = 3 /\
  dcDropPct 117 10 299 6 = dy 6755399441055745 (-51) /\
  dcDropPct 117 10 299 6 > 3 /\
  pickAutoDcSectionOptionB 117 10 299 = 10.
Proof.
  assert (E6 : dcDropPct 117 10 299 6 = dy 6755399441055745 (-51)).
  { rewrite computed_drop_pos_eq by lra. unfold RHO_CU. fl_compute. reflexivity. }
  assert (G6 : dcDropPct 117 10 299 6 > 3)
    by (rewrite E6; pow2_numerals; lra).
  assert (L10 : dcDropPct 117 10 299 10 <= 3).
  { rewrite computed_drop_pos_eq by lra. unfold RHO_CU.
    fl_compute. pow2_numerals. lra. }
  split; [| split; [exact E6 | split; [exact G6 |]]].
  - unfold Sizing.computeDcDrop, Sizing.RHO_CU. js_decide.
    cbn [orb duPct]. lra.
  - rewrite computed_picker_cases.
    replace (leb (dcDropPct 117 10 299 6) 3) with false
      by (symmetry; apply leb_false; exact G6).
    replace (leb (dcDropPct 117 10 299 10) 3) with true
      by (symmetry; apply leb_true; exact L10).
    reflexivity.
Qed.

(** X8. The status of the automatic DC section: with a non-positive length
    the status is ['missing']; with a positive length the automatic section
    is in ['danger'] (computed drop above 3 %) exactly when even 16 mm2 has a
    computed drop above 3 %, and the picker then answers 16 mm2. *)
Theorem auto_dc_section_status (L I V : number) :
  let s := pickAutoDcSectionOptionB L I V in
  let st := getDcSizingStatus L (dcDropPct L I V s) in
  (L <= 0 -> st = dc_missing) /\
  (0 < L ->
     st <> dc_missing /\
     (st = dc_danger <-> dcDropPct L I V 16 > 3) /\
     (st = dc_danger -> s = 16)).
Proof.
  cbv zeta. unfold getDcSizingStatus. split.
  - intros HL. replace (leb L 0) with true by (symmetry; apply leb_true; lra).
    reflexivity.
  - intros HL. replace (leb L 0) with false by (symmetry; apply leb_false; lra).
    rewrite computed_picker_cases.
    assert (H10 : dcDropPct L I V 10 <= dcDropPct L I V 6)
      by (apply computed_drop_section; lra).
    assert (H16 : dcDropPct L I V 16 <= dcDropPct L I V 10)
      by (apply computed_drop_section; lra).
    destruct (leb (dcDropPct L I V 6) 3) eqn:E6;
      [| destruct (leb (dcDropPct L I V 10) 3) eqn:E10]; js_tests.
    + replace (gtb (dcDropPct L I V 6) 3) with false
        by (symmetry; apply gtb_false; lra).
      split; [destruct (gtb _ 1); discriminate |].
      split; [split; [destruct (gtb _ 1); discriminate | intros; lra] |].
      destruct (gtb _ 1); discriminate.
    + replace (gtb (dcDropPct L I V 10) 3) with false
        by (symmetry; apply gtb_false; lra).
      split; [destruct (gtb _ 1); discriminate |].
      split; [split; [destruct (gtb _ 1); discriminate | intros; lra] |].
      destruct (gtb _ 1); discriminate.
    + destruct (gtb (dcDropPct L I V 16) 3) eqn:G16; js_tests.
      * split; [discriminate |]. split; [split; auto |]. reflexivity.
      * split; [destruct (gtb _ 1); discriminate |].
        split; [split; [destruct (gtb _ 1); discriminate | intros; lra] |].
        reflexivity.
Qed.

(** For 156 m, 20 A and 299 V the drop at 16 mm2 is 3 % on the reals and
    its computed value is above 3: the automatic section is 16 mm2, in
    ['danger']. *)
Lemma auto_dc_section_status_witness :
  dcDropPct 156 20 299 16 > 3 /\
  getDcSizingStatus 156
    (dcDropPct 156 20 299 (pickAutoDcSectionOptionB 156 20 299)) = dc_danger /\
  pickAutoDcSectionOptionB 156 20 299 = 16.
Proof.
  assert (G : dcDropPct 156 20 299 16 > 3).
  { rewrite computed_drop_pos_eq by lra. unfold RHO_CU.
    fl_compute. pow2_numerals. lra. }
  destruct (auto_dc_section_status 156 20 299) as [_ H].
  destruct (H ltac:(lra)) as [_ [Hiff Hs]].
  split; [exact G |]. split; [apply Hiff; exact G | apply Hs, Hiff; exact G].
Defined.

End Sizing64Facts.


(** ** More on the compatibility analyzer *)

Module CompatMore.
Import Js JsFacts Types Compat CompatFacts.

(** *** Verdict and errors *)

Definition Consistent (r : CompatibilityReport) : Prop :=
  isCompatible r = true <-> errors r = [].

Lemma emptyReport_consistent : Consistent emptyReport.
Proof. unfold Consistent; cbn. tauto. Qed.

Lemma pushError_consistent (msg : Message) (r : CompatibilityReport) :
  Consistent (pushError msg r).
Proof.
  unfold Consistent, pushError; cbn [isCompatible errors].
  split; [discriminate |]. intros H. apply app_eq_nil in H as [_ H].
  discriminate.
Qed.

Lemma pushWarning_consistent (msg : Message) (r : CompatibilityReport) :
  Consistent r -> Consistent (pushWarning msg r).
Proof. unfold Consistent, pushWarning; cbn [isCompatible errors]. tauto. Qed.

Lemma setDetails_consistent (d : Details) (r : CompatibilityReport) :
  Consistent r -> Consistent (setDetails d r).
Proof. unfold Consistent, setDetails; cbn [isCompatible errors]. tauto. Qed.

Section Loop.
Variable mainPanel : Panel.
Variable fields : list RoofField.
Variable iSpecs : InverterElectricalSpecs.
Variable tempMin tempCellHot : number.
Variable parallelByMppt : list (nat * number).

Let step := mpptStep mainPanel fields iSpecs tempMin tempCellHot parallelByMppt.
Let segStep := segmentStep mainPanel fields tempMin tempCellHot.

Lemma checks_consistent (idx : nat) (vocC vmpH tot par : number)
    (r : CompatibilityReport) :
  Consistent r ->
  Consistent (checkCurrent iSpecs idx tot par
                (checkVmp iSpecs idx vmpH (checkVoc iSpecs idx vocC r))).
Proof.
  intros H. unfold checkCurrent, checkVmp, checkVoc.
  repeat match goal with
  | |- context [if ?b then _ else _] => destruct b
  end;
  repeat first [ apply pushError_consistent
               | apply pushWarning_consistent ]; exact H.
Qed.

Lemma runMpptLoop_consistent (groups : MpptGroups) :
  forall st, Consistent (loopReport st) ->
             Consistent (loopReport (fold_left step groups st)).
Proof.
  induction groups as [| [idx segments] rest IH]; intros st H;
    cbn [fold_left]; [exact H |].
  apply IH. unfold step, mpptStep. cbn [loopReport].
  apply checks_consistent. exact H.
Qed.
End Loop.

(** X13. Whatever the inputs, the report is compatible exactly when it
    holds no error. *)
Theorem compatible_iff_no_error
    (mainPanel : Panel) (inverter : option Component) (climate : option Climate)
    (panelsPerStringLegacy : number) (totalPanelsLegacy : option number)
    (stringsCountLegacy : nat) (maxPanelsInAStringLegacy : number)
    (configuredStrings : list ConfiguredString) (fields : list RoofField)
    (phase : option Phase) (dcCablingRuns : list DcCablingRun) :
  let r := checkElectricalCompatibility mainPanel inverter climate
             panelsPerStringLegacy totalPanelsLegacy stringsCountLegacy
             maxPanelsInAStringLegacy configuredStrings fields phase
             dcCablingRuns in
  isCompatible r = true <-> errors r = [].
Proof.
  cbv zeta. fold (Consistent (checkElectricalCompatibility mainPanel inverter
    climate panelsPerStringLegacy totalPanelsLegacy stringsCountLegacy
    maxPanelsInAStringLegacy configuredStrings fields phase dcCablingRuns)).
  destruct inverter as [inv |]; [| apply emptyReport_consistent].
  destruct (comp_electrical inv) as [iSpecs |] eqn:He.
  2: { unfold checkElectricalCompatibility. rewrite He.
       apply emptyReport_consistent. }
  destruct (ltb (maxInputVoltage iSpecs) 100) eqn:Hm.
  - unfold checkElectricalCompatibility. rewrite He, Hm. cbv zeta.
    destruct (panel_electrical mainPanel) as [pSpecs |];
      [| apply emptyReport_consistent].
    apply setDetails_consistent.
    destruct (gtb _ _);
      [apply pushError_consistent | apply emptyReport_consistent].
  - destruct (central_report_shape mainPanel inv iSpecs climate
                panelsPerStringLegacy totalPanelsLegacy stringsCountLegacy
                maxPanelsInAStringLegacy configuredStrings fields phase
                dcCablingRuns He Hm) as [Hc [_ [Herr _]]].
    unfold Consistent. rewrite Hc, Herr.
    apply runMpptLoop_consistent. apply emptyReport_consistent.
Qed.

(** *** The central-inverter path: details *)

Definition positive (o : option number) : option number :=
  match o with
  | Some i => if gtb i 0 then Some i else None
  | None => None
  end.

(** [iSpecs.maxAcPower || inverter.power || 0]. *)
Definition centralMaxAcPower (inv : Component) (iSpecs : InverterElectricalSpecs)
  : number :=
  orElse (maxAcPower iSpecs)
    (match comp_power inv with Some pw => orElse pw 0 | None => 0 end).

Definition centralIsTri (inv : Component) (iSpecs : InverterElectricalSpecs)
    (phase : option Phase) : bool :=
  match phase with
  | Some Tri => true
  | Some Mono => false
  | None => gtb (maxAcPower iSpecs) 6000
            || includes (comp_id inv) "TRI" || includes (comp_id inv) "T15"
  end.

(** The AC reference current and its basis. *)
Definition acReference (inv : Component) (iSpecs : InverterElectricalSpecs)
    (phase : option Phase) : number * AcCurrentBasis :=
  match positive (maxAcCurrent iSpecs), positive (nominalAcCurrent iSpecs) with
  | Some i, _ => (i, IAC_MAX)
  | None, Some i => (i, IAC_NOMINAL)
  | None, None =>
      (if centralIsTri inv iSpecs phase
       then centralMaxAcPower inv iSpecs / (400 * 1.732)
       else centralMaxAcPower inv iSpecs / 230,
       FALLBACK_S_OVER_U)
  end.

Section CentralDetails.
Variable mainPanel : Panel.
Variable inv : Component.
Variable iSpecs : InverterElectricalSpecs.
Variable climate : option Climate.
Variable panelsPerStringLegacy : number.
Variable totalPanelsLegacy : option number.
Variable stringsCountLegacy : nat.
Variable maxPanelsInAStringLegacy : number.
Variable configuredStrings : list ConfiguredString.
Variable fields : list RoofField.
Variable phase : option Phase.
Variable dcCablingRuns : list DcCablingRun.

Hypothesis Helectrical : comp_electrical inv = Some iSpecs.
Hypothesis Hcentral : ltb (maxInputVoltage iSpecs) 100 = false.

Definition centralState : LoopState :=
  runMpptLoop mainPanel fields iSpecs
    (match climate with Some c => tempMin c | None => -10 end)
    (match climate with Some c => tempMaxAmb c | None => 35 end + 35)
    (buildParallelByMppt dcCablingRuns)
    (buildMpptGroups configuredStrings stringsCountLegacy panelsPerStringLegacy).

Lemma central_details :
  let r := checkElectricalCompatibility mainPanel (Some inv) climate
             panelsPerStringLegacy totalPanelsLegacy stringsCountLegacy
             maxPanelsInAStringLegacy configuredStrings fields phase
             dcCablingRuns in
  isCompatible r = isCompatible (loopReport centralState) /\
  warnings r = warnings (loopReport centralState) /\
  errors r = errors (loopReport centralState) /\
  exists d, details r = Some d /\
            stringsAnalysis d = mpptAnalyses centralState /\
            maxPanelsInAString d = maxPanelsCount centralState /\
            dcAcRatio d
            = (if gtb (centralMaxAcPower inv iSpecs) 0
               then totalPvPower centralState / centralMaxAcPower inv iSpecs
               else 0) /\
            d_maxAcPower d = centralMaxAcPower inv iSpecs /\
            acCurrentBasis d = snd (acReference inv iSpecs phase) /\
            d_nominalAcCurrent d
            = toFixed 1 (fst (acReference inv iSpecs phase)) /\
            recommendedBreaker d
            = ceil (fst (acReference inv iSpecs phase) * 1.25) /\
            rcdType d = (if hybridId (comp_id inv) then RcdB else RcdF).
Proof.
  cbv zeta. unfold checkElectricalCompatibility.
  rewrite Helectrical, Hcentral. cbv zeta.
  fold centralState. fold (centralMaxAcPower inv iSpecs).
  fold (positive (maxAcCurrent iSpecs)).
  fold (positive (nominalAcCurrent iSpecs)).
  unfold acReference, centralIsTri.
  destruct (positive (maxAcCurrent iSpecs));
    destruct (positive (nominalAcCurrent iSpecs));
    cbn [setDetails isCompatible warnings errors details];
    (split; [reflexivity |]); (split; [reflexivity |]);
    (split; [reflexivity |]); eexists; (split; [reflexivity |]);
    cbn [stringsAnalysis maxPanelsInAString dcAcRatio d_maxAcPower
           acCurrentBasis d_nominalAcCurrent recommendedBreaker rcdType
           fst snd];
    repeat split; destruct phase as [[|] |]; reflexivity.
Qed.
End CentralDetails.

(** *** MPPT groups and analysis lines *)

Definition sumR {A : Type} (f : A -> number) (l : list A) : number :=
  fold_right (fun x acc => f x + acc) 0 l.

Lemma sumR_app {A : Type} (f : A -> number) (l1 l2 : list A) :
  sumR f (l1 ++ l2) = sumR f l1 + sumR f l2.
Proof.
  induction l1 as [| x l1 IH].
  - change (sumR f l2 = 0 + sumR f l2). lra.
  - change (f x + sumR f (l1 ++ l2) = (f x + sumR f l1) + sumR f l2).
    rewrite IH. lra.
Qed.

Lemma sumR_cons {A : Type} (f : A -> number) (x : A) (l : list A) :
  sumR f (x :: l) = f x + sumR f l.
Proof. reflexivity. Qed.

(** The power a configured string adds to the PV total. *)
Definition stringPower (mainPanel : Panel) (fields : list RoofField)
    (seg : ConfiguredString) : number :=
  let panel := panelOfSegment mainPanel fields seg in
  match panel_electrical panel with
  | Some _ => panel_power panel * cs_panelCount seg
  | None => 0
  end.

(** [str.mpptIndex || 1]. *)
Definition effectiveIndex (str : ConfiguredString) : nat :=
  if Nat.eqb (cs_mpptIndex str) 0 then 1%nat else cs_mpptIndex str.

Definition sumGroups (f : ConfiguredString -> number) (groups : MpptGroups)
  : number :=
  sumR (fun e => sumR f (snd e)) groups.

Lemma groupPush_keys (idx : nat) (str : ConfiguredString) (groups : MpptGroups)
    (i : nat) :
  In i (map fst (groupPush idx str groups)) <->
  i = idx \/ In i (map fst groups).
Proof.
  induction groups as [| [k segs] rest IH]; cbn [groupPush map fst In].
  - intuition.
  - destruct (Nat.eqb idx k) eqn:E.
    + apply Nat.eqb_eq in E. subst k. cbn [map fst In]. intuition.
    + destruct (Nat.ltb idx k); cbn [map fst In]; [intuition |].
      rewrite IH. intuition.
Qed.

Lemma groupPush_sum (f : ConfiguredString -> number) (idx : nat)
    (str : ConfiguredString) (groups : MpptGroups) :
  sumGroups f (groupPush idx str groups) = sumGroups f groups + f str.
Proof.
  unfold sumGroups.
  induction groups as [| [k segs] rest IH]; cbn [groupPush].
  - rewrite !sumR_cons. cbn [snd sumR fold_right]. lra.
  - destruct (Nat.eqb idx k).
    + rewrite !sumR_cons. cbn [snd]. rewrite sumR_app, sumR_cons.
      cbn [sumR fold_right]. lra.
    + destruct (Nat.ltb idx k).
      * rewrite !sumR_cons. cbn [snd]. rewrite sumR_cons.
        cbn [sumR fold_right]. lra.
      * rewrite !sumR_cons. cbn [snd]. rewrite IH. lra.
Qed.

Lemma configured_groups (c0 : ConfiguredString) (cs : list ConfiguredString)
    (n : nat) (ppl : number) :
  buildMpptGroups (c0 :: cs) n ppl
  = fold_left (fun groups str => groupPush (effectiveIndex str) str groups)
      (c0 :: cs) [].
Proof. reflexivity. Qed.

Lemma configured_groups_keys (l : list ConfiguredString) :
  forall (g : MpptGroups) (i : nat),
    In i (map fst (fold_left
           (fun groups str => groupPush (effectiveIndex str) str groups) l g))
    <-> In i (map fst g) \/ exists s, In s l /\ i = effectiveIndex s.
Proof.
  induction l as [| c l IH]; intros g i; cbn [fold_left].
  - split; [auto | intros [H | [s [[] _]]]; exact H].
  - rewrite IH, groupPush_keys. split.
    + intros [[-> | H] | [s [Hin ->]]].
      * right. exists c. split; [now left | reflexivity].
      * now left.
      * right. exists s. split; [now right | reflexivity].
    + intros [H | [s [[<- | Hin] ->]]].
      * left. now right.
      * left. now left.
      * right. exists s. split; [exact Hin | reflexivity].
Qed.

Lemma configured_groups_sum (f : ConfiguredString -> number)
    (l : list ConfiguredString) :
  forall g : MpptGroups,
    sumGroups f (fold_left
      (fun groups str => groupPush (effectiveIndex str) str groups) l g)
    = sumGroups f g + sumR f l.
Proof.
  induction l as [| c l IH]; intros g; cbn [fold_left].
  - cbn [sumR fold_right]. lra.
  - rewrite IH, groupPush_sum, sumR_cons. lra.
Qed.

Lemma configured_groups_total (f : ConfiguredString -> number)
    (l : list ConfiguredString) :
  sumGroups f (fold_left
    (fun groups str => groupPush (effectiveIndex str) str groups) l [])
  = sumR f l.
Proof.
  rewrite configured_groups_sum. change (sumGroups f []) with 0. lra.
Qed.

Lemma sumR_map {A : Type} (f : A -> number) (l : list A) :
  sumR (fun x => x) (map f l) = sumR f l.
Proof.
  induction l as [| a l IH]; [reflexivity |].
  cbn [map]. rewrite !sumR_cons, IH. reflexivity.
Qed.

Lemma legacy_groups_keys (ppl : number) (n : nat) :
  forall start,
    map fst (map (fun i => ((i + 1)%nat, [legacyString ppl i])) (seq start n))
    = seq (S start) n.
Proof.
  induction n as [| n IH]; intros start; cbn [seq map fst]; [reflexivity |].
  rewrite IH. f_equal. lia.
Qed.

Section LoopLines.
Variable mainPanel : Panel.
Variable fields : list RoofField.
Variable iSpecs : InverterElectricalSpecs.
Variable tempMin tempCellHot : number.
Variable parallelByMppt : list (nat * number).

Let step := mpptStep mainPanel fields iSpecs tempMin tempCellHot parallelByMppt.
Let segStep := segmentStep mainPanel fields tempMin tempCellHot.

Lemma segments_totals (segments : list ConfiguredString) :
  forall acc,
    mpptPanelCount (fold_left segStep segments acc)
    = mpptPanelCount acc + sumR cs_panelCount segments /\
    accPvPower (fold_left segStep segments acc)
    = accPvPower acc + sumR (stringPower mainPanel fields) segments.
Proof.
  induction segments as [| seg rest IH]; intros acc; cbn [fold_left].
  - cbn [sumR fold_right]. split; lra.
  - destruct (IH (segStep acc seg)) as [-> ->]. rewrite !sumR_cons.
    unfold segStep, segmentStep, stringPower. cbv zeta.
    destruct (panel_electrical (panelOfSegment mainPanel fields seg));
      cbn [mpptPanelCount accPvPower]; split; lra.
Qed.

Lemma loop_lines (groups : MpptGroups) :
  forall st,
    0 <= maxPanelsCount st ->
    let st' := fold_left step groups st in
    map mpptIndex (mpptAnalyses st')
    = map mpptIndex (mpptAnalyses st) ++ map fst groups /\
    map totalPanelCount (mpptAnalyses st')
    = map totalPanelCount (mpptAnalyses st)
      ++ map (fun e => sumR cs_panelCount (snd e)) groups /\
    totalPvPower st'
    = totalPvPower st + sumGroups (stringPower mainPanel fields) groups /\
    maxPanelsCount st'
    = Rmax (maxPanelsCount st)
        (fold_right Rmax 0
           (map (fun e => sumR cs_panelCount (snd e)) groups)).
Proof.
  induction groups as [| [idx segments] rest IH]; intros st Hmax;
    cbv zeta; cbn [fold_left map fold_right].
  - rewrite !app_nil_r. unfold sumGroups. cbn [sumR fold_right].
    rewrite Rmax_left by lra. repeat split; lra.
  - destruct (segments_totals segments
                (mkSegmentAcc 0 0 0 0 [] (totalPvPower st))) as [Hcount Hpower].
    cbn [mpptPanelCount accPvPower] in Hcount, Hpower.
    assert (Hstep :
      map mpptIndex (mpptAnalyses (step st (idx, segments)))
      = map mpptIndex (mpptAnalyses st) ++ [idx] /\
      map totalPanelCount (mpptAnalyses (step st (idx, segments)))
      = map totalPanelCount (mpptAnalyses st) ++ [sumR cs_panelCount segments] /\
      totalPvPower (step st (idx, segments))
      = totalPvPower st + sumR (stringPower mainPanel fields) segments /\
      maxPanelsCount (step st (idx, segments))
      = Rmax (maxPanelsCount st) (sumR cs_panelCount segments)).
    { unfold step, mpptStep. cbv zeta.
      cbn [mpptAnalyses totalPvPower maxPanelsCount]. fold segStep.
      rewrite !map_app. cbn [map mpptIndex totalPanelCount].
      rewrite Hcount, Hpower, !Rplus_0_l.
      repeat split.
      destruct (gtb (sumR cs_panelCount segments) (maxPanelsCount st)) eqn:E;
        js_tests; [rewrite Rmax_right by lra | rewrite Rmax_left by lra];
        reflexivity. }
    destruct Hstep as [Hi [Hc [Hp Hm]]].
    assert (Hmax' : 0 <= maxPanelsCount (step st (idx, segments))).
    { rewrite Hm. apply Rle_trans with (maxPanelsCount st);
        [exact Hmax | apply Rmax_l]. }
    destruct (IH (step st (idx, segments)) Hmax') as [Ei [Ec [Ep Em]]].
    rewrite Ei, Ec, Ep, Em, Hi, Hc, Hp, Hm.
    rewrite <- !app_assoc. cbn [app snd].
    unfold sumGroups. rewrite sumR_cons. cbn [snd].
    repeat split; [lra |]. rewrite Rmax_assoc. reflexivity.
Qed.
End LoopLines.

Lemma max_of_lines (l : list number) :
  Rmax 0 (fold_right Rmax 0 l) = fold_right Rmax 0 l.
Proof. destruct l; cbn [fold_right]; apply Rmax_right; [lra |]. 
  apply Rle_trans with (fold_right Rmax 0 l); [| apply Rmax_r].
  induction l; cbn [fold_right]; [lra |].
  apply Rle_trans with (fold_right Rmax 0 l); [assumption | apply Rmax_r].
Qed.

(** X15. With a central inverter the details hold one analysis line per
    MPPT group, in strictly ascending MPPT order: without configured strings
    the lines are numbered 1 to the legacy string count (1 if it is 0); with
    configured strings the numbers are exactly the MPPT indices in use, a
    missing index counting as 1. *)
Theorem analysis_lines_follow_mppt_groups
    (mainPanel : Panel) (inv : Component) (iSpecs : InverterElectricalSpecs)
    (climate : option Climate)
    (panelsPerStringLegacy : number) (totalPanelsLegacy : option number)
    (stringsCountLegacy : nat) (maxPanelsInAStringLegacy : number)
    (configuredStrings : list ConfiguredString) (fields : list RoofField)
    (phase : option Phase) (dcCablingRuns : list DcCablingRun) :
  comp_electrical inv = Some iSpecs ->
  100 <= maxInputVoltage iSpecs ->
  exists d,
    details (checkElectricalCompatibility mainPanel (Some inv) climate
               panelsPerStringLegacy totalPanelsLegacy stringsCountLegacy
               maxPanelsInAStringLegacy configuredStrings fields phase
               dcCablingRuns) = Some d /\
    Sorted lt (map mpptIndex (stringsAnalysis d)) /\
    (configuredStrings = [] ->
       map mpptIndex (stringsAnalysis d)
       = seq 1 (if Nat.eqb stringsCountLegacy 0 then 1%nat
                else stringsCountLegacy)) /\
    (configuredStrings <> [] ->
       forall i, In i (map mpptIndex (stringsAnalysis d)) <->
                 exists s, In s configuredStrings /\ i = effectiveIndex s).
Proof.
  intros He Hc. apply ltb_false in Hc.
  destruct (central_details mainPanel inv iSpecs climate panelsPerStringLegacy
              totalPanelsLegacy stringsCountLegacy maxPanelsInAStringLegacy
              configuredStrings fields phase dcCablingRuns He Hc)
    as [_ [_ [_ [d [Hd [Hlines _]]]]]].
  exists d. split; [exact Hd |]. rewrite Hlines.
  unfold centralState, runMpptLoop.
  match goal with
  | |- context [fold_left (mpptStep ?mp ?f ?i ?t1 ?t2 ?p) ?g ?st] =>
      destruct (loop_lines mp f i t1 t2 p g st) as [Hidx _];
        [cbn; lra |]
  end.
  cbv zeta in Hidx. rewrite Hidx. cbn [initialLoopState mpptAnalyses map app].
  split; [apply buildMpptGroups_sorted |]. split.
  - intros ->. unfold buildMpptGroups. apply legacy_groups_keys.
  - intros Hne i. destruct configuredStrings as [| c0 cs]; [congruence |].
    rewrite configured_groups, configured_groups_keys.
    cbn [map In]. tauto.
Qed.

Definition string2 : ConfiguredString := mkConfiguredString "str-2" "f1" 8 0.
Definition string3 : ConfiguredString := mkConfiguredString "str-3" "f1" 9 2.

Lemma analysis_lines_follow_mppt_groups_witness :
  exists d,
    details (checkElectricalCompatibility somePanel (Some (centralInverter 12))
               None 10 (Some 27) 1 0 [string3; string1; string2] [roof1]
               (Some Mono) []) = Some d /\
    Sorted lt (map mpptIndex (stringsAnalysis d)).
Proof.
  destruct (analysis_lines_follow_mppt_groups somePanel (centralInverter 12)
              (centralSpecs 12) None 10 (Some 27) 1 0
              [string3; string1; string2] [roof1] (Some Mono) [] eq_refl)
    as [d [Hd [Hs _]]].
  - cbn [centralSpecs maxInputVoltage]. lra.
  - exists d. split; assumption.
Defined.

(** X16. Grouping the configured strings by MPPT loses nothing: the panel
    counts of the analysis lines add up to the panel counts of the configured
    strings; the DC/AC ratio is the power of all configured strings (panel
    power x panel count, panels without electrical record left out) over the
    inverter AC power, whatever the MPPT assignment; and the reported longest
    string is the largest panel count of the lines. *)
Theorem grouping_conserves_panels_and_power
    (mainPanel : Panel) (inv : Component) (iSpecs : InverterElectricalSpecs)
    (climate : option Climate)
    (panelsPerStringLegacy : number) (totalPanelsLegacy : option number)
    (stringsCountLegacy : nat) (maxPanelsInAStringLegacy : number)
    (configuredStrings : list ConfiguredString) (fields : list RoofField)
    (phase : option Phase) (dcCablingRuns : list DcCablingRun) :
  comp_electrical inv = Some iSpecs ->
  100 <= maxInputVoltage iSpecs ->
  configuredStrings <> [] ->
  exists d,
    details (checkElectricalCompatibility mainPanel (Some inv) climate
               panelsPerStringLegacy totalPanelsLegacy stringsCountLegacy
               maxPanelsInAStringLegacy configuredStrings fields phase
               dcCablingRuns) = Some d /\
    sumR totalPanelCount (stringsAnalysis d)
    = sumR cs_panelCount configuredStrings /\
    (centralMaxAcPower inv iSpecs > 0 ->
       dcAcRatio d
       = sumR (stringPower mainPanel fields) configuredStrings
         / centralMaxAcPower inv iSpecs) /\
    maxPanelsInAString d
    = fold_right Rmax 0 (map totalPanelCount (stringsAnalysis d)).
Proof.
  intros He Hc Hne. apply ltb_false in Hc.
  destruct (central_details mainPanel inv iSpecs climate panelsPerStringLegacy
              totalPanelsLegacy stringsCountLegacy maxPanelsInAStringLegacy
              configuredStrings fields phase dcCablingRuns He Hc)
    as [_ [_ [_ [d [Hd [Hlines [Hmax [Hratio _]]]]]]]].
  exists d. split; [exact Hd |]. rewrite Hlines, Hmax, Hratio.
  unfold centralState, runMpptLoop.
  match goal with
  | |- context [fold_left (mpptStep ?mp ?f ?i ?t1 ?t2 ?p) ?g ?st] =>
      destruct (loop_lines mp f i t1 t2 p g st) as [_ [Hcnt [Hpow Hm]]];
        [cbn; lra |]
  end.
  cbv zeta in Hcnt, Hpow, Hm.
  cbn [initialLoopState mpptAnalyses totalPvPower maxPanelsCount map app]
    in Hcnt, Hpow, Hm.
  destruct configuredStrings as [| c0 cs]; [congruence |].
  rewrite configured_groups in *.
  split; [| split].
  - rewrite <- (sumR_map totalPanelCount), Hcnt, sumR_map.
    apply (configured_groups_total cs_panelCount).
  - intros Hpos.
    replace (gtb (centralMaxAcPower inv iSpecs) 0) with true
      by (symmetry; apply gtb_true; exact Hpos).
    rewrite Hpow, configured_groups_total, Rplus_0_l. reflexivity.
  - rewrite Hm, Hcnt. apply max_of_lines.
Qed.

Lemma grouping_conserves_panels_and_power_witness :
  exists d,
    details (checkElectricalCompatibility somePanel (Some (centralInverter 12))
               None 10 (Some 27) 1 0 [string3; string1; string2] [roof1]
               (Some Mono) []) = Some d /\
    sumR totalPanelCount (stringsAnalysis d)
    = sumR cs_panelCount [string3; string1; string2].
Proof.
  destruct (grouping_conserves_panels_and_power somePanel (centralInverter 12)
              (centralSpecs 12) None 10 (Some 27) 1 0
              [string3; string1; string2] [roof1] (Some Mono) [] eq_refl)
    as [d [Hd [Hs _]]].
  - cbn [centralSpecs maxInputVoltage]. lra.
  - discriminate.
  - exists d. split; assumption.
Defined.

(** *** Parallel strings *)

Lemma parallelOfRun_whole (r : DcCablingRun) :
  1 <= parallelOfRun r /\ exists z, parallelOfRun r = IZR z.
Proof.
  unfold parallelOfRun, Js.max, round. cbv zeta.
  destruct (Rle_dec 1 _).
  - split; [assumption | eexists; reflexivity].
  - split; [lra | exists 1%Z; reflexivity].
Qed.

Definition recordRun (m : list (nat * number)) (r : DcCablingRun)
  : list (nat * number) :=
  if Nat.eqb (run_mpptIndex r) 0 then m
  else (run_mpptIndex r, parallelOfRun r) :: m.

Lemma buildParallelByMppt_fold (runs : list DcCablingRun) :
  buildParallelByMppt runs = fold_left recordRun runs [].
Proof. reflexivity. Qed.

Lemma recorded_skip (runs : list DcCablingRun) (idx : nat) :
  forall m,
    (forall r, In r runs -> run_mpptIndex r <> idx) ->
    lookupNat (fold_left recordRun runs m) idx = lookupNat m idx.
Proof.
  induction runs as [| r runs IH]; intros m Hno; cbn [fold_left];
    [reflexivity |].
  rewrite IH by (intros r' Hr'; apply Hno; now right).
  unfold recordRun. destruct (Nat.eqb (run_mpptIndex r) 0); [reflexivity |].
  cbn [lookupNat].
  replace (Nat.eqb idx (run_mpptIndex r)) with false; [reflexivity |].
  symmetry. apply Nat.eqb_neq. intros E. apply (Hno r); [now left | auto].
Qed.

Lemma recorded_zero (runs : list DcCablingRun) :
  forall m, lookupNat (fold_left recordRun runs m) 0 = lookupNat m 0.
Proof.
  induction runs as [| r runs IH]; intros m; cbn [fold_left]; [reflexivity |].
  rewrite IH. unfold recordRun.
  destruct (Nat.eqb (run_mpptIndex r) 0) eqn:E; [reflexivity |].
  cbn [lookupNat]. rewrite Nat.eqb_sym, E. reflexivity.
Qed.

Lemma recorded_values (runs : list DcCablingRun) (idx : nat) (n : number) :
  forall m,
    lookupNat (fold_left recordRun runs m) idx = Some n ->
    lookupNat m idx = Some n \/ exists r, In r runs /\ n = parallelOfRun r.
Proof.
  induction runs as [| r runs IH]; intros m H; cbn [fold_left] in H;
    [now left |].
  apply IH in H as [H | [r' [Hin ->]]].
  - unfold recordRun in H. destruct (Nat.eqb (run_mpptIndex r) 0);
      [now left |].
    cbn [lookupNat] in H. destruct (Nat.eqb idx (run_mpptIndex r)).
    + injection H as <-. right. exists r. split; [now left | reflexivity].
    + now left.
  - right. exists r'. split; [now right | reflexivity].
Qed.

(** X19. The number of parallel strings used for an MPPT is a whole
    number, at least 1; it is 1 when no cabling run names the MPPT (and for
    index 0, which no run can name); otherwise the last run naming the MPPT
    decides, with its parallel count rounded and raised to 1. *)
Theorem parallel_strings_of_mppt (runs : list DcCablingRun) (idx : nat) :
  let n := parallelStringsFor (buildParallelByMppt runs) idx in
  1 <= n /\
  (exists z, n = IZR z) /\
  (idx = 0%nat \/ (forall r, In r runs -> run_mpptIndex r <> idx) -> n = 1) /\
  (forall pre r post,
     runs = pre ++ r :: post ->
     run_mpptIndex r = idx -> idx <> 0%nat ->
     (forall r', In r' post -> run_mpptIndex r' <> idx) ->
     n = parallelOfRun r).
Proof.
  cbv zeta. unfold parallelStringsFor. rewrite buildParallelByMppt_fold.
  assert (Hval : forall n,
            lookupNat (fold_left recordRun runs []) idx = Some n ->
            orElse n 1 = n /\ 1 <= n /\ exists z, n = IZR z).
  { intros n Hn. apply recorded_values in Hn as [Hn | [r [_ ->]]];
      [discriminate |].
    destruct (parallelOfRun_whole r) as [H1 Hz].
    split; [apply orElse_nonzero; lra | split; assumption]. }
  split; [| split; [| split]].
  - destruct (lookupNat (fold_left recordRun runs []) idx) as [n |] eqn:E;
      [| lra].
    destruct (Hval n eq_refl) as [-> [H _]]. exact H.
  - destruct (lookupNat (fold_left recordRun runs []) idx) as [n |] eqn:E;
      [| exists 1%Z; reflexivity].
    destruct (Hval n eq_refl) as [-> [_ H]]. exact H.
  - intros [-> | Hno].
    + rewrite recorded_zero. reflexivity.
    + rewrite recorded_skip by exact Hno. reflexivity.
  - intros pre r post -> Hr Hnz Hpost.
    rewrite fold_left_app. cbn [fold_left].
    rewrite recorded_skip by exact Hpost.
    unfold recordRun at 1. rewrite Hr.
    replace (Nat.eqb idx 0) with false
      by (symmetry; apply Nat.eqb_neq; exact Hnz).
    cbn [lookupNat]. rewrite Nat.eqb_refl.
    destruct (parallelOfRun_whole r) as [H1 _].
    apply orElse_nonzero. lra.
Qed.

Lemma parallel_strings_of_mppt_witness :
  parallelStringsFor
    (buildParallelByMppt
       [mkDcCablingRun 1 20 None (Some 2); mkDcCablingRun 2 15 None None]) 3
  = 1.
Proof.
  apply (parallel_strings_of_mppt
           [mkDcCablingRun 1 20 None (Some 2); mkDcCablingRun 2 15 None None] 3).
  right. intros r [<- | [<- | []]]; cbn [run_mpptIndex]; lia.
Defined.

End CompatMore.


(** ** The compatibility analyzer in binary64 arithmetic *)

Module Compat64Facts.
Import Js JsFacts Types Compat CompatFacts Binary64 Binary64Facts Compat64.

(** *** The central-inverter loop *)

Section CentralFacts.
Variable mainPanel : Panel.
Variable fields : list RoofField.
Variable iSpecs : InverterElectricalSpecs.
Variable tempMin tempCellHot : number.
Variable parallelByMppt : list (nat * number).

Let step := mpptStep mainPanel fields iSpecs tempMin tempCellHot parallelByMppt.
Let segStep := segmentStep mainPanel fields tempMin tempCellHot.

(** The raw MPPT current compared with the inverter limit: the computed
    product of the largest segment current and the parallel strings. *)
Definition iscTotalOf (entry : nat * list ConfiguredString) : number :=
  mul (maxIsc (segmentIscs mainPanel fields (snd entry)))
      (parallelStringsFor parallelByMppt (fst entry)).

Lemma segmentStep_iscMax (segments : list ConfiguredString) :
  forall acc,
    0 <= mpptIscMax acc ->
    mpptIscMax (fold_left segStep segments acc)
    = Rmax (mpptIscMax acc) (maxIsc (segmentIscs mainPanel fields segments)).
Proof.
  induction segments as [| seg rest IH]; intros acc Hacc; simpl.
  - rewrite Rmax_left; [reflexivity | exact Hacc].
  - unfold segStep at 2. unfold segmentStep.
    destruct (panel_electrical (panelOfSegment mainPanel fields seg)) as [e |];
      cbn [app fold_right].
    + change (maxIsc (isc e :: segmentIscs mainPanel fields rest))
        with (Rmax (isc e) (maxIsc (segmentIscs mainPanel fields rest))).
      pose proof (maxIsc_nonneg (segmentIscs mainPanel fields rest)).
      destruct (gtb (isc e) (mpptIscMax acc)) eqn:E; js_tests;
        (rewrite IH; cbn [mpptIscMax]; [| lra]);
        unfold Rmax; repeat destruct (Rle_dec _ _); lra.
    + rewrite IH; cbn [mpptIscMax]; [reflexivity | exact Hacc].
Qed.

(** The voltage checks only append messages of their own kind. *)
Lemma checkVoc_current (idx : nat) (v : number) (r : CompatibilityReport)
    (i : nat) (x m q : number) :
  In (MpptCurrentTooHigh i x m q) (errors (checkVoc iSpecs idx v r)) <->
  In (MpptCurrentTooHigh i x m q) (errors r).
Proof.
  unfold checkVoc.
  destruct (gtb v (maxInputVoltage iSpecs)); cbn [pushError errors].
  - rewrite in_app_iff. cbn [In]. split; [intros [H | [H | []]] | intros H].
    + exact H.
    + discriminate.
    + left; exact H.
  - destruct (geb _ VOC_WARN_RATIO); reflexivity.
Qed.

Lemma checkVmp_current (idx : nat) (v : number) (r : CompatibilityReport)
    (i : nat) (x m q : number) :
  In (MpptCurrentTooHigh i x m q) (errors (checkVmp iSpecs idx v r)) <->
  In (MpptCurrentTooHigh i x m q) (errors r).
Proof.
  unfold checkVmp.
  destruct (ltb v (minMpptVoltage iSpecs)); cbn [pushError errors].
  - rewrite in_app_iff. cbn [In]. split; [intros [H | [H | []]] | intros H].
    + exact H.
    + discriminate.
    + left; exact H.
  - destruct (leb _ VMP_WARN_RATIO); reflexivity.
Qed.

Lemma checks_incompatible_stays (idx : nat) (voc vmp tot par : number)
    (r : CompatibilityReport) :
  isCompatible r = false ->
  isCompatible
    (checkCurrent iSpecs idx tot par
       (checkVmp iSpecs idx vmp (checkVoc iSpecs idx voc r))) = false.
Proof.
  intros H. unfold checkCurrent, checkVmp, checkVoc.
  repeat match goal with
  | |- context [if ?b then _ else _] => destruct b
  end; cbn [pushError pushWarning isCompatible]; auto.
Qed.

(** The raw current of one iteration is the computed product of the
    maximal segment current and the number of parallel strings. *)
Lemma mpptStep_iscTotal (st : LoopState) (entry : nat * list ConfiguredString) :
  mul (mpptIscMax
         (fold_left segStep (snd entry)
            (mkSegmentAcc 0 0 0 0 [] (totalPvPower st))))
      (parallelStringsFor parallelByMppt (fst entry))
  = iscTotalOf entry.
Proof.
  unfold iscTotalOf. rewrite segmentStep_iscMax by (cbn; lra).
  cbn [mpptIscMax]. rewrite Rmax_right by apply maxIsc_nonneg. reflexivity.
Qed.

Lemma mpptStep_current_errors (st : LoopState)
    (entry : nat * list ConfiguredString) (i : nat) (x m q : number) :
  In (MpptCurrentTooHigh i x m q) (errors (loopReport (step st entry))) <->
  In (MpptCurrentTooHigh i x m q) (errors (loopReport st)) \/
  (iscTotalOf entry > maxInputCurrent iSpecs /\
   MpptCurrentTooHigh i x m q
   = MpptCurrentTooHigh (fst entry) (iscTotalOf entry) (maxInputCurrent iSpecs)
       (parallelStringsFor parallelByMppt (fst entry))).
Proof.
  pose proof (mpptStep_iscTotal st entry) as Htot.
  destruct entry as [idx segments]. cbn [fst snd] in *.
  unfold step, mpptStep. cbn [loopReport]. fold segStep.
  rewrite Htot, checkCurrent_current, checkVmp_current, checkVoc_current.
  reflexivity.
Qed.

Lemma runMpptLoop_current_errors (groups : MpptGroups) :
  forall st (i : nat) (x m q : number),
    In (MpptCurrentTooHigh i x m q)
       (errors (loopReport (fold_left step groups st))) <->
    In (MpptCurrentTooHigh i x m q) (errors (loopReport st)) \/
    exists entry,
      In entry groups /\
      iscTotalOf entry > maxInputCurrent iSpecs /\
      MpptCurrentTooHigh i x m q
      = MpptCurrentTooHigh (fst entry) (iscTotalOf entry)
          (maxInputCurrent iSpecs)
          (parallelStringsFor parallelByMppt (fst entry)).
Proof.
  induction groups as [| e rest IH]; intros st i x m q; cbn [fold_left].
  - split; [intros H; left; exact H | intros [H | [e [[] _]]]; exact H].
  - rewrite IH, mpptStep_current_errors. split.
    + intros [[H | H] | [e' [Hin H]]].
      * left; exact H.
      * right. exists e. split; [left; reflexivity | exact H].
      * right. exists e'. split; [right; exact Hin | exact H].
    + intros [H | [e' [[<- | Hin] H]]].
      * left; left; exact H.
      * left; right; exact H.
      * right. exists e'. split; assumption.
Qed.

Lemma mpptStep_incompatible_stays (st : LoopState)
    (entry : nat * list ConfiguredString) :
  isCompatible (loopReport st) = false ->
  isCompatible (loopReport (step st entry)) = false.
Proof.
  destruct entry as [idx segments]. unfold step, mpptStep. cbn [loopReport].
  apply checks_incompatible_stays.
Qed.

Lemma runMpptLoop_incompatible_stays (groups : MpptGroups) :
  forall st,
    isCompatible (loopReport st) = false ->
    isCompatible (loopReport (fold_left step groups st)) = false.
Proof.
  induction groups as [| e rest IH]; intros st H; cbn [fold_left];
    [exact H |].
  apply IH. apply mpptStep_incompatible_stays. exact H.
Qed.

Lemma runMpptLoop_incompatible (groups : MpptGroups) :
  forall st entry,
    In entry groups ->
    iscTotalOf entry > maxInputCurrent iSpecs ->
    isCompatible (loopReport (fold_left step groups st)) = false.
Proof.
  induction groups as [| e rest IH]; intros st entry Hin Hgt;
    [destruct Hin |].
  destruct Hin as [<- | Hin]; cbn [fold_left].
  - apply runMpptLoop_incompatible_stays.
    pose proof (mpptStep_iscTotal st e) as Htot.
    destruct e as [idx segments]. cbn [fst snd] in *.
    unfold step, mpptStep. cbn [loopReport]. fold segStep. rewrite Htot.
    apply checkCurrent_incompatible. exact Hgt.
  - apply IH with entry; assumption.
Qed.

(** Each MPPT gets one analysis line carrying the raw current, the
    calculation current (x 1.25, read back from two decimals) and the current
    flag. *)
Definition analysisMatches (entry : nat * list ConfiguredString)
    (a : MpptAnalysis) : Prop :=
  mpptIndex a = fst entry /\
  parallelStrings a = parallelStringsFor parallelByMppt (fst entry) /\
  iscMax a = iscTotalOf entry /\
  a_iscCalculation a = parseFixed 2 (mul (iscTotalOf entry) (lit 1.25)) /\
  isCurrentError a = gtb (iscTotalOf entry) (maxInputCurrent iSpecs).

Lemma runMpptLoop_analyses (groups : MpptGroups) :
  forall st,
    (forall a, In a (mpptAnalyses st) ->
               In a (mpptAnalyses (fold_left step groups st))) /\
    forall entry, In entry groups ->
      exists a, In a (mpptAnalyses (fold_left step groups st)) /\
                analysisMatches entry a.
Proof.
  induction groups as [| e rest IH]; intros st; cbn [fold_left].
  - split; [auto | intros entry []].
  - destruct (IH (step st e)) as [Hkeep Hnew]. split.
    + intros a Ha. apply Hkeep.
      destruct e as [idx segments]. unfold step, mpptStep.
      cbn [mpptAnalyses]. apply in_or_app. left. exact Ha.
    + intros entry [<- | Hin]; [| now apply Hnew].
      pose proof (mpptStep_iscTotal st e) as Htot.
      destruct e as [idx segments]. cbn [fst snd] in Htot.
      eexists. split.
      * apply Hkeep. unfold step, mpptStep. cbn [mpptAnalyses].
        apply in_or_app. right. left. reflexivity.
      * unfold analysisMatches. cbn [mpptIndex parallelStrings iscMax
          a_iscCalculation isCurrentError fst snd].
        fold segStep. rewrite Htot. repeat split.
Qed.
End CentralFacts.

(** *** The report of the central-inverter path *)

Section CentralReport.
Variable mainPanel : Panel.
Variable inv : Component.
Variable iSpecs : InverterElectricalSpecs.
Variable climate : option Climate.
Variable panelsPerStringLegacy : number.
Variable totalPanelsLegacy : option number.
Variable stringsCountLegacy : nat.
Variable maxPanelsInAStringLegacy : number.
Variable configuredStrings : list ConfiguredString.
Variable fields : list RoofField.
Variable phase : option Phase.
Variable dcCablingRuns : list DcCablingRun.

Hypothesis Helectrical : comp_electrical inv = Some iSpecs.
Hypothesis Hcentral : ltb (maxInputVoltage iSpecs) 100 = false.

Let theReport : CompatibilityReport :=
  checkElectricalCompatibility mainPanel (Some inv) climate
    panelsPerStringLegacy totalPanelsLegacy stringsCountLegacy
    maxPanelsInAStringLegacy configuredStrings fields phase dcCablingRuns.

Let groups : MpptGroups :=
  buildMpptGroups configuredStrings stringsCountLegacy panelsPerStringLegacy.

Let tMin : number := match climate with Some c => tempMin c | None => -10 end.
Let tCellHot : number :=
  add (match climate with Some c => tempMaxAmb c | None => 35 end) 35.

(** The state of the MPPT loop when it ends. *)
Definition centralState : LoopState :=
  runMpptLoop mainPanel fields iSpecs tMin tCellHot
    (buildParallelByMppt dcCablingRuns) groups.

(** [iSpecs.maxAcPower || inverter.power || 0] and the mains mode. *)
Definition positive (o : option number) : option number :=
  match o with
  | Some i => if gtb i 0 then Some i else None
  | None => None
  end.

Definition centralMaxAcPower : number :=
  orElse (maxAcPower iSpecs)
    (match comp_power inv with Some pw => orElse pw 0 | None => 0 end).

Definition centralIsTri : bool :=
  match phase with
  | Some Tri => true
  | Some Mono => false
  | None => gtb (maxAcPower iSpecs) 6000
            || includes (comp_id inv) "TRI" || includes (comp_id inv) "T15"
  end.

(** The AC reference current and its basis. *)
Definition acReference : number * AcCurrentBasis :=
  match positive (maxAcCurrent iSpecs), positive (nominalAcCurrent iSpecs) with
  | Some i, _ => (i, IAC_MAX)
  | None, Some i => (i, IAC_NOMINAL)
  | None, None =>
      (if centralIsTri
       then div centralMaxAcPower (mul 400 (lit 1.732))
       else div centralMaxAcPower 230,
       FALLBACK_S_OVER_U)
  end.

Lemma central_report_details :
  isCompatible theReport = isCompatible (loopReport centralState) /\
  warnings theReport = warnings (loopReport centralState) /\
  errors theReport = errors (loopReport centralState) /\
  exists d, details theReport = Some d /\
            stringsAnalysis d = mpptAnalyses centralState /\
            acCurrentBasis d = snd acReference /\
            d_nominalAcCurrent d = parseFixed 1 (fst acReference) /\
            recommendedBreakerTheo d
            = parseFixed 1 (mul (fst acReference) (lit 1.25)) /\
            recommendedBreaker d = ceil (mul (fst acReference) (lit 1.25)).
Proof.
  unfold theReport, checkElectricalCompatibility.
  rewrite Helectrical, Hcentral. cbv zeta.
  fold tMin. fold tCellHot. fold groups. fold centralState.
  fold centralMaxAcPower.
  fold (positive (maxAcCurrent iSpecs)).
  fold (positive (nominalAcCurrent iSpecs)).
  unfold acReference, centralIsTri.
  destruct (positive (maxAcCurrent iSpecs));
    destruct (positive (nominalAcCurrent iSpecs));
    cbn [setDetails isCompatible warnings errors details];
    (split; [reflexivity |]); (split; [reflexivity |]);
    (split; [reflexivity |]); eexists; (split; [reflexivity |]);
    cbn [stringsAnalysis acCurrentBasis d_nominalAcCurrent
           recommendedBreakerTheo recommendedBreaker fst snd];
    repeat split; destruct phase as [[|] |]; reflexivity.
Qed.

(** The current errors of the report are exactly those of the MPPT groups
    whose raw current exceeds the inverter limit. *)
Lemma central_current_errors (i : nat) (x m q : number) :
  In (MpptCurrentTooHigh i x m q) (errors theReport) <->
  exists entry,
    In entry groups /\
    iscTotalOf mainPanel fields (buildParallelByMppt dcCablingRuns) entry
      > maxInputCurrent iSpecs /\
    MpptCurrentTooHigh i x m q
    = MpptCurrentTooHigh (fst entry)
        (iscTotalOf mainPanel fields (buildParallelByMppt dcCablingRuns) entry)
        (maxInputCurrent iSpecs)
        (parallelStringsFor (buildParallelByMppt dcCablingRuns) (fst entry)).
Proof.
  destruct central_report_details as [_ [_ [-> _]]].
  unfold centralState, runMpptLoop.
  rewrite runMpptLoop_current_errors.
  cbn [initialLoopState loopReport emptyReport errors In].
  tauto.
Qed.
End CentralReport.

(** C1 (amended). In a central-inverter configuration, for every MPPT
    group, the analyzer raises the blocking current error exactly when the raw
    MPPT current, the computed product [max(per-segment Isc) *
    parallelStringCount], exceeds the inverter's maximum input current: the
    analysis line carries the raw current, the calculation current (raw
    current x 1.25, read back from its two-decimal rendering, only reported)
    and the flag; when the raw current exceeds the limit the report is not
    compatible and holds the current error of that MPPT; otherwise the report
    holds no current error for that MPPT. *)
Theorem mppt_current_error_iff_raw_current_exceeds
    (mainPanel : Panel) (inv : Component) (iSpecs : InverterElectricalSpecs)
    (climate : option Climate)
    (panelsPerStringLegacy : number) (totalPanelsLegacy : option number)
    (stringsCountLegacy : nat) (maxPanelsInAStringLegacy : number)
    (configuredStrings : list ConfiguredString) (fields : list RoofField)
    (phase : option Phase) (dcCablingRuns : list DcCablingRun) :
  comp_electrical inv = Some iSpecs ->
  ltb (maxInputVoltage iSpecs) 100 = false ->
  let report :=
    checkElectricalCompatibility mainPanel (Some inv) climate
      panelsPerStringLegacy totalPanelsLegacy stringsCountLegacy
      maxPanelsInAStringLegacy configuredStrings fields phase dcCablingRuns in
  forall (idx : nat) (segments : list ConfiguredString),
    In (idx, segments)
       (buildMpptGroups configuredStrings stringsCountLegacy
          panelsPerStringLegacy) ->
    let par := parallelStringsFor (buildParallelByMppt dcCablingRuns) idx in
    let iscTotal := mul (maxIsc (segmentIscs mainPanel fields segments)) par in
    (exists d a,
        details report = Some d /\ In a (stringsAnalysis d) /\
        mpptIndex a = idx /\ iscMax a = iscTotal /\
        a_iscCalculation a = parseFixed 2 (mul iscTotal (lit 1.25)) /\
        isCurrentError a = gtb iscTotal (maxInputCurrent iSpecs)) /\
    (iscTotal > maxInputCurrent iSpecs ->
       isCompatible report = false /\
       In (MpptCurrentTooHigh idx iscTotal (maxInputCurrent iSpecs) par)
          (errors report)) /\
    (iscTotal <= maxInputCurrent iSpecs ->
       forall x m q, ~ In (MpptCurrentTooHigh idx x m q) (errors report)).
Proof.
  intros Hel Hcentral report idx segments Hin par iscTotal.
  pose proof (central_report_details mainPanel inv iSpecs climate
                panelsPerStringLegacy totalPanelsLegacy stringsCountLegacy
                maxPanelsInAStringLegacy configuredStrings fields phase
                dcCablingRuns Hel Hcentral)
    as [Hcompat [_ [Herr [d [Hd [Han _]]]]]].
  fold report in Hcompat, Herr, Hd.
  assert (Htot : iscTotalOf mainPanel fields (buildParallelByMppt dcCablingRuns)
                   (idx, segments) = iscTotal) by reflexivity.
  split; [| split].
  - unfold centralState, runMpptLoop in Han.
    destruct (runMpptLoop_analyses mainPanel fields iSpecs
                (match climate with Some c => tempMin c | None => -10 end)
                (add (match climate with Some c => tempMaxAmb c | None => 35 end)
                     35)
                (buildParallelByMppt dcCablingRuns)
                (buildMpptGroups configuredStrings stringsCountLegacy
                   panelsPerStringLegacy)
                (initialLoopState)) as [_ Hnew].
    destruct (Hnew (idx, segments) Hin) as [a [Ha [H1 [_ [H3 [H4 H5]]]]]].
    exists d, a. rewrite Han. rewrite Htot in *. cbn [fst] in H1.
    repeat split; assumption.
  - intros Hgt. split.
    + rewrite Hcompat. unfold centralState, runMpptLoop.
      apply runMpptLoop_incompatible with (idx, segments); [exact Hin |].
      rewrite Htot. exact Hgt.
    + apply (central_current_errors mainPanel inv iSpecs climate
               panelsPerStringLegacy totalPanelsLegacy stringsCountLegacy
               maxPanelsInAStringLegacy configuredStrings fields phase
               dcCablingRuns Hel Hcentral).
      exists (idx, segments). rewrite Htot. cbn [fst]. repeat split; assumption.
  - intros Hle x m q Hbad.
    apply (central_current_errors mainPanel inv iSpecs climate
             panelsPerStringLegacy totalPanelsLegacy stringsCountLegacy
             maxPanelsInAStringLegacy configuredStrings fields phase
             dcCablingRuns Hel Hcentral) in Hbad.
    destruct Hbad as [[idx' segments'] [Hin' [Hgt Heq]]].
    cbn [fst] in Heq. injection Heq as Hidx _ _ _. subst idx'.
    assert (segments' = segments).
    { apply (groups_functional _ idx segments' segments
               (sorted_lt_NoDup _ (buildMpptGroups_sorted _ _ _)) Hin' Hin). }
    subst segments'. rewrite Htot in Hgt. lra.
Qed.

(** *** Concrete reports *)

Lemma round_whole (z : Z) : round (IZR z) = IZR z.
Proof.
  unfold round. f_equal. apply floor_unique. lra.
Qed.

Lemma ceil_value (x : number) (z : Z) : IZR z - 1 < x <= IZR z -> ceil x = IZR z.
Proof.
  intros H. unfold ceil. rewrite (floor_unique (- x) (- z)).
  - rewrite opp_IZR. lra.
  - rewrite opp_IZR. lra.
Qed.

(** A 10-panel string of 10 A panels on MPPT 1 of a central inverter. *)
Definition report64For (imax : number) : CompatibilityReport :=
  checkElectricalCompatibility somePanel (Some (centralInverter imax)) None
    10 (Some 10) 1 0 [string1] [roof1] (Some Mono) [].

(** The report of that string on a 12 A input: no message at all. *)
Lemma report64For_12 :
  errors (report64For 12) = [] /\ warnings (report64For 12) = [] /\
  isCompatible (report64For 12) = true.
Proof.
  destruct (central_report_details somePanel (centralInverter 12) (centralSpecs 12)
              None 10 (Some 10) 1 0 [string1] [roof1] (Some Mono) []
              eq_refl (centralSpecs_central 12)) as [Hc [Hw [He _]]].
  unfold report64For. rewrite Hc, Hw, He. clear Hc Hw He.
  unfold centralState, runMpptLoop.
  cbn [buildMpptGroups fold_left string1 cs_mpptIndex Nat.eqb groupPush].
  unfold mpptStep. simpl.
  unfold coeffVocOf. cbn [tempCoeffVoc]. unfold DEFAULT_TEMP_COEFF_VOC.
  replace (gtb 10 0) with true by (symmetry; apply gtb_true; lra).
  rewrite string1_parallel.
  unfold checkCurrent, checkVmp, checkVoc, VOC_WARN_RATIO, VMP_WARN_RATIO.
  cbn [centralSpecs maxInputVoltage minMpptVoltage maxInputCurrent].
  fl_compute. pow2_numerals. js_decide. repeat split; reflexivity.
Qed.

(** C1, as stated, fails: with a 12 A inverter input the calculation
    current [10 * 1 * 1.25 = 12.5 A] exceeds the limit, yet the report holds
    no current error for MPPT 1 and stays compatible. *)
Lemma current_check_ignores_calculation_factor :
  mul (mul (maxIsc (segmentIscs somePanel [roof1] [string1]))
           (parallelStringsFor (buildParallelByMppt []) 1))
      (lit 1.25)
    > maxInputCurrent (centralSpecs 12) /\
  (forall x m q, ~ In (MpptCurrentTooHigh 1 x m q) (errors (report64For 12))) /\
  errors (report64For 12) = [] /\
  isCompatible (report64For 12) = true.
Proof.
  destruct report64For_12 as [He [_ Hc]].
  rewrite string1_isc, string1_parallel. cbn [centralSpecs maxInputCurrent].
  split; [fl_compute; pow2_numerals; lra |].
  split; [| split; assumption].
  intros x m q. rewrite He. intros [].
Qed.

(** Three parallel strings of panels of short-circuit current [i] on an
    input limited to [imax]. *)
Definition panelOfIsc (i : number) : Panel :=
  mkPanel "DM400" 400 (Some (mkPanelElectricalSpecs 40 i 33 8 None None)).

Definition roofOfIsc (i : number) : RoofField :=
  mkRoofField "f1" "Toiture 1" (mkPanelConfig (panelOfIsc i) 2 5 None).

Definition threeParallel : DcCablingRun := mkDcCablingRun 1 20 None (Some 3).

Definition reportOfIsc (i imax : number) : CompatibilityReport :=
  checkElectricalCompatibility (panelOfIsc i) (Some (centralInverter imax))
    None 10 (Some 10) 1 0 [string1] [roofOfIsc i] (Some Mono) [threeParallel].

Lemma threeParallel_strings :
  parallelStringsFor (buildParallelByMppt [threeParallel]) 1 = 3.
Proof.
  cbn [buildParallelByMppt fold_left run_mpptIndex threeParallel Nat.eqb
         parallelStringsFor lookupNat].
  unfold parallelOfRun. cbn [run_parallelStrings threeParallel].
  rewrite (orElse_nonzero 3 1) by lra. rewrite round_whole.
  rewrite max_r by lra. apply orElse_nonzero. lra.
Qed.

Lemma panelOfIsc_isc (i : number) :
  0 <= i -> maxIsc (segmentIscs (panelOfIsc i) [roofOfIsc i] [string1]) = i.
Proof.
  intros Hi.
  cbn [segmentIscs flat_map panelOfSegment findField find string1 roofOfIsc
         cs_fieldId field_id String.eqb Ascii.eqb Bool.eqb panels model
         panelOfIsc panel_electrical isc app maxIsc fold_right].
  apply Rmax_left. exact Hi.
Qed.

(** On the limit the computed product decides.  [8.4 * 3] is computed as
    the binary64 number next above 25.2: the error is raised.  [13.6 * 3] is
    computed as 40.8 itself: no error is raised. *)
Lemma mppt_current_error_iff_raw_current_exceeds_witness :
  (mul (lit 8.4) 3 = dy 7093169413108532 (-48) /\
   lit 25.2 = dy 7093169413108531 (-48) /\
   isCompatible (reportOfIsc (lit 8.4) (lit 25.2)) = false /\
   In (MpptCurrentTooHigh 1 (mul (lit 8.4) 3) (lit 25.2) 3)
      (errors (reportOfIsc (lit 8.4) (lit 25.2)))) /\
  (mul (lit 13.6) 3 = lit 40.8 /\
   forall x m q,
     ~ In (MpptCurrentTooHigh 1 x m q)
          (errors (reportOfIsc (lit 13.6) (lit 40.8)))).
Proof.
  assert (E1 : mul (lit 8.4) 3 = dy 7093169413108532 (-48))
    by (fl_compute; reflexivity).
  assert (E2 : lit 25.2 = dy 7093169413108531 (-48))
    by (fl_compute; reflexivity).
  assert (E3 : mul (lit 13.6) 3 = lit 40.8)
    by (fl_compute; reflexivity).
  assert (P1 : 0 <= lit 8.4) by (apply fl_nonneg; lra).
  assert (P2 : 0 <= lit 13.6) by (apply fl_nonneg; lra).
  split.
  - split; [exact E1 | split; [exact E2 |]].
    destruct (mppt_current_error_iff_raw_current_exceeds (panelOfIsc (lit 8.4))
                (centralInverter (lit 25.2)) (centralSpecs (lit 25.2)) None 10
                (Some 10) 1 0 [string1] [roofOfIsc (lit 8.4)] (Some Mono)
                [threeParallel] eq_refl (centralSpecs_central (lit 25.2))
                1%nat [string1] string1_group) as [_ [H _]].
    rewrite (panelOfIsc_isc _ P1), threeParallel_strings in H.
    cbn [centralSpecs maxInputCurrent] in H. apply H.
    rewrite E1, E2. pow2_numerals. lra.
  - split; [exact E3 |].
    destruct (mppt_current_error_iff_raw_current_exceeds (panelOfIsc (lit 13.6))
                (centralInverter (lit 40.8)) (centralSpecs (lit 40.8)) None 10
                (Some 10) 1 0 [string1] [roofOfIsc (lit 13.6)] (Some Mono)
                [threeParallel] eq_refl (centralSpecs_central (lit 40.8))
                1%nat [string1] string1_group) as [_ [_ H]].
    rewrite (panelOfIsc_isc _ P2), threeParallel_strings in H.
    cbn [centralSpecs maxInputCurrent] in H. apply H.
    rewrite E3. lra.
Defined.

(** *** The micro-inverter path *)

(** The cold open-circuit voltage of one panel, as computed. *)
Definition panelVocCold (pSpecs : PanelElectricalSpecs) (climate : option Climate)
  : number :=
  mul (voc pSpecs)
      (add 1
         (mul (div (coeffVocOf pSpecs) 100)
              (sub (match climate with Some c => tempMin c | None => -10 end)
                   25))).

(** X14. With a micro-inverter (maximum input voltage below 100 V) the
    report never holds a warning; it is the neutral report when the panel has
    no electrical record; otherwise its only possible error is the panel
    overvoltage, raised exactly when the computed cold Voc of one panel
    exceeds the input limit, its details hold no MPPT line, one panel per
    string and a type F residual-current device; and nothing of the string
    configuration, the roof fields or the DC cabling runs changes the
    report. *)
Theorem micro_inverter_report
    (mainPanel : Panel) (inv : Component) (iSpecs : InverterElectricalSpecs)
    (climate : option Climate)
    (panelsPerStringLegacy : number) (totalPanelsLegacy : option number)
    (stringsCountLegacy : nat) (maxPanelsInAStringLegacy : number)
    (configuredStrings : list ConfiguredString) (fields : list RoofField)
    (phase : option Phase) (dcCablingRuns : list DcCablingRun) :
  comp_electrical inv = Some iSpecs ->
  maxInputVoltage iSpecs < 100 ->
  let r := checkElectricalCompatibility mainPanel (Some inv) climate
             panelsPerStringLegacy totalPanelsLegacy stringsCountLegacy
             maxPanelsInAStringLegacy configuredStrings fields phase
             dcCablingRuns in
  warnings r = [] /\
  (panel_electrical mainPanel = None -> r = emptyReport) /\
  (forall pSpecs, panel_electrical mainPanel = Some pSpecs ->
     errors r
     = (if gtb (panelVocCold pSpecs climate) (maxInputVoltage iSpecs)
        then [MicroOvervoltage (panelVocCold pSpecs climate)
                (maxInputVoltage iSpecs)]
        else []) /\
     isCompatible r
     = negb (gtb (panelVocCold pSpecs climate) (maxInputVoltage iSpecs)) /\
     exists d, details r = Some d /\
               vocCold d = parseFixed 1 (panelVocCold pSpecs climate) /\
               stringsAnalysis d = [] /\
               maxPanelsInAString d = 1 /\
               rcdType d = RcdF) /\
  (forall panelsPerStringLegacy' stringsCountLegacy' maxPanelsInAStringLegacy'
          configuredStrings' fields' dcCablingRuns',
     r = checkElectricalCompatibility mainPanel (Some inv) climate
           panelsPerStringLegacy' totalPanelsLegacy stringsCountLegacy'
           maxPanelsInAStringLegacy' configuredStrings' fields' phase
           dcCablingRuns').
Proof.
  intros He Hlt. apply ltb_true in Hlt. cbv zeta.
  unfold checkElectricalCompatibility. rewrite He, Hlt. cbv zeta.
  destruct (panel_electrical mainPanel) as [pSpecs |].
  - fold (panelVocCold pSpecs climate).
    split; [| split; [discriminate | split]].
    + destruct (gtb (panelVocCold pSpecs climate) (maxInputVoltage iSpecs));
        reflexivity.
    + intros p [= <-]. split; [| split].
      * destruct (gtb (panelVocCold pSpecs climate) (maxInputVoltage iSpecs));
          reflexivity.
      * destruct (gtb (panelVocCold pSpecs climate) (maxInputVoltage iSpecs));
          reflexivity.
      * eexists. split; [reflexivity |]. cbn [vocCold stringsAnalysis
          maxPanelsInAString rcdType]. repeat split.
    + reflexivity.
  - split; [reflexivity |]. split; [reflexivity |].
    split; [discriminate | reflexivity].
Qed.

(** A 50 V panel with a coefficient of -0.25 %/K at -15 degrees on a
    micro-inverter limited to 55 V: the cold Voc is 55 V on the reals and is
    computed as the binary64 number next above 55, so the overvoltage is
    raised. *)
Definition panel50 : PanelElectricalSpecs :=
  mkPanelElectricalSpecs 50 10 40 9.5 (Some (-0.25)) None.

Definition micro55 : InverterElectricalSpecs :=
  mkInverterElectricalSpecs 55 16 55 20 1920 None None (Some 4).

Definition coldClimate : Climate := mkClimate (-15) 35.

Definition microReport : CompatibilityReport :=
  checkElectricalCompatibility (mkPanel "DM450" 450 (Some panel50))
    (Some (mkComponent "IQ8P" "Micro-onduleur" (Some 1920) (Some micro55)))
    (Some coldClimate) 1 (Some 8) 1 0 [] [] (Some Mono) [].

Lemma micro_inverter_report_witness :
  50 * (1 + (-0.25 / 100) * (-15 - 25)) = 55 /\
  panelVocCold panel50 (Some coldClimate) = dy 7740561859543041 (-47) /\
  panelVocCold panel50 (Some coldClimate) > 55 /\
  errors microReport
  = [MicroOvervoltage (panelVocCold panel50 (Some coldClimate)) 55] /\
  isCompatible microReport = false.
Proof.
  assert (E : panelVocCold panel50 (Some coldClimate)
              = dy 7740561859543041 (-47)).
  { unfold panelVocCold, coeffVocOf.
    cbn [panel50 voc tempCoeffVoc coldClimate tempMin].
    rewrite orElse_nonzero by lra. fl_compute. reflexivity. }
  assert (G : panelVocCold panel50 (Some coldClimate) > 55)
    by (rewrite E; pow2_numerals; lra).
  split; [lra | split; [exact E | split; [exact G |]]].
  destruct (micro_inverter_report (mkPanel "DM450" 450 (Some panel50))
              (mkComponent "IQ8P" "Micro-onduleur" (Some 1920) (Some micro55))
              micro55 (Some coldClimate) 1 (Some 8) 1 0 [] [] (Some Mono) []
              eq_refl) as [_ [_ [H _]]].
  - cbn [micro55 maxInputVoltage]. lra.
  - destruct (H panel50 eq_refl) as [He [Hc _]].
    fold microReport in He, Hc. cbn [micro55 maxInputVoltage] in He, Hc.
    replace (gtb (panelVocCold panel50 (Some coldClimate)) 55) with true
      in He, Hc by (symmetry; apply gtb_true; exact G).
    split; assumption.
Defined.

(** *** AC reference current and breaker recommendation *)

(** X18. With a central inverter the AC reference current is the
    datasheet maximum AC current when it is positive, else the datasheet
    nominal AC current when it is positive, else the AC power over the mains
    voltage (400 V x 1.732 in three-phase, 230 V otherwise) as computed; the
    recommended breaker is a whole number of amperes, at least the computed
    product of the reference current and 1.25, and less than 1 A above
    it. *)
Theorem central_breaker_recommendation
    (mainPanel : Panel) (inv : Component) (iSpecs : InverterElectricalSpecs)
    (climate : option Climate)
    (panelsPerStringLegacy : number) (totalPanelsLegacy : option number)
    (stringsCountLegacy : nat) (maxPanelsInAStringLegacy : number)
    (configuredStrings : list ConfiguredString) (fields : list RoofField)
    (phase : option Phase) (dcCablingRuns : list DcCablingRun) :
  comp_electrical inv = Some iSpecs ->
  100 <= maxInputVoltage iSpecs ->
  exists d ref,
    details (checkElectricalCompatibility mainPanel (Some inv) climate
               panelsPerStringLegacy totalPanelsLegacy stringsCountLegacy
               maxPanelsInAStringLegacy configuredStrings fields phase
               dcCablingRuns) = Some d /\
    (exists z, recommendedBreaker d = IZR z) /\
    mul ref (lit 1.25) <= recommendedBreaker d < mul ref (lit 1.25) + 1 /\
    (forall i, maxAcCurrent iSpecs = Some i -> i > 0 ->
       ref = i /\ acCurrentBasis d = IAC_MAX) /\
    (positive (maxAcCurrent iSpecs) = None ->
     forall i, nominalAcCurrent iSpecs = Some i -> i > 0 ->
       ref = i /\ acCurrentBasis d = IAC_NOMINAL) /\
    (positive (maxAcCurrent iSpecs) = None ->
     positive (nominalAcCurrent iSpecs) = None ->
       acCurrentBasis d = FALLBACK_S_OVER_U /\
       (phase = Some Mono -> ref = div (centralMaxAcPower inv iSpecs) 230) /\
       (phase = Some Tri ->
          ref = div (centralMaxAcPower inv iSpecs) (mul 400 (lit 1.732)))).
Proof.
  intros He Hc. apply ltb_false in Hc.
  destruct (central_report_details mainPanel inv iSpecs climate panelsPerStringLegacy
              totalPanelsLegacy stringsCountLegacy maxPanelsInAStringLegacy
              configuredStrings fields phase dcCablingRuns He Hc)
    as [_ [_ [_ [d [Hd [_ [Hbasis [_ [_ Hbr]]]]]]]]].
  exists d, (fst (acReference inv iSpecs phase)).
  split; [exact Hd |]. rewrite Hbr, Hbasis.
  split; [apply JsMore.ceil_whole |].
  split; [apply JsMore.ceil_bounds |].
  unfold acReference. split; [| split].
  - intros i Hi Hpos.
    assert (Hp : positive (maxAcCurrent iSpecs) = Some i).
    { unfold positive. rewrite Hi. apply gtb_true in Hpos. rewrite Hpos.
      reflexivity. }
    rewrite Hp. split; reflexivity.
  - intros Hmax i Hi Hpos.
    assert (Hp : positive (nominalAcCurrent iSpecs) = Some i).
    { unfold positive. rewrite Hi. apply gtb_true in Hpos. rewrite Hpos.
      reflexivity. }
    rewrite Hmax, Hp. split; reflexivity.
  - intros Hmax Hnom. rewrite Hmax, Hnom. cbn [fst snd].
    split; [reflexivity |]. unfold centralIsTri.
    split; intros ->; reflexivity.
Qed.

(** A three-phase inverter of 41568 VA without datasheet currents: the
    reference current times 1.25 is 75 A on the reals and is computed as the
    binary64 number next above 75, so the recommended breaker is 76 A. *)
Definition specs41568 : InverterElectricalSpecs :=
  mkInverterElectricalSpecs 1000 200 850 30 41568 None None (Some 2).

Definition inverter41568 : Component :=
  mkComponent "OND-40K" "Onduleur" (Some 41568) (Some specs41568).

Lemma central_breaker_recommendation_witness :
  41568 / (400 * 1.732) * 1.25 = 75 /\
  mul (div 41568 (mul 400 (lit 1.732))) (lit 1.25)
  = dy 5277655813324801 (-46) /\
  exists d,
    details (checkElectricalCompatibility somePanel (Some inverter41568) None
               10 (Some 10) 1 0 [string1] [roof1] (Some Tri) []) = Some d /\
    recommendedBreaker d = 76.
Proof.
  assert (E : mul (div 41568 (mul 400 (lit 1.732))) (lit 1.25)
              = dy 5277655813324801 (-46)) by (fl_compute; reflexivity).
  split; [lra | split; [exact E |]].
  destruct (central_breaker_recommendation somePanel inverter41568 specs41568
              None 10 (Some 10) 1 0 [string1] [roof1] (Some Tri) [] eq_refl)
    as [d [ref [Hd [[z Hz] [Hb [_ [_ Hf]]]]]]].
  - cbn [specs41568 maxInputVoltage]. lra.
  - exists d. split; [exact Hd |].
    destruct (Hf eq_refl eq_refl) as [_ [_ Href]].
    rewrite (Href eq_refl) in Hb.
    unfold centralMaxAcPower in Hb. cbn [specs41568 maxAcPower] in Hb.
    rewrite orElse_nonzero in Hb by lra. rewrite E in Hb.
    rewrite Hz in *. revert Hb. pow2_numerals. intros Hb.
    assert (75 < z < 77)%Z by (split; apply lt_IZR; lra).
    f_equal. lia.
Defined.

(** *** Flags of the analysis lines and errors of the report *)

Inductive ErrorFlag := VoltageError | MpptError | CurrentError.

Definition errorFlagOf (k : ErrorFlag) (a : MpptAnalysis) : bool :=
  match k with
  | VoltageError => isVoltageError a
  | MpptError => isMpptError a
  | CurrentError => isCurrentError a
  end.

(** The blocking flag an error message stands for, and its MPPT. *)
Definition errorKind (m : Message) : option (ErrorFlag * nat) :=
  match m with
  | MpptOvervoltage i _ _ => Some (VoltageError, i)
  | MpptVmpTooLow i _ _ => Some (MpptError, i)
  | MpptCurrentTooHigh i _ _ _ => Some (CurrentError, i)
  | MicroOvervoltage _ _ => None
  | MpptVocNearLimit _ _ _ _ => None
  | MpptVmpNearLimit _ _ _ _ => None
  | RepartitionIncorrecte _ _ => None
  end.

Lemma some_in_app {A : Type} (P : A -> Prop) (l1 l2 : list A) :
  (exists m, In m (l1 ++ l2) /\ P m)
  <-> (exists m, In m l1 /\ P m) \/ (exists m, In m l2 /\ P m).
Proof.
  split.
  - intros [m [Hin Hk]]. apply in_app_iff in Hin as [Hin | Hin];
      [left | right]; exists m; split; assumption.
  - intros [[m [Hin Hk]] | [m [Hin Hk]]]; exists m;
      (split; [apply in_app_iff; auto | exact Hk]).
Qed.

Section LoopFlags.
Variable mainPanel : Panel.
Variable fields : list RoofField.
Variable iSpecs : InverterElectricalSpecs.
Variable tempMin tempCellHot : number.
Variable parallelByMppt : list (nat * number).

Let step := mpptStep mainPanel fields iSpecs tempMin tempCellHot parallelByMppt.

(** Blocking flags and errors agree, MPPT by MPPT. *)
Definition ErrorsAgree (st : LoopState) : Prop :=
  forall k i,
    (exists a, In a (mpptAnalyses st) /\ mpptIndex a = i /\
               errorFlagOf k a = true)
    <->
    (exists m, In m (errors (loopReport st)) /\ errorKind m = Some (k, i)).

Definition Exclusive (a : MpptAnalysis) : Prop :=
  isVoltageError a && isVoltageWarning a = false /\
  isMpptError a && isMpptWarning a = false.

(** The errors the three checks of one MPPT add. *)
Definition newErrors (idx : nat) (vocC vmpH tot par : number) : list Message :=
  (if gtb vocC (maxInputVoltage iSpecs)
   then [MpptOvervoltage idx vocC (maxInputVoltage iSpecs)] else [])
  ++ (if ltb vmpH (minMpptVoltage iSpecs)
      then [MpptVmpTooLow idx vmpH (minMpptVoltage iSpecs)] else [])
  ++ (if gtb tot (maxInputCurrent iSpecs)
      then [MpptCurrentTooHigh idx tot (maxInputCurrent iSpecs) par] else []).

Lemma checks_errors (idx : nat) (vocC vmpH tot par : number)
    (r : CompatibilityReport) :
  errors (checkCurrent iSpecs idx tot par
            (checkVmp iSpecs idx vmpH (checkVoc iSpecs idx vocC r)))
  = errors r ++ newErrors idx vocC vmpH tot par.
Proof.
  unfold checkCurrent, checkVmp, checkVoc, newErrors.
  destruct (gtb vocC (maxInputVoltage iSpecs));
    destruct (ltb vmpH (minMpptVoltage iSpecs));
    destruct (gtb tot (maxInputCurrent iSpecs));
    repeat match goal with
    | |- context [if ?b then pushWarning _ _ else _] => destruct b
    end;
    cbn [pushError pushWarning errors app];
    rewrite <- ?app_assoc, ?app_nil_r; reflexivity.
Qed.

Lemma new_errors_kind (idx : nat) (vocC vmpH tot par : number)
    (k : ErrorFlag) (i : nat) :
  (exists m, In m (newErrors idx vocC vmpH tot par) /\
             errorKind m = Some (k, i))
  <->
  (idx = i /\
   match k with
   | VoltageError => gtb vocC (maxInputVoltage iSpecs)
   | MpptError => ltb vmpH (minMpptVoltage iSpecs)
   | CurrentError => gtb tot (maxInputCurrent iSpecs)
   end = true).
Proof.
  unfold newErrors.
  destruct k;
    repeat match goal with
    | |- context [if ?b then [_] else []] => destruct b
    end;
    cbn [app In]; (split;
    [ intros [m [Hin Hk]];
      repeat match goal with
      | H : _ \/ _ |- _ => destruct H as [H | H]
      | H : False |- _ => destruct H
      end; subst m; cbn [errorKind] in Hk; try discriminate;
      injection Hk as <-; split; reflexivity
    | intros [<- Hb]; try discriminate;
      first [ eexists; split; [left; reflexivity | reflexivity]
            | eexists; split; [right; left; reflexivity | reflexivity]
            | eexists; split; [right; right; left; reflexivity | reflexivity] ]
    ]).
Qed.

Lemma step_errors_agree (st : LoopState) (entry : nat * list ConfiguredString) :
  ErrorsAgree st -> ErrorsAgree (step st entry).
Proof.
  intros Hst k i. destruct entry as [idx segments].
  unfold step, mpptStep. cbv zeta. cbn [mpptAnalyses loopReport].
  rewrite checks_errors.
  match goal with
  | |- context [newErrors idx ?vocC ?vmpH ?tot ?par] =>
      pose proof (new_errors_kind idx vocC vmpH tot par k i) as Hnew
  end.
  split.
  - intros [a [Hin [Hi Hf]]]. apply some_in_app.
    apply in_app_iff in Hin as [Hin | [<- | []]].
    + left. apply (Hst k i). exists a. repeat split; assumption.
    + right. apply Hnew. cbn [mpptIndex] in Hi. split; [exact Hi |].
      destruct k; exact Hf.
  - intros H. apply some_in_app in H as [H | H].
    + apply (Hst k i) in H as [a [Hin [Hi Hf]]].
      exists a. split; [apply in_app_iff; now left | split; assumption].
    + apply Hnew in H as [Hi Hf].
      eexists. split; [apply in_app_iff; right; left; reflexivity |].
      cbn [mpptIndex]. split; [exact Hi |]. destruct k; exact Hf.
Qed.

Lemma step_exclusive_flags (st : LoopState)
    (entry : nat * list ConfiguredString) :
  Forall Exclusive (mpptAnalyses st) ->
  Forall Exclusive (mpptAnalyses (step st entry)).
Proof.
  intros H. destruct entry as [idx segments].
  unfold step, mpptStep. cbv zeta. cbn [mpptAnalyses].
  apply Forall_app. split; [exact H |]. constructor; [| constructor].
  unfold Exclusive.
  cbn [isVoltageError isVoltageWarning isMpptError isMpptWarning].
  split.
  - match goal with
    | |- gtb ?v ?m && (_ && leb ?v ?m) = false =>
        destruct (gtb v m) eqn:A, (leb v m) eqn:B; js_tests;
          rewrite ?andb_false_r; try reflexivity; exfalso; lra
    end.
  - match goal with
    | |- ltb ?v ?m && (geb ?v ?m && _) = false =>
        destruct (ltb v m) eqn:A, (geb v m) eqn:B; js_tests;
          try reflexivity; exfalso; lra
    end.
Qed.

Lemma loop_errors_agree (groups : MpptGroups) :
  forall st,
    ErrorsAgree st -> Forall Exclusive (mpptAnalyses st) ->
    ErrorsAgree (fold_left step groups st) /\
    Forall Exclusive (mpptAnalyses (fold_left step groups st)).
Proof.
  induction groups as [| e rest IH]; intros st Ha Hx; cbn [fold_left];
    [split; assumption |].
  apply IH; [apply step_errors_agree | apply step_exclusive_flags]; assumption.
Qed.

Lemma initial_errors_agree : ErrorsAgree initialLoopState.
Proof.
  intros k i. cbn.
  split; [intros [a [[] _]] | intros [m [[] _]]].
Qed.
End LoopFlags.

(** X17. With a central inverter the blocking flags of the analysis lines
    and the errors of the report agree: some line of MPPT [i] carries a
    blocking flag (overvoltage, Vmp too low, current too high) exactly when
    the report holds the matching error for MPPT [i]; and no line carries
    both the error and the warning flag of the same voltage check.  (The two
    warning flags test a product where the warnings test a quotient: they are
    not covered, see [warning_flag_without_warning].) *)
Theorem error_flags_agree_with_errors
    (mainPanel : Panel) (inv : Component) (iSpecs : InverterElectricalSpecs)
    (climate : option Climate)
    (panelsPerStringLegacy : number) (totalPanelsLegacy : option number)
    (stringsCountLegacy : nat) (maxPanelsInAStringLegacy : number)
    (configuredStrings : list ConfiguredString) (fields : list RoofField)
    (phase : option Phase) (dcCablingRuns : list DcCablingRun) :
  comp_electrical inv = Some iSpecs ->
  100 <= maxInputVoltage iSpecs ->
  let r := checkElectricalCompatibility mainPanel (Some inv) climate
             panelsPerStringLegacy totalPanelsLegacy stringsCountLegacy
             maxPanelsInAStringLegacy configuredStrings fields phase
             dcCablingRuns in
  exists d,
    details r = Some d /\
    (forall k i,
       (exists a, In a (stringsAnalysis d) /\ mpptIndex a = i /\
                  errorFlagOf k a = true)
       <->
       (exists m, In m (errors r) /\ errorKind m = Some (k, i))) /\
    (forall a, In a (stringsAnalysis d) ->
       isVoltageError a && isVoltageWarning a = false /\
       isMpptError a && isMpptWarning a = false).
Proof.
  intros He Hc. cbv zeta. apply ltb_false in Hc.
  destruct (central_report_details mainPanel inv iSpecs climate panelsPerStringLegacy
              totalPanelsLegacy stringsCountLegacy maxPanelsInAStringLegacy
              configuredStrings fields phase dcCablingRuns He Hc)
    as [_ [_ [Herr [d [Hd [Hlines _]]]]]].
  exists d. split; [exact Hd |]. rewrite Hlines, Herr.
  unfold centralState, runMpptLoop.
  match goal with
  | |- context [fold_left (mpptStep ?mp ?f ?i ?t1 ?t2 ?p) ?g ?st] =>
      destruct (loop_errors_agree mp f i t1 t2 p g st) as [Ha Hx];
        [apply initial_errors_agree | constructor |]
  end.
  split.
  - intros k i. apply (Ha k i).
  - intros a Hin. rewrite Forall_forall in Hx. apply (Hx a Hin).
Qed.

Lemma error_flags_agree_with_errors_witness :
  exists d,
    details (reportOfIsc (lit 8.4) (lit 25.2)) = Some d /\
    ((exists a, In a (stringsAnalysis d) /\ mpptIndex a = 1%nat /\
                isCurrentError a = true)
     <->
     (exists m, In m (errors (reportOfIsc (lit 8.4) (lit 25.2))) /\
                errorKind m = Some (CurrentError, 1%nat))).
Proof.
  destruct (error_flags_agree_with_errors (panelOfIsc (lit 8.4))
              (centralInverter (lit 25.2)) (centralSpecs (lit 25.2)) None 10
              (Some 10) 1 0 [string1] [roofOfIsc (lit 8.4)] (Some Mono)
              [threeParallel] eq_refl) as [d [Hd [Hk _]]].
  - cbn [centralSpecs maxInputVoltage]. lra.
  - exists d. split; [exact Hd | exact (Hk CurrentError 1%nat)].
Defined.

(** The warning flags are not covered: with twelve panels of 32.775 V at
    25 degrees on an input limited to 414 V, the line of MPPT 1 carries the
    voltage warning flag ([393.29999999999995 >= 414 * 0.95] as computed) and
    the report holds no warning ([393.29999999999995 / 414] is computed below
    0.95). *)
Definition panel32 : Panel :=
  mkPanel "DM300" 300
    (Some (mkPanelElectricalSpecs (lit 32.775) 10 30 9.5 None None)).

Definition specs414 : InverterElectricalSpecs :=
  mkInverterElectricalSpecs 414 100 400 15 5000 None None (Some 2).

Definition report414 : CompatibilityReport :=
  checkElectricalCompatibility panel32
    (Some (mkComponent "FOX-S5000" "FoxESS S5000" (Some 5000) (Some specs414)))
    (Some (mkClimate 25 35)) 12 (Some 12) 1 0
    [mkConfiguredString "str-1" "f1" 12 1] [] (Some Mono) [].

Lemma warning_flag_without_warning :
  warnings report414 = [] /\
  exists d a,
    details report414 = Some d /\ stringsAnalysis d = [a] /\
    mpptIndex a = 1%nat /\ isVoltageWarning a = true.
Proof.
  assert (Hc : ltb (maxInputVoltage specs414) 100 = false)
    by (apply ltb_false; cbn; lra).
  destruct (central_report_details panel32
              (mkComponent "FOX-S5000" "FoxESS S5000" (Some 5000) (Some specs414))
              specs414 (Some (mkClimate 25 35)) 12 (Some 12) 1 0
              [mkConfiguredString "str-1" "f1" 12 1] [] (Some Mono) []
              eq_refl Hc) as [_ [Hw [_ [d [Hd [Hl _]]]]]].
  fold report414 in Hw, Hd.
  revert Hw Hl. unfold centralState, runMpptLoop.
  cbn [buildMpptGroups fold_left cs_mpptIndex Nat.eqb groupPush].
  unfold mpptStep. simpl.
  unfold coeffVocOf. cbn [tempCoeffVoc]. unfold DEFAULT_TEMP_COEFF_VOC.
  unfold checkCurrent, checkVmp, checkVoc, VOC_WARN_RATIO, VMP_WARN_RATIO.
  cbn [specs414 maxInputVoltage minMpptVoltage maxInputCurrent].
  unfold parallelStringsFor. cbn [buildParallelByMppt fold_left lookupNat].
  js_decide. fl_compute. pow2_numerals. js_decide.
  cbn [andb pushError pushWarning warnings emptyReport].
  intros Hw Hl. split; [exact Hw |].
  eexists d, _. split; [exact Hd |]. split; [exact Hl |].
  split; reflexivity.
Qed.

End Compat64Facts.


(** ** Calculator: rails and cable lines *)

Module CalculatorMore.
Import Js JsFacts JsMore Types Standards Sizing Calculator.

Ltac split_tests :=
  repeat match goal with
  | |- context [gtb ?x ?y] => destruct (gtb x y) eqn:?
  | |- context [leb ?x ?y] => destruct (leb x y) eqn:?
  | |- context [geb ?x ?y] => destruct (geb x y) eqn:?
  | |- context [eqb ?x ?y] => destruct (eqb x y) eqn:?
  end; js_tests.

(** *** Rails *)

(** X20. [calculateOptimalRails] answers nothing exactly when there is no
    rail, the line length is not positive, or the first rail has no positive
    length.  Otherwise it answers the first rail of the list, whatever the
    other rails, with the least whole number of rails covering the line
    (at least one) and one splice less than rails. *)
Theorem calculateOptimalRails_cover (lineLength : number)
    (availableRails : list CatalogItem) :
  (calculateOptimalRails lineLength availableRails = None <->
     availableRails = [] \/ lineLength <= 0 \/
     exists rail rest,
       availableRails = rail :: rest /\
       forall len, item_length rail = Some len -> len <= 0) /\
  (forall r,
     calculateOptimalRails lineLength availableRails = Some r ->
     exists len rest,
       availableRails = railComponent r :: rest /\
       item_length (railComponent r) = Some len /\ 0 < len /\
       (exists z, railsPerLine r = IZR z) /\
       1 <= railsPerLine r /\
       (railsPerLine r - 1) * len < lineLength <= railsPerLine r * len /\
       splicesPerLine r = railsPerLine r - 1).
Proof.
  unfold calculateOptimalRails.
  destruct availableRails as [| rail rest].
  { split; [split; [now left | reflexivity] | discriminate]. }
  destruct (leb lineLength 0) eqn:HL; js_tests.
  { split; [split; [right; left; exact HL | reflexivity] | discriminate]. }
  destruct (item_length rail) as [len |] eqn:Hlen.
  2: { split; [| discriminate]. split; [| reflexivity].
       intros _. right. right. exists rail, rest. split; [reflexivity |].
       intros len. rewrite Hlen. discriminate. }
  destruct (eqb len 0 || leb len 0) eqn:Hz.
  { split; [| discriminate]. split; [| reflexivity].
    intros _. right. right. exists rail, rest. split; [reflexivity |].
    intros len' E. rewrite Hlen in E. injection E as <-.
    apply orb_true_iff in Hz as [Hz | Hz]; js_tests; lra. }
  apply orb_false_iff in Hz as [_ Hz]. js_tests.
  split.
  - split; [discriminate |].
    intros [H | [H | [rail' [rest' [E Hno]]]]]; [discriminate | lra |].
    injection E as <- <-. specialize (Hno len Hlen). lra.
  - intros r [= <-]. cbn [railComponent railsPerLine splicesPerLine].
    exists len, rest. split; [reflexivity |]. split; [exact Hlen |].
    split; [exact Hz |].
    assert (Hq : 0 < lineLength / len)
      by (apply Rdiv_lt_0_compat; lra).
    pose proof (ceil_bounds (lineLength / len)) as [Hlo Hhi].
    pose proof (ceil_positive _ Hq) as H1.
    assert (E : lineLength = lineLength / len * len) by (field; lra).
    set (q := lineLength / len) in *. set (n := ceil q) in *.
    split; [apply ceil_whole |]. split; [exact H1 |].
    split; [split; nra |].
    destruct (gtb n 1) eqn:Hn; js_tests; lra.
Qed.

Definition rail3m : CatalogItem :=
  mkCatalogItem (mkComponent "RAIL-3300" "Rail 3.3 m" None None)
    (Some 3300) None None.

Lemma calculateOptimalRails_cover_witness :
  exists r, calculateOptimalRails 7000 [rail3m] = Some r /\
            (railsPerLine r - 1) * 3300 < 7000 <= railsPerLine r * 3300.
Proof.
  assert (E : exists r, calculateOptimalRails 7000 [rail3m] = Some r).
  { unfold calculateOptimalRails, rail3m. cbn [item_length].
    js_decide. cbn [orb]. eexists. reflexivity. }
  destruct E as [r Hr]. exists r. split; [exact Hr |].
  destruct (calculateOptimalRails_cover 7000 [rail3m]) as [_ H].
  destruct (H r Hr) as [len [rest [E [Hlen [_ [_ [_ [Hc _]]]]]]]].
  injection E as E _. rewrite <- E in Hlen. cbn in Hlen.
  injection Hlen as <-. exact Hc.
Defined.

(** *** The DC cable line *)

(** X21. [calculateDcCableSection] answers nothing exactly when the
    panel count or the distance is not positive.  Otherwise the quantity is
    the least whole number of 100 m coils covering the way there and back
    (twice the distance), at least one; the catalog key is the 6 mm2
    reference exactly when the drop at 6 mm2 (13.5 A, 42 V per panel, at
    least 6 panels) is at most 3 %, else the 10 mm2 one; and the line is the
    catalog entry under that key when there is one, else a line to be priced
    carrying the key. *)
Theorem calculateDcCableSection_line (totalPanels distanceMeters : number)
    (cableDb : CatalogDb) :
  (calculateDcCableSection totalPanels distanceMeters cableDb = None <->
     totalPanels <= 0 \/ distanceMeters <= 0) /\
  (forall m,
     calculateDcCableSection totalPanels distanceMeters cableDb = Some m ->
     (exists z, mat_quantity m = IZR z) /\
     1 <= mat_quantity m /\
     100 * (mat_quantity m - 1) < 2 * distanceMeters <= 100 * mat_quantity m /\
     let key :=
       if leb (duPct (computeDcDrop distanceMeters 13.5 6
                        (Js.max totalPanels 6 * 42))) 3
       then "821101000609200"%string else "CABLE-DC-10MM"%string in
     (catalogGet cableDb key = None ->
        mat_id m = key /\ mat_price m = Some ""%string) /\
     (forall c, catalogGet cableDb key = Some c ->
        mat_id m = comp_id (item c) /\
        mat_description m = comp_description (item c))).
Proof.
  unfold calculateDcCableSection.
  destruct (leb totalPanels 0) eqn:Hn; js_tests.
  { split; [split; [now left | reflexivity] | discriminate]. }
  destruct (leb distanceMeters 0) eqn:HL; js_tests.
  { split; [split; [now right | reflexivity] | discriminate]. }
  cbn [orb]. split; [split; [discriminate | lra] |].
  cbv zeta.
  assert (Hv : 0 < Js.max totalPanels 6 * 42).
  { unfold Js.max. destruct (Rle_dec totalPanels 6); lra. }
  assert (Hkey :
    (if eqb (fst (if gtb (0.023 * 2 * distanceMeters * 13.5 / (0.03 * (Js.max totalPanels 6 * 42))) 6
                  then (10, "10"%string) else (6, "6"%string))) 6
     then "821101000609200"%string else "CABLE-DC-10MM"%string)
    = (if leb (duPct (computeDcDrop distanceMeters 13.5 6
                        (Js.max totalPanels 6 * 42))) 3
       then "821101000609200"%string else "CABLE-DC-10MM"%string)).
  { set (V := Js.max totalPanels 6 * 42) in *.
    unfold computeDcDrop, RHO_CU.
    replace (leb distanceMeters 0) with false by (symmetry; apply leb_false; lra).
    replace (leb 13.5 0) with false by (symmetry; apply leb_false; lra).
    replace (leb 6 0) with false by (symmetry; apply leb_false; lra).
    replace (leb V 0) with false by (symmetry; apply leb_false; lra).
    cbn [orb duPct].
    assert (E : 2 * distanceMeters * 13.5 * 0.023 / 6 / V * 100
                = 0.023 * 2 * distanceMeters * 13.5 / (0.03 * V) / 6 * 3)
      by (decimals; field; lra).
    rewrite E. set (T := 0.023 * 2 * distanceMeters * 13.5 / (0.03 * V)).
    destruct (gtb T 6) eqn:A; cbn [fst];
      destruct (leb (T / 6 * 3) 3) eqn:B; js_tests; try (exfalso; lra);
      js_decide; reflexivity. }
  rewrite Hkey. clear Hkey.
  set (key := if leb (duPct (computeDcDrop distanceMeters 13.5 6
                               (Js.max totalPanels 6 * 42))) 3
              then "821101000609200"%string else "CABLE-DC-10MM"%string).
  assert (Hq : 0 < distanceMeters * 2 / 100) by lra.
  pose proof (ceil_bounds (distanceMeters * 2 / 100)) as [Hlo Hhi].
  pose proof (ceil_positive _ Hq) as H1.
  pose proof (ceil_whole (distanceMeters * 2 / 100)) as Hw.
  intros m Hm.
  assert (Hqty : mat_quantity m = ceil (distanceMeters * 2 / 100)).
  { injection Hm as <-. cbn [mat_quantity].
    match goal with
    | |- Js.max 1 (if ?b then _ else _) = _ => destruct b
    end; apply max_r; exact H1. }
  rewrite Hqty. split; [exact Hw |]. split; [exact H1 |].
  split; [lra |].
  split.
  - intros Hnone. rewrite Hnone in Hm. injection Hm as <-.
    cbn [mat_id mat_price item comp_id item_price]. split; reflexivity.
  - intros c Hc. rewrite Hc in Hm. injection Hm as <-.
    cbn [mat_id mat_description]. split; reflexivity.
Qed.

Lemma calculateDcCableSection_line_witness :
  exists m, calculateDcCableSection 12 30 None = Some m /\
            1 <= mat_quantity m.
Proof.
  assert (E : exists m, calculateDcCableSection 12 30 None = Some m).
  { unfold calculateDcCableSection. js_decide. cbn [orb]. eexists.
    reflexivity. }
  destruct E as [m Hm]. exists m. split; [exact Hm |].
  destruct (calculateDcCableSection_line 12 30 None) as [_ H].
  apply (H m Hm).
Defined.

(** *** The AC cable line *)





Ltac table_lookup :=
  unfold getMaxInForSectionStandard, getMaxInForSectionPessimistic,
    standardTable, pessimisticTable;
  cbn [lookup];
  repeat match goal with
  | |- context [Req_dec_T ?a ?b] => destruct (Req_dec_T a b); try lra
  end.







(** The coil retained for a section and a length: the local [chosen]. *)
Definition chosenCoil (L : number) (tri : bool) (sel : number * string)
  : CoilOption :=
  match acCoilOptions tri (fst sel) with
  | [] =>
      mkCoilOption
        ("CABLE-R2V-" ++ phaseCores tri ++ snd sel ++ "-MANUEL")%string 50
  | first :: rest => pickCoil L first rest
  end.

Lemma INR_50 : INR 50 = 50.
Proof. rewrite INR_IZR_INZ. reflexivity. Qed.

Lemma INR_100 : INR 100 = 100.
Proof. rewrite INR_IZR_INZ. reflexivity. Qed.

Lemma INR_500 : INR 500 = 500.
Proof. rewrite INR_IZR_INZ. reflexivity. Qed.

Lemma calculateAcCableSection_shape (P L : number) (db : CatalogDb)
    (tri : bool) (forced : option number) :
  0 < P -> 0 < L ->
  let sel := acSelectedSection P L tri forced in
  let chosen := chosenCoil L tri sel in
  let qty := Js.max 1 (ceil (L / orElse (INR (coilM chosen)) 50)) in
  exists description,
    calculateAcCableSection P L db tri forced
    = match catalogGet db (coil_id chosen) with
      | None =>
          Some (mkMaterial (coil_id chosen) description qty (Some ""%string)
                  None)
      | Some comp =>
          Some (mkMaterial (comp_id (item comp)) (comp_description (item comp))
                  qty (item_price comp) (item_datasheetUrl comp))
      end.
Proof.
  intros HP HL. cbv zeta. unfold calculateAcCableSection, chosenCoil.
  replace (leb P 0) with false by (symmetry; apply leb_false; lra).
  replace (leb L 0) with false by (symmetry; apply leb_false; lra).
  cbn [orb]. destruct (acSelectedSection P L tri forced) as [s label].
  cbn [fst snd].
  destruct (acCoilOptions tri s) as [| first rest]; eexists; reflexivity.
Qed.

(** The coil retained is the smallest coil of the options that covers the
    length, else the largest one. *)
Lemma chosenCoil_choice (L : number) (tri : bool) (sel : number * string) :
  let opts := acCoilOptions tri (fst sel) in
  let coil := chosenCoil L tri sel in
  (coilM coil = 50 \/ coilM coil = 100 \/ coilM coil = 500)%nat /\
  (opts = [] ->
     coilM coil = 50%nat /\
     coil_id coil
     = ("CABLE-R2V-" ++ phaseCores tri ++ snd sel ++ "-MANUEL")%string) /\
  (opts <> [] ->
     In coil opts /\
     (forall o, In o opts -> L <= INR (coilM o) ->
        L <= INR (coilM coil) /\ (coilM coil <= coilM o)%nat) /\
     ((forall o, In o opts -> INR (coilM o) < L) ->
        forall o, In o opts -> (coilM o <= coilM coil)%nat)).
Proof.
  cbv zeta. unfold chosenCoil, acCoilOptions.
  destruct tri;
    repeat match goal with
    | |- context [if leb (fst sel) ?c then _ else _] =>
        destruct (leb (fst sel) c)
    end;
    unfold pickCoil, sortByCoil;
    cbn [fold_left insertByCoil coilM Nat.ltb Nat.leb find last];
    rewrite ?INR_50, ?INR_100, ?INR_500;
    repeat match goal with
    | |- context [if leb L ?c then _ else _] => destruct (leb L c) eqn:?
    end; js_tests; cbn [coilM coil_id];
    (split; [tauto |]);
    (split; [first [ intros _; split; reflexivity | discriminate ] |]);
    (intros Hne; try congruence);
    (split; [cbn [In]; tauto |]);
    (split;
     [ intros o Ho Hcov; cbn [In] in Ho;
       repeat match goal with
       | H : _ \/ _ |- _ => destruct H as [H | H]
       | H : False |- _ => destruct H
       end; subst o; cbn [coilM] in *;
       rewrite ?INR_50, ?INR_100, ?INR_500 in *;
       first [ exfalso; lra | split; [lra | lia] ]
     | intros Hall o Ho; cbn [In] in Ho;
       repeat match goal with
       | H : _ \/ _ |- _ => destruct H as [H | H]
       | H : False |- _ => destruct H
       end; subst o; cbn [coilM];
       first [ lia
             | exfalso;
               match goal with
               | Hall : forall o, _ -> _ |- _ =>
                   first
                     [ specialize (Hall _ (or_introl eq_refl))
                     | specialize (Hall _ (or_intror (or_introl eq_refl))) ];
                   cbn [coilM] in Hall;
                   rewrite ?INR_50, ?INR_100, ?INR_500 in Hall; lra
               end ] ]).
Qed.

(** X23. [calculateAcCableSection] answers nothing exactly when the power
    or the length is not positive.  Otherwise its line is built on one coil:
    with catalog coils for the section, the smallest coil that covers the
    length, else the largest; without, a 50 m line to be priced.  The
    quantity is the least whole number of such coils covering the length, at
    least one, and the line is the catalog entry of the coil when the catalog
    has it, else a line carrying the coil reference. *)
Theorem calculateAcCableSection_line (P L : number) (db : CatalogDb)
    (tri : bool) (forced : option number) :
  (calculateAcCableSection P L db tri forced = None <-> P <= 0 \/ L <= 0) /\
  (forall m,
     calculateAcCableSection P L db tri forced = Some m ->
     let opts := acCoilOptions tri (fst (acSelectedSection P L tri forced)) in
     exists coil,
       (exists z, mat_quantity m = IZR z) /\
       1 <= mat_quantity m /\
       (mat_quantity m - 1) * INR (coilM coil) < L
         <= mat_quantity m * INR (coilM coil) /\
       (catalogGet db (coil_id coil) = None -> mat_id m = coil_id coil) /\
       (forall c, catalogGet db (coil_id coil) = Some c ->
          mat_id m = comp_id (item c) /\
          mat_description m = comp_description (item c)) /\
       (opts = [] -> coilM coil = 50%nat) /\
       (opts <> [] ->
          In coil opts /\
          (forall o, In o opts -> L <= INR (coilM o) ->
             L <= INR (coilM coil) /\ (coilM coil <= coilM o)%nat) /\
          ((forall o, In o opts -> INR (coilM o) < L) ->
             forall o, In o opts -> (coilM o <= coilM coil)%nat))).
Proof.
  split.
  - unfold calculateAcCableSection.
    destruct (leb P 0) eqn:HP; js_tests;
      [split; [now left | reflexivity] |].
    destruct (leb L 0) eqn:HL; js_tests;
      [split; [now right | reflexivity] |].
    cbn [orb]. destruct (acSelectedSection P L tri forced) as [s label].
    split; [| lra].
    destruct (catalogGet db _); discriminate.
  - intros m Hm. cbv zeta.
    assert (Hpos : 0 < P /\ 0 < L).
    { unfold calculateAcCableSection in Hm.
      destruct (leb P 0) eqn:HP; [discriminate |].
      destruct (leb L 0) eqn:HL; [discriminate |]. js_tests. lra. }
    destruct Hpos as [HP HL].
    destruct (calculateAcCableSection_shape P L db tri forced HP HL)
      as [description Hshape].
    cbv zeta in Hshape. rewrite Hshape in Hm. clear Hshape.
    pose proof (chosenCoil_choice L tri (acSelectedSection P L tri forced))
      as [Hlen [Hnone Hsome]].
    cbv zeta in Hlen, Hnone, Hsome.
    set (coil := chosenCoil L tri (acSelectedSection P L tri forced)) in *.
    exists coil.
    assert (Hc : 0 < INR (coilM coil) /\
                 orElse (INR (coilM coil)) 50 = INR (coilM coil)).
    { destruct Hlen as [E | [E | E]]; rewrite E;
        rewrite ?INR_50, ?INR_100, ?INR_500;
        (split; [lra | apply orElse_nonzero; lra]). }
    destruct Hc as [Hcpos Hor]. rewrite Hor in Hm.
    assert (Hq : 0 < L / INR (coilM coil)) by (apply Rdiv_lt_0_compat; lra).
    pose proof (ceil_bounds (L / INR (coilM coil))) as [Hlo Hhi].
    pose proof (ceil_positive _ Hq) as H1.
    pose proof (ceil_whole (L / INR (coilM coil))) as Hw.
    assert (Hqty : mat_quantity m = ceil (L / INR (coilM coil))).
    { destruct (catalogGet db (coil_id coil)); injection Hm as <-;
        cbn [mat_quantity]; apply max_r; exact H1. }
    rewrite Hqty.
    assert (E : L = L / INR (coilM coil) * INR (coilM coil))
      by (field; lra).
    set (c := INR (coilM coil)) in *. set (q := L / c) in *.
    split; [exact Hw |]. split; [exact H1 |].
    split; [split; nra |].
    split; [| split; [| split]].
    + intros Hnone'. rewrite Hnone' in Hm. injection Hm as <-. reflexivity.
    + intros comp Hcomp. rewrite Hcomp in Hm. injection Hm as <-.
      split; reflexivity.
    + intros Hopts. apply Hnone. exact Hopts.
    + exact Hsome.
Qed.

Lemma calculateAcCableSection_line_witness :
  exists m, calculateAcCableSection 6000 70 None false (Some 10) = Some m /\
            1 <= mat_quantity m.
Proof.
  destruct (calculateAcCableSection_shape 6000 70 None false (Some 10))
    as [description Hshape]; [lra | lra |].
  cbv zeta in Hshape. cbn [catalogGet] in Hshape.
  eexists. split; [exact Hshape |].
  destruct (calculateAcCableSection_line 6000 70 None false (Some 10))
    as [_ H].
  destruct (H _ Hshape) as [coil [_ [H1 _]]]. exact H1.
Defined.

End CalculatorMore.


(** ** App: AC liaison, inverter choice, bill of materials, strings *)

Module AppMore.
Import Js JsFacts JsMore Types Standards Sizing Calculator Compat App.

(** *** The pickers of the render and the shared helpers *)

Definition ac2Params (i : AcInputs) : AcParams :=
  mkAcParams (totalPowerW i) (distanceToPanel i) (App.isThreePhase i)
    (acBreakerNormalizedA i) (Some (ac2MinAutoSection i)).

Definition ac1Params (i : AcInputs) : AcParams :=
  mkAcParams (inverterAcPowerVA i) (ac1LengthM i) (App.isThreePhase i)
    (ac1BreakerNormalizedA i) None.

Lemma ac2ConservativeLoop_shared (i : AcInputs) (l : list number) :
  ac2ConservativeLoop i l = acConservativeLoop (ac2Params i) l.
Proof.
  induction l as [| s rest IH]; [reflexivity |].
  cbn [ac2ConservativeLoop acConservativeLoop]. rewrite IH. reflexivity.
Qed.

Lemma ac2FallbackLoop_shared (i : AcInputs) (l : list number) :
  forall chosen,
    ac2FallbackLoop i l chosen = acFallbackLoop (ac2Params i) l chosen.
Proof.
  induction l as [| s rest IH]; intros chosen; [reflexivity |].
  cbn [ac2FallbackLoop acFallbackLoop]. rewrite !IH. reflexivity.
Qed.

(** With a floor of at most 25 mm2 the second loop of the shared picker
    forgets its initial [chosen]. *)
Lemma acFallbackLoop_initial (p : AcParams) (c c' : number) :
  minAuto p <= 25 ->
  acFallbackLoop p AC_SECTIONS_MM2 c = acFallbackLoop p AC_SECTIONS_MM2 c'.
Proof.
  intros H. unfold AC_SECTIONS_MM2. cbn [acFallbackLoop].
  replace (ltb 25 (minAuto p)) with false
    by (symmetry; apply ltb_false; exact H).
  repeat match goal with
  | |- context [if ltb ?s (minAuto p) then _ else _] =>
      destruct (ltb s (minAuto p))
  | |- context [if leb ?d 1 && ?b then _ else _] =>
      destruct (leb d 1 && b)
  end; reflexivity.
Qed.

Lemma ac2MinAutoSection_cases (i : AcInputs) :
  ac2MinAutoSection i = 10 \/ ac2MinAutoSection i = 2.5.
Proof.
  unfold ac2MinAutoSection.
  destruct (negb (App.isThreePhase i) && _); [now left | now right].
Qed.

Lemma ac1ConservativeLoop_shared (i : AcInputs) :
  ac1ConservativeLoop i AC_SECTIONS
  = acConservativeLoop (ac1Params i) AC_SECTIONS_MM2.
Proof.
  unfold AC_SECTIONS, AC_SECTIONS_MM2.
  cbn [ac1ConservativeLoop acConservativeLoop].
  change (minAuto (ac1Params i)) with 2.5.
  replace (ltb 2.5 2.5) with false by (symmetry; apply ltb_false; lra).
  replace (ltb 6 2.5) with false by (symmetry; apply ltb_false; lra).
  replace (ltb 10 2.5) with false by (symmetry; apply ltb_false; lra).
  replace (ltb 16 2.5) with false by (symmetry; apply ltb_false; lra).
  replace (ltb 25 2.5) with false by (symmetry; apply ltb_false; lra).
  reflexivity.
Qed.

Lemma ac1FallbackLoop_shared (i : AcInputs) (chosen : number) :
  ac1FallbackLoop i AC_SECTIONS chosen
  = acFallbackLoop (ac1Params i) AC_SECTIONS_MM2 chosen.
Proof.
  unfold AC_SECTIONS, AC_SECTIONS_MM2.
  cbn [ac1FallbackLoop acFallbackLoop].
  change (minAuto (ac1Params i)) with 2.5.
  replace (ltb 2.5 2.5) with false by (symmetry; apply ltb_false; lra).
  replace (ltb 6 2.5) with false by (symmetry; apply ltb_false; lra).
  replace (ltb 10 2.5) with false by (symmetry; apply ltb_false; lra).
  replace (ltb 16 2.5) with false by (symmetry; apply ltb_false; lra).
  replace (ltb 25 2.5) with false by (symmetry; apply ltb_false; lra).
  reflexivity.
Qed.

Lemma normalizeBreaker_shared (i : AcInputs) (minA : number) :
  normalizeBreaker i minA = normalizeBreakerA minA (App.isThreePhase i).
Proof.
  unfold normalizeBreaker, normalizeBreakerA, breakerLadder. cbv zeta.
  unfold Js.max. destruct (Rle_dec 0 minA) as [H | H]; [reflexivity |].
  destruct (App.isThreePhase i); cbn [find];
    replace (geb 16 minA) with true by (symmetry; apply geb_true; lra);
    replace (geb 16 0) with true by (symmetry; apply geb_true; lra);
    reflexivity.
Qed.

Lemma getAgcpCommercialBreakerA_shared (i : AcInputs) (a : option number) :
  getAgcpCommercialBreakerA i a
  = agcpToCommercialBreakerA (match a with Some v => orElse v 0 | None => 0 end)
      (App.isThreePhase i).
Proof.
  unfold getAgcpCommercialBreakerA, agcpToCommercialBreakerA.
  destruct a as [v |].
  - assert (E : orElse v 0 = v).
    { unfold orElse. destruct (Req_dec_T v 0); [now symmetry | reflexivity]. }
    rewrite E. reflexivity.
  - replace (eqb 0 0) with true by (symmetry; apply eqb_true; reflexivity).
    reflexivity.
Qed.

Lemma acBreakerNormalizedA_shared (i : AcInputs) :
  acBreakerNormalizedA i = bomAc2BreakerNormalizedA i.
Proof.
  unfold acBreakerNormalizedA, bomAc2BreakerNormalizedA. cbv zeta.
  rewrite getAgcpCommercialBreakerA_shared.
  destruct (agcpToCommercialBreakerA _ _); [reflexivity |].
  apply normalizeBreaker_shared.
Qed.

(** X24. The pickers written out in the render are the shared sizing
    helpers: the local AGCP mapping and breaker normalisation are
    [agcpToCommercialBreakerA] and [normalizeBreakerA], the local AC2 picker
    is [pickAutoAcSectionMm2] on the PV power with the 10 mm2 floor of the
    single-phase 32 A / 40 A breakers, and the local AC1 picker is
    [pickAutoAcSectionMm2] on the inverter AC power without floor.  Hence
    the render and the bill of materials get the same automatic AC2 section
    when the inverter AC power is the PV power, and the same automatic AC1
    section in three-phase or when the AC1 breaker is not 40 A. *)
Theorem render_pickers_are_shared_helpers (i : AcInputs) :
  (forall a, getAgcpCommercialBreakerA i a
             = agcpToCommercialBreakerA
                 (match a with Some v => orElse v 0 | None => 0 end)
                 (App.isThreePhase i)) /\
  (forall minA, normalizeBreaker i minA
                = normalizeBreakerA minA (App.isThreePhase i)) /\
  acBreakerNormalizedA i = bomAc2BreakerNormalizedA i /\
  pickAutoAcSection i = pickAutoAcSectionMm2 (ac2Params i) /\
  pickAutoAc1Section i = pickAutoAcSectionMm2 (ac1Params i) /\
  (inverterAcPowerVA i = totalPowerW i ->
     autoAcCableSectionRaw i = bomAutoAc2SectionMm2 i) /\
  (App.isThreePhase i = true \/ ac1BreakerNormalizedA i <> 40 ->
     autoAc1CableSection i = bomAutoAc1SectionMm2 i).
Proof.
  assert (H2 : pickAutoAcSection i = pickAutoAcSectionMm2 (ac2Params i)).
  { unfold pickAutoAcSection, pickAutoAcSectionMm2.
    change AC_SECTIONS with AC_SECTIONS_MM2.
    rewrite ac2ConservativeLoop_shared, ac2FallbackLoop_shared.
    destruct (acConservativeLoop (ac2Params i) AC_SECTIONS_MM2);
      [reflexivity |].
    apply acFallbackLoop_initial.
    change (minAuto (ac2Params i)) with (ac2MinAutoSection i).
    destruct (ac2MinAutoSection_cases i) as [-> | ->]; lra. }
  assert (H1 : pickAutoAc1Section i = pickAutoAcSectionMm2 (ac1Params i)).
  { unfold pickAutoAc1Section, pickAutoAcSectionMm2.
    rewrite ac1ConservativeLoop_shared, ac1FallbackLoop_shared.
    reflexivity. }
  split; [apply getAgcpCommercialBreakerA_shared |].
  split; [apply normalizeBreaker_shared |].
  split; [apply acBreakerNormalizedA_shared |].
  split; [exact H2 |]. split; [exact H1 |]. split.
  - intros HP. unfold autoAcCableSectionRaw. rewrite H2.
    unfold bomAutoAc2SectionMm2, ac2Params, ac2MinAutoSection. cbv zeta.
    rewrite <- acBreakerNormalizedA_shared, HP. reflexivity.
  - intros Hor. unfold autoAc1CableSection. rewrite H1.
    unfold bomAutoAc1SectionMm2, ac1Params. cbv zeta.
    fold (ac1LengthM i). fold (ac1CurrentMaxA i). fold (ac1BreakerMinA i).
    fold (ac1BreakerNormalizedA i).
    assert (E : negb (App.isThreePhase i) && eqb (ac1BreakerNormalizedA i) 40
                = false).
    { destruct Hor as [-> | Hne]; [reflexivity |].
      apply eqb_false in Hne. rewrite Hne. apply andb_false_r. }
    rewrite E. reflexivity.
Qed.

Definition triLiaison : AcInputs :=
  mkAcInputs 9000 true None 20 None None (Some 5) true 8000.

Lemma render_pickers_are_shared_helpers_witness :
  autoAc1CableSection triLiaison = bomAutoAc1SectionMm2 triLiaison.
Proof.
  apply (render_pickers_are_shared_helpers triLiaison). left. reflexivity.
Defined.

(** *** AC2 is not below AC1 *)

(** X25. In the centralised case an automatic AC2 section is never below
    the effective AC1 section nor below the section its own picker found;
    the order violation is raised exactly when the inverter is central and
    the user forced an AC2 section below the effective AC1 section; and the
    AC2 section is reported as oversized only when it was forced. *)
Theorem ac2_not_below_ac1 (i : AcInputs) :
  (acSectionOrderViolation i = true <->
     isCentralInverter i = true /\
     exists f, acCableSectionMm2 i = Some f /\ f < effectiveAc1CableSection i) /\
  (isCentralInverter i = true -> acCableSectionMm2 i = None ->
     effectiveAc1CableSection i <= effectiveAcCableSection i /\
     autoAcCableSectionRaw i <= effectiveAcCableSection i /\
     effectiveAcCableSection i = autoAcCableSection i) /\
  (isCentralInverter i = false ->
     effectiveAcCableSection i = effectiveAcCableSectionRaw i /\
     autoAcCableSection i = autoAcCableSectionRaw i) /\
  (isAcSectionOversized i = true ->
     exists f, acCableSectionMm2 i = Some f /\ f > autoAcCableSection i).
Proof.
  unfold acSectionOrderViolation, isAcSectionOversized,
    effectiveAcCableSection, autoAcCableSection, effectiveAcCableSectionRaw.
  change Js.max with Rmax.
  set (raw := autoAcCableSectionRaw i).
  set (ac1 := effectiveAc1CableSection i).
  pose proof (Rmax_r raw ac1) as M1. pose proof (Rmax_l raw ac1) as M2.
  pose proof (Rmax_r (Rmax raw ac1) ac1) as M3.
  pose proof (Rmax_l (Rmax raw ac1) ac1) as M4.
  assert (M5 : Rmax (Rmax raw ac1) ac1 = Rmax raw ac1)
    by (apply Rmax_left; lra).
  destruct (isCentralInverter i); destruct (acCableSectionMm2 i) as [f |];
    cbn [andb]; cbv beta iota.
  - split; [| split; [| split]].
    + rewrite ltb_true. split.
      * intros H. split; [reflexivity |]. exists f. now split.
      * intros [_ [f' [E H]]]. injection E as <-. exact H.
    + intros _ E. discriminate E.
    + intros E. discriminate E.
    + intros H. apply gtb_true in H. exists f. now split.
  - split; [| split; [| split]].
    + split.
      * intros H. apply ltb_true in H. exfalso. lra.
      * intros [_ [f [E _]]]. discriminate E.
    + intros _ _. split; [lra |]. split; [lra | exact M5].
    + intros E. discriminate E.
    + intros H. apply gtb_true in H. exfalso. lra.
  - split; [| split; [| split]].
    + split; [intros E; discriminate E | intros [E _]; discriminate E].
    + intros E. discriminate E.
    + intros _. split; reflexivity.
    + intros H. apply gtb_true in H. exists f. now split.
  - split; [| split; [| split]].
    + split; [intros E; discriminate E | intros [E _]; discriminate E].
    + intros E. discriminate E.
    + intros _. split; reflexivity.
    + intros H. apply gtb_true in H. exfalso. lra.
Qed.

Definition centralLiaison : AcInputs :=
  mkAcInputs 6000 false None 20 None None (Some 5) true 5000.

Lemma ac2_not_below_ac1_witness :
  effectiveAc1CableSection centralLiaison
  <= effectiveAcCableSection centralLiaison.
Proof.
  apply (ac2_not_below_ac1 centralLiaison); reflexivity.
Defined.

(** *** When there is no compatibility report *)

(** X26. The compatibility memo answers no report exactly when the roof
    fields hold no panel in total or no inverter is resolved (none selected
    and no automatic choice); in every other case there is a report. *)
Theorem compatibilityReport_none_iff
    (project : Project) (activeInverterComp : option Component)
    (inverterDB : list Component) (totalPowerW : number)
    (projectClimate : option Climate) (activeFieldIndex : nat) :
  compatibilityReport project activeInverterComp inverterDB totalPowerW
    projectClimate activeFieldIndex = None
  <->
  fold_left Rplus
    (map (fun f => getPanelCount (panels f)) (fields project)) 0 = 0
  \/ resolveActiveInverter (inverterConfig project) activeInverterComp
       inverterDB totalPowerW = None.
Proof.
  unfold compatibilityReport. cbv zeta.
  destruct (eqb _ 0) eqn:Hzero; js_tests.
  - split; [intros _; left; exact Hzero | reflexivity].
  - destruct (resolveActiveInverter _ _ _ _) as [inv |].
    + split.
      * intros H. exfalso.
        destruct (requiresStringConfig _ && _); [discriminate |].
        destruct (fields project) as [| first rest]; [| discriminate].
        apply Hzero. reflexivity.
      * intros [H | H]; [contradiction | discriminate].
    + split; [intros _; now right | reflexivity].
Qed.

(** *** The automatic inverter *)

Definition autoCandidates (b : InverterBrand) (inverterDB : list Component)
  : list Component :=
  filter (fun c => startsWith (comp_id c) (brandPrefix b)
                   && negb (includes (comp_id c) "MICRO")
                   && negb (includes (comp_id c) "ECS")
                   && negb (includes (comp_id c) "EP")
                   && negb (includes (comp_id c) "EQ"))
         inverterDB.

Definition byPower (a b : Component) : Prop := powerOrZero a <= powerOrZero b.

Lemma insertByPower_In (c x : Component) (l : list Component) :
  In x (insertByPower c l) <-> x = c \/ In x l.
Proof.
  induction l as [| d rest IH]; cbn [insertByPower In].
  - intuition.
  - destruct (ltb (powerOrZero c) (powerOrZero d)); cbn [In];
      [intuition | rewrite IH; intuition].
Qed.

Lemma insertByPower_sorted (c : Component) (l : list Component) :
  StronglySorted byPower l -> StronglySorted byPower (insertByPower c l).
Proof.
  induction 1 as [| d rest Hs IH Hall]; cbn [insertByPower].
  - constructor; constructor.
  - destruct (ltb (powerOrZero c) (powerOrZero d)) eqn:E; js_tests.
    + constructor; [constructor; assumption |].
      constructor; [unfold byPower; lra |].
      rewrite Forall_forall in *. intros x Hx. specialize (Hall x Hx).
      unfold byPower in *. lra.
    + constructor; [exact IH |].
      rewrite Forall_forall in *. intros x Hx.
      apply insertByPower_In in Hx as [-> | Hx];
        [unfold byPower; lra | now apply Hall].
Qed.

Lemma sortByPower_spec (l : list Component) :
  StronglySorted byPower (sortByPower l) /\
  forall x, In x (sortByPower l) <-> In x l.
Proof.
  unfold sortByPower.
  assert (H : forall acc,
            StronglySorted byPower acc ->
            StronglySorted byPower
              (fold_left (fun sorted c => insertByPower c sorted) l acc) /\
            forall x,
              In x (fold_left (fun sorted c => insertByPower c sorted) l acc)
              <-> In x acc \/ In x l).
  { induction l as [| c l IH]; intros acc Hacc; cbn [fold_left].
    - split; [exact Hacc | intros x; cbn [In]; tauto].
    - destruct (IH (insertByPower c acc) (insertByPower_sorted c acc Hacc))
        as [Hs Hin].
      split; [exact Hs |]. intros x. rewrite Hin, insertByPower_In.
      cbn [In]. intuition. }
  destruct (H [] (SSorted_nil _)) as [Hs Hin].
  split; [exact Hs |]. intros x. rewrite Hin. cbn [In]. tauto.
Qed.

Lemma find_sorted_least (target : number) (l : list Component) (c : Component) :
  StronglySorted byPower l ->
  find (fun c => geb (powerOrZero c) target) l = Some c ->
  In c l /\ powerOrZero c >= target /\
  forall x, In x l -> powerOrZero x >= target -> powerOrZero c <= powerOrZero x.
Proof.
  induction 1 as [| d rest Hs IH Hall]; cbn [find]; [discriminate |].
  destruct (geb (powerOrZero d) target) eqn:E; js_tests.
  - intros [= <-]. split; [now left |]. split; [exact E |].
    intros x [<- | Hx] _; [lra |].
    rewrite Forall_forall in Hall. apply (Hall x Hx).
  - intros H. destruct (IH H) as [Hin [Hge Hleast]].
    split; [now right |]. split; [exact Hge |].
    intros x [<- | Hx] Hx'; [lra | now apply Hleast].
Qed.

Lemma last_sorted_greatest (l : list Component) (c : Component) :
  StronglySorted byPower l ->
  nth_error l (List.length l - 1) = Some c ->
  In c l /\ forall x, In x l -> powerOrZero x <= powerOrZero c.
Proof.
  induction 1 as [| d rest Hs IH Hall]; [discriminate |].
  destruct rest as [| e rest'].
  - cbn. intros [= <-]. split; [now left |].
    intros x [<- | []]. lra.
  - intros H.
    assert (H' : nth_error (e :: rest') (List.length (e :: rest') - 1) = Some c).
    { cbn [List.length] in *.
      replace (S (S (List.length rest')) - 1)%nat
        with (S (S (List.length rest') - 1)) in H by lia.
      exact H. }
    destruct (IH H') as [Hin Hmax].
    split; [now right |].
    intros x [<- | Hx]; [| now apply Hmax].
    rewrite Forall_forall in Hall. apply (Hall c Hin).
Qed.

(** X27. The automatic inverter is taken among the catalog inverters of
    the brand that are neither micro-inverters nor accessories: none when
    there is no such inverter; the least powerful one whose power reaches 80 %
    of the PV power when there is one; else the most powerful one. *)
Theorem autoInverter_choice (b : InverterBrand) (inverterDB : list Component)
    (totalPowerW : number) :
  (autoInverter b inverterDB totalPowerW = None <->
     autoCandidates b inverterDB = []) /\
  (forall c,
     autoInverter b inverterDB totalPowerW = Some c ->
     In c (autoCandidates b inverterDB) /\
     ((exists x, In x (autoCandidates b inverterDB) /\
                 powerOrZero x >= totalPowerW * 0.8) ->
        powerOrZero c >= totalPowerW * 0.8 /\
        forall x, In x (autoCandidates b inverterDB) ->
                  powerOrZero x >= totalPowerW * 0.8 ->
                  powerOrZero c <= powerOrZero x) /\
     ((forall x, In x (autoCandidates b inverterDB) ->
                 powerOrZero x < totalPowerW * 0.8) ->
        forall x, In x (autoCandidates b inverterDB) ->
                  powerOrZero x <= powerOrZero c)).
Proof.
  unfold autoInverter. cbv zeta. fold (autoCandidates b inverterDB).
  destruct (sortByPower_spec (autoCandidates b inverterDB)) as [Hs Hin].
  set (sorted := sortByPower (autoCandidates b inverterDB)) in *.
  destruct (find (fun c => geb (powerOrZero c) (totalPowerW * 0.8)) sorted)
    as [c0 |] eqn:Hfind.
  - destruct (find_sorted_least _ _ _ Hs Hfind) as [Hc0 [Hge Hleast]].
    split.
    + split; [discriminate |]. intros E. rewrite E in Hin.
      apply Hin in Hc0. destruct Hc0.
    + intros c [= <-]. split; [now apply Hin |]. split.
      * intros _. split; [exact Hge |].
        intros x Hx. apply Hleast. now apply Hin.
      * intros Hall. apply Hin in Hc0. specialize (Hall c0 Hc0). lra.
  - assert (Hnone : forall x, In x sorted ->
                      powerOrZero x < totalPowerW * 0.8).
    { intros x Hx. pose proof (find_none _ _ Hfind x Hx) as H.
      cbv beta in H. js_tests. exact H. }
    split.
    + split.
      * intros E. destruct (autoCandidates b inverterDB) as [| x l] eqn:Hc;
          [reflexivity |]. exfalso.
        assert (Hx : In x sorted) by (apply Hin; now left).
        destruct sorted as [| y rest]; [destruct Hx |].
        apply nth_error_None in E. cbn [List.length] in E. lia.
      * intros E. rewrite E in Hin.
        destruct sorted as [| y rest]; [reflexivity |].
        exfalso. apply (Hin y). now left.
    + intros c Hc.
      destruct (last_sorted_greatest _ _ Hs Hc) as [Hc' Hmax].
      split; [now apply Hin |]. split.
      * intros [x [Hx Hge]]. apply Hin in Hx. specialize (Hnone x Hx). lra.
      * intros _ x Hx. apply Hmax. now apply Hin.
Qed.

Definition fox3 : Component := mkComponent "FOX-S3000" "S3000" (Some 3000) None.
Definition fox5 : Component := mkComponent "FOX-S5000" "S5000" (Some 5000) None.
Definition fox8 : Component := mkComponent "FOX-T8" "T8" (Some 8000) None.

Lemma autoInverter_choice_witness :
  exists c, autoInverter FOXESS [fox8; fox3; fox5] 6000 = Some c /\
            powerOrZero c >= 6000 * 0.8.
Proof.
  destruct (autoInverter FOXESS [fox8; fox3; fox5] 6000) as [c |] eqn:E.
  - exists c. split; [reflexivity |].
    destruct (autoInverter_choice FOXESS [fox8; fox3; fox5] 6000) as [_ H].
    destruct (H c E) as [_ [Hsuff _]]. apply Hsuff.
    exists fox5. split; [cbn; tauto |].
    unfold powerOrZero, fox5. cbn [comp_power].
    rewrite orElse_nonzero by lra. lra.
  - exfalso.
    destruct (autoInverter_choice FOXESS [fox8; fox3; fox5] 6000) as [H _].
    apply H in E. discriminate E.
Defined.

(** *** One line per reference in the bill of materials of the fields *)

(** The total quantity of the items carrying a reference. *)
Definition idQuantity (id : string) (l : list Material) : number :=
  fold_right
    (fun it acc => if String.eqb (mat_id it) id then mat_quantity it + acc
                   else acc) 0 l.

Definition firstWithId (id : string) (l : list Material) : option Material :=
  find (fun it => String.eqb (mat_id it) id) l.

Lemma idQuantity_app (id : string) (l1 l2 : list Material) :
  idQuantity id (l1 ++ l2) = idQuantity id l1 + idQuantity id l2.
Proof.
  induction l1 as [| x l1 IH]; cbn [app idQuantity fold_right].
  - fold (idQuantity id l2). lra.
  - fold (idQuantity id (l1 ++ l2)). fold (idQuantity id l1).
    destruct (String.eqb (mat_id x) id); rewrite IH; lra.
Qed.

Lemma idQuantity_absent (id : string) (l : list Material) :
  ~ In id (map mat_id l) -> idQuantity id l = 0.
Proof.
  induction l as [| x l IH]; cbn [map In idQuantity fold_right];
    [reflexivity |].
  intros H. fold (idQuantity id l).
  destruct (String.eqb (mat_id x) id) eqn:E.
  - apply String.eqb_eq in E. tauto.
  - apply IH. tauto.
Qed.

Lemma firstWithId_app (id : string) (l1 l2 : list Material) :
  firstWithId id (l1 ++ l2)
  = match firstWithId id l1 with
    | Some it => Some it
    | None => firstWithId id l2
    end.
Proof.
  unfold firstWithId. induction l1 as [| x l1 IH]; cbn [app find];
    [reflexivity |].
  destruct (String.eqb (mat_id x) id); [reflexivity | exact IH].
Qed.

Lemma firstWithId_absent (id : string) (l : list Material) :
  ~ In id (map mat_id l) -> firstWithId id l = None.
Proof.
  unfold firstWithId. induction l as [| x l IH]; cbn [map In find];
    [reflexivity |].
  intros H. destruct (String.eqb (mat_id x) id) eqn:E.
  - apply String.eqb_eq in E. tauto.
  - apply IH. tauto.
Qed.

(** The line of [old] after [existing.quantity += item.quantity]. *)
Definition bumped (old it : Material) : Material :=
  mkMaterial (mat_id old) (mat_description old)
    (mat_quantity old + mat_quantity it) (mat_price old) (mat_datasheetUrl old).

Lemma addToBOM_ids (it : Material) (bom : list Material) (id : string) :
  In id (map mat_id (addToBOM it bom)) <->
  In id (map mat_id bom) \/ id = mat_id it.
Proof.
  induction bom as [| line rest IH]; cbn [addToBOM map In].
  - intuition.
  - destruct (String.eqb (mat_id line) (mat_id it)) eqn:E.
    + apply String.eqb_eq in E. cbn [map In mat_id]. intuition congruence.
    + cbn [map In]. rewrite IH. intuition.
Qed.

Lemma addToBOM_NoDup (it : Material) (bom : list Material) :
  NoDup (map mat_id bom) -> NoDup (map mat_id (addToBOM it bom)).
Proof.
  induction bom as [| line rest IH]; cbn [addToBOM map]; intros H.
  - constructor; [intros [] | constructor].
  - inversion H as [| ? ? Hnotin Hrest]; subst.
    destruct (String.eqb (mat_id line) (mat_id it)) eqn:E.
    + cbn [map mat_id]. exact H.
    + cbn [map]. constructor; [| apply IH; exact Hrest].
      rewrite addToBOM_ids. intros [Hin | Heq]; [tauto |].
      apply String.eqb_neq in E. congruence.
Qed.

Lemma addToBOM_lines (it : Material) (bom : list Material) (line' : Material) :
  NoDup (map mat_id bom) ->
  In line' (addToBOM it bom) ->
  (In line' bom /\ mat_id line' <> mat_id it) \/
  (exists old, In old bom /\ mat_id old = mat_id it /\ line' = bumped old it) \/
  (~ In (mat_id it) (map mat_id bom) /\ line' = it).
Proof.
  induction bom as [| line rest IH]; cbn [addToBOM map]; intros Hnd Hin.
  - destruct Hin as [<- | []]. right. right. split; [intros [] | reflexivity].
  - inversion Hnd as [| ? ? Hnotin Hrest]; subst.
    destruct (String.eqb (mat_id line) (mat_id it)) eqn:E.
    + apply String.eqb_eq in E. destruct Hin as [<- | Hin].
      * right. left. exists line. split; [now left |]. split; [exact E |].
        reflexivity.
      * left. split; [now right |]. intros E'. apply Hnotin.
        rewrite E, <- E'. apply in_map. exact Hin.
    + apply String.eqb_neq in E. destruct Hin as [<- | Hin].
      * left. split; [now left | exact E].
      * destruct (IH Hrest Hin) as [[H1 H2] | [[old [H1 [H2 H3]]] | [H1 H2]]].
        -- left. split; [now right | exact H2].
        -- right. left. exists old. split; [now right |]. now split.
        -- right. right. split; [| exact H2].
           cbn [In]. intros [H | H]; [congruence | tauto].
Qed.

(** What holds of the lines once [processed] has been merged. *)
Definition Merged (processed bom : list Material) : Prop :=
  NoDup (map mat_id bom) /\
  (forall id, In id (map mat_id bom) <-> In id (map mat_id processed)) /\
  (forall line, In line bom ->
     mat_quantity line = idQuantity (mat_id line) processed /\
     exists it0,
       firstWithId (mat_id line) processed = Some it0 /\
       mat_description line = mat_description it0 /\
       mat_price line = mat_price it0 /\
       mat_datasheetUrl line = mat_datasheetUrl it0).

Lemma Merged_step (processed bom : list Material) (it : Material) :
  Merged processed bom -> Merged (processed ++ [it]) (addToBOM it bom).
Proof.
  intros [Hnd [Hids Hlines]]. split; [| split].
  - apply addToBOM_NoDup. exact Hnd.
  - intros id. rewrite addToBOM_ids, map_app, in_app_iff, Hids.
    cbn [map In]. intuition.
  - intros line' Hin. rewrite idQuantity_app, firstWithId_app.
    cbn [idQuantity fold_right].
    destruct (addToBOM_lines it bom line' Hnd Hin)
      as [[H1 H2] | [[old [H1 [H2 H3]]] | [H1 H2]]].
    + destruct (Hlines line' H1) as [Hq [it0 [Hf Hrest]]].
      replace (String.eqb (mat_id it) (mat_id line')) with false
        by (symmetry; apply String.eqb_neq; congruence).
      split; [lra |]. exists it0. rewrite Hf. split; [reflexivity | exact Hrest].
    + destruct (Hlines old H1) as [Hq [it0 [Hf Hrest]]].
      subst line'. cbn [bumped mat_id mat_quantity mat_description mat_price
                          mat_datasheetUrl].
      replace (String.eqb (mat_id it) (mat_id old)) with true
        by (symmetry; apply String.eqb_eq; congruence).
      split; [lra |]. exists it0. rewrite Hf. split; [reflexivity | exact Hrest].
    + subst line'. rewrite String.eqb_refl.
      assert (Hno : ~ In (mat_id it) (map mat_id processed))
        by (rewrite <- Hids; exact H1).
      rewrite (idQuantity_absent _ _ Hno), (firstWithId_absent _ _ Hno).
      split; [lra |]. exists it. unfold firstWithId. cbn [find].
      rewrite String.eqb_refl. repeat split.
Qed.

Lemma Merged_loop (items : list Material) :
  forall processed bom,
    Merged processed bom ->
    Merged (processed ++ items)
      (fold_left (fun b it => addToBOM it b) items bom).
Proof.
  induction items as [| it items IH]; intros processed bom H; cbn [fold_left].
  - rewrite app_nil_r. exact H.
  - replace (processed ++ it :: items) with ((processed ++ [it]) ++ items)
      by (rewrite <- app_assoc; reflexivity).
    apply IH. apply Merged_step. exact H.
Qed.

Definition withPanels (projectFields : list RoofField) : list RoofField :=
  filter (fun f => gtb (getPanelCount (panels f)) 0) projectFields.

Lemma fieldsBOM_items (fieldBOM : RoofField -> list Material)
    (projectFields : list RoofField) :
  fieldsBOM fieldBOM projectFields
  = fold_left (fun b it => addToBOM it b)
      (flat_map fieldBOM (withPanels projectFields)) [].
Proof.
  unfold fieldsBOM, withPanels. generalize (@nil Material).
  induction projectFields as [| f rest IH]; intros bom;
    cbn [fold_left filter flat_map]; [reflexivity |].
  rewrite IH. destruct (gtb (getPanelCount (panels f)) 0);
    [| reflexivity].
  cbn [flat_map]. rewrite fold_left_app. reflexivity.
Qed.

(** X28. The bill of materials of the roof fields holds one line per
    reference: its references are those of the items of the fields that hold
    panels, each once; the quantity of a line is the total quantity of the
    items carrying its reference; its description, price and datasheet are
    those of the first such item. *)
Theorem fieldsBOM_one_line_per_id (fieldBOM : RoofField -> list Material)
    (projectFields : list RoofField) :
  let items := flat_map fieldBOM (withPanels projectFields) in
  let bom := fieldsBOM fieldBOM projectFields in
  NoDup (map mat_id bom) /\
  (forall id, In id (map mat_id bom) <-> In id (map mat_id items)) /\
  (forall line, In line bom ->
     mat_quantity line = idQuantity (mat_id line) items /\
     exists it0,
       firstWithId (mat_id line) items = Some it0 /\
       mat_description line = mat_description it0 /\
       mat_price line = mat_price it0 /\
       mat_datasheetUrl line = mat_datasheetUrl it0).
Proof.
  cbv zeta. rewrite fieldsBOM_items.
  apply (Merged_loop (flat_map fieldBOM (withPanels projectFields)) [] []).
  split; [constructor |]. split; [intros id; cbn; tauto | intros line []].
Qed.

(** *** Rebalancing the configured strings *)

(** The panels assigned to a field by a list of strings. *)
Definition assignedTo (fid : string) (l : list ConfiguredString) : number :=
  fold_right
    (fun s acc => if String.eqb (cs_fieldId s) fid then cs_panelCount s + acc
                  else acc) 0 l.

Definition stringsOf (fid : string) (l : list ConfiguredString)
  : list ConfiguredString :=
  filter (fun s => String.eqb (cs_fieldId s) fid) l.

Definition NonNegative (l : list ConfiguredString) : Prop :=
  Forall (fun s => 0 <= cs_panelCount s) l.

Definition withCount (n : number) (s : ConfiguredString) : ConfiguredString :=
  mkConfiguredString (cs_id s) (cs_fieldId s) n (cs_mpptIndex s).

(** The assignment [currentStrings[idx].panelCount = n] seen from the id
    that [findIndex] looked for. *)
Fixpoint updateFirst (id : string) (n : number) (l : list ConfiguredString)
  : list ConfiguredString :=
  match l with
  | [] => []
  | s :: rest =>
      if String.eqb (cs_id s) id then withCount n s :: rest
      else s :: updateFirst id n rest
  end.

Fixpoint countFirst (id : string) (l : list ConfiguredString) : number :=
  match l with
  | [] => 0
  | s :: rest =>
      if String.eqb (cs_id s) id then cs_panelCount s else countFirst id rest
  end.

Fixpoint fieldOfFirst (id : string) (l : list ConfiguredString) : string :=
  match l with
  | [] => ""%string
  | s :: rest =>
      if String.eqb (cs_id s) id then cs_fieldId s else fieldOfFirst id rest
  end.

Lemma findIndexById_spec (id : string) (l : list ConfiguredString)
    (d : ConfiguredString) (n : number) :
  match findIndexById id l with
  | Some idx =>
      In id (map cs_id l) /\
      setPanelCount idx n l = updateFirst id n l /\
      cs_panelCount (nth idx l d) = countFirst id l
  | None => ~ In id (map cs_id l)
  end.
Proof.
  induction l as [| s rest IH];
    cbn [findIndexById map In setPanelCount updateFirst countFirst];
    [tauto |].
  destruct (String.eqb (cs_id s) id) eqn:E.
  - apply String.eqb_eq in E. cbn [setPanelCount nth].
    split; [now left | split; reflexivity].
  - apply String.eqb_neq in E.
    destruct (findIndexById id rest) as [idx |]; cbn [option_map].
    + destruct IH as [Hin [Hset Hcount]]. cbn [setPanelCount nth].
      split; [now right |]. split; [rewrite Hset; reflexivity | exact Hcount].
    + tauto.
Qed.

Lemma updateFirst_ids (id : string) (n : number) (l : list ConfiguredString) :
  map cs_id (updateFirst id n l) = map cs_id l /\
  map cs_fieldId (updateFirst id n l) = map cs_fieldId l.
Proof.
  induction l as [| s rest [IH1 IH2]]; cbn [updateFirst map];
    [split; reflexivity |].
  destruct (String.eqb (cs_id s) id); cbn [map withCount cs_id cs_fieldId];
    [split; reflexivity | rewrite IH1, IH2; split; reflexivity].
Qed.

Lemma updateFirst_first (id id' : string) (n : number)
    (l : list ConfiguredString) :
  fieldOfFirst id' (updateFirst id n l) = fieldOfFirst id' l /\
  (id' <> id -> countFirst id' (updateFirst id n l) = countFirst id' l).
Proof.
  induction l as [| s rest [IH1 IH2]];
    cbn [updateFirst fieldOfFirst countFirst]; [split; reflexivity |].
  destruct (String.eqb (cs_id s) id) eqn:E.
  - apply String.eqb_eq in E.
    cbn [fieldOfFirst countFirst withCount cs_id cs_fieldId cs_panelCount].
    split; [reflexivity |]. intros Hne.
    replace (String.eqb (cs_id s) id') with false
      by (symmetry; apply String.eqb_neq; congruence).
    reflexivity.
  - cbn [fieldOfFirst countFirst].
    destruct (String.eqb (cs_id s) id'); [split; reflexivity |].
    split; [exact IH1 | exact IH2].
Qed.

Lemma updateFirst_nonneg (id : string) (n : number)
    (l : list ConfiguredString) :
  0 <= n -> NonNegative l -> NonNegative (updateFirst id n l).
Proof.
  intros Hn. unfold NonNegative.
  induction 1 as [| s rest Hs Hrest IH]; cbn [updateFirst];
    [constructor |].
  destruct (String.eqb (cs_id s) id); constructor; auto.
Qed.

Lemma updateFirst_assigned (id fid : string) (n : number)
    (l : list ConfiguredString) :
  In id (map cs_id l) ->
  assignedTo fid (updateFirst id n l)
  = assignedTo fid l
    + (if String.eqb (fieldOfFirst id l) fid then n - countFirst id l else 0).
Proof.
  induction l as [| s rest IH];
    cbn [map In updateFirst assignedTo fold_right fieldOfFirst countFirst];
    [intros [] |].
  intros Hin. fold (assignedTo fid rest).
  destruct (String.eqb (cs_id s) id) eqn:E.
  - cbn [assignedTo fold_right withCount cs_fieldId cs_panelCount].
    fold (assignedTo fid rest).
    destruct (String.eqb (cs_fieldId s) fid); lra.
  - apply String.eqb_neq in E. destruct Hin as [Hin | Hin]; [congruence |].
    cbn [assignedTo fold_right]. fold (assignedTo fid (updateFirst id n rest)).
    rewrite (IH Hin).
    destruct (String.eqb (cs_fieldId s) fid); lra.
Qed.

Lemma countFirst_nonneg (id : string) (l : list ConfiguredString) :
  NonNegative l -> 0 <= countFirst id l.
Proof.
  unfold NonNegative. induction 1 as [| s rest Hs Hrest IH]; cbn [countFirst];
    [lra |].
  destruct (String.eqb (cs_id s) id); assumption.
Qed.

(** With distinct ids, the first string with the id of [s] is [s]. *)
Lemma first_is_self (l : list ConfiguredString) (s : ConfiguredString) :
  NoDup (map cs_id l) -> In s l ->
  fieldOfFirst (cs_id s) l = cs_fieldId s /\
  countFirst (cs_id s) l = cs_panelCount s.
Proof.
  induction l as [| x rest IH]; cbn [map In fieldOfFirst countFirst];
    [intros _ [] |].
  intros Hnd Hin. inversion Hnd as [| ? ? Hnotin Hrest]; subst.
  destruct Hin as [-> | Hin].
  - rewrite String.eqb_refl. split; reflexivity.
  - destruct (String.eqb (cs_id x) (cs_id s)) eqn:E.
    + apply String.eqb_eq in E. exfalso. apply Hnotin. rewrite E.
      apply in_map. exact Hin.
    + apply IH; assumption.
Qed.

(** The panels still held by the strings to visit. *)
Definition pendingTotal (pending cur : list ConfiguredString) : number :=
  fold_right (fun s acc => countFirst (cs_id s) cur + acc) 0 pending.

Lemma pendingTotal_nonneg (pending cur : list ConfiguredString) :
  NonNegative cur -> 0 <= pendingTotal pending cur.
Proof.
  intros H. induction pending as [| s rest IH]; cbn [pendingTotal fold_right];
    [lra |].
  fold (pendingTotal rest cur). pose proof (countFirst_nonneg (cs_id s) cur H).
  lra.
Qed.

Lemma pendingTotal_update (pending cur : list ConfiguredString) (id : string)
    (n : number) :
  ~ In id (map cs_id pending) ->
  pendingTotal pending (updateFirst id n cur) = pendingTotal pending cur.
Proof.
  induction pending as [| s rest IH]; cbn [map In pendingTotal fold_right];
    [reflexivity |].
  intros H. fold (pendingTotal rest (updateFirst id n cur)).
  fold (pendingTotal rest cur). rewrite IH by tauto.
  destruct (updateFirst_first id (cs_id s) n cur) as [_ Hc].
  rewrite Hc by (intros E; apply H; left; exact E). reflexivity.
Qed.

Lemma pendingTotal_app (p1 p2 cur : list ConfiguredString) :
  pendingTotal (p1 ++ p2) cur = pendingTotal p1 cur + pendingTotal p2 cur.
Proof.
  induction p1 as [| s rest IH]; cbn [app pendingTotal fold_right].
  - fold (pendingTotal p2 cur). lra.
  - fold (pendingTotal (rest ++ p2) cur). fold (pendingTotal rest cur).
    rewrite IH. lra.
Qed.

(** The loop takes exactly [diff] panels from the field, and from no
    other. *)
Lemma reduceStrings_spec (fid : string) (pending : list ConfiguredString) :
  forall diff cur,
    NoDup (map cs_id pending) ->
    (forall s, In s pending ->
       In (cs_id s) (map cs_id cur) /\ fieldOfFirst (cs_id s) cur = fid) ->
    NonNegative cur ->
    0 <= diff <= pendingTotal pending cur ->
    let r := reduceStrings pending diff cur in
    map cs_id r = map cs_id cur /\
    map cs_fieldId r = map cs_fieldId cur /\
    NonNegative r /\
    forall fid',
      assignedTo fid' r
      = assignedTo fid' cur - (if String.eqb fid fid' then diff else 0).
Proof.
  induction pending as [| str rest IH]; intros diff cur Hnd Hpend Hnn Hdiff;
    cbv zeta; cbn [reduceStrings].
  - cbn [pendingTotal fold_right] in Hdiff.
    repeat split; auto. intros fid'.
    destruct (String.eqb fid fid'); lra.
  - destruct (leb diff 0) eqn:Hle; js_tests.
    { repeat split; auto. intros fid'.
      destruct (String.eqb fid fid'); lra. }
    cbn [pendingTotal fold_right] in Hdiff. fold (pendingTotal rest cur) in Hdiff.
    cbn [map] in Hnd. inversion Hnd as [| ? ? Hnotin Hrest]; subst.
    destruct (Hpend str (or_introl eq_refl)) as [Hin Hfield].
    pose proof (findIndexById_spec (cs_id str) cur str
                  (countFirst (cs_id str) cur
                   - Rmin (countFirst (cs_id str) cur) diff)) as Hspec.
    destruct (findIndexById (cs_id str) cur) as [idx |]; [| tauto].
    destruct Hspec as [_ [Hset Hcount]]. rewrite Hcount, Hset.
    set (c := countFirst (cs_id str) cur) in *.
    set (toRemove := Rmin c diff) in *.
    pose proof (countFirst_nonneg (cs_id str) cur Hnn) as Hc. fold c in Hc.
    pose proof (Rmin_l c diff) as Hl. pose proof (Rmin_r c diff) as Hr.
    fold toRemove in Hl, Hr.
    pose proof (pendingTotal_nonneg rest cur Hnn) as Hrestpos.
    assert (Hrem : toRemove = c \/ toRemove = diff).
    { unfold toRemove, Rmin. destruct (Rle_dec c diff); tauto. }
    set (cur' := updateFirst (cs_id str) (c - toRemove) cur).
    destruct (updateFirst_ids (cs_id str) (c - toRemove) cur) as [Hids Hfids].
    fold cur' in Hids, Hfids.
    assert (Hpend' : forall s, In s rest ->
              In (cs_id s) (map cs_id cur') /\
              fieldOfFirst (cs_id s) cur' = fid).
    { intros s Hs. destruct (Hpend s (or_intror Hs)) as [H1 H2].
      rewrite Hids. split; [exact H1 |].
      destruct (updateFirst_first (cs_id str) (cs_id s) (c - toRemove) cur)
        as [Hf _].
      fold cur' in Hf. rewrite Hf. exact H2. }
    assert (Hnn' : NonNegative cur')
      by (apply updateFirst_nonneg; [lra | exact Hnn]).
    assert (Htot' : pendingTotal rest cur' = pendingTotal rest cur)
      by (apply pendingTotal_update; exact Hnotin).
    assert (Hdiff' : 0 <= diff - toRemove <= pendingTotal rest cur').
    { rewrite Htot'. destruct Hrem as [E | E]; rewrite E in *; lra. }
    destruct (IH (diff - toRemove) cur' Hrest Hpend' Hnn' Hdiff')
      as [Ri [Rf [Rn Ra]]].
    split; [rewrite Ri; exact Hids |]. split; [rewrite Rf; exact Hfids |].
    split; [exact Rn |]. intros fid'. rewrite Ra. unfold cur'.
    rewrite (updateFirst_assigned _ fid' _ _ Hin), Hfield. fold c.
    destruct (String.eqb fid fid'); lra.
Qed.

Definition countSum (l : list ConfiguredString) : number :=
  fold_right (fun s acc => cs_panelCount s + acc) 0 l.

Lemma assignedTo_strings (fid : string) (l : list ConfiguredString) :
  assignedTo fid l = countSum (stringsOf fid l).
Proof.
  unfold stringsOf.
  induction l as [| s rest IH]; cbn [assignedTo fold_right filter];
    [reflexivity |].
  fold (assignedTo fid rest).
  destruct (String.eqb (cs_fieldId s) fid); [| exact IH].
  cbn [countSum fold_right]. fold (countSum (filter
    (fun s0 => String.eqb (cs_fieldId s0) fid) rest)). rewrite IH. reflexivity.
Qed.

Lemma totalAssigned_sum (l : list ConfiguredString) :
  forall a,
    fold_left (fun sum s => sum + cs_panelCount s) l a = a + countSum l.
Proof.
  induction l as [| s rest IH]; intros a; cbn [fold_left countSum fold_right].
  - lra.
  - fold (countSum rest). rewrite IH. lra.
Qed.

Lemma pendingTotal_sub (sub cur : list ConfiguredString) :
  NoDup (map cs_id cur) -> (forall s, In s sub -> In s cur) ->
  pendingTotal sub cur = countSum sub.
Proof.
  intros Hnd. induction sub as [| s rest IH];
    cbn [pendingTotal countSum fold_right]; intros Hsub; [reflexivity |].
  fold (pendingTotal rest cur). fold (countSum rest).
  rewrite IH by (intros x Hx; apply Hsub; now right).
  destruct (first_is_self cur s Hnd (Hsub s (or_introl eq_refl))) as [_ ->].
  reflexivity.
Qed.

Lemma pendingTotal_rev (pending cur : list ConfiguredString) :
  pendingTotal (rev pending) cur = pendingTotal pending cur.
Proof.
  induction pending as [| s rest IH]; cbn [rev]; [reflexivity |].
  rewrite pendingTotal_app, IH. cbn [pendingTotal fold_right].
  fold (pendingTotal rest cur). lra.
Qed.

(** Filtering strings keeps their ids distinct. *)
Lemma filter_distinct_ids (keep : ConfiguredString -> bool)
    (l : list ConfiguredString) :
  NoDup (map cs_id l) -> NoDup (map cs_id (filter keep l)).
Proof.
  induction l as [| s rest IH]; cbn [map filter]; intros H; [constructor |].
  inversion H as [| ? ? Hnotin Hrest]; subst.
  destruct (keep s); [| apply IH; exact Hrest].
  cbn [map]. constructor; [| apply IH; exact Hrest].
  intros Hin. apply Hnotin. apply in_map_iff in Hin as [y [Hy Hin]].
  apply filter_In in Hin as [Hin _]. rewrite <- Hy. apply in_map. exact Hin.
Qed.

(** The strings of a field are known from the field ids alone. *)
Lemma stringsOf_length (fid : string) (l1 l2 : list ConfiguredString) :
  map cs_fieldId l1 = map cs_fieldId l2 ->
  List.length (stringsOf fid l1) = List.length (stringsOf fid l2).
Proof.
  unfold stringsOf. revert l2.
  induction l1 as [| s rest IH]; intros [| s2 rest2]; cbn [map filter];
    try discriminate; [reflexivity |].
  intros [= E1 E2]. rewrite E1.
  destruct (String.eqb (cs_fieldId s2) fid); cbn [List.length];
    rewrite (IH rest2 E2); reflexivity.
Qed.

(** One field of the loop. *)
Lemma rebalanceField_spec (cur : list ConfiguredString) (f : RoofField) :
  NoDup (map cs_id cur) -> NonNegative cur ->
  0 <= getPanelCount (panels f) ->
  let r := rebalanceField cur f in
  map cs_id r = map cs_id cur /\
  map cs_fieldId r = map cs_fieldId cur /\
  NonNegative r /\
  (forall fid', fid' <> field_id f -> assignedTo fid' r = assignedTo fid' cur) /\
  assignedTo (field_id f) r <= getPanelCount (panels f) /\
  (getPanelCount (panels f) < assignedTo (field_id f) cur \/
   List.length (stringsOf (field_id f) cur) = 1%nat ->
   assignedTo (field_id f) r = getPanelCount (panels f)) /\
  (assignedTo (field_id f) cur <= getPanelCount (panels f) ->
   List.length (stringsOf (field_id f) cur) <> 1%nat -> r = cur).
Proof.
  intros Hnd Hnn Havail. cbv zeta. unfold rebalanceField. cbv zeta.
  fold (stringsOf (field_id f) cur).
  rewrite totalAssigned_sum, Rplus_0_l, <- assignedTo_strings.
  set (fid := field_id f). set (avail := getPanelCount (panels f)) in *.
  set (assigned := assignedTo fid cur).
  destruct (gtb assigned avail) eqn:Hover; js_tests.
  - (* too many panels: the loop takes the excess away *)
    assert (Hsub : forall s, In s (rev (stringsOf fid cur)) ->
              In s cur /\ cs_fieldId s = fid).
    { intros s Hs. apply in_rev in Hs. apply filter_In in Hs as [Hs E].
      apply String.eqb_eq in E. now split. }
    assert (Htot : pendingTotal (rev (stringsOf fid cur)) cur = assigned).
    { rewrite pendingTotal_rev, pendingTotal_sub.
      - symmetry. apply assignedTo_strings.
      - exact Hnd.
      - intros s Hs. apply filter_In in Hs. tauto. }
    destruct (reduceStrings_spec fid (rev (stringsOf fid cur))
                (assigned - avail) cur) as [Ri [Rf [Rn Ra]]].
    + rewrite map_rev. apply NoDup_rev. apply filter_distinct_ids. exact Hnd.
    + intros s Hs. destruct (Hsub s Hs) as [Hin Hf]. split.
      * apply in_map. exact Hin.
      * destruct (first_is_self cur s Hnd Hin) as [-> _]. exact Hf.
    + exact Hnn.
    + rewrite Htot. lra.
    + split; [exact Ri |]. split; [exact Rf |]. split; [exact Rn |].
      split; [| split; [| split]].
      * intros fid' Hne. rewrite Ra.
        replace (String.eqb fid fid') with false
          by (symmetry; apply String.eqb_neq; congruence).
        lra.
      * rewrite Ra, String.eqb_refl. fold assigned. lra.
      * intros _. rewrite Ra, String.eqb_refl. fold assigned. lra.
      * intros Hle. fold assigned in Hle. lra.
  - destruct (stringsOf fid cur) as [| only [| second more]] eqn:Hstrings.
    + (* no string on the field *)
      split; [reflexivity |]. split; [reflexivity |]. split; [exact Hnn |].
      split; [intros; reflexivity |]. fold assigned. split; [lra |].
      split; [| intros; reflexivity].
      intros [H | H]; [lra | discriminate H].
    + (* one string *)
      assert (Honly : In only cur /\ cs_fieldId only = fid).
      { assert (H : In only (stringsOf fid cur))
          by (rewrite Hstrings; now left).
        apply filter_In in H as [H E]. apply String.eqb_eq in E. now split. }
      destruct Honly as [Hin Hf].
      destruct (first_is_self cur only Hnd Hin) as [Hfield Hcount].
      assert (Hass : assigned = cs_panelCount only).
      { unfold assigned. rewrite assignedTo_strings, Hstrings.
        cbn [countSum fold_right]. lra. }
      destruct (ltb assigned avail) eqn:Hunder; js_tests.
      * pose proof (findIndexById_spec (cs_id only) cur only avail) as Hspec.
        destruct (findIndexById (cs_id only) cur) as [idx |].
        2: { exfalso. apply Hspec. apply in_map. exact Hin. }
        destruct Hspec as [Hinid [-> _]].
        destruct (updateFirst_ids (cs_id only) avail cur) as [Hids Hfids].
        split; [exact Hids |]. split; [exact Hfids |].
        split; [apply updateFirst_nonneg; assumption |].
        assert (Hnew : forall fid',
                  assignedTo fid' (updateFirst (cs_id only) avail cur)
                  = assignedTo fid' cur
                    + (if String.eqb fid fid' then avail - assigned else 0)).
        { intros fid'. rewrite (updateFirst_assigned _ fid' _ _ Hinid).
          rewrite Hfield, Hf, Hcount, Hass. reflexivity. }
        split; [| split; [| split]].
        -- intros fid' Hne. rewrite Hnew.
           replace (String.eqb fid fid') with false
             by (symmetry; apply String.eqb_neq; congruence).
           lra.
        -- rewrite Hnew, String.eqb_refl. fold assigned. lra.
        -- intros _. rewrite Hnew, String.eqb_refl. fold assigned. lra.
        -- intros _ H. exfalso. apply H. reflexivity.
      * split; [reflexivity |]. split; [reflexivity |]. split; [exact Hnn |].
        split; [intros; reflexivity |]. fold assigned. split; [lra |].
        split; [intros _; lra | intros; reflexivity].
    + (* several strings *)
      split; [reflexivity |]. split; [reflexivity |]. split; [exact Hnn |].
      split; [intros; reflexivity |]. fold assigned. split; [lra |].
      split; [| intros; reflexivity].
      intros [H | H]; [lra | discriminate H].
Qed.

Definition available (f : RoofField) : number := getPanelCount (panels f).

(** The loop over the fields. *)
Lemma rebalance_loop (projectFields : list RoofField) :
  forall cur,
    NoDup (map field_id projectFields) ->
    NoDup (map cs_id cur) -> NonNegative cur ->
    Forall (fun f => 0 <= available f) projectFields ->
    let r := fold_left rebalanceField projectFields cur in
    map cs_id r = map cs_id cur /\
    map cs_fieldId r = map cs_fieldId cur /\
    NonNegative r /\
    (forall fid', ~ In fid' (map field_id projectFields) ->
       assignedTo fid' r = assignedTo fid' cur) /\
    (forall f, In f projectFields ->
       assignedTo (field_id f) r <= available f /\
       (available f < assignedTo (field_id f) cur \/
        List.length (stringsOf (field_id f) cur) = 1%nat ->
        assignedTo (field_id f) r = available f) /\
       (assignedTo (field_id f) cur <= available f ->
        List.length (stringsOf (field_id f) cur) <> 1%nat ->
        assignedTo (field_id f) r = assignedTo (field_id f) cur)).
Proof.
  induction projectFields as [| f rest IH]; intros cur Hfields Hnd Hnn Hav;
    cbv zeta; cbn [fold_left].
  - split; [reflexivity |]. split; [reflexivity |]. split; [exact Hnn |].
    split; [intros; reflexivity | intros g []].
  - cbn [map] in Hfields. inversion Hfields as [| ? ? Hnotin Hrest]; subst.
    inversion Hav as [| ? ? Hf Havrest]; subst.
    destruct (rebalanceField_spec cur f Hnd Hnn Hf)
      as [Si [Sf [Sn [Sother [Sle [Seq Ssame]]]]]].
    cbv zeta in Si, Sf, Sn, Sother, Sle, Seq, Ssame.
    set (cur1 := rebalanceField cur f) in *.
    assert (Hnd1 : NoDup (map cs_id cur1)) by (rewrite Si; exact Hnd).
    destruct (IH cur1 Hrest Hnd1 Sn Havrest) as [Ri [Rf [Rn [Rother Rin]]]].
    cbv zeta in Ri, Rf, Rn, Rother, Rin.
    split; [rewrite Ri; exact Si |]. split; [rewrite Rf; exact Sf |].
    split; [exact Rn |]. split.
    + intros fid' Hno. cbn [map In] in Hno.
      rewrite Rother by tauto. apply Sother. intros E. apply Hno. now left.
    + intros g [<- | Hg].
      * rewrite (Rother (field_id f) Hnotin). unfold available.
        split; [exact Sle |]. split; [exact Seq |].
        intros Hle Hlen. rewrite (Ssame Hle Hlen). reflexivity.
      * assert (Hne : field_id g <> field_id f).
        { intros E. apply Hnotin. rewrite <- E. apply in_map. exact Hg. }
        destruct (Rin g Hg) as [Gle [Geq Gsame]].
        rewrite (Sother (field_id g) Hne) in Geq, Gsame.
        rewrite (stringsOf_length (field_id g) cur1 cur Sf) in Geq, Gsame.
        split; [exact Gle |]. split; assumption.
Qed.

Lemma filter_same_length {A : Type} (p : A -> bool) (l : list A) :
  List.length (filter p l) = List.length l -> filter p l = l.
Proof.
  induction l as [| x rest IH]; cbn [filter List.length]; [reflexivity |].
  destruct (p x); cbn [List.length]; intros H.
  - f_equal. apply IH. lia.
  - pose proof (filter_length_le p rest). lia.
Qed.

Lemma assignedTo_cons (fid : string) (s : ConfiguredString)
    (l : list ConfiguredString) :
  assignedTo fid (s :: l)
  = if String.eqb (cs_fieldId s) fid then cs_panelCount s + assignedTo fid l
    else assignedTo fid l.
Proof. reflexivity. Qed.

Lemma assignedTo_filter (fid : string) (p : ConfiguredString -> bool)
    (l : list ConfiguredString) :
  (forall s, In s l -> cs_fieldId s = fid -> p s = false ->
             cs_panelCount s = 0) ->
  assignedTo fid (filter p l) = assignedTo fid l.
Proof.
  induction l as [| s rest IH]; intros H; [reflexivity |].
  assert (IH' : assignedTo fid (filter p rest) = assignedTo fid rest)
    by (apply IH; intros x Hx; apply H; now right).
  cbn [filter]. rewrite assignedTo_cons.
  destruct (p s) eqn:Hp.
  - rewrite assignedTo_cons, IH'. reflexivity.
  - rewrite IH'. destruct (String.eqb (cs_fieldId s) fid) eqn:E;
      [| reflexivity].
    apply String.eqb_eq in E.
    rewrite (H s (or_introl eq_refl) E Hp). lra.
Qed.

Lemma stringsOf_valid (fid : string) (ids : list string)
    (l : list ConfiguredString) :
  In fid ids ->
  stringsOf fid (filter (fun s => existsb (String.eqb (cs_fieldId s)) ids) l)
  = stringsOf fid l.
Proof.
  intros Hin. unfold stringsOf.
  induction l as [| s rest IH]; cbn [filter]; [reflexivity |].
  destruct (existsb (String.eqb (cs_fieldId s)) ids) eqn:Ev.
  - cbn [filter]. rewrite IH. reflexivity.
  - rewrite IH. destruct (String.eqb (cs_fieldId s) fid) eqn:E;
      [| reflexivity].
    apply String.eqb_eq in E. exfalso.
    assert (Ht : existsb (String.eqb (cs_fieldId s)) ids = true).
    { apply existsb_exists. exists fid. split; [exact Hin |].
      apply String.eqb_eq. exact E. }
    congruence.
Qed.

(** X29. Rebalancing the configured strings, for distinct string ids,
    distinct field ids and non-negative panel counts: every string kept holds
    at least one panel on a field of the project; afterwards no field has more
    panels assigned than it holds; a field that had too many panels assigned,
    or exactly one string, has exactly its panels assigned; and the assignment
    of a field with several strings (or none) within its panel count is left
    as it was. *)
Theorem rebalanceStrings_within_fields (projectFields : list RoofField)
    (currentStrings : list ConfiguredString) :
  NoDup (map field_id projectFields) ->
  NoDup (map cs_id currentStrings) ->
  NonNegative currentStrings ->
  Forall (fun f => 0 <= available f) projectFields ->
  let r := rebalanceStrings projectFields currentStrings in
  (forall s, In s r ->
     0 < cs_panelCount s /\ In (cs_fieldId s) (map field_id projectFields)) /\
  NoDup (map cs_id r) /\
  (forall f, In f projectFields ->
     assignedTo (field_id f) r <= available f /\
     (available f < assignedTo (field_id f) currentStrings \/
      List.length (stringsOf (field_id f) currentStrings) = 1%nat ->
      assignedTo (field_id f) r = available f) /\
     (assignedTo (field_id f) currentStrings <= available f ->
      List.length (stringsOf (field_id f) currentStrings) <> 1%nat ->
      assignedTo (field_id f) r = assignedTo (field_id f) currentStrings)).
Proof.
  intros Hfields Hnd Hnn Hav. cbv zeta. unfold rebalanceStrings. cbv zeta.
  set (valid := fun s : ConfiguredString =>
                  existsb (String.eqb (cs_fieldId s))
                    (map field_id projectFields)).
  set (filtered := filter valid currentStrings).
  assert (Hcur : (if negb (Nat.eqb (List.length filtered)
                                   (List.length currentStrings))
                  then filtered else currentStrings) = filtered).
  { destruct (Nat.eqb (List.length filtered) (List.length currentStrings))
      eqn:E; cbn [negb]; [| reflexivity].
    apply Nat.eqb_eq in E. symmetry. apply filter_same_length. exact E. }
  rewrite Hcur. clear Hcur.
  assert (Hnd0 : NoDup (map cs_id filtered))
    by (apply filter_distinct_ids; exact Hnd).
  assert (Hnn0 : NonNegative filtered).
  { unfold NonNegative, filtered. apply Forall_forall. intros s Hs.
    apply filter_In in Hs as [Hs _].
    unfold NonNegative in Hnn. rewrite Forall_forall in Hnn. now apply Hnn. }
  destruct (rebalance_loop projectFields filtered Hfields Hnd0 Hnn0 Hav)
    as [Ri [Rf [Rn [_ Rin]]]].
  cbv zeta in Ri, Rf, Rn, Rin.
  set (looped := fold_left rebalanceField projectFields filtered) in *.
  split; [| split].
  - intros s Hs. apply filter_In in Hs as [Hs Hpos]. js_tests.
    split; [lra |].
    assert (Hf : In (cs_fieldId s) (map cs_fieldId filtered))
      by (rewrite <- Rf; apply in_map; exact Hs).
    apply in_map_iff in Hf as [s0 [E Hs0]].
    apply filter_In in Hs0 as [_ Hv]. unfold valid in Hv.
    apply existsb_exists in Hv as [fid [Hfid Heq]].
    apply String.eqb_eq in Heq. rewrite <- E, Heq. exact Hfid.
  - apply filter_distinct_ids. rewrite Ri. exact Hnd0.
  - intros f Hf.
    assert (Hpos : assignedTo (field_id f)
                     (filter (fun s => gtb (cs_panelCount s) 0) looped)
                   = assignedTo (field_id f) looped).
    { apply assignedTo_filter. intros s Hs _ Hp. js_tests.
      unfold NonNegative in Rn. rewrite Forall_forall in Rn.
      specialize (Rn s Hs). lra. }
    assert (Hvalid : In (field_id f) (map field_id projectFields))
      by (apply in_map; exact Hf).
    assert (Hstr : stringsOf (field_id f) filtered
                   = stringsOf (field_id f) currentStrings)
      by (apply stringsOf_valid; exact Hvalid).
    assert (Hass : assignedTo (field_id f) filtered
                   = assignedTo (field_id f) currentStrings)
      by (rewrite !assignedTo_strings, Hstr; reflexivity).
    destruct (Rin f Hf) as [Gle [Geq Gsame]].
    rewrite Hass, Hstr in Geq, Gsame. rewrite Hpos.
    split; [exact Gle |]. split; assumption.
Qed.

Definition fieldA : RoofField :=
  mkRoofField "A" "Sud" (mkPanelConfig CompatFacts.somePanel 2 5 None).
Definition fieldB : RoofField :=
  mkRoofField "B" "Est" (mkPanelConfig CompatFacts.somePanel 2 4 None).

Definition strA1 : ConfiguredString := mkConfiguredString "s1" "A" 8 1.
Definition strA2 : ConfiguredString := mkConfiguredString "s2" "A" 6 1.
Definition strB : ConfiguredString := mkConfiguredString "s3" "B" 5 2.

Lemma rebalanceStrings_within_fields_witness :
  assignedTo "A" (rebalanceStrings [fieldA; fieldB] [strA1; strA2; strB])
  <= available fieldA.
Proof.
  destruct (rebalanceStrings_within_fields [fieldA; fieldB]
              [strA1; strA2; strB]) as [_ [_ H]].
  - repeat constructor; cbn; intuition discriminate.
  - repeat constructor; cbn; intuition discriminate.
  - repeat constructor; cbn; lra.
  - repeat constructor; unfold available, getPanelCount; cbn; lra.
  - apply (H fieldA). now left.
Defined.

End AppMore.


(** ** The DC part of the export gate *)

Module ExportGateMore.
Import Js JsFacts Types Standards Sizing Binary64 Binary64Facts Sizing64
  Sizing64Facts ExportGate.

Lemma orElse_zero_default (x : number) : orElse x 0 = x.
Proof.
  unfold orElse. destruct (Req_dec_T x 0); [now symmetry | reflexivity].
Qed.

(** On a positive section, length, current and voltage the local drop is
    the shared one: the same operations in the same order. *)
Lemma lineDropPercent_shared (L I V sec : number) :
  0 < L -> 0 < I -> 0 < V -> 0 < sec ->
  lineDropPercent L I V sec = dcDropPct L I V sec.
Proof.
  intros HL HI HV HS. rewrite computed_drop_pos_eq by assumption.
  unfold lineDropPercent, rho, RHO_CU. cbv zeta.
  rewrite orElse_nonzero by lra. reflexivity.
Qed.

Lemma pickAutoSection_shared (L I V : number) :
  pickAutoSection L I V = pickAutoDcSectionOptionB L I V.
Proof.
  unfold pickAutoSection, pickAutoDcSectionOptionB. cbv zeta.
  destruct (gtb L 0) eqn:HL; js_tests.
  2: { replace (leb L 0) with true by (symmetry; apply leb_true; lra).
       reflexivity. }
  replace (leb L 0) with false by (symmetry; apply leb_false; lra).
  destruct (gtb I 0) eqn:HI; js_tests.
  2: { replace (leb I 0) with true by (symmetry; apply leb_true; lra).
       reflexivity. }
  replace (leb I 0) with false by (symmetry; apply leb_false; lra).
  destruct (gtb V 0) eqn:HV; js_tests.
  2: { replace (leb V 0) with true by (symmetry; apply leb_true; lra).
       reflexivity. }
  replace (leb V 0) with false by (symmetry; apply leb_false; lra).
  cbn [andb orb].
  change DC_SECTIONS with DC_SECTIONS_MM2. rewrite computed_auto_sections.
  cbn [pickAutoSectionLoop dcSectionLoop].
  replace (gtb V 0) with true by (symmetry; apply gtb_true; lra).
  fold (lineDropPercent L I V 6). fold (lineDropPercent L I V 10).
  fold (lineDropPercent L I V 16).
  fold (dcDropPct L I V 6). fold (dcDropPct L I V 10).
  fold (dcDropPct L I V 16).
  rewrite !lineDropPercent_shared by lra. reflexivity.
Qed.

(** What the gate asks of the analysis line of an MPPT: a cabling run with
    a positive length, a computed drop of at most 3 % on the effective
    section (the forced one, else the automatic one), and a section that is
    not too small for the current. *)
Definition LinePasses (runs : list DcCablingRun) (s : MpptAnalysis) : Prop :=
  exists r,
    find (fun r => Nat.eqb (run_mpptIndex r) (mpptIndex s)) runs = Some r /\
    0 < run_lengthM r /\
    let L := run_lengthM r in
    let I := orElse (a_iscCalculation s) 0 in
    let V := orElse (orElse (a_vmpHot s) 0) 1 in
    let effectiveS :=
      match run_sectionMm2 r with
      | Some f => f
      | None => pickAutoDcSectionOptionB L I V
      end in
    lineDropPercent L I V effectiveS <= 3 /\
    (0 < I -> effectiveS <> 0 -> isDcCableTooSmallForI effectiveS I = false).

Lemma dcLineReasons_nil (runs : list DcCablingRun) (s : MpptAnalysis) :
  mpptIndex s <> 0%nat ->
  (dcLineReasons runs s = [] <-> LinePasses runs s).
Proof.
  intros Hidx. unfold dcLineReasons, LinePasses. cbv zeta.
  replace (Nat.eqb (mpptIndex s) 0) with false
    by (symmetry; apply Nat.eqb_neq; exact Hidx).
  destruct (find (fun r => Nat.eqb (run_mpptIndex r) (mpptIndex s)) runs)
    as [r |].
  2: { replace (eqb 0 0) with true by (symmetry; apply eqb_true; reflexivity).
       cbn [orb]. split; [discriminate | intros [r [E _]]; discriminate]. }
  rewrite orElse_zero_default, pickAutoSection_shared.
  destruct (eqb (run_lengthM r) 0 || leb (run_lengthM r) 0) eqn:HL.
  { split; [discriminate |]. intros [r' [E [Hpos _]]]. injection E as <-.
    apply orb_true_iff in HL as [HL | HL]; js_tests; lra. }
  apply orb_false_iff in HL as [_ HL]. js_tests.
  set (I := orElse (a_iscCalculation s) 0).
  set (V := orElse (orElse (a_vmpHot s) 0) 1).
  set (effectiveS := match run_sectionMm2 r with
                     | Some f => f
                     | None => pickAutoDcSectionOptionB (run_lengthM r) I V
                     end).
  split.
  - intros H. apply app_eq_nil in H as [Hd Hs].
    exists r. split; [reflexivity |]. split; [exact HL |].
    fold I. fold V. fold effectiveS. split.
    + destruct (gtb (lineDropPercent (run_lengthM r) I V effectiveS) 3) eqn:E;
        [discriminate |]. js_tests. exact E.
    + intros HI Hne.
      replace (gtb I 0) with true in Hs
        by (symmetry; apply gtb_true; exact HI).
      replace (eqb effectiveS 0) with false in Hs
        by (symmetry; apply eqb_false; exact Hne).
      cbn [andb negb] in Hs.
      destruct (isDcCableTooSmallForI effectiveS I);
        [discriminate | reflexivity].
  - intros [r' [E [_ [Hd Hs]]]]. injection E as <-.
    fold I in Hd, Hs. fold V in Hd, Hs. fold effectiveS in Hd, Hs.
    replace (gtb (lineDropPercent (run_lengthM r) I V effectiveS) 3)
      with false by (symmetry; apply gtb_false; exact Hd).
    cbn [app].
    destruct (gtb I 0) eqn:HI; [| reflexivity].
    destruct (eqb effectiveS 0) eqn:HS; [reflexivity |]. js_tests.
    cbn [andb negb]. rewrite (Hs HI HS). reflexivity.
Qed.

Lemma flat_map_nil {A B : Type} (f : A -> list B) (l : list A) :
  flat_map f l = [] <-> forall x, In x l -> f x = [].
Proof.
  induction l as [| a l IH]; cbn [flat_map In].
  - split; [intros _ x [] | reflexivity].
  - split.
    + intros H. apply app_eq_nil in H as [Ha Hl].
      intros x [<- | Hx]; [exact Ha | now apply IH].
    + intros H. rewrite (H a (or_introl eq_refl)).
      cbn [app]. apply IH. intros x Hx. apply H. now right.
Qed.

(** X30. The DC part of the export gate, on the values the engine
    computes: its automatic section is the shared
    [pickAutoDcSectionOptionB]; the validation passes exactly when it holds
    no reason, that is when every analysis line with an MPPT index has a
    cabling run (the first run of that MPPT) with a positive length, a
    computed drop of at most 3 % on its effective section and a section that
    is not too small for its current; and for an automatic section with a
    positive current and base voltage the drop condition fails exactly when
    even 16 mm2 has a computed drop above 3 %. *)
Theorem dc_export_gate (stringsAnalysis : list MpptAnalysis)
    (runs : list DcCablingRun) :
  (forall L I V, pickAutoSection L I V = pickAutoDcSectionOptionB L I V) /\
  (v_ok (dcCablingValidation stringsAnalysis runs) = true <->
     v_reasons (dcCablingValidation stringsAnalysis runs) = []) /\
  (v_ok (dcCablingValidation stringsAnalysis runs) = true <->
     forall s, In s stringsAnalysis -> mpptIndex s <> 0%nat ->
               LinePasses runs s) /\
  (forall L I V, 0 < L -> 0 < I -> 0 < V ->
     (lineDropPercent L I V (pickAutoDcSectionOptionB L I V) <= 3 <->
      dcDropPct L I V 16 <= 3)).
Proof.
  split; [apply pickAutoSection_shared |].
  assert (Hok : v_ok (dcCablingValidation stringsAnalysis runs) = true <->
                v_reasons (dcCablingValidation stringsAnalysis runs) = []).
  { unfold dcCablingValidation. destruct stringsAnalysis as [| s0 rest];
      [cbn; tauto |].
    cbv zeta. cbn [v_ok v_reasons].
    destruct (flat_map (dcLineReasons runs) (s0 :: rest)) as [| x l];
      cbn [List.length Nat.eqb]; split; try reflexivity; discriminate. }
  split; [exact Hok |]. split.
  - rewrite Hok.
    assert (Hr : v_reasons (dcCablingValidation stringsAnalysis runs)
                 = flat_map (dcLineReasons runs) stringsAnalysis).
    { unfold dcCablingValidation.
      destruct stringsAnalysis; reflexivity. }
    rewrite Hr, flat_map_nil. split.
    + intros H s Hs Hidx. apply dcLineReasons_nil; [exact Hidx |].
      apply H. exact Hs.
    + intros H s Hs. destruct (Nat.eq_dec (mpptIndex s) 0) as [E | E].
      * unfold dcLineReasons. rewrite E. reflexivity.
      * apply dcLineReasons_nil; [exact E |]. apply H; assumption.
  - intros L I V HL HI HV.
    rewrite computed_picker_cases.
    assert (M1 : dcDropPct L I V 10 <= dcDropPct L I V 6)
      by (apply computed_drop_section; lra).
    assert (M2 : dcDropPct L I V 16 <= dcDropPct L I V 10)
      by (apply computed_drop_section; lra).
    destruct (leb (dcDropPct L I V 6) 3) eqn:E6;
      [| destruct (leb (dcDropPct L I V 10) 3) eqn:E10]; js_tests;
      rewrite lineDropPercent_shared by lra; split; intros; lra.
Qed.

(** A line of 156 m, 20 A and 299 V on the automatic section: the drop at
    16 mm2 is 3 % on the reals and is computed above 3, so the gate holds a
    reason and does not pass. *)
Definition line156 : MpptAnalysis :=
  mkMpptAnalysis 1 [] 10 480 299 1 16 20 false false false false false.

Definition run156 : DcCablingRun := mkDcCablingRun 1 156 None None.

Lemma dc_export_gate_witness :
  lineDropPercent 156 20 299 (pickAutoDcSectionOptionB 156 20 299) > 3 /\
  v_ok (dcCablingValidation [line156] [run156]) = false.
Proof.
  destruct (dc_export_gate [line156] [run156]) as [_ [_ [Hpass Hdrop]]].
  assert (G : dcDropPct 156 20 299 16 > 3).
  { rewrite computed_drop_pos_eq by lra. unfold RHO_CU.
    fl_compute. pow2_numerals. lra. }
  assert (D : lineDropPercent 156 20 299 (pickAutoDcSectionOptionB 156 20 299)
              > 3).
  { destruct (Rle_dec (lineDropPercent 156 20 299
                         (pickAutoDcSectionOptionB 156 20 299)) 3) as [Hle | Hgt];
      [| lra].
    apply (Hdrop 156 20 299) in Hle; lra. }
  split; [exact D |].
  destruct (v_ok (dcCablingValidation [line156] [run156])) eqn:Hv;
    [| reflexivity].
  exfalso. destruct Hpass as [Hpass _].
  destruct (Hpass eq_refl line156 (or_introl eq_refl)) as [r [Hr [_ Hline]]];
    [cbn; discriminate |].
  cbn in Hr. injection Hr as <-. cbv zeta in Hline.
  cbn [run156 run_lengthM run_sectionMm2 line156 a_iscCalculation a_vmpHot]
    in Hline.
  rewrite (orElse_nonzero 20 0), (orElse_nonzero 299 0),
    (orElse_nonzero 299 1) in Hline by lra.
  destruct Hline as [Hline _]. lra.
Defined.

End ExportGateMore.

